(** * Qbit City: authoritative game state and game loop

    A shallow embedding of [services/QbitCityGameStateManager.js] and
    [services/QbitCityGameLoop.js], and the properties of the simulation
    core proved over it.

    Conventions of the embedding.
    - JavaScript numbers that the code uses as integers (tile codes, grid
      indices, counters, millisecond timestamps, the state of the seeded
      generator) are [Z]; positions, sizes, speeds and simulated seconds are
      exact rationals [Q].  The seeded generator rounds as doubles do;
      elsewhere the rounding of IEEE doubles is not modelled, so a quantity
      that the code compares with a bound it reaches exactly in [Q] (the
      remaining life of a portal against 0) can cross that bound one tick
      earlier or later in the code than here.
    - [Math.sqrt] and [Math.hypot] are operations of the host ([JsHost]);
      every statement holds for any implementation of them.
    - [Math.random] and [Date.now] read an explicit environment ([Env]): a
      sequence of draws with a cursor, and a clock.
    - [io.to (room).emit (...)] is the [io] object handed to the game loop's
      constructor; it may throw.
    - An object mutated in place is a record passed in and returned, or the
      state of the monad [M]; an array is a list; a [Map] keyed by strings is
      a [gmap]; a [Map] whose iteration order matters is a list. *)

From Stdlib Require Import ZArith QArith Qround List String Lia Lqa.
From stdpp Require Import gmap strings list sorting.

Open Scope Z_scope.

(** ** Constants shared by the two services *)

Definition TILE_SIZE : Z := 64.
Definition MAP_WIDTH : Z := 50.
Definition MAP_HEIGHT : Z := 50.
Definition BASE_PLAYER_SPEED : Q := 300.
Definition BASE_ENEMY_SPEED : Q := 250.
Definition IMMUNITY_DURATION : Q := 10.
Definition COLLECTIBLES_START_TIME : Q := 30.
Definition COINS_FOR_IMMUNITY : Z := 5.
Definition MAX_IMMUNITY_INVENTORY : Z := 3.

(** Tile codes as the source writes them. *)
Definition ROAD : Z := 0.
Definition SIDEWALK : Z := 1.
Definition GRASS : Z := 2.
Definition WATER : Z := 3.
Definition LAVA : Z := 4.

(** ** Numbers *)

Definition Qltb (a b : Q) : bool := negb (Qle_bool b a).
Definition Qleb (a b : Q) : bool := Qle_bool a b.
Definition Qeqb (a b : Q) : bool := Qeq_bool a b.
Definition Qmin (a b : Q) : Q := if Qleb a b then a else b.
Definition Qmax (a b : Q) : Q := if Qleb a b then b else a.
Definition Qabs' (a : Q) : Q := if Qltb a 0 then (- a)%Q else a.

(** [Math.floor]. *)
Definition Math_floor (a : Q) : Z := Qfloor a.

(** [a % b] on numbers: the remainder has the sign of [a]. *)
Definition Qrem (a b : Q) : Q :=
  let q := (a / b)%Q in
  let n := if Qltb q 0 then Qceiling q else Qfloor q in
  (a - b * inject_Z n)%Q.

(** The operations of [Math] that have no exact rational counterpart. *)
Class JsHost := {
  Math_sqrt : Q → Q;
  Math_hypot : Q → Q → Q
}.

(** ** Loops and the tile grid *)

(** [for (let i = lo; i < hi; i++) body] over a state [St]. *)
Definition for_range {St : Type} (lo hi : Z) (body : Z → St → St) (s : St) : St :=
  foldl (λ acc i, body i acc) s (seqZ lo (hi - lo)).

(** A loop over [lo <= i <= hi] that returns [true] as soon as [test i]
    holds, and [false] after the last round. *)
Definition exists_range (lo hi : Z) (test : Z → bool) : bool :=
  existsb test (seqZ lo (hi + 1 - lo)).

(** [tiles[y][x]]; [None] stands for [undefined]. *)
Definition getTile (tiles : list (list Z)) (x y : Z) : option Z :=
  if (0 <=? y) && (0 <=? x)
  then match tiles !! Z.to_nat y with
       | Some row => row !! Z.to_nat x
       | None => None
       end
  else None.

(** [tiles[y][x] = v].  Every write of the source is inside the grid; outside
    it this function leaves the grid as it is. *)
Definition setTile (tiles : list (list Z)) (x y v : Z) : list (list Z) :=
  if (0 <=? y) && (0 <=? x)
  then alter (λ row, <[Z.to_nat x := v]> row) (Z.to_nat y) tiles
  else tiles.

(** ** The data model *)

Record Building := {
  b_gridX : Z; b_gridY : Z;
  b_x : Z; b_y : Z; b_w : Z; b_h : Z;
  b_height : Q;
  b_color : string; b_wallColor : string;
  b_type : Z
}.

Record Tree := { t_x : Q; t_y : Q; t_r : Q }.

(** The map [generateMap] returns. *)
Module GameMap.
Record t := mk {
  width : Z;
  height : Z;
  tiles : list (list Z);
  buildings : list Building;
  trees : list Tree
}.
End GameMap.

(** The identifiers built as [`prefix_${Date.now()}_${Math.random()}`]. *)
Record EntityId := { id_prefix : string; id_time : Z; id_random : Q }.

(** Identifiers of portals: [`portal_${n}`] for the portals of the map, an
    [EntityId] for the ones players create. *)
Inductive PortalId :=
| MapPortal (n : Z)
| PlayerPortal (i : EntityId).

(** The [keys] object of an input; each field says whether the property is
    truthy. *)
Module Keys.
Record t := mk {
  ArrowUp : bool; ArrowDown : bool; ArrowLeft : bool; ArrowRight : bool;
  KeyW : bool; KeyA : bool; KeyS : bool; KeyD : bool
}.
Definition none : t := mk false false false false false false false false.
End Keys.

(** A player of [gameState.players], as [initializePlayers] builds it. *)
Module Player.
Record t := mk {
  id : string;
  name : string;
  x : Q;
  y : Q;
  width : Q;
  height : Q;
  speed : Q;
  velX : Q;
  velY : Q;
  dirX : Q;
  dirY : Q;
  trail : list (Q * Q);
  portalCooldown : Q;
  coinsCollected : Z;
  immunityInventory : Z;
  sinkInventory : Z;
  energy : Q;
  immunityActive : bool;
  immunityEndTime : Q
}.
Definition set_x (v : Q) (r : t) : t :=
  {| id := id r; name := name r; x := v; y := y r; width := width r;
     height := height r; speed := speed r; velX := velX r; velY := velY r;
     dirX := dirX r; dirY := dirY r; trail := trail r;
     portalCooldown := portalCooldown r; coinsCollected := coinsCollected r;
     immunityInventory := immunityInventory r;
     sinkInventory := sinkInventory r; energy := energy r;
     immunityActive := immunityActive r;
     immunityEndTime := immunityEndTime r |}.
Definition set_y (v : Q) (r : t) : t :=
  {| id := id r; name := name r; x := x r; y := v; width := width r;
     height := height r; speed := speed r; velX := velX r; velY := velY r;
     dirX := dirX r; dirY := dirY r; trail := trail r;
     portalCooldown := portalCooldown r; coinsCollected := coinsCollected r;
     immunityInventory := immunityInventory r;
     sinkInventory := sinkInventory r; energy := energy r;
     immunityActive := immunityActive r;
     immunityEndTime := immunityEndTime r |}.
Definition set_speed (v : Q) (r : t) : t :=
  {| id := id r; name := name r; x := x r; y := y r; width := width r;
     height := height r; speed := v; velX := velX r; velY := velY r;
     dirX := dirX r; dirY := dirY r; trail := trail r;
     portalCooldown := portalCooldown r; coinsCollected := coinsCollected r;
     immunityInventory := immunityInventory r;
     sinkInventory := sinkInventory r; energy := energy r;
     immunityActive := immunityActive r;
     immunityEndTime := immunityEndTime r |}.
Definition set_velX (v : Q) (r : t) : t :=
  {| id := id r; name := name r; x := x r; y := y r; width := width r;
     height := height r; speed := speed r; velX := v; velY := velY r;
     dirX := dirX r; dirY := dirY r; trail := trail r;
     portalCooldown := portalCooldown r; coinsCollected := coinsCollected r;
     immunityInventory := immunityInventory r;
     sinkInventory := sinkInventory r; energy := energy r;
     immunityActive := immunityActive r;
     immunityEndTime := immunityEndTime r |}.
Definition set_velY (v : Q) (r : t) : t :=
  {| id := id r; name := name r; x := x r; y := y r; width := width r;
     height := height r; speed := speed r; velX := velX r; velY := v;
     dirX := dirX r; dirY := dirY r; trail := trail r;
     portalCooldown := portalCooldown r; coinsCollected := coinsCollected r;
     immunityInventory := immunityInventory r;
     sinkInventory := sinkInventory r; energy := energy r;
     immunityActive := immunityActive r;
     immunityEndTime := immunityEndTime r |}.
Definition set_dirX (v : Q) (r : t) : t :=
  {| id := id r; name := name r; x := x r; y := y r; width := width r;
     height := height r; speed := speed r; velX := velX r; velY := velY r;
     dirX := v; dirY := dirY r; trail := trail r;
     portalCooldown := portalCooldown r; coinsCollected := coinsCollected r;
     immunityInventory := immunityInventory r;
     sinkInventory := sinkInventory r; energy := energy r;
     immunityActive := immunityActive r;
     immunityEndTime := immunityEndTime r |}.
Definition set_dirY (v : Q) (r : t) : t :=
  {| id := id r; name := name r; x := x r; y := y r; width := width r;
     height := height r; speed := speed r; velX := velX r; velY := velY r;
     dirX := dirX r; dirY := v; trail := trail r;
     portalCooldown := portalCooldown r; coinsCollected := coinsCollected r;
     immunityInventory := immunityInventory r;
     sinkInventory := sinkInventory r; energy := energy r;
     immunityActive := immunityActive r;
     immunityEndTime := immunityEndTime r |}.
Definition set_trail (v : list (Q * Q)) (r : t) : t :=
  {| id := id r; name := name r; x := x r; y := y r; width := width r;
     height := height r; speed := speed r; velX := velX r; velY := velY r;
     dirX := dirX r; dirY := dirY r; trail := v;
     portalCooldown := portalCooldown r; coinsCollected := coinsCollected r;
     immunityInventory := immunityInventory r;
     sinkInventory := sinkInventory r; energy := energy r;
     immunityActive := immunityActive r;
     immunityEndTime := immunityEndTime r |}.
Definition set_portalCooldown (v : Q) (r : t) : t :=
  {| id := id r; name := name r; x := x r; y := y r; width := width r;
     height := height r; speed := speed r; velX := velX r; velY := velY r;
     dirX := dirX r; dirY := dirY r; trail := trail r; portalCooldown := v;
     coinsCollected := coinsCollected r;
     immunityInventory := immunityInventory r;
     sinkInventory := sinkInventory r; energy := energy r;
     immunityActive := immunityActive r;
     immunityEndTime := immunityEndTime r |}.
Definition set_coinsCollected (v : Z) (r : t) : t :=
  {| id := id r; name := name r; x := x r; y := y r; width := width r;
     height := height r; speed := speed r; velX := velX r; velY := velY r;
     dirX := dirX r; dirY := dirY r; trail := trail r;
     portalCooldown := portalCooldown r; coinsCollected := v;
     immunityInventory := immunityInventory r;
     sinkInventory := sinkInventory r; energy := energy r;
     immunityActive := immunityActive r;
     immunityEndTime := immunityEndTime r |}.
Definition set_immunityInventory (v : Z) (r : t) : t :=
  {| id := id r; name := name r; x := x r; y := y r; width := width r;
     height := height r; speed := speed r; velX := velX r; velY := velY r;
     dirX := dirX r; dirY := dirY r; trail := trail r;
     portalCooldown := portalCooldown r; coinsCollected := coinsCollected r;
     immunityInventory := v; sinkInventory := sinkInventory r;
     energy := energy r; immunityActive := immunityActive r;
     immunityEndTime := immunityEndTime r |}.
Definition set_sinkInventory (v : Z) (r : t) : t :=
  {| id := id r; name := name r; x := x r; y := y r; width := width r;
     height := height r; speed := speed r; velX := velX r; velY := velY r;
     dirX := dirX r; dirY := dirY r; trail := trail r;
     portalCooldown := portalCooldown r; coinsCollected := coinsCollected r;
     immunityInventory := immunityInventory r; sinkInventory := v;
     energy := energy r; immunityActive := immunityActive r;
     immunityEndTime := immunityEndTime r |}.
Definition set_energy (v : Q) (r : t) : t :=
  {| id := id r; name := name r; x := x r; y := y r; width := width r;
     height := height r; speed := speed r; velX := velX r; velY := velY r;
     dirX := dirX r; dirY := dirY r; trail := trail r;
     portalCooldown := portalCooldown r; coinsCollected := coinsCollected r;
     immunityInventory := immunityInventory r;
     sinkInventory := sinkInventory r; energy := v;
     immunityActive := immunityActive r;
     immunityEndTime := immunityEndTime r |}.
Definition set_immunityActive (v : bool) (r : t) : t :=
  {| id := id r; name := name r; x := x r; y := y r; width := width r;
     height := height r; speed := speed r; velX := velX r; velY := velY r;
     dirX := dirX r; dirY := dirY r; trail := trail r;
     portalCooldown := portalCooldown r; coinsCollected := coinsCollected r;
     immunityInventory := immunityInventory r;
     sinkInventory := sinkInventory r; energy := energy r;
     immunityActive := v; immunityEndTime := immunityEndTime r |}.
Definition set_immunityEndTime (v : Q) (r : t) : t :=
  {| id := id r; name := name r; x := x r; y := y r; width := width r;
     height := height r; speed := speed r; velX := velX r; velY := velY r;
     dirX := dirX r; dirY := dirY r; trail := trail r;
     portalCooldown := portalCooldown r; coinsCollected := coinsCollected r;
     immunityInventory := immunityInventory r;
     sinkInventory := sinkInventory r; energy := energy r;
     immunityActive := immunityActive r; immunityEndTime := v |}.
End Player.

(** An enemy, as [spawnEnemy] builds it. *)
Module Enemy.
Record t := mk {
  id : EntityId;
  x : Q;
  y : Q;
  width : Q;
  height : Q;
  speed : Q;
  trail : list (Q * Q);
  stuckTime : Q;
  flankTimer : Q;
  flankDir : Q * Q
}.
Definition set_x (v : Q) (r : t) : t :=
  {| id := id r; x := v; y := y r; width := width r; height := height r;
     speed := speed r; trail := trail r; stuckTime := stuckTime r;
     flankTimer := flankTimer r; flankDir := flankDir r |}.
Definition set_y (v : Q) (r : t) : t :=
  {| id := id r; x := x r; y := v; width := width r; height := height r;
     speed := speed r; trail := trail r; stuckTime := stuckTime r;
     flankTimer := flankTimer r; flankDir := flankDir r |}.
Definition set_speed (v : Q) (r : t) : t :=
  {| id := id r; x := x r; y := y r; width := width r; height := height r;
     speed := v; trail := trail r; stuckTime := stuckTime r;
     flankTimer := flankTimer r; flankDir := flankDir r |}.
Definition set_trail (v : list (Q * Q)) (r : t) : t :=
  {| id := id r; x := x r; y := y r; width := width r; height := height r;
     speed := speed r; trail := v; stuckTime := stuckTime r;
     flankTimer := flankTimer r; flankDir := flankDir r |}.
Definition set_stuckTime (v : Q) (r : t) : t :=
  {| id := id r; x := x r; y := y r; width := width r; height := height r;
     speed := speed r; trail := trail r; stuckTime := v;
     flankTimer := flankTimer r; flankDir := flankDir r |}.
Definition set_flankTimer (v : Q) (r : t) : t :=
  {| id := id r; x := x r; y := y r; width := width r; height := height r;
     speed := speed r; trail := trail r; stuckTime := stuckTime r;
     flankTimer := v; flankDir := flankDir r |}.
Definition set_flankDir (v : Q * Q) (r : t) : t :=
  {| id := id r; x := x r; y := y r; width := width r; height := height r;
     speed := speed r; trail := trail r; stuckTime := stuckTime r;
     flankTimer := flankTimer r; flankDir := v |}.
End Enemy.

(** A boat; [id] is the [i] of [boat_i]. *)
Module Boat.
Record t := mk {
  id : Z;
  dist : Q;
  x : Q;
  y : Q;
  w : Q;
  h : Q;
  velX : Q;
  velY : Q;
  life : Q;
  maxLife : Q
}.
Definition set_dist (v : Q) (r : t) : t :=
  {| id := id r; dist := v; x := x r; y := y r; w := w r; h := h r;
     velX := velX r; velY := velY r; life := life r; maxLife := maxLife r |}.
Definition set_x (v : Q) (r : t) : t :=
  {| id := id r; dist := dist r; x := v; y := y r; w := w r; h := h r;
     velX := velX r; velY := velY r; life := life r; maxLife := maxLife r |}.
Definition set_y (v : Q) (r : t) : t :=
  {| id := id r; dist := dist r; x := x r; y := v; w := w r; h := h r;
     velX := velX r; velY := velY r; life := life r; maxLife := maxLife r |}.
Definition set_velX (v : Q) (r : t) : t :=
  {| id := id r; dist := dist r; x := x r; y := y r; w := w r; h := h r;
     velX := v; velY := velY r; life := life r; maxLife := maxLife r |}.
Definition set_velY (v : Q) (r : t) : t :=
  {| id := id r; dist := dist r; x := x r; y := y r; w := w r; h := h r;
     velX := velX r; velY := v; life := life r; maxLife := maxLife r |}.
End Boat.

(** A coin. *)
Module Coin.
Record t := mk {
  id : EntityId;
  x : Q;
  y : Q;
  collected : bool;
  spawnTime : Q
}.
Definition set_collected (v : bool) (r : t) : t :=
  {| id := id r; x := x r; y := y r; collected := v;
     spawnTime := spawnTime r |}.
End Coin.

(** An immunity pickup. *)
Module ImmunityPickup.
Record t := mk {
  id : EntityId;
  x : Q;
  y : Q;
  collected : bool;
  quadrant : Z;
  spawnTime : Q
}.
Definition set_collected (v : bool) (r : t) : t :=
  {| id := id r; x := x r; y := y r; collected := v; quadrant := quadrant r;
     spawnTime := spawnTime r |}.
End ImmunityPickup.

(** A sink collectible. *)
Module SinkCollectible.
Record t := mk {
  id : EntityId;
  x : Q;
  y : Q;
  collected : bool;
  spawnTime : Q
}.
Definition set_collected (v : bool) (r : t) : t :=
  {| id := id r; x := x r; y := y r; collected := v;
     spawnTime := spawnTime r |}.
End SinkCollectible.

(** A sink trap a player has deployed. *)
Module DeployedSink.
Record t := mk {
  id : EntityId;
  x : Q;
  y : Q;
  deployTime : Q
}.
End DeployedSink.

(** A portal; [life] is [None] where the object has no [life] property. *)
Module Portal.
Record t := mk {
  id : PortalId;
  x : Q;
  y : Q;
  color : string;
  angle : Q;
  life : option Q
}.
Definition set_angle (v : Q) (r : t) : t :=
  {| id := id r; x := x r; y := y r; color := color r; angle := v;
     life := life r |}.
Definition set_life (v : option Q) (r : t) : t :=
  {| id := id r; x := x r; y := y r; color := color r; angle := angle r;
     life := v |}.
End Portal.

(** A buffered input: the client's payload with [timestamp] and [processed]. *)
Module Input.
Record t := mk {
  keys : option Keys.t;
  timestamp : Z;
  processed : bool
}.
Definition set_processed (v : bool) (r : t) : t :=
  {| keys := keys r; timestamp := timestamp r; processed := v |}.
End Input.

(** The state of one room, as [initializeRoom] builds it. *)
Module GameState.
Record t := mk {
  roomCode : string;
  map : GameMap.t;
  players : list Player.t;
  enemies : list Enemy.t;
  boats : list Boat.t;
  coins : list Coin.t;
  immunityPickups : list ImmunityPickup.t;
  sinkCollectibles : list SinkCollectible.t;
  deployedSinks : list DeployedSink.t;
  portals : list Portal.t;
  gameTime : Q;
  enemySpawnTimer : Q;
  coinSpawnTimer : Q;
  immunityPickupSpawnTimer : Q;
  sinkSpawnTimer : Q;
  nextCoinSpawnTime : Q;
  nextImmunityPickupSpawnTime : Q;
  nextSinkSpawnTime : Q;
  collectiblesInitialized : bool;
  coinsInitialized : bool;
  speedBoostApplied : bool;
  mapSeed : Z
}.
Definition set_players (v : list Player.t) (r : t) : t :=
  {| roomCode := roomCode r; map := map r; players := v;
     enemies := enemies r; boats := boats r; coins := coins r;
     immunityPickups := immunityPickups r;
     sinkCollectibles := sinkCollectibles r;
     deployedSinks := deployedSinks r; portals := portals r;
     gameTime := gameTime r; enemySpawnTimer := enemySpawnTimer r;
     coinSpawnTimer := coinSpawnTimer r;
     immunityPickupSpawnTimer := immunityPickupSpawnTimer r;
     sinkSpawnTimer := sinkSpawnTimer r;
     nextCoinSpawnTime := nextCoinSpawnTime r;
     nextImmunityPickupSpawnTime := nextImmunityPickupSpawnTime r;
     nextSinkSpawnTime := nextSinkSpawnTime r;
     collectiblesInitialized := collectiblesInitialized r;
     coinsInitialized := coinsInitialized r;
     speedBoostApplied := speedBoostApplied r; mapSeed := mapSeed r |}.
Definition set_enemies (v : list Enemy.t) (r : t) : t :=
  {| roomCode := roomCode r; map := map r; players := players r;
     enemies := v; boats := boats r; coins := coins r;
     immunityPickups := immunityPickups r;
     sinkCollectibles := sinkCollectibles r;
     deployedSinks := deployedSinks r; portals := portals r;
     gameTime := gameTime r; enemySpawnTimer := enemySpawnTimer r;
     coinSpawnTimer := coinSpawnTimer r;
     immunityPickupSpawnTimer := immunityPickupSpawnTimer r;
     sinkSpawnTimer := sinkSpawnTimer r;
     nextCoinSpawnTime := nextCoinSpawnTime r;
     nextImmunityPickupSpawnTime := nextImmunityPickupSpawnTime r;
     nextSinkSpawnTime := nextSinkSpawnTime r;
     collectiblesInitialized := collectiblesInitialized r;
     coinsInitialized := coinsInitialized r;
     speedBoostApplied := speedBoostApplied r; mapSeed := mapSeed r |}.
Definition set_boats (v : list Boat.t) (r : t) : t :=
  {| roomCode := roomCode r; map := map r; players := players r;
     enemies := enemies r; boats := v; coins := coins r;
     immunityPickups := immunityPickups r;
     sinkCollectibles := sinkCollectibles r;
     deployedSinks := deployedSinks r; portals := portals r;
     gameTime := gameTime r; enemySpawnTimer := enemySpawnTimer r;
     coinSpawnTimer := coinSpawnTimer r;
     immunityPickupSpawnTimer := immunityPickupSpawnTimer r;
     sinkSpawnTimer := sinkSpawnTimer r;
     nextCoinSpawnTime := nextCoinSpawnTime r;
     nextImmunityPickupSpawnTime := nextImmunityPickupSpawnTime r;
     nextSinkSpawnTime := nextSinkSpawnTime r;
     collectiblesInitialized := collectiblesInitialized r;
     coinsInitialized := coinsInitialized r;
     speedBoostApplied := speedBoostApplied r; mapSeed := mapSeed r |}.
Definition set_coins (v : list Coin.t) (r : t) : t :=
  {| roomCode := roomCode r; map := map r; players := players r;
     enemies := enemies r; boats := boats r; coins := v;
     immunityPickups := immunityPickups r;
     sinkCollectibles := sinkCollectibles r;
     deployedSinks := deployedSinks r; portals := portals r;
     gameTime := gameTime r; enemySpawnTimer := enemySpawnTimer r;
     coinSpawnTimer := coinSpawnTimer r;
     immunityPickupSpawnTimer := immunityPickupSpawnTimer r;
     sinkSpawnTimer := sinkSpawnTimer r;
     nextCoinSpawnTime := nextCoinSpawnTime r;
     nextImmunityPickupSpawnTime := nextImmunityPickupSpawnTime r;
     nextSinkSpawnTime := nextSinkSpawnTime r;
     collectiblesInitialized := collectiblesInitialized r;
     coinsInitialized := coinsInitialized r;
     speedBoostApplied := speedBoostApplied r; mapSeed := mapSeed r |}.
Definition set_immunityPickups (v : list ImmunityPickup.t) (r : t) : t :=
  {| roomCode := roomCode r; map := map r; players := players r;
     enemies := enemies r; boats := boats r; coins := coins r;
     immunityPickups := v; sinkCollectibles := sinkCollectibles r;
     deployedSinks := deployedSinks r; portals := portals r;
     gameTime := gameTime r; enemySpawnTimer := enemySpawnTimer r;
     coinSpawnTimer := coinSpawnTimer r;
     immunityPickupSpawnTimer := immunityPickupSpawnTimer r;
     sinkSpawnTimer := sinkSpawnTimer r;
     nextCoinSpawnTime := nextCoinSpawnTime r;
     nextImmunityPickupSpawnTime := nextImmunityPickupSpawnTime r;
     nextSinkSpawnTime := nextSinkSpawnTime r;
     collectiblesInitialized := collectiblesInitialized r;
     coinsInitialized := coinsInitialized r;
     speedBoostApplied := speedBoostApplied r; mapSeed := mapSeed r |}.
Definition set_sinkCollectibles (v : list SinkCollectible.t) (r : t) : t :=
  {| roomCode := roomCode r; map := map r; players := players r;
     enemies := enemies r; boats := boats r; coins := coins r;
     immunityPickups := immunityPickups r; sinkCollectibles := v;
     deployedSinks := deployedSinks r; portals := portals r;
     gameTime := gameTime r; enemySpawnTimer := enemySpawnTimer r;
     coinSpawnTimer := coinSpawnTimer r;
     immunityPickupSpawnTimer := immunityPickupSpawnTimer r;
     sinkSpawnTimer := sinkSpawnTimer r;
     nextCoinSpawnTime := nextCoinSpawnTime r;
     nextImmunityPickupSpawnTime := nextImmunityPickupSpawnTime r;
     nextSinkSpawnTime := nextSinkSpawnTime r;
     collectiblesInitialized := collectiblesInitialized r;
     coinsInitialized := coinsInitialized r;
     speedBoostApplied := speedBoostApplied r; mapSeed := mapSeed r |}.
Definition set_deployedSinks (v : list DeployedSink.t) (r : t) : t :=
  {| roomCode := roomCode r; map := map r; players := players r;
     enemies := enemies r; boats := boats r; coins := coins r;
     immunityPickups := immunityPickups r;
     sinkCollectibles := sinkCollectibles r; deployedSinks := v;
     portals := portals r; gameTime := gameTime r;
     enemySpawnTimer := enemySpawnTimer r;
     coinSpawnTimer := coinSpawnTimer r;
     immunityPickupSpawnTimer := immunityPickupSpawnTimer r;
     sinkSpawnTimer := sinkSpawnTimer r;
     nextCoinSpawnTime := nextCoinSpawnTime r;
     nextImmunityPickupSpawnTime := nextImmunityPickupSpawnTime r;
     nextSinkSpawnTime := nextSinkSpawnTime r;
     collectiblesInitialized := collectiblesInitialized r;
     coinsInitialized := coinsInitialized r;
     speedBoostApplied := speedBoostApplied r; mapSeed := mapSeed r |}.
Definition set_portals (v : list Portal.t) (r : t) : t :=
  {| roomCode := roomCode r; map := map r; players := players r;
     enemies := enemies r; boats := boats r; coins := coins r;
     immunityPickups := immunityPickups r;
     sinkCollectibles := sinkCollectibles r;
     deployedSinks := deployedSinks r; portals := v; gameTime := gameTime r;
     enemySpawnTimer := enemySpawnTimer r;
     coinSpawnTimer := coinSpawnTimer r;
     immunityPickupSpawnTimer := immunityPickupSpawnTimer r;
     sinkSpawnTimer := sinkSpawnTimer r;
     nextCoinSpawnTime := nextCoinSpawnTime r;
     nextImmunityPickupSpawnTime := nextImmunityPickupSpawnTime r;
     nextSinkSpawnTime := nextSinkSpawnTime r;
     collectiblesInitialized := collectiblesInitialized r;
     coinsInitialized := coinsInitialized r;
     speedBoostApplied := speedBoostApplied r; mapSeed := mapSeed r |}.
Definition set_gameTime (v : Q) (r : t) : t :=
  {| roomCode := roomCode r; map := map r; players := players r;
     enemies := enemies r; boats := boats r; coins := coins r;
     immunityPickups := immunityPickups r;
     sinkCollectibles := sinkCollectibles r;
     deployedSinks := deployedSinks r; portals := portals r; gameTime := v;
     enemySpawnTimer := enemySpawnTimer r;
     coinSpawnTimer := coinSpawnTimer r;
     immunityPickupSpawnTimer := immunityPickupSpawnTimer r;
     sinkSpawnTimer := sinkSpawnTimer r;
     nextCoinSpawnTime := nextCoinSpawnTime r;
     nextImmunityPickupSpawnTime := nextImmunityPickupSpawnTime r;
     nextSinkSpawnTime := nextSinkSpawnTime r;
     collectiblesInitialized := collectiblesInitialized r;
     coinsInitialized := coinsInitialized r;
     speedBoostApplied := speedBoostApplied r; mapSeed := mapSeed r |}.
Definition set_enemySpawnTimer (v : Q) (r : t) : t :=
  {| roomCode := roomCode r; map := map r; players := players r;
     enemies := enemies r; boats := boats r; coins := coins r;
     immunityPickups := immunityPickups r;
     sinkCollectibles := sinkCollectibles r;
     deployedSinks := deployedSinks r; portals := portals r;
     gameTime := gameTime r; enemySpawnTimer := v;
     coinSpawnTimer := coinSpawnTimer r;
     immunityPickupSpawnTimer := immunityPickupSpawnTimer r;
     sinkSpawnTimer := sinkSpawnTimer r;
     nextCoinSpawnTime := nextCoinSpawnTime r;
     nextImmunityPickupSpawnTime := nextImmunityPickupSpawnTime r;
     nextSinkSpawnTime := nextSinkSpawnTime r;
     collectiblesInitialized := collectiblesInitialized r;
     coinsInitialized := coinsInitialized r;
     speedBoostApplied := speedBoostApplied r; mapSeed := mapSeed r |}.
Definition set_coinSpawnTimer (v : Q) (r : t) : t :=
  {| roomCode := roomCode r; map := map r; players := players r;
     enemies := enemies r; boats := boats r; coins := coins r;
     immunityPickups := immunityPickups r;
     sinkCollectibles := sinkCollectibles r;
     deployedSinks := deployedSinks r; portals := portals r;
     gameTime := gameTime r; enemySpawnTimer := enemySpawnTimer r;
     coinSpawnTimer := v;
     immunityPickupSpawnTimer := immunityPickupSpawnTimer r;
     sinkSpawnTimer := sinkSpawnTimer r;
     nextCoinSpawnTime := nextCoinSpawnTime r;
     nextImmunityPickupSpawnTime := nextImmunityPickupSpawnTime r;
     nextSinkSpawnTime := nextSinkSpawnTime r;
     collectiblesInitialized := collectiblesInitialized r;
     coinsInitialized := coinsInitialized r;
     speedBoostApplied := speedBoostApplied r; mapSeed := mapSeed r |}.
Definition set_immunityPickupSpawnTimer (v : Q) (r : t) : t :=
  {| roomCode := roomCode r; map := map r; players := players r;
     enemies := enemies r; boats := boats r; coins := coins r;
     immunityPickups := immunityPickups r;
     sinkCollectibles := sinkCollectibles r;
     deployedSinks := deployedSinks r; portals := portals r;
     gameTime := gameTime r; enemySpawnTimer := enemySpawnTimer r;
     coinSpawnTimer := coinSpawnTimer r; immunityPickupSpawnTimer := v;
     sinkSpawnTimer := sinkSpawnTimer r;
     nextCoinSpawnTime := nextCoinSpawnTime r;
     nextImmunityPickupSpawnTime := nextImmunityPickupSpawnTime r;
     nextSinkSpawnTime := nextSinkSpawnTime r;
     collectiblesInitialized := collectiblesInitialized r;
     coinsInitialized := coinsInitialized r;
     speedBoostApplied := speedBoostApplied r; mapSeed := mapSeed r |}.
Definition set_sinkSpawnTimer (v : Q) (r : t) : t :=
  {| roomCode := roomCode r; map := map r; players := players r;
     enemies := enemies r; boats := boats r; coins := coins r;
     immunityPickups := immunityPickups r;
     sinkCollectibles := sinkCollectibles r;
     deployedSinks := deployedSinks r; portals := portals r;
     gameTime := gameTime r; enemySpawnTimer := enemySpawnTimer r;
     coinSpawnTimer := coinSpawnTimer r;
     immunityPickupSpawnTimer := immunityPickupSpawnTimer r;
     sinkSpawnTimer := v; nextCoinSpawnTime := nextCoinSpawnTime r;
     nextImmunityPickupSpawnTime := nextImmunityPickupSpawnTime r;
     nextSinkSpawnTime := nextSinkSpawnTime r;
     collectiblesInitialized := collectiblesInitialized r;
     coinsInitialized := coinsInitialized r;
     speedBoostApplied := speedBoostApplied r; mapSeed := mapSeed r |}.
Definition set_nextCoinSpawnTime (v : Q) (r : t) : t :=
  {| roomCode := roomCode r; map := map r; players := players r;
     enemies := enemies r; boats := boats r; coins := coins r;
     immunityPickups := immunityPickups r;
     sinkCollectibles := sinkCollectibles r;
     deployedSinks := deployedSinks r; portals := portals r;
     gameTime := gameTime r; enemySpawnTimer := enemySpawnTimer r;
     coinSpawnTimer := coinSpawnTimer r;
     immunityPickupSpawnTimer := immunityPickupSpawnTimer r;
     sinkSpawnTimer := sinkSpawnTimer r; nextCoinSpawnTime := v;
     nextImmunityPickupSpawnTime := nextImmunityPickupSpawnTime r;
     nextSinkSpawnTime := nextSinkSpawnTime r;
     collectiblesInitialized := collectiblesInitialized r;
     coinsInitialized := coinsInitialized r;
     speedBoostApplied := speedBoostApplied r; mapSeed := mapSeed r |}.
Definition set_nextImmunityPickupSpawnTime (v : Q) (r : t) : t :=
  {| roomCode := roomCode r; map := map r; players := players r;
     enemies := enemies r; boats := boats r; coins := coins r;
     immunityPickups := immunityPickups r;
     sinkCollectibles := sinkCollectibles r;
     deployedSinks := deployedSinks r; portals := portals r;
     gameTime := gameTime r; enemySpawnTimer := enemySpawnTimer r;
     coinSpawnTimer := coinSpawnTimer r;
     immunityPickupSpawnTimer := immunityPickupSpawnTimer r;
     sinkSpawnTimer := sinkSpawnTimer r;
     nextCoinSpawnTime := nextCoinSpawnTime r;
     nextImmunityPickupSpawnTime := v;
     nextSinkSpawnTime := nextSinkSpawnTime r;
     collectiblesInitialized := collectiblesInitialized r;
     coinsInitialized := coinsInitialized r;
     speedBoostApplied := speedBoostApplied r; mapSeed := mapSeed r |}.
Definition set_nextSinkSpawnTime (v : Q) (r : t) : t :=
  {| roomCode := roomCode r; map := map r; players := players r;
     enemies := enemies r; boats := boats r; coins := coins r;
     immunityPickups := immunityPickups r;
     sinkCollectibles := sinkCollectibles r;
     deployedSinks := deployedSinks r; portals := portals r;
     gameTime := gameTime r; enemySpawnTimer := enemySpawnTimer r;
     coinSpawnTimer := coinSpawnTimer r;
     immunityPickupSpawnTimer := immunityPickupSpawnTimer r;
     sinkSpawnTimer := sinkSpawnTimer r;
     nextCoinSpawnTime := nextCoinSpawnTime r;
     nextImmunityPickupSpawnTime := nextImmunityPickupSpawnTime r;
     nextSinkSpawnTime := v;
     collectiblesInitialized := collectiblesInitialized r;
     coinsInitialized := coinsInitialized r;
     speedBoostApplied := speedBoostApplied r; mapSeed := mapSeed r |}.
Definition set_collectiblesInitialized (v : bool) (r : t) : t :=
  {| roomCode := roomCode r; map := map r; players := players r;
     enemies := enemies r; boats := boats r; coins := coins r;
     immunityPickups := immunityPickups r;
     sinkCollectibles := sinkCollectibles r;
     deployedSinks := deployedSinks r; portals := portals r;
     gameTime := gameTime r; enemySpawnTimer := enemySpawnTimer r;
     coinSpawnTimer := coinSpawnTimer r;
     immunityPickupSpawnTimer := immunityPickupSpawnTimer r;
     sinkSpawnTimer := sinkSpawnTimer r;
     nextCoinSpawnTime := nextCoinSpawnTime r;
     nextImmunityPickupSpawnTime := nextImmunityPickupSpawnTime r;
     nextSinkSpawnTime := nextSinkSpawnTime r; collectiblesInitialized := v;
     coinsInitialized := coinsInitialized r;
     speedBoostApplied := speedBoostApplied r; mapSeed := mapSeed r |}.
Definition set_coinsInitialized (v : bool) (r : t) : t :=
  {| roomCode := roomCode r; map := map r; players := players r;
     enemies := enemies r; boats := boats r; coins := coins r;
     immunityPickups := immunityPickups r;
     sinkCollectibles := sinkCollectibles r;
     deployedSinks := deployedSinks r; portals := portals r;
     gameTime := gameTime r; enemySpawnTimer := enemySpawnTimer r;
     coinSpawnTimer := coinSpawnTimer r;
     immunityPickupSpawnTimer := immunityPickupSpawnTimer r;
     sinkSpawnTimer := sinkSpawnTimer r;
     nextCoinSpawnTime := nextCoinSpawnTime r;
     nextImmunityPickupSpawnTime := nextImmunityPickupSpawnTime r;
     nextSinkSpawnTime := nextSinkSpawnTime r;
     collectiblesInitialized := collectiblesInitialized r;
     coinsInitialized := v; speedBoostApplied := speedBoostApplied r;
     mapSeed := mapSeed r |}.
Definition set_speedBoostApplied (v : bool) (r : t) : t :=
  {| roomCode := roomCode r; map := map r; players := players r;
     enemies := enemies r; boats := boats r; coins := coins r;
     immunityPickups := immunityPickups r;
     sinkCollectibles := sinkCollectibles r;
     deployedSinks := deployedSinks r; portals := portals r;
     gameTime := gameTime r; enemySpawnTimer := enemySpawnTimer r;
     coinSpawnTimer := coinSpawnTimer r;
     immunityPickupSpawnTimer := immunityPickupSpawnTimer r;
     sinkSpawnTimer := sinkSpawnTimer r;
     nextCoinSpawnTime := nextCoinSpawnTime r;
     nextImmunityPickupSpawnTime := nextImmunityPickupSpawnTime r;
     nextSinkSpawnTime := nextSinkSpawnTime r;
     collectiblesInitialized := collectiblesInitialized r;
     coinsInitialized := coinsInitialized r; speedBoostApplied := v;
     mapSeed := mapSeed r |}.
End GameState.

(** [ROOM_STATUS] of [config/constants.js]. *)
Inductive RoomStatus := WAITING | PLAYING | FINISHED.

#[global] Instance RoomStatus_eq_dec : EqDecision RoomStatus.
Proof. solve_decision. Defined.

(** A room of the room manager; only the fields the game services read. *)
Module Room.
Record t := mk {
  code : string;
  players : list (string * string);  (* id and name *)
  status : RoomStatus
}.
End Room.

(** The state sent to clients by [broadcastGameState]. *)
Module ClientPlayer.
Record t := mk {
  id : string; name : string; x : Q; y : Q; velX : Q; velY : Q;
  dirX : Q; dirY : Q; speed : Q; trail : list (Q * Q);
  coinsCollected : Z; immunityInventory : Z; sinkInventory : Z;
  energy : Q; immunityActive : bool; immunityEndTime : Q
}.
End ClientPlayer.

Module ClientState.
Record t := mk {
  players : list ClientPlayer.t;
  enemies : list Enemy.t;
  boats : list Boat.t;
  coins : list Coin.t;
  immunityPickups : list ImmunityPickup.t;
  sinkCollectibles : list SinkCollectible.t;
  deployedSinks : list DeployedSink.t;
  portals : list Portal.t;
  gameTime : Q;
  timestamp : Z
}.
End ClientState.

(** The events the game loop emits. *)
Inductive Event :=
| player_death (playerId : string)
| game_state (clientState : ClientState.t).

(** ** Effects

    [Math.random ()] returns the next number of [random_draws];
    [Date.now ()] returns [clock]; [outbox] is where an [io] object that
    delivers may record what it was given. *)
Record Env := {
  random_draws : nat → Q;
  random_next : nat;
  clock : Z;
  outbox : list (string * Event)
}.

(** The outcome of running a method on a state [σ]: it returns, it throws
    (the state keeps what was written before the throw), or it never
    returns. *)
Inductive Result (σ A : Type) :=
| Normal (a : A) (s : σ)
| Thrown (e : string) (s : σ)
| Diverged.
Arguments Normal {σ A} a s.
Arguments Thrown {σ A} e s.
Arguments Diverged {σ A}.

Definition M (σ A : Type) : Type := σ → Result σ A.

Definition ret {σ A} (a : A) : M σ A := λ s, Normal a s.
Definition bind {σ A B} (m : M σ A) (f : A → M σ B) : M σ B :=
  λ s, match m s with
       | Normal a s' => f a s'
       | Thrown e s' => Thrown e s'
       | Diverged => Diverged
       end.
Definition get {σ} : M σ σ := λ s, Normal s s.
Definition gets {σ A} (f : σ → A) : M σ A := λ s, Normal (f s) s.
Definition modify {σ} (f : σ → σ) : M σ unit := λ s, Normal tt (f s).
Definition throw {σ A} (e : string) : M σ A := λ s, Thrown e s.

Declare Scope js_scope.
Delimit Scope js_scope with js.
Notation "'let*' x := m 'in' k" := (bind m (λ x, k))
  (at level 10, x name, m at level 100, k at level 200, only parsing) : js_scope.
Notation "'let*' ' p := m 'in' k" := (bind m (λ x, let 'p := x in k))
  (at level 10, p pattern, m at level 100, k at level 200, only parsing) : js_scope.
Notation "m ;; k" := (bind m (λ _, k))
  (at level 100, k at level 200, right associativity, only parsing) : js_scope.

(** [array.forEach (body)]: the rounds run in order, and a throw ends the
    loop. *)
Fixpoint forEach {σ B} (l : list B) (body : B → M σ unit) : M σ unit :=
  match l with
  | [] => ret tt
  | b :: l' => bind (body b) (λ _, forEach l' body)
  end.

(** A loop that threads a value through its rounds. *)
Fixpoint foldM {σ A B} (body : A → B → M σ A) (a : A) (l : list B) : M σ A :=
  match l with
  | [] => ret a
  | b :: l' => bind (body a b) (λ a', foldM body a' l')
  end.

(** States that hold the environment. *)
Class HasEnv (σ : Type) := {
  env_of : σ → Env;
  with_env : Env → σ → σ
}.

#[global] Instance Env_HasEnv : HasEnv Env := {| env_of := λ e, e; with_env := λ e _, e |}.

(** Run a computation on the environment inside a larger state. *)
Definition liftEnv {σ A} `{HasEnv σ} (m : M Env A) : M σ A :=
  λ s, match m (env_of s) with
       | Normal a e => Normal a (with_env e s)
       | Thrown x e => Thrown x (with_env e s)
       | Diverged => Diverged
       end.

Definition Math_random : M Env Q :=
  λ e, Normal (random_draws e (random_next e))
         {| random_draws := random_draws e; random_next := S (random_next e);
            clock := clock e; outbox := outbox e |}.

Definition Date_now : M Env Z := gets clock.

(** The [io] object: [emit room event] is [io.to (room).emit (...)]. *)
Record IO := { emit : string → Event → M Env unit }.

(** An [io] that delivers every event. *)
Definition deliver : IO :=
  {| emit := λ room ev e,
       Normal tt {| random_draws := random_draws e; random_next := random_next e;
                    clock := clock e; outbox := outbox e ++ [(room, ev)] |} |}.

(** ** The seeded generator

    [seededRandom (seed)] returns a closure over [value]; each call replaces
    [value] by [(value * 9301 + 49297) % 233280] and returns
    [value / 233280].  The closure's variable is the state of a small state
    monad; [%] is JavaScript's truncated remainder, which is exact on
    doubles.  The product and the sum are rounded as doubles round them: the
    seed [Date.now ()] is large enough for [value * 9301] to pass 2^53. *)

(** The double nearest to an integer, ties to even: an integer of magnitude
    up to 2^53 is a double, a larger one keeps its 53 leading bits.  The
    integers met here are far below the largest double. *)
Definition roundToDouble (n : Z) : Z :=
  let a := Z.abs n in
  if a <=? 2 ^ 53 then n
  else
    let ulp := 2 ^ (Z.log2 a - 52) in
    let q := a / ulp in
    let r := a mod ulp in
    let q' := if 2 * r <? ulp then q
              else if ulp <? 2 * r then q + 1
              else if Z.even q then q else q + 1 in
    Z.sgn n * (q' * ulp).

Module Rng.
Definition M (A : Type) : Type := Z → A * Z.
Definition ret {A} (a : A) : M A := λ v, (a, v).
Definition bind {A B} (m : M A) (f : A → M B) : M B :=
  λ v, let '(a, v') := m v in f a v'.
(** [value = (value * 9301 + 49297) % 233280], for a [value] that is a
    double. *)
Definition next (value : Z) : Z :=
  Z.rem (roundToDouble (roundToDouble (value * 9301) + 49297)) 233280.
(** One call [rng ()]. *)
Definition rng : M Q := λ value, let v' := next value in (v' # 233280, v').
(** A loop whose body draws from the generator. *)
Definition for_range {St : Type} (lo hi : Z) (body : Z → St → M St) (s : St) : M St :=
  foldl (λ acc i, bind acc (body i)) (ret s) (seqZ lo (hi - lo)).
End Rng.

Declare Scope rng_scope.
Delimit Scope rng_scope with rng.
Notation "'let*' x := m 'in' k" := (Rng.bind m (λ x, k))
  (at level 10, x name, m at level 100, k at level 200, only parsing) : rng_scope.

(** The state of the server: the rooms of the room manager in insertion
    order, the two maps of the state manager, and the environment. *)
Module World.
Record t := mk {
  rooms : list Room.t;
  roomStates : gmap string GameState.t;
  inputBuffers : gmap string (list Input.t);
  env : Env
}.
Definition set_roomStates (v : gmap string GameState.t) (r : t) : t :=
  {| rooms := rooms r; roomStates := v; inputBuffers := inputBuffers r; env := env r |}.
Definition set_inputBuffers (v : gmap string (list Input.t)) (r : t) : t :=
  {| rooms := rooms r; roomStates := roomStates r; inputBuffers := v; env := env r |}.
Definition set_env (v : Env) (r : t) : t :=
  {| rooms := rooms r; roomStates := roomStates r; inputBuffers := inputBuffers r; env := v |}.
End World.

#[global] Instance World_HasEnv : HasEnv World.t :=
  {| env_of := World.env; with_env := World.set_env |}.

(** [roomManager.getRoom (roomCode)]. *)
Definition getRoom (roomCode : string) (w : World.t) : option Room.t :=
  List.find (λ room, bool_decide (Room.code room = roomCode)) (World.rooms w).

(** [roomManager.getAllRooms ()]. *)
Definition getAllRooms (w : World.t) : list Room.t := World.rooms w.

Local Open Scope js_scope.

(** [Math.floor (Math.random () * (size - 2)) + 1]. *)
Definition randomInterior (size : Z) : M Env Z :=
  let* r := Math_random in
  ret (Math_floor (r * inject_Z (size - 2)) + 1).

(** The centre of tile [(x, y)]. *)
Definition tileCentre (x y : Z) : Q * Q :=
  ((inject_Z (x * TILE_SIZE) + inject_Z TILE_SIZE / 2)%Q,
   (inject_Z (y * TILE_SIZE) + inject_Z TILE_SIZE / 2)%Q).

Local Close Scope js_scope.

(** ** [QbitCityGameStateManager] *)

Module QbitCityGameStateManager.

Local Open Scope rng_scope.

(** The closure [seededRandom (seed)] starts with [value = seed]. *)
Definition seededRandom (seed : Z) : Z := seed.

(** *** Map generation *)

(** The 3×3 water blot around [(x, y)]: cells inside the grid that are not
    road become water. *)
Definition waterBlot (x y : Z) (tiles : list (list Z)) : list (list Z) :=
  for_range (y - 1) (y + 1 + 1) (λ ly,
    for_range (x - 1) (x + 1 + 1) (λ lx t,
      if (0 <=? ly) && (ly <? MAP_HEIGHT) && (0 <=? lx) && (lx <? MAP_WIDTH)
      then (if negb (bool_decide (getTile t lx ly = Some ROAD))
            then setTile t lx ly WATER else t)
      else t)) tiles.

(** First pass: the grid starts as sidewalk. *)
Definition initialTiles : list (list Z) :=
  for_range 0 MAP_HEIGHT (λ y rows,
    rows ++ [for_range 0 MAP_WIDTH (λ x row, row ++ [SIDEWALK]) []]) [].

(** Second pass: roads every [blockSize] tiles, water and grass drawn from
    the generator. *)
Definition blockSize : Z := 4.

Definition terrainCell (x y : Z) (t : list (list Z)) : Rng.M (list (list Z)) :=
  let isRoadRow := Z.rem y blockSize =? 0 in
  let isRoadCol := Z.rem x blockSize =? 0 in
  if isRoadRow || isRoadCol
  then Rng.ret (setTile t x y ROAD)
  else
    let* rand := Rng.rng in
    if Qltb rand (5 # 100) then Rng.ret (waterBlot x y t)
    else if Qltb rand (15 # 100) then Rng.ret (setTile t x y GRASS)
    else Rng.ret t.

Definition terrainPass (t : list (list Z)) : Rng.M (list (list Z)) :=
  Rng.for_range 0 MAP_HEIGHT (λ y,
    Rng.for_range 0 MAP_WIDTH (λ x, terrainCell x y)) t.

(** Third pass: the perimeter becomes lava. *)
Definition perimeterCell (x y : Z) (t : list (list Z)) : list (list Z) :=
  if (x =? 0) || (x =? MAP_WIDTH - 1) || (y =? 0) || (y =? MAP_HEIGHT - 1)
  then setTile t x y LAVA else t.

Definition perimeterPass (t : list (list Z)) : list (list Z) :=
  for_range 0 MAP_HEIGHT (λ y, for_range 0 MAP_WIDTH (λ x, perimeterCell x y)) t.

(** Fourth pass: buildings on sidewalk, trees on grass. *)
Definition decorateCell (tiles : list (list Z)) (x y : Z)
    (acc : list Building * list Tree) : Rng.M (list Building * list Tree) :=
  let '(buildings, trees) := acc in
  let tile := getTile tiles x y in
  let px := x * TILE_SIZE in
  let py := y * TILE_SIZE in
  if bool_decide (tile = Some SIDEWALK) then
    let* rand := Rng.rng in
    let* h0 := Rng.rng in
    let mk height color wallColor type :=
      {| b_gridX := x; b_gridY := y; b_x := px; b_y := py;
         b_w := TILE_SIZE; b_h := TILE_SIZE; b_height := height;
         b_color := color; b_wallColor := wallColor; b_type := type |} in
    if Qltb (9 # 10) rand then
      let* h1 := Rng.rng in
      Rng.ret (buildings ++ [mk (30 + h1 * 20)%Q "#331133" "#220022" 1], trees)
    else if Qltb (8 # 10) rand then
      let* h1 := Rng.rng in
      Rng.ret (buildings ++ [mk (25 + h1 * 15)%Q "#2e3b2e" "#1a221a" 2], trees)
    else
      Rng.ret (buildings ++ [mk (40 + h0 * 60)%Q "#252525" "#151515" 0], trees)
  else if bool_decide (tile = Some GRASS) then
    let* r0 := Rng.rng in
    if Qltb (3 # 10) r0 then
      let* r1 := Rng.rng in
      let* r2 := Rng.rng in
      let* r3 := Rng.rng in
      Rng.ret (buildings,
               trees ++ [{| t_x := inject_Z px + inject_Z TILE_SIZE / 2 + (r1 * 20 - 10);
                            t_y := inject_Z py + inject_Z TILE_SIZE / 2 + (r2 * 20 - 10);
                            t_r := 10 + r3 * 10 |}%Q])
    else Rng.ret (buildings, trees)
  else Rng.ret (buildings, trees).

Definition decoratePass (tiles : list (list Z)) : Rng.M (list Building * list Tree) :=
  Rng.for_range 0 MAP_HEIGHT (λ y,
    Rng.for_range 0 MAP_WIDTH (λ x, decorateCell tiles x y)) ([], []).

Definition generateMap (seed : Z) : GameMap.t :=
  let value := seededRandom seed in
  let '(t, value) := terrainPass initialTiles value in
  let t := perimeterPass t in
  let '((buildings, trees), _) := decoratePass t value in
  {| GameMap.width := MAP_WIDTH * TILE_SIZE;
     GameMap.height := MAP_HEIGHT * TILE_SIZE;
     GameMap.tiles := t;
     GameMap.buildings := buildings;
     GameMap.trees := trees |}.

Local Close Scope rng_scope.
Local Open Scope js_scope.

(** *** Boats, players, portals, enemies *)

Definition initializeBoats : list Boat.t :=
  let perimeter := (MAP_WIDTH * 2 + MAP_HEIGHT * 2) * TILE_SIZE in
  let boatCount := 10 in
  let spacing := (inject_Z perimeter / inject_Z boatCount)%Q in
  for_range 0 boatCount (λ i boats,
    boats ++ [{| Boat.id := i; Boat.dist := (inject_Z i * spacing)%Q;
                 Boat.x := 0; Boat.y := 0; Boat.w := 48; Boat.h := 48;
                 Boat.velX := 0; Boat.velY := 0;
                 Boat.life := 10; Boat.maxLife := 10 |}]) [].

(** The search loop of [initializePlayers] with [attempts] rounds left; it
    leaves [(0, 0)] when no round finds a road tile. *)
Fixpoint findPlayerSpawn (attempts : nat) (map : GameMap.t) : M Env (Q * Q) :=
  match attempts with
  | O => ret (0%Q, 0%Q)
  | S attempts' =>
      let* x := randomInterior MAP_WIDTH in
      let* y := randomInterior MAP_HEIGHT in
      if bool_decide (getTile (GameMap.tiles map) x y = Some ROAD)
      then ret (tileCentre x y)
      else findPlayerSpawn attempts' map
  end.

Definition newPlayer (id name : string) (spawn : Q * Q) : Player.t :=
  {| Player.id := id; Player.name := name;
     Player.x := spawn.1; Player.y := spawn.2;
     Player.width := 24; Player.height := 24;
     Player.speed := BASE_PLAYER_SPEED;
     Player.velX := 0; Player.velY := 0; Player.dirX := 0; Player.dirY := 1;
     Player.trail := [];
     Player.portalCooldown := 0;
     Player.coinsCollected := 0;
     Player.immunityInventory := 0;
     Player.sinkInventory := 0;
     Player.energy := 0;
     Player.immunityActive := false;
     Player.immunityEndTime := 0 |}.

Definition initializePlayers (room : Room.t) (map : GameMap.t) : M Env (list Player.t) :=
  foldM (λ players roomPlayer,
           let* spawn := findPlayerSpawn 100 map in
           ret (players ++ [newPlayer roomPlayer.1 roomPlayer.2 spawn]))
        [] (Room.players room).

(** [`hsl(${n}, 100%, 50%)`] for the four portals of the map. *)
Definition portalColor (n : Z) : string :=
  if n =? 0 then "hsl(0, 100%, 50%)"
  else if n =? 1 then "hsl(90, 100%, 50%)"
  else if n =? 2 then "hsl(180, 100%, 50%)"
  else "hsl(270, 100%, 50%)".

(** [generatePortals]: the loop runs until four portals exist and has no
    bound on its rounds; [fuel] bounds them here, and running out of it is
    [Diverged]. *)
Fixpoint generatePortalsFrom (fuel : nat) (map : GameMap.t) (portals : list Portal.t)
  : M Env (list Portal.t) :=
  let portalsCreated := Z.of_nat (length portals) in
  if 4 <=? portalsCreated then ret portals
  else match fuel with
       | O => λ _, Diverged
       | S fuel' =>
           let* px := randomInterior MAP_WIDTH in
           let* py := randomInterior MAP_HEIGHT in
           if bool_decide (getTile (GameMap.tiles map) px py = Some ROAD)
           then generatePortalsFrom fuel' map
                  (portals ++ [{| Portal.id := MapPortal portalsCreated;
                                  Portal.x := (tileCentre px py).1;
                                  Portal.y := (tileCentre px py).2;
                                  Portal.color := portalColor portalsCreated;
                                  Portal.angle := 0;
                                  Portal.life := None |}])
           else generatePortalsFrom fuel' map portals
       end.

Definition generatePortals (fuel : nat) (map : GameMap.t) : M Env (list Portal.t) :=
  generatePortalsFrom fuel map [].

(** The search loop of [spawnEnemy] with [attempts] rounds left. *)
Fixpoint findEnemySpawn `{JsHost} (attempts : nat) (map : GameMap.t)
    (avoidX avoidY minDist : Q) : M Env (option (Q * Q)) :=
  match attempts with
  | O => ret None
  | S attempts' =>
      let* rx := randomInterior MAP_WIDTH in
      let* ry := randomInterior MAP_HEIGHT in
      if bool_decide (getTile (GameMap.tiles map) rx ry = Some ROAD)
      then
        let candidate := tileCentre rx ry in
        let d := Math_hypot (candidate.1 - avoidX) (candidate.2 - avoidY) in
        if Qltb minDist d then ret (Some candidate)
        else findEnemySpawn attempts' map avoidX avoidY minDist
      else findEnemySpawn attempts' map avoidX avoidY minDist
  end.

(** [spawnEnemy (map, avoidX, avoidY, minDist)]; the caller writes the
    default [minDist = 800]. *)
Definition spawnEnemy `{JsHost} (map : GameMap.t) (avoidX avoidY minDist : Q)
  : M Env (option Enemy.t) :=
  let* found := findEnemySpawn 100 map avoidX avoidY minDist in
  match found with
  | Some (ex, ey) =>
      let* now := Date_now in
      let* r := Math_random in
      let* s := Math_random in
      ret (Some {| Enemy.id := {| id_prefix := "enemy"; id_time := now; id_random := r |};
                   Enemy.x := ex; Enemy.y := ey;
                   Enemy.width := 24; Enemy.height := 24;
                   Enemy.speed := (BASE_ENEMY_SPEED + s * 30)%Q;
                   Enemy.trail := [];
                   Enemy.stuckTime := 0; Enemy.flankTimer := 0;
                   Enemy.flankDir := (0%Q, 0%Q) |})
  | None => ret None
  end.

(** [players[0]?.x || 0] and [players[0]?.y || 0]. *)
Definition firstPlayerPosition (players : list Player.t) : Q * Q :=
  match players with
  | p :: _ => (Player.x p, Player.y p)
  | [] => (0%Q, 0%Q)
  end.

(** *** Rooms *)

(** [initializeRoom (roomCode, mapSeed = Date.now ())]; [fuel] is the bound
    on the rounds of [generatePortals]. *)
Definition initializeRoom `{JsHost} (fuel : nat) (roomCode : string) (mapSeed : option Z)
  : M World.t (option GameState.t) :=
  let* mapSeed := match mapSeed with
                  | Some seed => ret seed
                  | None => liftEnv Date_now
                  end in
  let* room := gets (getRoom roomCode) in
  match room with
  | None => ret None
  | Some room =>
      let map := generateMap mapSeed in
      let boats := initializeBoats in
      let* players := liftEnv (initializePlayers room map) in
      let avoid := firstPlayerPosition players in
      let* enemies :=
        liftEnv (foldM (λ enemies _,
                          let* enemy := spawnEnemy map avoid.1 avoid.2 800 in
                          match enemy with
                          | Some enemy => ret (enemies ++ [enemy])
                          | None => ret enemies
                          end) [] (seqZ 0 3)) in
      let* portals := liftEnv (generatePortals fuel map) in
      let* r1 := liftEnv Math_random in
      let* r2 := liftEnv Math_random in
      let* r3 := liftEnv Math_random in
      let gameState :=
        {| GameState.roomCode := roomCode;
           GameState.map := map;
           GameState.players := players;
           GameState.enemies := enemies;
           GameState.boats := boats;
           GameState.coins := [];
           GameState.immunityPickups := [];
           GameState.sinkCollectibles := [];
           GameState.deployedSinks := [];
           GameState.portals := portals;
           GameState.gameTime := 0;
           GameState.enemySpawnTimer := 0;
           GameState.coinSpawnTimer := 0;
           GameState.immunityPickupSpawnTimer := 0;
           GameState.sinkSpawnTimer := 0;
           GameState.nextCoinSpawnTime := (10 + r1 * 5)%Q;
           GameState.nextImmunityPickupSpawnTime := (20 + r2 * 10)%Q;
           GameState.nextSinkSpawnTime := (25 + r3 * 10)%Q;
           GameState.collectiblesInitialized := false;
           GameState.coinsInitialized := false;
           GameState.speedBoostApplied := false;
           GameState.mapSeed := mapSeed |} in
      modify (λ w, World.set_roomStates (<[roomCode := gameState]> (World.roomStates w)) w) ;;
      ret (Some gameState)
  end.

(** [getGameState (roomCode)]. *)
Definition getGameState (roomCode : string) (w : World.t) : option GameState.t :=
  World.roomStates w !! roomCode.

(** *** The input buffer *)

(** [buffer.sort ((a, b) => a.timestamp - b.timestamp)]: the sort of arrays
    is stable, so it is insertion of each entry behind the entries that are
    not later than it. *)
Fixpoint insertByTimestamp (a : Input.t) (l : list Input.t) : list Input.t :=
  match l with
  | [] => [a]
  | b :: l' =>
      if Input.timestamp b <=? Input.timestamp a
      then b :: insertByTimestamp a l'
      else a :: b :: l'
  end.

Definition sortByTimestamp (l : list Input.t) : list Input.t :=
  foldl (λ sorted a, insertByTimestamp a sorted) [] l.

(** [bufferPlayerInput (playerId, input, timestamp)], on [this.inputBuffers];
    [input] is the [keys] property of the payload. *)
Definition bufferPlayerInput (playerId : string) (input : option Keys.t) (timestamp : Z)
    (inputBuffers : gmap string (list Input.t)) : gmap string (list Input.t) :=
  let inputBuffers :=
    if bool_decide (is_Some (inputBuffers !! playerId)) then inputBuffers
    else <[playerId := []]> inputBuffers in
  let buffer := default [] (inputBuffers !! playerId) in
  let buffer := buffer ++ [{| Input.keys := input; Input.timestamp := timestamp;
                              Input.processed := false |}] in
  let buffer := sortByTimestamp buffer in
  let buffer := if 60 <? Z.of_nat (length buffer) then tail buffer else buffer in
  <[playerId := buffer]> inputBuffers.

(** *** Respawning and cleaning up *)

(** What [respawnPlayer] returns. *)
Module Respawned.
Record t := mk { id : string; name : string; x : Q; y : Q; speed : Q }.
End Respawned.

(** [safeFromEnemies]: no enemy is nearer than 500 to the candidate. *)
Definition safeFromEnemies `{JsHost} (gameState : GameState.t) (candidate : Q * Q) : bool :=
  negb (existsb (λ enemy,
                   Qltb (Math_hypot (candidate.1 - Enemy.x enemy)
                                    (candidate.2 - Enemy.y enemy)) 500)
                (GameState.enemies gameState)).

(** The search loop of [respawnPlayer] with [attempts] rounds left. *)
Fixpoint findRespawn `{JsHost} (attempts : nat) (gameState : GameState.t)
  : M Env (option (Q * Q)) :=
  match attempts with
  | O => ret None
  | S attempts' =>
      let* x := randomInterior MAP_WIDTH in
      let* y := randomInterior MAP_HEIGHT in
      if bool_decide (getTile (GameMap.tiles (GameState.map gameState)) x y = Some ROAD)
      then
        let candidate := tileCentre x y in
        if safeFromEnemies gameState candidate then ret (Some candidate)
        else findRespawn attempts' gameState
      else findRespawn attempts' gameState
  end.

(** The fallback of [respawnPlayer]: the two loops over the interior stop
    at the first road tile, row by row. *)
Definition firstRoadTile (map : GameMap.t) : option (Q * Q) :=
  for_range 1 (MAP_HEIGHT - 1) (λ y found,
    for_range 1 (MAP_WIDTH - 1) (λ x found,
      match found with
      | Some _ => found
      | None =>
          if bool_decide (getTile (GameMap.tiles map) x y = Some ROAD)
          then Some (tileCentre x y) else None
      end) found) None.

(** The block of [respawnPlayer] that resets the player. *)
Definition resetPlayer (spawn : Q * Q) (player : Player.t) : Player.t :=
  {| Player.id := Player.id player; Player.name := Player.name player;
     Player.x := spawn.1; Player.y := spawn.2;
     Player.width := Player.width player; Player.height := Player.height player;
     Player.speed := BASE_PLAYER_SPEED;
     Player.velX := 0; Player.velY := 0; Player.dirX := 0; Player.dirY := 1;
     Player.trail := [];
     Player.portalCooldown := 0;
     Player.coinsCollected := 0;
     Player.immunityInventory := 0;
     Player.sinkInventory := 0;
     Player.energy := 0;
     Player.immunityActive := false;
     Player.immunityEndTime := 0 |}.

(** [respawnPlayer (roomCode, playerId)]; the player is the first of the
    room state with that id. *)
Definition respawnPlayer `{JsHost} (roomCode playerId : string)
  : M World.t (option Respawned.t) :=
  let* gameState := gets (getGameState roomCode) in
  match gameState with
  | None => ret None
  | Some gameState =>
      match list_find (λ p, Player.id p = playerId) (GameState.players gameState) with
      | None => ret None
      | Some (i, player) =>
          let* found := liftEnv (findRespawn 100 gameState) in
          let spawn :=
            match found with
            | Some candidate => candidate
            | None => default (0%Q, 0%Q) (firstRoadTile (GameState.map gameState))
            end in
          let player := resetPlayer spawn player in
          modify (λ w, World.set_roomStates
                         (<[roomCode := GameState.set_players
                                          (<[i := player]> (GameState.players gameState))
                                          gameState]> (World.roomStates w)) w) ;;
          modify (λ w, World.set_inputBuffers (delete playerId (World.inputBuffers w)) w) ;;
          ret (Some {| Respawned.id := Player.id player;
                       Respawned.name := Player.name player;
                       Respawned.x := Player.x player;
                       Respawned.y := Player.y player;
                       Respawned.speed := Player.speed player |})
      end
  end.

(** [cleanupRoom (roomCode)].  [this.lastUpdateTime] is written nowhere, so
    deleting from it changes nothing and it is not part of the state. *)
Definition cleanupRoom (roomCode : string) : M World.t unit :=
  modify (λ w, World.set_roomStates (delete roomCode (World.roomStates w)) w) ;;
  let* room := gets (getRoom roomCode) in
  match room with
  | Some room =>
      forEach (Room.players room) (λ player,
        modify (λ w, World.set_inputBuffers (delete player.1 (World.inputBuffers w)) w))
  | None => ret tt
  end.

End QbitCityGameStateManager.
(** ** [QbitCityGameLoop] *)

(** What the passes of the game loop work on: the room's [gameState], which
    they mutate in place, the input buffers of the state manager, and the
    environment. *)
Module Sim.
Record t := mk {
  state : GameState.t;
  inputBuffers : gmap string (list Input.t);
  env : Env
}.
Definition set_state (v : GameState.t) (r : t) : t :=
  {| state := v; inputBuffers := inputBuffers r; env := env r |}.
Definition set_inputBuffers (v : gmap string (list Input.t)) (r : t) : t :=
  {| state := state r; inputBuffers := v; env := env r |}.
Definition set_env (v : Env) (r : t) : t :=
  {| state := state r; inputBuffers := inputBuffers r; env := v |}.
End Sim.

#[global] Instance Sim_HasEnv : HasEnv Sim.t :=
  {| env_of := Sim.env; with_env := Sim.set_env |}.

Module QbitCityGameLoop.

Import QbitCityGameStateManager.
Local Open Scope js_scope.

Section GameLoop.

Context `{JsHost}.

(** The [io] given to the constructor, and [this.tickRate]. *)
Variable io : IO.
Definition tickRate : Q := 20.

(** Read and write [gameState] inside a pass. *)
Definition getState : M Sim.t GameState.t := gets Sim.state.
Definition modifyState (f : GameState.t → GameState.t) : M Sim.t unit :=
  modify (λ s, Sim.set_state (f (Sim.state s)) s).

(** [array.push (x); if (array.length > 20) array.shift ()]. *)
Definition pushTrail (trail : list (Q * Q)) (point : Q * Q) : list (Q * Q) :=
  let trail := trail ++ [point] in
  if 20 <? Z.of_nat (length trail) then tail trail else trail.

(** *** Movement against the tile grid *)

Definition checkCollision (x y width height : Q) (map : GameMap.t) (isPlayer : bool) : bool :=
  let halfW := (width / 2)%Q in
  let halfH := (height / 2)%Q in
  let l := (x - halfW)%Q in
  let r := (x + halfW)%Q in
  let t := (y - halfH)%Q in
  let b := (y + halfH)%Q in
  let gridX := Math_floor (x / inject_Z TILE_SIZE) in
  let gridY := Math_floor (y / inject_Z TILE_SIZE) in
  exists_range (gridY - 1) (gridY + 1) (λ gy,
    exists_range (gridX - 1) (gridX + 1) (λ gx,
      if (0 <=? gy) && (gy <? MAP_HEIGHT) && (0 <=? gx) && (gx <? MAP_WIDTH)
      then
        let tile := getTile (GameMap.tiles map) gx gy in
        let solid := bool_decide (tile = Some SIDEWALK) || bool_decide (tile = Some WATER) in
        let solid := if bool_decide (tile = Some LAVA) && negb isPlayer then true else solid in
        if solid
        then
          let bx := inject_Z (gx * TILE_SIZE) in
          let by' := inject_Z (gy * TILE_SIZE) in
          Qltb l (bx + inject_Z TILE_SIZE) && Qltb bx r &&
          Qltb t (by' + inject_Z TILE_SIZE) && Qltb by' b
        else false
      else false)).

(** The first block of [applyInputToPlayer]: the direction the pressed keys
    ask for. *)
Definition inputDirection (keys : Keys.t) : Q * Q :=
  let dx := 0%Q in
  let dy := 0%Q in
  let dy := if Keys.ArrowUp keys || Keys.KeyW keys then (-1)%Q else dy in
  let dy := if Keys.ArrowDown keys || Keys.KeyS keys then 1%Q else dy in
  let dx := if Keys.ArrowLeft keys || Keys.KeyA keys then (-1)%Q else dx in
  let dx := if Keys.ArrowRight keys || Keys.KeyD keys then 1%Q else dx in
  (dx, dy).

(** [dx !== 0 || dy !== 0]. *)
Definition nonZero (dx dy : Q) : bool := negb (Qeqb dx 0) || negb (Qeqb dy 0).

(** The second block: a direction that is not zero is normalised and
    becomes the facing direction. *)
Definition faceDirection (player : Player.t) (dx dy : Q) : Q * Q * Player.t :=
  if nonZero dx dy
  then
    let length := Math_sqrt (dx * dx + dy * dy) in
    let dx := (dx / length)%Q in
    let dy := (dy / length)%Q in
    (dx, dy, Player.set_dirY dy (Player.set_dirX dx player))
  else (dx, dy, player).

(** The block that moves the player: each axis moves unless the grid blocks
    it. *)
Definition moveWithCollision (player : Player.t) (newX newY : Q) (map : GameMap.t)
  : Player.t :=
  if checkCollision newX (Player.y player) (Player.width player) (Player.height player)
       map true
  then
    if negb (checkCollision (Player.x player) newY
               (Player.width player) (Player.height player) map true)
    then Player.set_y newY player
    else player
  else if checkCollision (Player.x player) newY
            (Player.width player) (Player.height player) map true
  then Player.set_x newX player
  else Player.set_y newY (Player.set_x newX player).

Definition applyInputToPlayer (player : Player.t) (input : Input.t) (deltaTime : Q)
    (gameState : GameState.t) : Player.t :=
  let keys := default Keys.none (Input.keys input) in
  let '(dx, dy) := inputDirection keys in
  let '(dx, dy, player) := faceDirection player dx dy in
  let player := Player.set_velX (dx * Player.speed player) player in
  let player := Player.set_velY (dy * Player.speed player) player in
  let newX := (Player.x player + Player.velX player * deltaTime)%Q in
  let newY := (Player.y player + Player.velY player * deltaTime)%Q in
  let player := moveWithCollision player newX newY (GameState.map gameState) in
  let player :=
    if nonZero dx dy
    then Player.set_energy (Qmin 1 (Player.energy player + deltaTime * (3 # 10))) player
    else player in
  let player :=
    if nonZero dx dy
    then Player.set_trail
           (pushTrail (Player.trail player) (Player.x player, Player.y player)) player
    else player in
  let player :=
    if Qltb 0 (Player.portalCooldown player)
    then Player.set_portalCooldown (Player.portalCooldown player - deltaTime) player
    else player in
  let player :=
    if Player.immunityActive player &&
       Qleb (Player.immunityEndTime player) (GameState.gameTime gameState)
    then Player.set_immunityActive false player
    else player in
  player.

(** *** Input processing *)

(** One round of the loop that looks for the latest input, at index [i]. *)
Definition selectStep (currentTime : Z) (latest : option (nat * Input.t))
    (entry : nat * Input.t) : option (nat * Input.t) :=
  let '(i, input) := entry in
  if negb (Input.processed input) && (Input.timestamp input <=? currentTime)
  then match latest with
       | None => Some (i, input)
       | Some (_, latestInput) =>
           if Input.timestamp latestInput <? Input.timestamp input
           then Some (i, input) else latest
       end
  else latest.

(** The loop from the last index down to 0: [latestIndex] and
    [latestInput], or [None] for [null]. *)
Definition selectLatest (buffer : list Input.t) (currentTime : Z) : option (nat * Input.t) :=
  foldl (selectStep currentTime) None (reverse (imap (λ i input, (i, input)) buffer)).

(** The loop that marks the entries before [latestIndex]. *)
Definition markSuperseded (latestIndex : nat) (currentTime : Z) (buffer : list Input.t)
  : list Input.t :=
  imap (λ i input,
          if (i <? latestIndex)%nat && (Input.timestamp input <=? currentTime)
          then Input.set_processed true input else input) buffer.

(** The entries the buffer keeps: the unprocessed ones, and the processed
    ones younger than a second. *)
Definition stillActive (currentTime : Z) (input : Input.t) : bool :=
  negb (Input.processed input) || (currentTime - Input.timestamp input <? 1000).

(** The body of the loop over the players. *)
Definition processPlayer (gameState : GameState.t) (deltaTime : Q) (currentTime : Z)
    (player : Player.t) (inputBuffers : gmap string (list Input.t))
  : Player.t * gmap string (list Input.t) :=
  let buffer := default [] (inputBuffers !! Player.id player) in
  let '(player', buffer) :=
    match selectLatest buffer currentTime with
    | Some (latestIndex, latestInput) =>
        (applyInputToPlayer player latestInput deltaTime gameState,
         markSuperseded latestIndex currentTime
           (<[latestIndex := Input.set_processed true latestInput]> buffer))
    | None => (player, buffer)
    end in
  let activeBuffer :=
    List.filter (stillActive currentTime) buffer in
  (player', <[Player.id player := activeBuffer]> inputBuffers).

(** The loop over the players. *)
Definition processPlayers (gameState : GameState.t) (deltaTime : Q) (currentTime : Z)
    (players : list Player.t) (inputBuffers : gmap string (list Input.t))
  : list Player.t * gmap string (list Input.t) :=
  foldl (λ '(done, buffers) player,
           let '(player', buffers') :=
             processPlayer gameState deltaTime currentTime player buffers in
           (done ++ [player'], buffers'))
        ([], inputBuffers) players.

Definition processPlayerInputs (deltaTime : Q) (currentTime : Z) : M Sim.t unit :=
  modify (λ s,
    let gameState := Sim.state s in
    let '(players, inputBuffers) :=
      processPlayers gameState deltaTime currentTime
        (GameState.players gameState) (Sim.inputBuffers s) in
    Sim.set_inputBuffers inputBuffers
      (Sim.set_state (GameState.set_players players gameState) s)).

(** *** Boats and enemies *)

Definition updateBoat (deltaTime : Q) (boat : Boat.t) : Boat.t :=
  let speed := 150%Q in
  let totalDist := inject_Z ((MAP_WIDTH - 1 + MAP_HEIGHT - 1) * 2 * TILE_SIZE) in
  let boat := Boat.set_dist (Qrem (Boat.dist boat + speed * deltaTime) totalDist) boat in
  let topLen := inject_Z ((MAP_WIDTH - 1) * TILE_SIZE) in
  let rightLen := inject_Z ((MAP_HEIGHT - 1) * TILE_SIZE) in
  let bottomLen := inject_Z ((MAP_WIDTH - 1) * TILE_SIZE) in
  let currentDist := Boat.dist boat in
  let '(nx, ny, velX, velY) :=
    if Qltb currentDist topLen
    then (currentDist, 0, speed, 0)%Q
    else if Qltb currentDist (topLen + rightLen)
    then (inject_Z ((MAP_WIDTH - 1) * TILE_SIZE), currentDist - topLen, 0, speed)%Q
    else if Qltb currentDist (topLen + rightLen + bottomLen)
    then (inject_Z ((MAP_WIDTH - 1) * TILE_SIZE) - (currentDist - (topLen + rightLen)),
          inject_Z ((MAP_HEIGHT - 1) * TILE_SIZE), - speed, 0)%Q
    else (0, inject_Z ((MAP_HEIGHT - 1) * TILE_SIZE)
             - (currentDist - (topLen + rightLen + bottomLen)), 0, - speed)%Q in
  let boat := Boat.set_velY velY (Boat.set_velX velX boat) in
  Boat.set_y (ny + inject_Z TILE_SIZE / 2)%Q
    (Boat.set_x (nx + inject_Z TILE_SIZE / 2)%Q boat).

Definition updateBoats (deltaTime : Q) : M Sim.t unit :=
  modifyState (λ gameState,
    GameState.set_boats (map (updateBoat deltaTime) (GameState.boats gameState)) gameState).

(** The search for the nearest player; [minDist] starts as [Infinity]. *)
Definition nearestPlayer (enemy : Enemy.t) (players : list Player.t) : option Player.t :=
  snd <$>
  foldl (λ nearest player,
           let dist := Math_hypot (Player.x player - Enemy.x enemy)
                                  (Player.y player - Enemy.y enemy) in
           match nearest with
           | None => Some (dist, player)
           | Some (minDist, _) =>
               if Qltb dist minDist then Some (dist, player) else nearest
           end) None players.

Definition updateEnemy (gameState : GameState.t) (deltaTime : Q) (enemy : Enemy.t)
  : M Env Enemy.t :=
  match nearestPlayer enemy (GameState.players gameState) with
  | None => ret enemy
  | Some nearestPlayer =>
      let '(enemy, moveX, moveY) :=
        if Qltb 0 (Enemy.flankTimer enemy)
        then
          let enemy := Enemy.set_flankTimer (Enemy.flankTimer enemy - deltaTime) enemy in
          let moveX := ((Enemy.flankDir enemy).1 * Enemy.speed enemy * deltaTime)%Q in
          let moveY := ((Enemy.flankDir enemy).2 * Enemy.speed enemy * deltaTime)%Q in
          let enemy := if Qleb (Enemy.flankTimer enemy) 0
                       then Enemy.set_stuckTime 0 enemy else enemy in
          (enemy, moveX, moveY)
        else
          let edx := (Player.x nearestPlayer - Enemy.x enemy)%Q in
          let edy := (Player.y nearestPlayer - Enemy.y enemy)%Q in
          let dist := Math_hypot edx edy in
          if Qltb 0 dist
          then (enemy, (edx / dist) * Enemy.speed enemy * deltaTime,
                       (edy / dist) * Enemy.speed enemy * deltaTime)%Q
          else (enemy, 0%Q, 0%Q) in
      let map := GameState.map gameState in
      let '(enemy, actualX) :=
        if negb (checkCollision (Enemy.x enemy + moveX) (Enemy.y enemy)
                   (Enemy.width enemy) (Enemy.height enemy) map false)
        then (Enemy.set_x (Enemy.x enemy + moveX) enemy, moveX)
        else (enemy, 0%Q) in
      let '(enemy, actualY) :=
        if negb (checkCollision (Enemy.x enemy) (Enemy.y enemy + moveY)
                   (Enemy.width enemy) (Enemy.height enemy) map false)
        then (Enemy.set_y (Enemy.y enemy + moveY) enemy, moveY)
        else (enemy, 0%Q) in
      let* enemy :=
        if Qleb (Enemy.flankTimer enemy) 0
        then
          let intended := (Enemy.speed enemy * deltaTime)%Q in
          let actual := Math_hypot actualX actualY in
          if Qltb actual (intended * (5 # 10))
          then
            let enemy := Enemy.set_stuckTime (Enemy.stuckTime enemy + deltaTime) enemy in
            if Qltb (5 # 10) (Enemy.stuckTime enemy)
            then
              let enemy := Enemy.set_flankTimer 1 enemy in
              let edx := (Player.x nearestPlayer - Enemy.x enemy)%Q in
              let edy := (Player.y nearestPlayer - Enemy.y enemy)%Q in
              let dist := Math_hypot edx edy in
              if Qltb 0 dist
              then
                let edxNorm := (edx / dist)%Q in
                let edyNorm := (edy / dist)%Q in
                let* r := Math_random in
                if Qltb r (5 # 10)
                then ret (Enemy.set_flankDir ((- edyNorm)%Q, edxNorm) enemy)
                else ret (Enemy.set_flankDir (edyNorm, (- edxNorm)%Q) enemy)
              else ret enemy
            else ret enemy
          else ret (Enemy.set_stuckTime (Qmax 0 (Enemy.stuckTime enemy - deltaTime)) enemy)
        else ret enemy in
      ret (Enemy.set_trail
             (pushTrail (Enemy.trail enemy) (Enemy.x enemy, Enemy.y enemy)) enemy)
  end.

Definition updateEnemies (deltaTime : Q) : M Sim.t unit :=
  let* gameState := getState in
  let* enemies :=
    liftEnv (foldM (λ done enemy,
                      let* enemy' := updateEnemy gameState deltaTime enemy in
                      ret (done ++ [enemy']))
                   [] (GameState.enemies gameState)) in
  modifyState (GameState.set_enemies enemies).

(** *** Spawning *)

(** [`prefix_${Date.now()}_${Math.random()}`]. *)
Definition freshId (prefix : string) : M Env EntityId :=
  let* now := Date_now in
  let* r := Math_random in
  ret {| id_prefix := prefix; id_time := now; id_random := r |}.

(** [Date.now () * 0.001]. *)
Definition nowSeconds : M Env Q :=
  let* now := Date_now in
  ret (inject_Z now * (1 # 1000))%Q.

(** Is some player nearer than [minDist] to [(cx, cy)]. *)
Definition tooCloseToPlayers (gameState : GameState.t) (cx cy minDist : Q) : bool :=
  existsb (λ player,
             Qltb (Math_hypot (cx - Player.x player) (cy - Player.y player)) minDist)
          (GameState.players gameState).

(** The search loop of [spawnCoin] with [attempts] rounds left. *)
Fixpoint spawnCoinAttempts (attempts : nat) (gameState : GameState.t) : M Env GameState.t :=
  match attempts with
  | O => ret gameState
  | S attempts' =>
      let* rx := randomInterior MAP_WIDTH in
      let* ry := randomInterior MAP_HEIGHT in
      if bool_decide (getTile (GameMap.tiles (GameState.map gameState)) rx ry = Some ROAD)
      then
        let '(cx, cy) := tileCentre rx ry in
        if negb (tooCloseToPlayers gameState cx cy 200)
        then
          let* id := freshId "coin" in
          let* spawnTime := nowSeconds in
          ret (GameState.set_coins
                 (GameState.coins gameState ++
                    [{| Coin.id := id; Coin.x := cx; Coin.y := cy;
                        Coin.collected := false; Coin.spawnTime := spawnTime |}])
                 gameState)
        else spawnCoinAttempts attempts' gameState
      else spawnCoinAttempts attempts' gameState
  end.

Definition uncollectedCoins (gameState : GameState.t) : list Coin.t :=
  List.filter (λ c, negb (Coin.collected c)) (GameState.coins gameState).

Definition spawnCoin (gameState : GameState.t) : M Env GameState.t :=
  if 40 <=? Z.of_nat (length (uncollectedCoins gameState))
  then ret gameState
  else spawnCoinAttempts 100 gameState.

(** The search loop of [spawnImmunityPickup] with [attempts] rounds left. *)
Fixpoint spawnImmunityPickupAttempts (attempts : nat) (minX maxX minY maxY quadrant : Z)
    (gameState : GameState.t) : M Env GameState.t :=
  match attempts with
  | O => ret gameState
  | S attempts' =>
      let* r1 := Math_random in
      let rx := Math_floor (inject_Z minX + r1 * inject_Z (maxX - minX)) in
      let* r2 := Math_random in
      let ry := Math_floor (inject_Z minY + r2 * inject_Z (maxY - minY)) in
      if bool_decide (getTile (GameMap.tiles (GameState.map gameState)) rx ry = Some ROAD)
      then
        let '(cx, cy) := tileCentre rx ry in
        let* id := freshId "immunity" in
        let* spawnTime := nowSeconds in
        ret (GameState.set_immunityPickups
               (GameState.immunityPickups gameState ++
                  [{| ImmunityPickup.id := id; ImmunityPickup.x := cx;
                      ImmunityPickup.y := cy; ImmunityPickup.collected := false;
                      ImmunityPickup.quadrant := quadrant;
                      ImmunityPickup.spawnTime := spawnTime |}])
               gameState)
      else spawnImmunityPickupAttempts attempts' minX maxX minY maxY quadrant gameState
  end.

Definition spawnImmunityPickup (gameState : GameState.t) (quadrant : Z) : M Env GameState.t :=
  let midX := MAP_WIDTH / 2 in
  let midY := MAP_HEIGHT / 2 in
  let '(minX, maxX, minY, maxY) := (1, midX - 1, 1, midY - 1) in
  let '(minX, maxX) := if quadrant =? 1 then (midX, MAP_WIDTH - 2) else (minX, maxX) in
  let '(minY, maxY) := if quadrant =? 2 then (midY, MAP_HEIGHT - 2) else (minY, maxY) in
  let '(minX, maxX, minY, maxY) :=
    if quadrant =? 3 then (midX, MAP_WIDTH - 2, midY, MAP_HEIGHT - 2)
    else (minX, maxX, minY, maxY) in
  spawnImmunityPickupAttempts 100 minX maxX minY maxY quadrant gameState.

(** The search loop of [spawnSinkCollectible] with [attempts] rounds left. *)
Fixpoint spawnSinkAttempts (attempts : nat) (gameState : GameState.t) : M Env GameState.t :=
  match attempts with
  | O => ret gameState
  | S attempts' =>
      let* rx := randomInterior MAP_WIDTH in
      let* ry := randomInterior MAP_HEIGHT in
      if bool_decide (getTile (GameMap.tiles (GameState.map gameState)) rx ry = Some ROAD)
      then
        let '(cx, cy) := tileCentre rx ry in
        if negb (tooCloseToPlayers gameState cx cy 300)
        then
          let* id := freshId "sink" in
          let* spawnTime := nowSeconds in
          ret (GameState.set_sinkCollectibles
                 (GameState.sinkCollectibles gameState ++
                    [{| SinkCollectible.id := id; SinkCollectible.x := cx;
                        SinkCollectible.y := cy; SinkCollectible.collected := false;
                        SinkCollectible.spawnTime := spawnTime |}])
                 gameState)
        else spawnSinkAttempts attempts' gameState
      else spawnSinkAttempts attempts' gameState
  end.

Definition spawnSinkCollectible (gameState : GameState.t) : M Env GameState.t :=
  if 2 <=? Z.of_nat (length (List.filter (λ s, negb (SinkCollectible.collected s))
                               (GameState.sinkCollectibles gameState)))
  then ret gameState
  else spawnSinkAttempts 100 gameState.

(** [for (let i = 0; i < n; i++) step (gameState)]. *)
Definition repeatSpawn (n : Z) (step : GameState.t → M Env GameState.t)
    (gameState : GameState.t) : M Env GameState.t :=
  foldM (λ gs _, step gs) gameState (seqZ 0 n).

(** The part of [handleSpawning] that applies the speed boost. *)
Definition applySpeedBoost (gameState : GameState.t) : GameState.t :=
  if negb (GameState.speedBoostApplied gameState) && Qleb 30 (GameState.gameTime gameState)
  then
    let gameState := GameState.set_speedBoostApplied true gameState in
    let gameState :=
      GameState.set_players
        (map (Player.set_speed (BASE_PLAYER_SPEED * (12 # 10)))
             (GameState.players gameState)) gameState in
    GameState.set_enemies
      (map (λ enemy, Enemy.set_speed (Enemy.speed enemy * (12 # 10)) enemy)
           (GameState.enemies gameState)) gameState
  else gameState.

(** The part of [handleSpawning] that spawns coins. *)
Definition handleCoinSpawning (gameState : GameState.t) (deltaTime : Q) : M Env GameState.t :=
  let* gameState :=
    if negb (GameState.coinsInitialized gameState)
    then repeatSpawn 20 spawnCoin (GameState.set_coinsInitialized true gameState)
    else ret gameState in
  let gameState :=
    GameState.set_coinSpawnTimer (GameState.coinSpawnTimer gameState + deltaTime) gameState in
  if Qleb (GameState.nextCoinSpawnTime gameState) (GameState.coinSpawnTimer gameState)
  then
    let gameState := GameState.set_coinSpawnTimer 0 gameState in
    let* r := Math_random in
    let gameState := GameState.set_nextCoinSpawnTime (3 + r * 4) gameState in
    let* r' := Math_random in
    let numCoins := 3 + Math_floor (r' * 3) in
    repeatSpawn numCoins spawnCoin gameState
  else ret gameState.

(** The part of [handleSpawning] for immunity pickups and sink collectibles. *)
Definition handleCollectibleSpawning (gameState : GameState.t) (deltaTime : Q)
  : M Env GameState.t :=
  if Qleb COLLECTIBLES_START_TIME (GameState.gameTime gameState)
  then
    let* gameState :=
      if negb (GameState.collectiblesInitialized gameState)
      then
        let gameState := GameState.set_collectiblesInitialized true gameState in
        let* gameState := foldM spawnImmunityPickup gameState (seqZ 0 4) in
        spawnSinkCollectible gameState
      else ret gameState in
    let gameState :=
      GameState.set_immunityPickupSpawnTimer
        (GameState.immunityPickupSpawnTimer gameState + deltaTime) gameState in
    let* gameState :=
      if Qleb (GameState.nextImmunityPickupSpawnTime gameState)
              (GameState.immunityPickupSpawnTimer gameState)
      then
        let gameState := GameState.set_immunityPickupSpawnTimer 0 gameState in
        let* r := Math_random in
        let gameState := GameState.set_nextImmunityPickupSpawnTime (25 + r * 15) gameState in
        let quadrantCount (q : Z) : Z :=
          Z.of_nat (length (List.filter
                              (λ p, negb (ImmunityPickup.collected p) &&
                                    (ImmunityPickup.quadrant p =? q))
                              (GameState.immunityPickups gameState))) in
        foldM (λ gs q, if quadrantCount q <? 2 then spawnImmunityPickup gs q else ret gs)
              gameState (seqZ 0 4)
      else ret gameState in
    let gameState :=
      GameState.set_sinkSpawnTimer (GameState.sinkSpawnTimer gameState + deltaTime) gameState in
    if Qleb (GameState.nextSinkSpawnTime gameState) (GameState.sinkSpawnTimer gameState)
    then
      let gameState := GameState.set_sinkSpawnTimer 0 gameState in
      let* r := Math_random in
      let gameState := GameState.set_nextSinkSpawnTime (25 + r * 10) gameState in
      spawnSinkCollectible gameState
    else ret gameState
  else ret gameState.

(** The part of [handleSpawning] that spawns enemies. *)
Definition handleEnemySpawning (gameState : GameState.t) (deltaTime : Q) : M Env GameState.t :=
  let gameState :=
    GameState.set_enemySpawnTimer (GameState.enemySpawnTimer gameState + deltaTime) gameState in
  if Qleb 30 (GameState.enemySpawnTimer gameState)
  then
    let gameState := GameState.set_enemySpawnTimer 0 gameState in
    let centre := firstPlayerPosition (GameState.players gameState) in
    foldM (λ gs _,
             let* enemy := spawnEnemy (GameState.map gs) centre.1 centre.2 800 in
             match enemy with
             | Some enemy =>
                 let enemy := if GameState.speedBoostApplied gs
                              then Enemy.set_speed (Enemy.speed enemy * (12 # 10)) enemy
                              else enemy in
                 ret (GameState.set_enemies (GameState.enemies gs ++ [enemy]) gs)
             | None => ret gs
             end) gameState (seqZ 0 2)
  else ret gameState.

Definition handleSpawning (deltaTime : Q) : M Sim.t unit :=
  let* gameState := getState in
  let gameState := applySpeedBoost gameState in
  let* gameState := liftEnv (handleCoinSpawning gameState deltaTime) in
  let* gameState := liftEnv (handleCollectibleSpawning gameState deltaTime) in
  let* gameState := liftEnv (handleEnemySpawning gameState deltaTime) in
  modifyState (λ _, gameState).

(** *** Collectibles and portals *)

Definition updateCollectibles (deltaTime : Q) : M Sim.t unit :=
  modifyState (λ gameState,
    let gameState := GameState.set_coins (uncollectedCoins gameState) gameState in
    let gameState :=
      GameState.set_immunityPickups
        (List.filter (λ p, negb (ImmunityPickup.collected p))
                     (GameState.immunityPickups gameState)) gameState in
    GameState.set_sinkCollectibles
      (List.filter (λ s, negb (SinkCollectible.collected s))
                   (GameState.sinkCollectibles gameState)) gameState).

(** [updatePortals].  The life of a portal is counted in exact seconds.  In
    the code it is a double, and [life -= deltaTime] rounds: a life that
    reaches 0 exactly here (and is kept, [!p.life] being true of 0) can be
    a rounding error away from 0 in the code, where the portal then leaves
    one tick earlier. *)
Definition updatePortals (deltaTime : Q) : M Sim.t unit :=
  modifyState (λ gameState,
    let portals :=
      map (λ portal,
             let portal := Portal.set_angle (Portal.angle portal + 2 * deltaTime) portal in
             match Portal.life portal with
             | Some life => Portal.set_life (Some (life - deltaTime)%Q) portal
             | None => portal
             end) (GameState.portals gameState) in
    GameState.set_portals
      (List.filter (λ p, match Portal.life p with
                         | None => true
                         | Some life => Qeqb life 0 || Qltb 0 life
                         end) portals) gameState).

(** *** The collision pass *)

Definition setPlayer (i : nat) (player : Player.t) : M Sim.t unit :=
  modifyState (λ gs, GameState.set_players (<[i := player]> (GameState.players gs)) gs).

Definition setEnemy (j : nat) (enemy : Enemy.t) : M Sim.t unit :=
  modifyState (λ gs, GameState.set_enemies (<[j := enemy]> (GameState.enemies gs)) gs).

(** [gameState.boats.some (...)]: is the player on a boat. *)
Definition onBoat (gameState : GameState.t) (player : Player.t) : bool :=
  existsb (λ boat,
             let dx := (Player.x player - Boat.x boat)%Q in
             let dy := (Player.y player - Boat.y boat)%Q in
             Qltb (Qabs' dx) (Boat.w boat / 2 + Player.width player / 2) &&
             Qltb (Qabs' dy) (Boat.h boat / 2 + Player.height player / 2))
          (GameState.boats gameState).

(** The tile under the player, when the player is inside the grid. *)
Definition tileUnder (gameState : GameState.t) (player : Player.t) : option Z :=
  let gridX := Math_floor (Player.x player / inject_Z TILE_SIZE) in
  let gridY := Math_floor (Player.y player / inject_Z TILE_SIZE) in
  if (0 <=? gridY) && (gridY <? MAP_HEIGHT) && (0 <=? gridX) && (gridX <? MAP_WIDTH)
  then getTile (GameMap.tiles (GameState.map gameState)) gridX gridY
  else None.

(** One round of the loop over the enemies: contact of the player with
    enemy [j]. *)
Definition enemyContact (player : Player.t) (j : nat) : M Sim.t unit :=
  let* gameState := getState in
  match GameState.enemies gameState !! j with
  | None => ret tt
  | Some enemy =>
      let dist := Math_hypot (Player.x player - Enemy.x enemy)
                             (Player.y player - Enemy.y enemy) in
      if Qltb dist (Player.width player / 2 + Enemy.width enemy / 2)
      then
        if negb (Player.immunityActive player)
        then liftEnv (emit io (GameState.roomCode gameState)
                        (player_death (Player.id player)))
        else
          let* newPos := liftEnv (spawnEnemy (GameState.map gameState)
                                    (Player.x player) (Player.y player) 500) in
          match newPos with
          | Some newPos =>
              setEnemy j (Enemy.set_trail []
                            (Enemy.set_y (Enemy.y newPos)
                               (Enemy.set_x (Enemy.x newPos) enemy)))
          | None => ret tt
          end
      else ret tt
  end.

(** One round of the loop over the coins. *)
Definition collectCoin (player : Player.t) (coin : Coin.t) : Player.t * Coin.t :=
  if Coin.collected coin then (player, coin)
  else
    let d := Math_hypot (Player.x player - Coin.x coin) (Player.y player - Coin.y coin) in
    if Qltb d 25
    then
      let coin := Coin.set_collected true coin in
      let player := Player.set_coinsCollected (Player.coinsCollected player + 1) player in
      let player :=
        if COINS_FOR_IMMUNITY <=? Player.coinsCollected player
        then
          if Player.immunityInventory player <? MAX_IMMUNITY_INVENTORY
          then Player.set_coinsCollected 0
                 (Player.set_immunityInventory (Player.immunityInventory player + 1) player)
          else Player.set_coinsCollected (COINS_FOR_IMMUNITY - 1) player
        else player in
      (player, coin)
    else (player, coin).

(** A loop over pickups that mutates the player and the pickup of the
    round. *)
Definition collectAll {A : Type} (round : Player.t → A → Player.t * A)
    (player : Player.t) (pickups : list A) : Player.t * list A :=
  foldl (λ '(player, done) pickup,
           let '(player', pickup') := round player pickup in
           (player', done ++ [pickup']))
        (player, []) pickups.

Definition collectCoins (player : Player.t) (coins : list Coin.t) : Player.t * list Coin.t :=
  collectAll collectCoin player coins.

(** One round of the loop over the immunity pickups. *)
Definition collectImmunityPickup (gameTime : Q) (player : Player.t)
    (pickup : ImmunityPickup.t) : Player.t * ImmunityPickup.t :=
  if ImmunityPickup.collected pickup then (player, pickup)
  else
    let d := Math_hypot (Player.x player - ImmunityPickup.x pickup)
                        (Player.y player - ImmunityPickup.y pickup) in
    if Qltb d 30
    then (Player.set_immunityEndTime (gameTime + IMMUNITY_DURATION)
            (Player.set_immunityActive true player),
          ImmunityPickup.set_collected true pickup)
    else (player, pickup).

(** One round of the loop over the sink collectibles. *)
Definition collectSink (player : Player.t) (sink : SinkCollectible.t)
  : Player.t * SinkCollectible.t :=
  if SinkCollectible.collected sink then (player, sink)
  else
    let d := Math_hypot (Player.x player - SinkCollectible.x sink)
                        (Player.y player - SinkCollectible.y sink) in
    if Qltb d 30
    then
      if Player.sinkInventory player <? 3
      then (Player.set_sinkInventory (Player.sinkInventory player + 1) player,
            SinkCollectible.set_collected true sink)
      else (player, sink)
    else (player, sink).

(** The three pickup loops for player [i]. *)
Definition collectPickups (i : nat) : M Sim.t unit :=
  modifyState (λ gameState,
    match GameState.players gameState !! i with
    | None => gameState
    | Some player =>
        let '(player, coins) := collectCoins player (GameState.coins gameState) in
        let '(player, pickups) :=
          collectAll (collectImmunityPickup (GameState.gameTime gameState))
            player (GameState.immunityPickups gameState) in
        let '(player, sinks) :=
          collectAll collectSink player (GameState.sinkCollectibles gameState) in
        GameState.set_players (<[i := player]> (GameState.players gameState))
          (GameState.set_sinkCollectibles sinks
             (GameState.set_immunityPickups pickups
                (GameState.set_coins coins gameState)))
    end).

(** [portals.filter ((_, idx) => idx !== k)]. *)
Definition otherPortals (portals : list Portal.t) (k : nat) : list Portal.t :=
  map snd (List.filter (λ '(idx, _), negb (idx =? k)%nat)
             (imap (λ idx p, (idx, p)) portals)).

(** One round of the loop over the portals, for player [i] and portal [k].
    Reading [dest.x] of an index outside [otherPortals] throws. *)
Definition portalContact (i k : nat) : M Sim.t unit :=
  let* gameState := getState in
  match GameState.players gameState !! i, GameState.portals gameState !! k with
  | Some player, Some portal =>
      let d := Math_hypot (Player.x player - Portal.x portal)
                          (Player.y player - Portal.y portal) in
      if Qltb d 20
      then
        let others := otherPortals (GameState.portals gameState) k in
        if 0 <? Z.of_nat (length others)
        then
          let* r := liftEnv Math_random in
          let index := Math_floor (r * inject_Z (Z.of_nat (length others))) in
          match (if 0 <=? index then others !! Z.to_nat index else None) with
          | Some dest =>
              setPlayer i (Player.set_trail []
                             (Player.set_portalCooldown 2
                                (Player.set_y (Portal.y dest)
                                   (Player.set_x (Portal.x dest) player))))
          | None => throw "TypeError"
          end
        else ret tt
      else ret tt
  | _, _ => ret tt
  end.

(** One round of the inner loop over the deployed sinks, for player [i],
    enemy [j] and sink [k]. *)
Definition sinkContact (i j k : nat) : M Sim.t unit :=
  let* gameState := getState in
  match GameState.players gameState !! i,
        GameState.enemies gameState !! j,
        GameState.deployedSinks gameState !! k with
  | Some player, Some enemy, Some sink =>
      let d := Math_hypot (Enemy.x enemy - DeployedSink.x sink)
                          (Enemy.y enemy - DeployedSink.y sink) in
      if Qltb d 25
      then
        modifyState (λ gs, GameState.set_deployedSinks
                             (delete k (GameState.deployedSinks gs)) gs) ;;
        let* newPos := liftEnv (spawnEnemy (GameState.map gameState)
                                  (Player.x player) (Player.y player) 1000) in
        match newPos with
        | Some newPos =>
            setEnemy j (Enemy.set_trail []
                          (Enemy.set_y (Enemy.y newPos)
                             (Enemy.set_x (Enemy.x newPos) enemy)))
        | None => ret tt
        end
      else ret tt
  | _, _, _ => ret tt
  end.

(** The checks that follow the lava check, for player [i]. *)
Definition checkContacts (i : nat) (player : Player.t) : M Sim.t unit :=
  let* gameState := getState in
  forEach (seq 0 (length (GameState.enemies gameState))) (enemyContact player) ;;
  collectPickups i ;;
  let* gameState := getState in
  (if Qleb (Player.portalCooldown (default player (GameState.players gameState !! i))) 0
   then forEach (seq 0 (length (GameState.portals gameState))) (portalContact i)
   else ret tt) ;;
  let* gameState := getState in
  forEach (seq 0 (length (GameState.enemies gameState))) (λ j,
    let* gameState := getState in
    forEach (reverse (seq 0 (length (GameState.deployedSinks gameState))))
            (sinkContact i j)).

(** The body of the loop over the players, for player [i]. *)
Definition checkPlayerCollisions (i : nat) : M Sim.t unit :=
  let* gameState := getState in
  match GameState.players gameState !! i with
  | None => ret tt
  | Some player =>
      if bool_decide (tileUnder gameState player = Some LAVA)
      then
        if negb (onBoat gameState player)
        then liftEnv (emit io (GameState.roomCode gameState)
                        (player_death (Player.id player)))
        else checkContacts i player
      else checkContacts i player
  end.

Definition checkCollisions : M Sim.t unit :=
  let* gameState := getState in
  forEach (seq 0 (length (GameState.players gameState))) checkPlayerCollisions.

(** *** Broadcast *)

Definition sanitizePlayer (p : Player.t) : ClientPlayer.t :=
  {| ClientPlayer.id := Player.id p;
     ClientPlayer.name := Player.name p;
     ClientPlayer.x := Player.x p;
     ClientPlayer.y := Player.y p;
     ClientPlayer.velX := Player.velX p;
     ClientPlayer.velY := Player.velY p;
     ClientPlayer.dirX := Player.dirX p;
     ClientPlayer.dirY := Player.dirY p;
     ClientPlayer.speed := Player.speed p;
     ClientPlayer.trail := Player.trail p;
     ClientPlayer.coinsCollected := Player.coinsCollected p;
     ClientPlayer.immunityInventory := Player.immunityInventory p;
     ClientPlayer.sinkInventory := Player.sinkInventory p;
     ClientPlayer.energy := Player.energy p;
     ClientPlayer.immunityActive := Player.immunityActive p;
     ClientPlayer.immunityEndTime := Player.immunityEndTime p |}.

Definition broadcastGameState (roomCode : string) : M Sim.t unit :=
  let* gameState := getState in
  let* now := liftEnv Date_now in
  let clientState :=
    {| ClientState.players := map sanitizePlayer (GameState.players gameState);
       ClientState.enemies := GameState.enemies gameState;
       ClientState.boats := GameState.boats gameState;
       ClientState.coins := uncollectedCoins gameState;
       ClientState.immunityPickups :=
         List.filter (λ p, negb (ImmunityPickup.collected p))
                     (GameState.immunityPickups gameState);
       ClientState.sinkCollectibles :=
         List.filter (λ s, negb (SinkCollectible.collected s))
                     (GameState.sinkCollectibles gameState);
       ClientState.deployedSinks := GameState.deployedSinks gameState;
       ClientState.portals := GameState.portals gameState;
       ClientState.gameTime := GameState.gameTime gameState;
       ClientState.timestamp := now |} in
  liftEnv (emit io roomCode (game_state clientState)).

(** *** The tick *)

(** The passes of [updateRoom] on the room's state. *)
Definition updateRoomState (roomCode : string) (deltaTime : Q) (currentTime : Z)
  : M Sim.t unit :=
  modifyState (λ gs, GameState.set_gameTime (GameState.gameTime gs + deltaTime) gs) ;;
  processPlayerInputs deltaTime currentTime ;;
  updateBoats deltaTime ;;
  updateEnemies deltaTime ;;
  handleSpawning deltaTime ;;
  updateCollectibles deltaTime ;;
  updatePortals deltaTime ;;
  checkCollisions ;;
  broadcastGameState roomCode.

(** What the server holds once the passes have run on the room's state:
    the state was mutated in place, so it is written whether the passes
    returned or threw. *)
Definition storeRoom (roomCode : string) (s : Sim.t) (w : World.t) : World.t :=
  World.set_env (Sim.env s)
    (World.set_inputBuffers (Sim.inputBuffers s)
       (World.set_roomStates (<[roomCode := Sim.state s]> (World.roomStates w)) w)).

Definition updateRoom (roomCode : string) (deltaTime : Q) (currentTime : Z)
  : M World.t unit :=
  λ w,
    match getGameState roomCode w with
    | None => Normal tt w
    | Some gameState =>
        match updateRoomState roomCode deltaTime currentTime
                {| Sim.state := gameState;
                   Sim.inputBuffers := World.inputBuffers w;
                   Sim.env := World.env w |} with
        | Normal _ s => Normal tt (storeRoom roomCode s w)
        | Thrown e s => Thrown e (storeRoom roomCode s w)
        | Diverged => Diverged
        end
    end.

Definition tick : M World.t unit :=
  let deltaTime := (1 / tickRate)%Q in
  let* currentTime := liftEnv Date_now in
  let* rooms := gets getAllRooms in
  forEach rooms (λ room,
    if bool_decide (Room.status room = PLAYING)
    then updateRoom (Room.code room) deltaTime currentTime
    else ret tt).

End GameLoop.

End QbitCityGameLoop.

(** ** [utils/roomUtils.js] and [RoomManager]

    The room manager holds the rooms in a [Map] from room code to room
    object; [createRoom] is its only writer of keys and files every room
    under the room's own code, so the [Map] is the list of its rooms in
    insertion order, keyed by [code]. *)

(** [ROOM_CONFIG] of [config/constants.js]. *)
Definition DEFAULT_MAX_PLAYERS : Z := 4.
Definition ROOM_CODE_LENGTH : nat := 6.
Definition ROOM_CODE_CHARS : string := "ABCDEFGHIJKLMNOPQRSTUVWXYZ0123456789".
Definition MIN_PLAYERS_TO_START : Z := 1.

(** A player of a room, as the room manager holds it. *)
Module RoomPlayer.
Record t := mk { id : string; name : string; isHost : bool; coins : Z }.
Definition set_isHost (v : bool) (p : t) : t :=
  {| id := id p; name := name p; isHost := v; coins := coins p |}.
End RoomPlayer.

(** A number as a comparison reads it: what [ToNumber] gives of a value. *)
Inductive JsNumber :=
| Finite (q : Q)
| PlusInfinity
| MinusInfinity
| NaN.

(** [n >= limit] for a count [n]: false when [limit] is not a number. *)
Definition reaches (n : Z) (limit : JsNumber) : bool :=
  match limit with
  | Finite q => Qleb q (inject_Z n)
  | MinusInfinity => true
  | PlusInfinity | NaN => false
  end.

(** A room object, with all its fields.  [maxPlayers] is whatever the
    creator of the room sent, stored unvalidated; the room manager reads it
    in [room.players.length >= room.maxPlayers] only, so the field holds
    the number that comparison converts the stored value to: [NaN] for most
    strings and for objects. *)
Module ManagedRoom.
Record t := mk {
  code : string;
  hostId : string;
  players : list RoomPlayer.t;
  status : RoomStatus;
  createdAt : Z;
  maxPlayers : JsNumber
}.
Definition set_hostId (v : string) (r : t) : t :=
  {| code := code r; hostId := v; players := players r; status := status r;
     createdAt := createdAt r; maxPlayers := maxPlayers r |}.
Definition set_players (v : list RoomPlayer.t) (r : t) : t :=
  {| code := code r; hostId := hostId r; players := v; status := status r;
     createdAt := createdAt r; maxPlayers := maxPlayers r |}.
Definition set_status (v : RoomStatus) (r : t) : t :=
  {| code := code r; hostId := hostId r; players := players r; status := v;
     createdAt := createdAt r; maxPlayers := maxPlayers r |}.
End ManagedRoom.

(** What the game services read of a room. *)
Definition roomView (room : ManagedRoom.t) : Room.t :=
  {| Room.code := ManagedRoom.code room;
     Room.players := map (λ p, (RoomPlayer.id p, RoomPlayer.name p))
                         (ManagedRoom.players room);
     Room.status := ManagedRoom.status room |}.

Section RoomUtils.
Local Open Scope js_scope.

(** [str.charAt (i)]: the empty string when [i] is outside the string. *)
Definition charAt (s : string) (i : Z) : string :=
  if 0 <=? i
  then match String.get (Z.to_nat i) s with
       | Some c => String c EmptyString
       | None => EmptyString
       end
  else EmptyString.

(** The loop that draws the [n] characters left of a code. *)
Fixpoint randomCode (n : nat) (code : string) : M Env string :=
  match n with
  | O => ret code
  | S n' =>
      let* r := Math_random in
      let index := Math_floor (r * inject_Z (Z.of_nat (String.length ROOM_CODE_CHARS))) in
      randomCode n' (String.append code (charAt ROOM_CODE_CHARS index))
  end.

(** The [do ... while] of [generateRoomCode] from [attempts] attempts made;
    [has] is the test on [existingRooms].  The loop stops at
    [maxAttempts = 100]; [fuel] bounds its rounds here. *)
Fixpoint generateRoomCodeFrom (fuel : nat) (attempts : Z) (has : string → bool)
  : M Env (string * Z) :=
  let* code := randomCode ROOM_CODE_LENGTH EmptyString in
  let attempts := attempts + 1 in
  if has code && (attempts <? 100)
  then match fuel with
       | O => λ _, Diverged
       | S fuel' => generateRoomCodeFrom fuel' attempts has
       end
  else ret (code, attempts).

Definition generateRoomCode (has : string → bool) : M Env string :=
  let* '(code, attempts) := generateRoomCodeFrom 100 0 has in
  if 100 <=? attempts then throw "Failed to generate unique room code"
  else ret code.

(** [`Player_${socketId.substring (0, 6)}`]. *)
Definition generateDefaultPlayerName (socketId : string) : string :=
  String.append "Player_" (substring 0 6 socketId).

(** [name || fallback] on a string that may be missing: the empty string is
    falsy. *)
Definition stringOr (s : option string) (fallback : string) : string :=
  match s with
  | Some s => if bool_decide (s = EmptyString) then fallback else s
  | None => fallback
  end.

End RoomUtils.

(** What [validateJoinRoom] and [validateStartGame] return. *)
Module Validation.
Record t := mk { valid : bool; error : option string }.
End Validation.

(** What [removePlayerFromRoom] returns. *)
Module Removal.
Record t := mk {
  wasHost : bool;
  roomDeleted : bool;
  newHostId : option string;
  room : option ManagedRoom.t
}.
End Removal.

Module RoomManager.

Local Open Scope js_scope.

(** [this.rooms]. *)
Definition t : Type := list ManagedRoom.t.

(** The operations of the [Map]. *)
Definition has (roomCode : string) (rooms : t) : bool :=
  existsb (λ room, bool_decide (ManagedRoom.code room = roomCode)) rooms.

Definition get (roomCode : string) (rooms : t) : option ManagedRoom.t :=
  List.find (λ room, bool_decide (ManagedRoom.code room = roomCode)) rooms.

(** [rooms.set (room.code, room)]: a key that is there keeps its place. *)
Definition set (room : ManagedRoom.t) (rooms : t) : t :=
  if has (ManagedRoom.code room) rooms
  then map (λ r, if bool_decide (ManagedRoom.code r = ManagedRoom.code room)
                 then room else r) rooms
  else rooms ++ [room].

Definition remove (roomCode : string) (rooms : t) : t :=
  List.filter (λ room, negb (bool_decide (ManagedRoom.code room = roomCode))) rooms.

(** [room.players.some (p => p.id === socketId)]. *)
Definition isMember (socketId : string) (room : ManagedRoom.t) : bool :=
  existsb (λ p, bool_decide (RoomPlayer.id p = socketId)) (ManagedRoom.players room).

(** [createRoom (socketId, playerData)]; [name] and [maxPlayers] are the
    two properties it reads of [playerData].  [maxPlayers] is [None] for a
    value that is missing or falsy (0, NaN, the empty string, null, false),
    which [||] replaces by the default, and else the number the value
    converts to: 2.5 for 2.5, 3 for "3", [NaN] for "many". *)
Definition createRoom (socketId : string) (name : option string)
    (maxPlayers : option JsNumber) (rooms : t) : M Env (ManagedRoom.t * t) :=
  let* roomCode := generateRoomCode (λ code, has code rooms) in
  let player :=
    {| RoomPlayer.id := socketId;
       RoomPlayer.name := stringOr name (generateDefaultPlayerName socketId);
       RoomPlayer.isHost := true;
       RoomPlayer.coins := 0 |} in
  let* now := Date_now in
  let room :=
    {| ManagedRoom.code := roomCode;
       ManagedRoom.hostId := socketId;
       ManagedRoom.players := [player];
       ManagedRoom.status := WAITING;
       ManagedRoom.createdAt := now;
       ManagedRoom.maxPlayers :=
         default (Finite (inject_Z DEFAULT_MAX_PLAYERS)) maxPlayers |} in
  ret (room, set room rooms).

(** [getRoom (roomCode)]. *)
Definition getRoom (roomCode : string) (rooms : t) : option ManagedRoom.t :=
  get roomCode rooms.

(** [getAllRooms ()]. *)
Definition getAllRooms (rooms : t) : list ManagedRoom.t := rooms.

(** [getRoomCodeForSocket (socketId)]. *)
Definition getRoomCodeForSocket (socketId : string) (rooms : t) : option string :=
  ManagedRoom.code <$>
  List.find (λ room, bool_decide (ManagedRoom.hostId room = socketId) ||
                     isMember socketId room) rooms.

Definition validateJoinRoom (roomCode socketId : string) (rooms : t) : Validation.t :=
  match get roomCode rooms with
  | None => Validation.mk false (Some "Room not found")
  | Some room =>
      if reaches (Z.of_nat (length (ManagedRoom.players room))) (ManagedRoom.maxPlayers room)
      then Validation.mk false (Some "Room is full")
      else if bool_decide (ManagedRoom.status room = PLAYING)
      then Validation.mk false (Some "Game already in progress")
      else if isMember socketId room
      then Validation.mk false (Some "Already in this room")
      else Validation.mk true None
  end.

Definition addPlayerToRoom (roomCode socketId : string) (playerName : option string)
    (rooms : t) : option RoomPlayer.t * t :=
  match get roomCode rooms with
  | None => (None, rooms)
  | Some room =>
      let player :=
        {| RoomPlayer.id := socketId;
           RoomPlayer.name := stringOr playerName (generateDefaultPlayerName socketId);
           RoomPlayer.isHost := false;
           RoomPlayer.coins := 0 |} in
      let room := ManagedRoom.set_players (ManagedRoom.players room ++ [player]) room in
      (Some player, set room rooms)
  end.

(** The block of [removePlayerFromRoom] that hands the room to the first
    player left, when the host has gone and somebody is left. *)
Definition promoteFirst (wasHost : bool) (room : ManagedRoom.t)
  : ManagedRoom.t * option string :=
  if wasHost && (0 <? Z.of_nat (length (ManagedRoom.players room)))
  then match ManagedRoom.players room with
       | first :: others =>
           (ManagedRoom.set_hostId (RoomPlayer.id first)
              (ManagedRoom.set_players (RoomPlayer.set_isHost true first :: others) room),
            Some (RoomPlayer.id first))
       | [] => (room, None)
       end
  else (room, None).

Definition removePlayerFromRoom (roomCode socketId : string) (rooms : t)
  : option Removal.t * t :=
  match get roomCode rooms with
  | None => (None, rooms)
  | Some room =>
      match list_find (λ p, RoomPlayer.id p = socketId) (ManagedRoom.players room) with
      | None => (None, rooms)
      | Some (playerIndex, player) =>
          let wasHost := RoomPlayer.isHost player in
          let room :=
            ManagedRoom.set_players (delete playerIndex (ManagedRoom.players room)) room in
          let '(room, newHostId) := promoteFirst wasHost room in
          if Z.of_nat (length (ManagedRoom.players room)) =? 0
          then (Some {| Removal.wasHost := wasHost; Removal.roomDeleted := true;
                        Removal.newHostId := newHostId; Removal.room := None |},
                remove roomCode rooms)
          else (Some {| Removal.wasHost := wasHost; Removal.roomDeleted := false;
                        Removal.newHostId := newHostId; Removal.room := Some room |},
                set room rooms)
      end
  end.

Definition validateStartGame (roomCode socketId : string) (rooms : t) : Validation.t :=
  match get roomCode rooms with
  | None => Validation.mk false (Some "Room not found")
  | Some room =>
      if negb (bool_decide (ManagedRoom.hostId room = socketId))
      then Validation.mk false (Some "Only host can start the game")
      else if bool_decide (ManagedRoom.status room = PLAYING)
      then Validation.mk false (Some "Game already started")
      else if Z.of_nat (length (ManagedRoom.players room)) <? MIN_PLAYERS_TO_START
      then Validation.mk false (Some "Need at least 1 player(s) to start")
      else Validation.mk true None
  end.

Definition startGame (roomCode : string) (rooms : t) : option ManagedRoom.t * t :=
  match get roomCode rooms with
  | None => (None, rooms)
  | Some room =>
      let room := ManagedRoom.set_status PLAYING room in
      (Some room, set room rooms)
  end.

End RoomManager.

(** ** The socket handlers

    [handlers/qbitCityGameHandlers.js] and [handlers/connectionHandlers.js]
    on the state of the server: the rooms of the room manager, the two maps
    of the state manager, the environment, and what has been emitted.
    [console.log] is not part of the state. *)

(** Whom an emit goes to: [socket.emit] or [io.to (room).emit]. *)
Inductive Target :=
| ToSocket (socketId : string)
| ToRoom (roomCode : string).

(** What the handlers emit.  [game_started] carries the room and the map,
    players, enemies, boats, collectibles and portals of the game state
    given, with a game time of 0. *)
Inductive Notice :=
| start_error (message : string)
| game_started (room : ManagedRoom.t) (gameState : GameState.t)
| action_error (message : string)
| portal_created (portal : Portal.t)
| sink_deployed (sink : DeployedSink.t) (playerId : string)
| immunity_activated (playerId : string)
| player_left (playerId : string) (room : ManagedRoom.t) (newHostId : option string).

(** The [io] object handed to the handlers.  As in the game loop,
    [io.to (room).emit (...)] may throw: [refuses] gives the exception it
    throws for a room and a notice, if any.  [socket.emit], the emit of the
    connection the handler serves, delivers. *)
Record RoomIO := { refuses : string → Notice → option string }.

(** An [io] that delivers every notice. *)
Definition delivering : RoomIO := {| refuses := λ _ _, None |}.

(** The payload of [player_input], for the clients that stamp their inputs
    with whole milliseconds: its [keys], and its [timestamp] when it has
    one.  The handler forwards the timestamp unvalidated; a payload whose
    timestamp is not such a number is outside this type, as it is outside
    the buffers of the state manager above. *)
Module InputData.
Record t := mk { keys : option Keys.t; timestamp : option Z }.
End InputData.

Module Server.
Record t := mk {
  rooms : RoomManager.t;
  roomStates : gmap string GameState.t;
  inputBuffers : gmap string (list Input.t);
  env : Env;
  sent : list (Target * Notice)
}.
Definition set_rooms (v : RoomManager.t) (r : t) : t :=
  {| rooms := v; roomStates := roomStates r; inputBuffers := inputBuffers r;
     env := env r; sent := sent r |}.
Definition set_roomStates (v : gmap string GameState.t) (r : t) : t :=
  {| rooms := rooms r; roomStates := v; inputBuffers := inputBuffers r;
     env := env r; sent := sent r |}.
Definition set_inputBuffers (v : gmap string (list Input.t)) (r : t) : t :=
  {| rooms := rooms r; roomStates := roomStates r; inputBuffers := v;
     env := env r; sent := sent r |}.
Definition set_env (v : Env) (r : t) : t :=
  {| rooms := rooms r; roomStates := roomStates r; inputBuffers := inputBuffers r;
     env := v; sent := sent r |}.
Definition set_sent (v : list (Target * Notice)) (r : t) : t :=
  {| rooms := rooms r; roomStates := roomStates r; inputBuffers := inputBuffers r;
     env := env r; sent := v |}.
End Server.

#[global] Instance Server_HasEnv : HasEnv Server.t :=
  {| env_of := Server.env; with_env := Server.set_env |}.

Module Handlers.

Import QbitCityGameStateManager.
Local Open Scope js_scope.

(** The server as the state manager and the game loop see it. *)
Definition world (s : Server.t) : World.t :=
  {| World.rooms := roomView <$> Server.rooms s;
     World.roomStates := Server.roomStates s;
     World.inputBuffers := Server.inputBuffers s;
     World.env := Server.env s |}.

(** Write back what a method of the state manager left. *)
Definition withWorld (w : World.t) (s : Server.t) : Server.t :=
  Server.set_env (World.env w)
    (Server.set_inputBuffers (World.inputBuffers w)
       (Server.set_roomStates (World.roomStates w) s)).

(** Run a method of the state manager on the server. *)
Definition onWorld {A} (m : M World.t A) : M Server.t A :=
  λ s, match m (world s) with
       | Normal a w => Normal a (withWorld w s)
       | Thrown e w => Thrown e (withWorld w s)
       | Diverged => Diverged
       end.

(** Run a method of the room manager that writes its rooms. *)
Definition onRooms {A} (f : RoomManager.t → A * RoomManager.t) : M Server.t A :=
  λ s, let '(a, rooms) := f (Server.rooms s) in Normal a (Server.set_rooms rooms s).

(** What was emitted grows by one notice. *)
Definition send (target : Target) (notice : Notice) : M Server.t unit :=
  modify (λ s, Server.set_sent (Server.sent s ++ [(target, notice)]) s).

(** [socket.emit (...)]. *)
Definition socketEmit (socketId : string) (notice : Notice) : M Server.t unit :=
  send (ToSocket socketId) notice.

(** [io.to (roomCode).emit (...)]. *)
Definition emitToRoom (io : RoomIO) (roomCode : string) (notice : Notice)
  : M Server.t unit :=
  match refuses io roomCode notice with
  | Some error => throw error
  | None => send (ToRoom roomCode) notice
  end.

(** [try { body } catch (error) { handler }]. *)
Definition try_catch {A} (body : M Server.t A) (handler : string → M Server.t A)
  : M Server.t A :=
  λ s, match body s with
       | Thrown e s' => handler e s'
       | outcome => outcome
       end.

(** The first lines of the handlers of a game in progress: the room code of
    the socket, when the socket is in a room that is playing. *)
Definition playingRoomOf (socketId : string) (s : Server.t) : option string :=
  match RoomManager.getRoomCodeForSocket socketId (Server.rooms s) with
  | None => None
  | Some roomCode =>
      match RoomManager.getRoom roomCode (Server.rooms s) with
      | Some room =>
          if bool_decide (ManagedRoom.status room = PLAYING) then Some roomCode else None
      | None => None
      end
  end.

(** [gameState.players.find (p => p.id === socket.id)], with its index. *)
Definition findPlayer (socketId : string) (gameState : GameState.t)
  : option (nat * Player.t) :=
  list_find (λ p, Player.id p = socketId) (GameState.players gameState).

(** Write the room state back under its code. *)
Definition putState (roomCode : string) (gameState : GameState.t) : M Server.t unit :=
  modify (λ s, Server.set_roomStates
                 (<[roomCode := gameState]> (Server.roomStates s)) s).

(** *** [start_game] *)
Definition onStartGame `{JsHost} (io : RoomIO) (fuel : nat) (socketId : string)
  : M Server.t unit :=
  try_catch
    (let* roomCode := gets (λ s, RoomManager.getRoomCodeForSocket socketId (Server.rooms s)) in
     match roomCode with
     | None => socketEmit socketId (start_error "Not in any room")
     | Some roomCode =>
         let* validation :=
           gets (λ s, RoomManager.validateStartGame roomCode socketId (Server.rooms s)) in
         if negb (Validation.valid validation)
         then socketEmit socketId
                (start_error (default EmptyString (Validation.error validation)))
         else
           let* room := onRooms (RoomManager.startGame roomCode) in
           match room with
           | None => socketEmit socketId (start_error "Failed to start game")
           | Some room =>
               let* gameState := onWorld (initializeRoom fuel roomCode None) in
               match gameState with
               | None => socketEmit socketId (start_error "Failed to initialize game")
               | Some gameState => emitToRoom io roomCode (game_started room gameState)
               end
           end
     end)
    (λ _, socketEmit socketId (start_error "Failed to start game")).

(** *** [player_input]

    Reading [inputData.timestamp] of a payload that is missing throws; the
    handler catches and logs. *)
Definition onPlayerInput (socketId : string) (inputData : option InputData.t)
  : M Server.t unit :=
  try_catch
    (let* roomCode := gets (playingRoomOf socketId) in
     match roomCode with
     | None => ret tt
     | Some _ =>
         match inputData with
         | None => throw "TypeError"
         | Some inputData =>
             let* timestamp :=
               match InputData.timestamp inputData with
               | Some t => if t =? 0 then liftEnv Date_now else ret t
               | None => liftEnv Date_now
               end in
             modify (λ s, Server.set_inputBuffers
                            (bufferPlayerInput socketId (InputData.keys inputData)
                               timestamp (Server.inputBuffers s)) s)
         end
     end)
    (λ _, ret tt).

(** The lines the three action handlers share: the room code, the game
    state and the player of the socket, when the socket plays. *)
Definition playerOf (socketId : string) (s : Server.t)
  : option (string * GameState.t * nat * Player.t) :=
  match playingRoomOf socketId s with
  | None => None
  | Some roomCode =>
      match Server.roomStates s !! roomCode with
      | None => None
      | Some gameState =>
          match findPlayer socketId gameState with
          | None => None
          | Some (i, player) => Some (roomCode, gameState, i, player)
          end
      end
  end.

(** *** [use_portal] *)
Definition onUsePortal (io : RoomIO) (socketId : string) : M Server.t unit :=
  try_catch
    (let* found := gets (playerOf socketId) in
     match found with
     | None => ret tt
     | Some (roomCode, gameState, i, player) =>
         if Qltb (Player.energy player) 1
         then socketEmit socketId (action_error "Energy not full")
         else
           let spawnDist := (Player.speed player * 1)%Q in
           let px := (Player.x player + Player.dirX player * spawnDist)%Q in
           let py := (Player.y player + Player.dirY player * spawnDist)%Q in
           let* now := liftEnv Date_now in
           let* r := liftEnv Math_random in
           let portal :=
             {| Portal.id := PlayerPortal {| id_prefix := "portal"; id_time := now;
                                             id_random := r |};
                Portal.x := px; Portal.y := py; Portal.color := "#ff00ff";
                Portal.angle := 0; Portal.life := Some 10%Q |} in
           let gameState :=
             GameState.set_portals (GameState.portals gameState ++ [portal]) gameState in
           let gameState :=
             GameState.set_players
               (<[i := Player.set_energy 0 player]> (GameState.players gameState))
               gameState in
           putState roomCode gameState ;;
           emitToRoom io roomCode (portal_created portal)
     end)
    (λ _, ret tt).

(** *** [deploy_sink] *)
Definition onDeploySink (io : RoomIO) (socketId : string) : M Server.t unit :=
  try_catch
    (let* found := gets (playerOf socketId) in
     match found with
     | None => ret tt
     | Some (roomCode, gameState, i, player) =>
         if Player.sinkInventory player <=? 0
         then socketEmit socketId (action_error "No sink traps")
         else
           let player := Player.set_sinkInventory (Player.sinkInventory player - 1) player in
           let* now := liftEnv Date_now in
           let* r := liftEnv Math_random in
           let sink :=
             {| DeployedSink.id := {| id_prefix := "sink"; id_time := now; id_random := r |};
                DeployedSink.x := Player.x player; DeployedSink.y := Player.y player;
                DeployedSink.deployTime := GameState.gameTime gameState |} in
           let gameState :=
             GameState.set_deployedSinks (GameState.deployedSinks gameState ++ [sink])
               (GameState.set_players (<[i := player]> (GameState.players gameState))
                  gameState) in
           putState roomCode gameState ;;
           emitToRoom io roomCode (sink_deployed sink socketId)
     end)
    (λ _, ret tt).

(** *** [activate_immunity] *)
Definition onActivateImmunity (io : RoomIO) (socketId : string) : M Server.t unit :=
  try_catch
    (let* found := gets (playerOf socketId) in
     match found with
     | None => ret tt
     | Some (roomCode, gameState, i, player) =>
         if Player.immunityInventory player <=? 0
         then socketEmit socketId (action_error "No immunity stored")
         else if Player.immunityActive player
         then socketEmit socketId (action_error "Immunity already active")
         else
           let player :=
             Player.set_immunityEndTime (GameState.gameTime gameState + 10)
               (Player.set_immunityActive true
                  (Player.set_immunityInventory (Player.immunityInventory player - 1)
                     player)) in
           putState roomCode
             (GameState.set_players (<[i := player]> (GameState.players gameState))
                gameState) ;;
           emitToRoom io roomCode (immunity_activated socketId)
     end)
    (λ _, ret tt).

(** *** [disconnect] *)
Definition onDisconnect (io : RoomIO) (socketId : string) : M Server.t unit :=
  let* roomCode := gets (λ s, RoomManager.getRoomCodeForSocket socketId (Server.rooms s)) in
  match roomCode with
  | None => ret tt
  | Some roomCode =>
      let* result := onRooms (RoomManager.removePlayerFromRoom roomCode socketId) in
      match result with
      | None => ret tt
      | Some result =>
          if negb (Removal.roomDeleted result)
          then
            let* room := gets (λ s, RoomManager.getRoom roomCode (Server.rooms s)) in
            match room with
            | Some room =>
                emitToRoom io roomCode
                  (player_left socketId room (Removal.newHostId result))
            | None => ret tt
            end
          else onWorld (cleanupRoom roomCode)
      end
  end.

End Handlers.

(* ================================================================== *)
(** * Specification vocabulary *)

Section MapVocabulary.
Import QbitCityGameStateManager.

(** The grid has [MAP_HEIGHT] rows of [MAP_WIDTH] tiles. *)
Definition shaped (t : list (list Z)) : Prop :=
  length t = Z.to_nat MAP_HEIGHT ∧ Forall (λ row, length row = Z.to_nat MAP_WIDTH) t.

Definition onPerimeter (x y : Z) : bool :=
  (x =? 0) || (x =? MAP_WIDTH - 1) || (y =? 0) || (y =? MAP_HEIGHT - 1).

(** What the perimeter loop has done when it reaches column [x] of row
    [y]: the perimeter cells before that point are lava, every other cell
    is as it was. *)
Definition perimeterDone (t : list (list Z)) (x y : Z) (t' : list (list Z)) : Prop :=
  shaped t' ∧
  ∀ x0 y0, 0 ≤ x0 < MAP_WIDTH → 0 ≤ y0 < MAP_HEIGHT →
    getTile t' x0 y0 =
      if ((y0 <? y) || ((y0 =? y) && (x0 <? x))) && onPerimeter x0 y0
      then Some LAVA else getTile t x0 y0.

(** *** Dependence on the seed

    Two runs of a generator computation are related when their states
    have the same successor in the linear-congruential sequence: every
    draw then returns the same number in both runs. *)
Definition lcg_related (v1 v2 : Z) : Prop := Rng.next v1 = Rng.next v2.

Definition respects_lcg {A : Type} (m : Rng.M A) : Prop :=
  ∀ v1 v2, lcg_related v1 v2 →
    (m v1).1 = (m v2).1 ∧ lcg_related (m v1).2 (m v2).2.

End MapVocabulary.

Section BufferVocabulary.
Import QbitCityGameStateManager.

(** The entries of a buffer are in non-decreasing timestamp order. *)
Definition inTimestampOrder (buffer : list Input.t) : Prop :=
  StronglySorted (λ a b, Input.timestamp a ≤ Input.timestamp b) buffer.

(** A call [bufferPlayerInput (playerId, input, timestamp)]. *)
Definition Push : Type := string * option Keys.t * Z.

(** The input buffers after a sequence of calls of [bufferPlayerInput] on a
    state manager that starts without buffers. *)
Definition afterPushes (calls : list Push) : gmap string (list Input.t) :=
  foldl (λ buffers '(playerId, input, timestamp),
           bufferPlayerInput playerId input timestamp buffers) ∅ calls.

(** What every buffer of the state manager satisfies. *)
Definition buffersBounded (buffers : gmap string (list Input.t)) : Prop :=
  ∀ playerId buffer, buffers !! playerId = Some buffer →
    (length buffer ≤ 60)%nat ∧ inTimestampOrder buffer.

End BufferVocabulary.

Section InputVocabulary.
Import QbitCityGameStateManager QbitCityGameLoop.
Context `{JsHost}.

(** An input the pass may apply at [currentTime]: it is unprocessed and not
    later than [currentTime]. *)
Definition eligible (currentTime : Z) (input : Input.t) : Prop :=
  Input.processed input = false ∧ Input.timestamp input ≤ currentTime.

(** The player has nothing to apply at [currentTime]. *)
Definition idle (currentTime : Z) (inputBuffers : gmap string (list Input.t))
    (player : Player.t) : Prop :=
  ∀ input, input ∈ default [] (inputBuffers !! Player.id player) →
    ¬ eligible currentTime input.

(** The buffer once [latestInput] and the entries it supersedes are
    marked. *)
Definition markedBuffer (latestIndex : nat) (latestInput : Input.t) (now : Z)
    (buffer : list Input.t) : list Input.t :=
  markSuperseded latestIndex now
    (<[latestIndex := Input.set_processed true latestInput]> buffer).

(** The input buffers the state manager can hold: it starts without
    buffers; [bufferPlayerInput] pushes, the input pass of a tick marks and
    filters, and [respawnPlayer] and [cleanupRoom] delete. *)
Inductive reachableBuffers : gmap string (list Input.t) → Prop :=
| reachable_start : reachableBuffers ∅
| reachable_push playerId input timestamp buffers :
    reachableBuffers buffers →
    reachableBuffers (bufferPlayerInput playerId input timestamp buffers)
| reachable_pass gameState deltaTime currentTime player buffers :
    reachableBuffers buffers →
    reachableBuffers (processPlayer gameState deltaTime currentTime player buffers).2
| reachable_delete playerId buffers :
    reachableBuffers buffers →
    reachableBuffers (delete playerId buffers).

(** The blocks of [applyInputToPlayer] before the last two leave the
    cooldown and the immunity alone. *)
Definition sameImmunity (p q : Player.t) : Prop :=
  Player.portalCooldown p = Player.portalCooldown q ∧
  Player.immunityActive p = Player.immunityActive q ∧
  Player.immunityEndTime p = Player.immunityEndTime q.

(** The player once the blocks before the cooldown have run. *)
Definition movedPlayer (player : Player.t) (input : Input.t) (deltaTime : Q)
    (gameState : GameState.t) : Player.t :=
  let keys := default Keys.none (Input.keys input) in
  let '(dx, dy) := inputDirection keys in
  let '(dx, dy, player) := faceDirection player dx dy in
  let player := Player.set_velX (dx * Player.speed player) player in
  let player := Player.set_velY (dy * Player.speed player) player in
  let newX := (Player.x player + Player.velX player * deltaTime)%Q in
  let newY := (Player.y player + Player.velY player * deltaTime)%Q in
  let player := moveWithCollision player newX newY (GameState.map gameState) in
  let player :=
    if nonZero dx dy
    then Player.set_energy (Qmin 1 (Player.energy player + deltaTime * (3 # 10))) player
    else player in
  if nonZero dx dy
  then Player.set_trail
         (pushTrail (Player.trail player) (Player.x player, Player.y player)) player
  else player.

End InputVocabulary.

Section CollisionVocabulary.

(** The box of half-sizes [width / 2] and [height / 2] around [(x, y)]
    overlaps tile [(gx, gy)]. *)
Definition overlapsTile (x y width height : Q) (gx gy : Z) : Prop :=
  (x - width / 2 < inject_Z (gx * TILE_SIZE) + inject_Z TILE_SIZE
   ∧ inject_Z (gx * TILE_SIZE) < x + width / 2
   ∧ y - height / 2 < inject_Z (gy * TILE_SIZE) + inject_Z TILE_SIZE
   ∧ inject_Z (gy * TILE_SIZE) < y + height / 2)%Q.

(** The tiles the collision test looks at: the 3×3 block around the tile of
    [(x, y)], inside the grid. *)
Definition examined (x y : Q) (gx gy : Z) : Prop :=
  Math_floor (x / inject_Z TILE_SIZE) - 1 ≤ gx ≤ Math_floor (x / inject_Z TILE_SIZE) + 1 ∧
  Math_floor (y / inject_Z TILE_SIZE) - 1 ≤ gy ≤ Math_floor (y / inject_Z TILE_SIZE) + 1 ∧
  0 ≤ gx < MAP_WIDTH ∧ 0 ≤ gy < MAP_HEIGHT.

(** The tile kinds that stop an actor. *)
Definition blocks (isPlayer : bool) (tile : Z) : Prop :=
  tile = SIDEWALK ∨ tile = WATER ∨ (tile = LAVA ∧ isPlayer = false).

End CollisionVocabulary.

Section PickupVocabulary.
Context `{JsHost}.

(** The player is nearer than [r] to [(x, y)]. *)
Definition touches (player : Player.t) (x y r : Q) : Prop :=
  (Math_hypot (Player.x player - x) (Player.y player - y) < r)%Q.

(** The coin counter and the immunity inventory after one more coin, in
    the words of the specification: the counter goes up by one; when it
    reaches 5 it becomes one charge if the inventory is below 3, and holds
    at 4 otherwise. *)
Definition afterCoin (counter inventory : Z) : Z * Z :=
  if counter + 1 <? 5 then (counter + 1, inventory)
  else if inventory <? 3 then (0, inventory + 1)
  else (4, inventory).

End PickupVocabulary.

Section EventVocabulary.

(** A computation that leaves a part [view] of the environment as it was,
    when it returns and when it throws. *)
Definition frames {σ A B : Type} `{HasEnv σ} (view : Env → B) (m : M σ A) : Prop :=
  ∀ s, match m s with
       | Normal _ s' | Thrown _ s' => view (env_of s') = view (env_of s)
       | Diverged => True
       end.

(** A computation that hands nothing to [io]. *)
Definition quiet {σ A : Type} `{HasEnv σ} (m : M σ A) : Prop := frames outbox m.

(** A view of the environment that does not look at the cursor of the
    draws. *)
Definition cursorBlind {B : Type} (view : Env → B) : Prop :=
  ∀ e n, view {| random_draws := random_draws e; random_next := n;
                 clock := clock e; outbox := outbox e |} = view e.

(** Every draw of the environment is in [0, 1), as [Math.random] promises. *)
Definition unitDraws (e : Env) : Prop :=
  ∀ n, (0 <= random_draws e n)%Q ∧ (random_draws e n < 1)%Q.

End EventVocabulary.

Section CoinVocabulary.
Import QbitCityGameStateManager QbitCityGameLoop.

(** The room state with [new] coins behind the ones it has. *)
Definition withCoins (new : list Coin.t) (gameState : GameState.t) : GameState.t :=
  GameState.set_coins (GameState.coins gameState ++ new) gameState.

(** The coin spawn interval has elapsed once [deltaTime] is added to the
    timer. *)
Definition coinsDue (gameState : GameState.t) (deltaTime : Q) : bool :=
  Qleb (GameState.nextCoinSpawnTime gameState)
       (GameState.coinSpawnTimer gameState + deltaTime).

End CoinVocabulary.

Section TickVocabulary.
Import QbitCityGameStateManager QbitCityGameLoop.
Context `{JsHost}.

(** The body of the loop of [tick] over the rooms. *)
Definition tickRoom (io : IO) (currentTime : Z) (room : Room.t) : M World.t unit :=
  if bool_decide (Room.status room = PLAYING)
  then updateRoom io (Room.code room) (1 / tickRate) currentTime
  else ret tt.

End TickVocabulary.

Section GuaranteeVocabulary.
Import QbitCityGameStateManager QbitCityGameLoop.

(** What a pass guarantees about the room state it leaves, whether it
    returns or throws: [G before after]. *)
Definition guarantees {A : Type} (G : GameState.t → GameState.t → Prop)
    (m : M Sim.t A) : Prop :=
  ∀ s, match m s with
       | Normal _ s' | Thrown _ s' => G (Sim.state s) (Sim.state s')
       | Diverged => True
       end.

(** What a computation on the environment returns, when it returns. *)
Definition yields {A : Type} (Q : A → Prop) (m : M Env A) : Prop :=
  ∀ e, match m e with
       | Normal a _ => Q a
       | _ => True
       end.

(** The uncollected coins stay within 40, or within what they were. *)
Definition coinBound (before after : GameState.t) : Prop :=
  (length (uncollectedCoins after) ≤ max 40 (length (uncollectedCoins before)))%nat.

(** The two room states have the same coins. *)
Definition sameCoins (before after : GameState.t) : Prop :=
  GameState.coins after = GameState.coins before.

End GuaranteeVocabulary.

(** ** Examples *)

Section Fixtures.
Import QbitCityGameStateManager QbitCityGameLoop.

(** A host whose square roots are truncated to six decimals. *)
Definition truncatedSqrt (a : Q) : Q :=
  (inject_Z (Z.sqrt (Qfloor (a * 1000000000000))) / 1000000)%Q.

Definition exampleHost : JsHost :=
  {| Math_sqrt := truncatedSqrt;
     Math_hypot := λ a b, truncatedSqrt (a * a + b * b) |}.

(** An environment whose every draw is [r]. *)
Definition constantEnv (r : Q) (now : Z) : Env :=
  {| random_draws := λ _, r; random_next := 0; clock := now; outbox := [] |}.

(** An environment whose draws are those of the linear-congruential
    sequence from [seed]. *)
Definition lcgEnv (seed now : Z) : Env :=
  {| random_draws := λ n, (Nat.iter (S n) Rng.next seed # 233280)%Q;
     random_next := 0; clock := now; outbox := [] |}.

(** A room state on the map of seed 42, as [initializeRoom] leaves it but
    for the players, enemies and boats given. *)
Definition exampleRoomState (roomCode : string) (players : list Player.t)
    (enemies : list Enemy.t) (boats : list Boat.t) : GameState.t :=
  {| GameState.roomCode := roomCode;
     GameState.map := generateMap 42;
     GameState.players := players;
     GameState.enemies := enemies;
     GameState.boats := boats;
     GameState.coins := [];
     GameState.immunityPickups := [];
     GameState.sinkCollectibles := [];
     GameState.deployedSinks := [];
     GameState.portals := [];
     GameState.gameTime := 0;
     GameState.enemySpawnTimer := 0;
     GameState.coinSpawnTimer := 0;
     GameState.immunityPickupSpawnTimer := 0;
     GameState.sinkSpawnTimer := 0;
     GameState.nextCoinSpawnTime := 10;
     GameState.nextImmunityPickupSpawnTime := 20;
     GameState.nextSinkSpawnTime := 25;
     GameState.collectiblesInitialized := false;
     GameState.coinsInitialized := false;
     GameState.speedBoostApplied := false;
     GameState.mapSeed := 42 |}.

Definition exampleState := exampleRoomState "ROOM01".

(** A player at the centre of the road tile (4, 4). *)
Definition ann : Player.t := newPlayer "ann" "Ann" (tileCentre 4 4).

(** A press of the right arrow. *)
Definition pressRight : Keys.t :=
  {| Keys.ArrowUp := false; Keys.ArrowDown := false; Keys.ArrowLeft := false;
     Keys.ArrowRight := true; Keys.KeyW := false; Keys.KeyA := false;
     Keys.KeyS := false; Keys.KeyD := false |}.

Definition exampleSim (buffer : list Input.t) : Sim.t :=
  {| Sim.state := exampleState [ann] [] [];
     Sim.inputBuffers := {[ "ann" := buffer ]};
     Sim.env := constantEnv (1 # 16) 1000 |}.

(** A player on the lava tile (0, 4), a boat under the player, and an enemy
    on the road tile (1, 4) within reach. *)
Definition bea : Player.t := newPlayer "bea" "Bea" (60%Q, 288%Q).

Definition ferry : Boat.t :=
  {| Boat.id := 0; Boat.dist := 0; Boat.x := 32; Boat.y := 288; Boat.w := 48;
     Boat.h := 48; Boat.velX := 0; Boat.velY := 0; Boat.life := 10;
     Boat.maxLife := 10 |}.

Definition chaser : Enemy.t :=
  {| Enemy.id := {| id_prefix := "enemy"; id_time := 0; id_random := 0 |};
     Enemy.x := 76; Enemy.y := 288; Enemy.width := 24; Enemy.height := 24;
     Enemy.speed := 250; Enemy.trail := []; Enemy.stuckTime := 0;
     Enemy.flankTimer := 0; Enemy.flankDir := (0%Q, 0%Q) |}.

Definition lavaSim (enemies : list Enemy.t) (boats : list Boat.t) : Sim.t :=
  {| Sim.state := exampleState [bea] enemies boats;
     Sim.inputBuffers := ∅;
     Sim.env := constantEnv (1 # 16) 1000 |}.

(** A server with one room that is about to start. *)
Definition lobby : World.t :=
  {| World.rooms := [Room.mk "ROOM01" [("ann", "Ann")] PLAYING];
     World.roomStates := ∅;
     World.inputBuffers := ∅;
     World.env := constantEnv (1 # 16) 1000 |}.

(** A server with three rooms, the second of which is not playing yet, and
    a fourth room that plays. *)
Definition threeRooms : World.t :=
  {| World.rooms := [Room.mk "A" [("ann", "Ann")] PLAYING;
                     Room.mk "W" [] WAITING;
                     Room.mk "B" [("ann", "Ann")] PLAYING;
                     Room.mk "C" [("ann", "Ann")] PLAYING];
     World.roomStates :=
       <["A" := exampleRoomState "A" [ann] [] []]>
         (<["B" := exampleRoomState "B" [ann] [] []]>
            (<["C" := exampleRoomState "C" [ann] [] []]> ∅));
     World.inputBuffers := ∅;
     World.env := constantEnv (1 # 16) 1000 |}.

(** An [io] whose [emit] throws for one room and delivers for the
    others. *)
Definition failingFor (room : string) : IO :=
  {| emit := λ target event,
       if bool_decide (target = room) then throw "emit failed"
       else emit deliver target event |}.

(** The server of [threeRooms] once a tick with an [io] that fails for room
    B has gone through the rooms before B, and when the update of B
    throws. *)
Definition beforeRoomB : World.t :=
  match forEach [Room.mk "A" [("ann", "Ann")] PLAYING; Room.mk "W" [] WAITING]
          (tickRoom (H := exampleHost) (failingFor "B") 1000) threeRooms with
  | Normal _ w => w
  | _ => threeRooms
  end.

Definition roomBThrows : World.t :=
  match updateRoom (H := exampleHost) (failingFor "B") "B" (1 / tickRate) 1000
          beforeRoomB with
  | Thrown _ w => w
  | _ => beforeRoomB
  end.

End Fixtures.

(** ** Vocabulary of the further properties *)

Section MapVocabulary2.
Import QbitCityGameStateManager.

(** The cells the road pass turns into road: every [blockSize]-th row and
    column. *)
Definition onRoadGrid (x y : Z) : bool :=
  (Z.rem y blockSize =? 0) || (Z.rem x blockSize =? 0).

(** A tile code the terrain pass writes. *)
Definition terrainCode (tile : option Z) : Prop :=
  tile = Some ROAD ∨ tile = Some SIDEWALK ∨ tile = Some GRASS ∨ tile = Some WATER.

(** Cell [(x0, y0)] comes before cell [(x, y)] in a row-by-row scan. *)
Definition scannedBefore (x y x0 y0 : Z) : Prop :=
  y0 < y ∨ (y0 = y ∧ x0 < x).

(** What the terrain loop has done when it reaches column [x] of row [y]:
    the grid holds terrain codes only, and the cells of the road grid it
    has passed are road. *)
Definition terrainDone (x y : Z) (t : list (list Z)) : Prop :=
  shaped t ∧
  (∀ x0 y0, 0 ≤ x0 < MAP_WIDTH → 0 ≤ y0 < MAP_HEIGHT → terrainCode (getTile t x0 y0)) ∧
  (∀ x0 y0, 0 ≤ x0 < MAP_WIDTH → 0 ≤ y0 < MAP_HEIGHT →
     scannedBefore x y x0 y0 → onRoadGrid x0 y0 = true → getTile t x0 y0 = Some ROAD).

(** The cells of rows [0 .. y - 1], row by row, then the first [x] cells of
    row [y]. *)
Definition scannedCells (x y : Z) : list (Z * Z) :=
  flat_map (λ y0, map (λ x0, (x0, y0)) (seqZ 0 MAP_WIDTH)) (seqZ 0 y) ++
  map (λ x0, (x0, y)) (seqZ 0 x).

Definition isSidewalk (tiles : list (list Z)) (cell : Z * Z) : bool :=
  bool_decide (getTile tiles cell.1 cell.2 = Some SIDEWALK).

(** The sidewalk cells of the grid, row by row. *)
Definition sidewalkCells (tiles : list (list Z)) : list (Z * Z) :=
  List.filter (isSidewalk tiles) (scannedCells 0 MAP_HEIGHT).

Definition buildingCell (b : Building) : Z * Z := (b_gridX b, b_gridY b).

End MapVocabulary2.

Section SpawnVocabulary.
Import QbitCityGameStateManager QbitCityGameLoop.

(** A computation on the environment that always returns, with a result
    that satisfies [Q]. *)
Definition returns {A : Type} (Q : A → Prop) (m : M Env A) : Prop :=
  ∀ e, ∃ a e', m e = Normal a e' ∧ Q a.

(** The point is the centre of a road tile of the map. *)
Definition onRoadTile (map : GameMap.t) (x y : Q) : Prop :=
  ∃ gx gy, getTile (GameMap.tiles map) gx gy = Some ROAD ∧ (x, y) = tileCentre gx gy.

(** The tile the [k]-th round of a search loop tries: each round draws a
    column, then a row. *)
Definition drawnTile (e : Env) (k : nat) : Z * Z :=
  (Math_floor (random_draws e (2 * k + random_next e)%nat * inject_Z (MAP_WIDTH - 2)) + 1,
   Math_floor (random_draws e (S (2 * k + random_next e)) * inject_Z (MAP_HEIGHT - 2)) + 1).

Definition isRoad (map : GameMap.t) (cell : Z * Z) : bool :=
  bool_decide (getTile (GameMap.tiles map) cell.1 cell.2 = Some ROAD).

(** The rounds, among the first [n], whose tile is road. *)
Definition roadHits (map : GameMap.t) (e : Env) (n : nat) : list nat :=
  List.filter (λ k, isRoad map (drawnTile e k)) (seq 0 n).

(** The environment after [n] more draws. *)
Definition afterDraws (n : nat) (e : Env) : Env :=
  {| random_draws := random_draws e; random_next := (n + random_next e)%nat;
     clock := clock e; outbox := outbox e |}.

(** The portals of the map: the [i]-th is [portal_i], does not expire, and
    stands at the centre of a road tile. *)
Definition mapPortals (map : GameMap.t) (portals : list Portal.t) : Prop :=
  ∀ i p, portals !! i = Some p →
    Portal.id p = MapPortal (Z.of_nat i) ∧ Portal.life p = None ∧
    Portal.angle p = 0%Q ∧ onRoadTile map (Portal.x p) (Portal.y p).

(** A map whose grid is sidewalk everywhere. *)
Definition pavedMap : GameMap.t :=
  {| GameMap.width := MAP_WIDTH * TILE_SIZE; GameMap.height := MAP_HEIGHT * TILE_SIZE;
     GameMap.tiles := initialTiles; GameMap.buildings := []; GameMap.trees := [] |}.

End SpawnVocabulary.

Section TickVocabulary2.
Import QbitCityGameStateManager QbitCityGameLoop.
Context `{JsHost}.

(** What the input pass does to a player: nothing, or one input applied. *)
Definition stepped (gameState : GameState.t) (deltaTime : Q) (p p' : Player.t) : Prop :=
  p' = p ∨ ∃ input, p' = applyInputToPlayer p input deltaTime gameState.

(** What [updateEnemies] does to an enemy: it stays the same enemy, of the
    same size and speed, and its trail is as it was or one point longer,
    cut to twenty points. *)
Definition chased (en en' : Enemy.t) : Prop :=
  Enemy.id en' = Enemy.id en ∧ Enemy.width en' = Enemy.width en ∧
  Enemy.height en' = Enemy.height en ∧ Enemy.speed en' = Enemy.speed en ∧
  (Enemy.trail en' = Enemy.trail en ∨
   ∃ point, Enemy.trail en' = pushTrail (Enemy.trail en) point).

(** What the spawning blocks of [handleSpawning] do to the room state:
    they add enemies with an empty trail behind the ones there are, and
    write the collectibles, their timers and their flags; the rest is as it
    was. *)
Definition spawned (gs gs' : GameState.t) : Prop :=
  GameState.roomCode gs' = GameState.roomCode gs ∧
  GameState.map gs' = GameState.map gs ∧
  GameState.players gs' = GameState.players gs ∧
  GameState.boats gs' = GameState.boats gs ∧
  GameState.deployedSinks gs' = GameState.deployedSinks gs ∧
  GameState.portals gs' = GameState.portals gs ∧
  GameState.gameTime gs' = GameState.gameTime gs ∧
  GameState.speedBoostApplied gs' = GameState.speedBoostApplied gs ∧
  GameState.mapSeed gs' = GameState.mapSeed gs ∧
  ∃ new, GameState.enemies gs' = GameState.enemies gs ++ new ∧
         Forall (λ en, Enemy.trail en = [] ∧ Enemy.width en = 24%Q ∧
                       Enemy.height en = 24%Q) new.

End TickVocabulary2.

Section TickVocabulary3.
Import QbitCityGameStateManager QbitCityGameLoop.
Context `{JsHost}.

(** The fields of a player that movement never writes. *)
Definition sameIdentity (p q : Player.t) : Prop :=
  Player.id p = Player.id q ∧ Player.name p = Player.name q ∧
  Player.width p = Player.width q ∧ Player.height p = Player.height q ∧
  Player.speed p = Player.speed q ∧
  Player.coinsCollected p = Player.coinsCollected q ∧
  Player.immunityInventory p = Player.immunityInventory q ∧
  Player.sinkInventory p = Player.sinkInventory q.

(** Who a player is, for the clients: id, name and size. *)
Definition publicIdentity (p : Player.t) : string * string * Q * Q :=
  (Player.id p, Player.name p, Player.width p, Player.height p).

Definition boatIdentity (b : Boat.t) : Z * Q * Q := (Boat.id b, Boat.w b, Boat.h b).

(** What a tick leaves as it is: the room code, the map and its seed, who
    the players are and in which order, and which boats there are. *)
Definition sameSetting (gs gs' : GameState.t) : Prop :=
  GameState.roomCode gs' = GameState.roomCode gs ∧
  GameState.map gs' = GameState.map gs ∧
  GameState.mapSeed gs' = GameState.mapSeed gs ∧
  publicIdentity <$> GameState.players gs' = publicIdentity <$> GameState.players gs ∧
  boatIdentity <$> GameState.boats gs' = boatIdentity <$> GameState.boats gs.

(** The bounds of a player's counters. *)
Definition withinBounds (p : Player.t) : Prop :=
  0 ≤ Player.coinsCollected p < COINS_FOR_IMMUNITY ∧
  0 ≤ Player.immunityInventory p ≤ MAX_IMMUNITY_INVENTORY ∧
  0 ≤ Player.sinkInventory p ≤ 3 ∧
  (0 <= Player.energy p)%Q ∧ (Player.energy p <= 1)%Q.

Definition countersBounded (gs : GameState.t) : Prop :=
  Forall withinBounds (GameState.players gs).

(** No trail is longer than twenty points. *)
Definition trailsBounded (gs : GameState.t) : Prop :=
  Forall (λ p, (length (Player.trail p) ≤ 20)%nat) (GameState.players gs) ∧
  Forall (λ en, (length (Enemy.trail en) ≤ 20)%nat) (GameState.enemies gs).

(** The enemies of [gs] are still there in [gs'], in front and in order. *)
Definition enemiesKept (gs gs' : GameState.t) : Prop :=
  (Enemy.id <$> GameState.enemies gs) `prefix_of` (Enemy.id <$> GameState.enemies gs').

(** The relations a tick respects, for the bounds above. *)
Definition keepsCounters (gs gs' : GameState.t) : Prop :=
  countersBounded gs → countersBounded gs'.

Definition keepsTrails (gs gs' : GameState.t) : Prop :=
  trailsBounded gs → trailsBounded gs'.

Definition sameTime (gs gs' : GameState.t) : Prop :=
  GameState.gameTime gs' = GameState.gameTime gs.

End TickVocabulary3.

(** ** Vocabulary of the room manager, the respawn and the handlers *)

Section RoomVocabulary.

(** The room has a host: its first player, the only one flagged as host,
    whose id is the room's [hostId]. *)
Definition wellHosted (room : ManagedRoom.t) : Prop :=
  ∃ host others,
    ManagedRoom.players room = host :: others ∧
    RoomPlayer.isHost host = true ∧
    ManagedRoom.hostId room = RoomPlayer.id host ∧
    Forall (λ p, RoomPlayer.isHost p = false) others.

(** The rooms of a [Map]: no two under the same code. *)
Definition distinctCodes (rooms : RoomManager.t) : Prop :=
  NoDup (ManagedRoom.code <$> rooms).

Definition roomsWellFormed (rooms : RoomManager.t) : Prop :=
  distinctCodes rooms ∧ Forall wellHosted rooms.

(** The [k]-th code [generateRoomCode] draws: six draws each. *)
Definition drawnCode (e : Env) (k : nat) : string :=
  match randomCode ROOM_CODE_LENGTH EmptyString (afterDraws (6 * k) e) with
  | Normal code _ => code
  | _ => EmptyString
  end.

(** A room that waits with its host and a guest, and a room that plays. *)
Definition exampleRooms : RoomManager.t :=
  [ {| ManagedRoom.code := "ROOM01"; ManagedRoom.hostId := "ann";
       ManagedRoom.players :=
         [RoomPlayer.mk "ann" "Ann" true 0; RoomPlayer.mk "bea" "Bea" false 0];
       ManagedRoom.status := WAITING; ManagedRoom.createdAt := 0;
       ManagedRoom.maxPlayers := Finite 4 |};
    {| ManagedRoom.code := "ROOM02"; ManagedRoom.hostId := "cy";
       ManagedRoom.players := [RoomPlayer.mk "cy" "Cy" true 0];
       ManagedRoom.status := PLAYING; ManagedRoom.createdAt := 0;
       ManagedRoom.maxPlayers := Finite 4 |} ].

(** The draws of this environment spell CCCCCC 99 times, then AAAAAA. *)
Definition lastCodeFree : Env :=
  {| random_draws := λ n, if (n <? 594)%nat then (1 # 16)%Q else 0%Q;
     random_next := 0; clock := 0; outbox := [] |}.

End RoomVocabulary.

Section RespawnVocabulary.
Import QbitCityGameStateManager.

(** The map has a road tile inside its perimeter. *)
Definition hasInteriorRoad (map : GameMap.t) : Prop :=
  ∃ x y, 1 ≤ x < MAP_WIDTH - 1 ∧ 1 ≤ y < MAP_HEIGHT - 1 ∧
         getTile (GameMap.tiles map) x y = Some ROAD.

(** A server with the room of [lobby] started and its state initialised on
    the map of seed 42, with an input of its player buffered. *)
Definition arena : World.t :=
  {| World.rooms := [Room.mk "ROOM01" [("ann", "Ann")] PLAYING];
     World.roomStates := {[ "ROOM01" := exampleState [ann] [] [] ]};
     World.inputBuffers :=
       {[ "ann" := [ {| Input.keys := Some pressRight; Input.timestamp := 990;
                        Input.processed := false |} ] ]};
     World.env := constantEnv (1 # 16) 1000 |}.

End RespawnVocabulary.

Section MoreFixtures.
Import QbitCityGameStateManager QbitCityGameLoop.

(** A full buffer: sixty unprocessed inputs stamped 100. *)
Definition fullBuffer : list Input.t :=
  replicate 60 {| Input.keys := Some pressRight; Input.timestamp := 100;
                  Input.processed := false |}.

End MoreFixtures.

Section HandlerVocabulary.

(** The counters of the players of every room state are within bounds. *)
Definition statesBounded (roomStates : gmap string GameState.t) : Prop :=
  ∀ roomCode gameState, roomStates !! roomCode = Some gameState →
    countersBounded gameState.

(** A player of the room ROOM02, with a full energy bar, a sink trap and an
    immunity in store. *)
Definition cy : Player.t :=
  Player.set_immunityInventory 1
    (Player.set_sinkInventory 1
       (Player.set_energy 1
          (QbitCityGameStateManager.newPlayer "cy" "Cy" (tileCentre 4 4)))).

(** A server with the rooms above; the game of ROOM02 runs. *)
Definition exampleServer : Server.t :=
  {| Server.rooms := exampleRooms;
     Server.roomStates := {[ "ROOM02" := exampleRoomState "ROOM02" [cy] [] [] ]};
     Server.inputBuffers :=
       {[ "cy" := [ {| Input.keys := Some pressRight; Input.timestamp := 990;
                       Input.processed := false |} ] ]};
     Server.env := constantEnv (1 # 16) 1000;
     Server.sent := [] |}.

End HandlerVocabulary.
(** ** Vocabulary of the collision pass and of the coin spawner *)

Section PassVocabulary.
Import QbitCityGameStateManager QbitCityGameLoop.
Context `{JsHost}.

(** An [io] that delivers: its [emit] returns, and has no hand in the draws
    of [Math.random]. *)
Definition delivers (io : IO) : Prop :=
  ∀ room event e, ∃ e',
    emit io room event e = Normal tt e' ∧ random_draws e' = random_draws e.

(** The coin is within the 25 units at which the coin loop collects it for
    the player. *)
Definition inReach (player : Player.t) (coin : Coin.t) : bool :=
  Qltb (Math_hypot (Player.x player - Coin.x coin) (Player.y player - Coin.y coin)) 25.

(** The player gets past the lava check of the collision pass: the tile
    under the player is not lava, or a boat is under the player. *)
Definition pastLava (gameState : GameState.t) (player : Player.t) : bool :=
  negb (bool_decide (tileUnder gameState player = Some LAVA)) || onBoat gameState player.

(** One of the players [earlier] gets past the lava check and has the coin
    within reach. *)
Definition takenBy (gameState : GameState.t) (earlier : list Player.t) (coin : Coin.t)
  : bool :=
  existsb (λ p, pastLava gameState p && inReach p coin) earlier.

(** The coins the collision pass collects for the [i]-th player of the room
    state it starts from: none when the player does not get past the lava
    check, and else the coins that were not collected before the pass, are
    within reach of the player, and were within reach of no player that
    the pass handles earlier. *)
Definition coinsFor (gameState : GameState.t) (i : nat) (player : Player.t) : list Coin.t :=
  if pastLava gameState player
  then List.filter
         (λ coin, negb (Coin.collected coin) && inReach player coin &&
                  negb (takenBy gameState (take i (GameState.players gameState)) coin))
         (GameState.coins gameState)
  else [].

(** The coin counter and the immunity inventory after [n] more coins. *)
Definition afterCoins (n : nat) (counters : Z * Z) : Z * Z :=
  Nat.iter n (λ '(counter, inventory), afterCoin counter inventory) counters.

(** The coin counter and the immunity inventory of a player. *)
Definition coinCounters (p : Player.t) : Z * Z :=
  (Player.coinsCollected p, Player.immunityInventory p).

(** What the loops over the enemies leave as it was: the players, the
    coins, the map and the boats. *)
Definition bystanders (gs gs' : GameState.t) : Prop :=
  GameState.players gs' = GameState.players gs ∧
  GameState.coins gs' = GameState.coins gs ∧
  GameState.map gs' = GameState.map gs ∧
  GameState.boats gs' = GameState.boats gs.

(** What the portal loop for the [i]-th player leaves as it was: the coins,
    the map, the boats, the other players, and the counters of the
    player. *)
Definition teleports (i : nat) (gs gs' : GameState.t) : Prop :=
  GameState.coins gs' = GameState.coins gs ∧
  GameState.map gs' = GameState.map gs ∧
  GameState.boats gs' = GameState.boats gs ∧
  (∀ j, j ≠ i → GameState.players gs' !! j = GameState.players gs !! j) ∧
  coinCounters <$> (GameState.players gs' !! i) =
    coinCounters <$> (GameState.players gs !! i).

(** The coin as the pass leaves it, given who takes coins. *)
Definition collectedIf (taken : Coin.t → bool) (coin : Coin.t) : Coin.t :=
  if negb (Coin.collected coin) && taken coin then Coin.set_collected true coin else coin.

(** The room state once the collision pass that started from [gs0] has
    handled the first [k] players: map and boats are as they were, the
    players still to come are as they were, each player handled has
    counted the coins of [coinsFor], and the coins taken are collected. *)
Definition handled (gs0 : GameState.t) (k : nat) (gs : GameState.t) : Prop :=
  GameState.map gs = GameState.map gs0 ∧
  GameState.boats gs = GameState.boats gs0 ∧
  (∀ j, (k ≤ j)%nat → GameState.players gs !! j = GameState.players gs0 !! j) ∧
  (∀ j p, (j < k)%nat → GameState.players gs0 !! j = Some p →
     ∃ p', GameState.players gs !! j = Some p' ∧
           coinCounters p' = afterCoins (length (coinsFor gs0 j p)) (coinCounters p)) ∧
  GameState.coins gs =
    collectedIf (takenBy gs0 (take k (GameState.players gs0))) <$> GameState.coins gs0.

(** A coin at [(x, y)] that nobody has collected. *)
Definition coinAtPoint (x y : Q) : Coin.t :=
  {| Coin.id := {| id_prefix := "coin"; id_time := 0; id_random := 0 |};
     Coin.x := x; Coin.y := y; Coin.collected := false; Coin.spawnTime := 0 |}.

(** Ann on the road with five coins 12 units to her right, a sixth coin on
    the other side of the map, and a second player standing on Ann's
    coins. *)
Definition coinRush : Sim.t :=
  {| Sim.state :=
       GameState.set_coins
         (replicate 5 (coinAtPoint 300 288) ++ [coinAtPoint 2000 288])
         (exampleState [ann; newPlayer "bob" "Bob" (300%Q, 288%Q)] [] []);
     Sim.inputBuffers := ∅;
     Sim.env := constantEnv (1 # 16) 1000 |}.

End PassVocabulary.

Section CoinSpotVocabulary.
Import QbitCityGameStateManager QbitCityGameLoop.
Context `{JsHost}.

(** A tile on which [spawnCoin] places a coin: a road tile whose centre is
    no nearer than 200 to any player. *)
Definition coinSpot (gameState : GameState.t) (cell : Z * Z) : bool :=
  isRoad (GameState.map gameState) cell &&
  negb (tooCloseToPlayers gameState (tileCentre cell.1 cell.2).1
          (tileCentre cell.1 cell.2).2 200).

(** The coin [spawnCoin] places when the [k]-th tile it draws is the first
    coin spot: at the centre of that tile, named after the clock and the
    draw that follows the tile's two. *)
Definition coinAt (e : Env) (k : nat) : Coin.t :=
  let centre := tileCentre (drawnTile e k).1 (drawnTile e k).2 in
  {| Coin.id := {| id_prefix := "coin"; id_time := clock e;
                   id_random := random_draws e (2 * k + 2 + random_next e)%nat |};
     Coin.x := centre.1; Coin.y := centre.2; Coin.collected := false;
     Coin.spawnTime := (inject_Z (clock e) * (1 # 1000))%Q |}.

(** A room that has seeded its coins and whose spawn interval has
    elapsed. *)
Definition dueState : GameState.t :=
  GameState.set_coinSpawnTimer 10
    (GameState.set_coinsInitialized true (exampleState [ann] [] [])).

End CoinSpotVocabulary.
(* ================================================================== *)
(** * Properties *)

(** ** Loop invariants *)

(** An invariant indexed by the loop counter. *)
Lemma for_range_invariant {St : Type} (I : Z → St → Prop) lo hi body (s : St) :
  lo ≤ hi →
  I lo s →
  (∀ i acc, lo ≤ i < hi → I i acc → I (i + 1) (body i acc)) →
  I hi (for_range lo hi body s).
Proof.
  intros Hle H0 Hstep. unfold for_range.
  assert (Hn : ∀ n : nat, Z.of_nat n ≤ hi - lo →
            I (lo + Z.of_nat n) (foldl (λ acc i, body i acc) s (seqZ lo (Z.of_nat n)))).
  { induction n as [|n IH]; intros Hb.
    - change (Z.of_nat 0) with 0. rewrite seqZ_nil by lia. simpl.
      replace (lo + 0) with lo by lia. exact H0.
    - rewrite seqZ_S, foldl_snoc.
      replace (lo + Z.of_nat (S n)) with (lo + Z.of_nat n + 1) by lia.
      apply Hstep; [lia | apply IH; lia]. }
  specialize (Hn (Z.to_nat (hi - lo))).
  rewrite Z2Nat.id in Hn by lia.
  replace (lo + (hi - lo)) with hi in Hn by lia. apply Hn. lia.
Qed.

(** A property kept by every iteration. *)
Lemma for_range_preserves {St : Type} (P : St → Prop) lo hi body (s : St) :
  P s → (∀ i acc, lo ≤ i < hi → P acc → P (body i acc)) →
  P (for_range lo hi body s).
Proof.
  intros H0 Hstep. unfold for_range.
  assert (Hg : ∀ l acc, (∀ i, i ∈ l → lo ≤ i < hi) → P acc →
             P (foldl (λ acc i, body i acc) acc l)).
  { induction l as [|i l IH]; intros acc Hin Hacc; simpl; [done|].
    apply IH; [intros j Hj; apply Hin; by right|].
    apply Hstep; [apply Hin; by left | done]. }
  apply Hg; [|done]. intros i Hi. apply elem_of_seqZ in Hi. lia.
Qed.

Lemma rng_for_range_preserves {St : Type} (P : St → Prop) lo hi body (s : St) v :
  P s → (∀ i acc w, lo ≤ i < hi → P acc → P (body i acc w).1) →
  P (Rng.for_range lo hi body s v).1.
Proof.
  intros H0 Hstep. unfold Rng.for_range.
  assert (Hg : ∀ l (m : Rng.M St), (∀ i, i ∈ l → lo ≤ i < hi) → (∀ w, P (m w).1) →
             ∀ w, P (foldl (λ acc i, Rng.bind acc (body i)) m l w).1).
  { induction l as [|i l IH]; intros m Hin Hm w; simpl; [apply Hm|].
    apply IH; [intros j Hj; apply Hin; by right|].
    intros w'. unfold Rng.bind. specialize (Hm w').
    destruct (m w') as [a w'']. apply Hstep; [apply Hin; by left | done]. }
  apply Hg; [|done]. intros i Hi. apply elem_of_seqZ in Hi. lia.
Qed.

(** ** The tile grid *)

Lemma shaped_getTile t x y :
  shaped t → 0 ≤ x < MAP_WIDTH → 0 ≤ y < MAP_HEIGHT → is_Some (getTile t x y).
Proof.
  intros [Hlen Hrows] Hx Hy. unfold getTile.
  replace (0 <=? y) with true by (symmetry; apply Z.leb_le; lia).
  replace (0 <=? x) with true by (symmetry; apply Z.leb_le; lia). simpl.
  destruct (t !! Z.to_nat y) as [row|] eqn:Hrow.
  - apply lookup_lt_is_Some.
    rewrite Forall_forall in Hrows.
    rewrite (Hrows row) by (eapply list_elem_of_lookup_2; eauto).
    unfold MAP_WIDTH in *. lia.
  - apply lookup_ge_None in Hrow. unfold MAP_HEIGHT in *. lia.
Qed.

Lemma shaped_setTile t x y v : shaped t → shaped (setTile t x y v).
Proof.
  intros [Hlen Hrows]. unfold setTile.
  destruct ((0 <=? y) && (0 <=? x)); [|by split].
  split; [by rewrite length_alter|].
  apply Forall_forall. intros row Hin.
  apply list_elem_of_lookup in Hin as [j Hj].
  rewrite list_lookup_alter in Hj. rewrite Forall_forall in Hrows.
  destruct (decide (Z.to_nat y = j)) as [->|].
  - destruct (t !! j) as [row0|] eqn:Hrow0; simpl in Hj; [|done].
    injection Hj as <-. rewrite length_insert.
    apply Hrows. eapply list_elem_of_lookup_2; eauto.
  - apply Hrows. eapply list_elem_of_lookup_2; eauto.
Qed.

Lemma getTile_setTile_eq t x y v :
  is_Some (getTile t x y) → getTile (setTile t x y v) x y = Some v.
Proof.
  unfold getTile, setTile.
  destruct ((0 <=? y) && (0 <=? x)); [|by intros [? ?]].
  rewrite list_lookup_alter_eq.
  destruct (t !! Z.to_nat y) as [row|]; simpl; [|by intros [? ?]].
  intros Hs. apply list_lookup_insert_eq. by apply lookup_lt_is_Some.
Qed.

Lemma getTile_setTile_ne t x y v x' y' :
  (x, y) ≠ (x', y') → getTile (setTile t x y v) x' y' = getTile t x' y'.
Proof.
  intros Hne. unfold getTile, setTile.
  destruct ((0 <=? y') && (0 <=? x')) eqn:Hb'; [|done].
  destruct ((0 <=? y) && (0 <=? x)) eqn:Hb; [|done].
  apply andb_true_iff in Hb as [Hy Hx]. apply andb_true_iff in Hb' as [Hy' Hx'].
  apply Z.leb_le in Hy, Hx, Hy', Hx'.
  rewrite list_lookup_alter.
  destruct (decide (Z.to_nat y = Z.to_nat y')) as [Heq|]; [|done].
  rewrite Heq. destruct (t !! Z.to_nat y') as [row|]; simpl; [|done].
  apply list_lookup_insert_ne. intros Hx2.
  apply Hne. f_equal; lia.
Qed.

(** ** Map generation *)

Section MapGeneration.
Import QbitCityGameStateManager.

Lemma shaped_initialTiles : shaped initialTiles.
Proof.
  split; [reflexivity|].
  eapply bool_decide_unpack. vm_compute. exact I.
Qed.

Lemma shaped_waterBlot x y t : shaped t → shaped (waterBlot x y t).
Proof.
  intros Ht. unfold waterBlot.
  apply for_range_preserves; [done|]. intros ly acc _ Hacc.
  apply for_range_preserves; [done|]. intros lx acc' _ Hacc'.
  repeat case_match; auto using shaped_setTile.
Qed.

Lemma shaped_terrainCell x y t v : shaped t → shaped (terrainCell x y t v).1.
Proof.
  intros Ht. unfold terrainCell, Rng.bind, Rng.rng, Rng.ret.
  repeat case_match; simpl; auto using shaped_setTile, shaped_waterBlot.
Qed.

Lemma shaped_terrainPass t v : shaped t → shaped (terrainPass t v).1.
Proof.
  intros Ht. unfold terrainPass.
  apply rng_for_range_preserves; [done|]. intros y acc w _ Hacc.
  apply rng_for_range_preserves; [done|]. intros x acc' w' _ Hacc'.
  by apply shaped_terrainCell.
Qed.

Lemma perimeterCell_step t x y acc :
  0 ≤ x < MAP_WIDTH → 0 ≤ y < MAP_HEIGHT →
  perimeterDone t x y acc → perimeterDone t (x + 1) y (perimeterCell x y acc).
Proof.
  intros Hx Hy [Hs Hget]. unfold perimeterCell. fold (onPerimeter x y).
  destruct (onPerimeter x y) eqn:Hp.
  - split; [by apply shaped_setTile|]. intros x0 y0 Hx0 Hy0.
    destruct (decide ((x, y) = (x0, y0))) as [Heq|Hne].
    + injection Heq as <- <-.
      rewrite getTile_setTile_eq by (by apply shaped_getTile).
      rewrite Hp, Z.eqb_refl.
      replace (x <? x + 1) with true by (symmetry; apply Z.ltb_lt; lia).
      by rewrite orb_true_r.
    + rewrite getTile_setTile_ne by done. rewrite Hget by done.
      replace ((y0 =? y) && (x0 <? x + 1)) with ((y0 =? y) && (x0 <? x)); [done|].
      destruct (y0 =? y) eqn:Ey; [|done]. apply Z.eqb_eq in Ey. simpl.
      assert (x0 ≠ x) by congruence.
      destruct (x0 <? x) eqn:E1, (x0 <? x + 1) eqn:E2; try done;
        [apply Z.ltb_lt in E1; apply Z.ltb_ge in E2
        |apply Z.ltb_ge in E1; apply Z.ltb_lt in E2]; lia.
  - split; [done|]. intros x0 y0 Hx0 Hy0. rewrite Hget by done.
    destruct (decide ((x, y) = (x0, y0))) as [Heq|Hne].
    + injection Heq as <- <-. by rewrite Hp, !andb_false_r.
    + replace ((y0 =? y) && (x0 <? x + 1)) with ((y0 =? y) && (x0 <? x)); [done|].
      destruct (y0 =? y) eqn:Ey; [|done]. apply Z.eqb_eq in Ey. simpl.
      assert (x0 ≠ x) by congruence.
      destruct (x0 <? x) eqn:E1, (x0 <? x + 1) eqn:E2; try done;
        [apply Z.ltb_lt in E1; apply Z.ltb_ge in E2
        |apply Z.ltb_ge in E1; apply Z.ltb_lt in E2]; lia.
Qed.

Lemma perimeterRow_step t y acc :
  0 ≤ y < MAP_HEIGHT →
  perimeterDone t 0 y acc →
  perimeterDone t 0 (y + 1) (for_range 0 MAP_WIDTH (λ x, perimeterCell x y) acc).
Proof.
  intros Hy Hacc.
  assert (Hrow : perimeterDone t MAP_WIDTH y
                   (for_range 0 MAP_WIDTH (λ x, perimeterCell x y) acc)).
  { apply (for_range_invariant (λ x t', perimeterDone t x y t')); [done|done|].
    intros x acc' Hx Hacc'. by apply perimeterCell_step. }
  destruct Hrow as [Hs Hget]. split; [done|].
  intros x0 y0 Hx0 Hy0. rewrite Hget by done.
  replace ((y0 <? y + 1) || ((y0 =? y + 1) && (x0 <? 0)))
    with ((y0 <? y) || ((y0 =? y) && (x0 <? MAP_WIDTH))); [done|].
  replace (x0 <? 0) with false by (symmetry; apply Z.ltb_ge; lia).
  replace (x0 <? MAP_WIDTH) with true by (symmetry; apply Z.ltb_lt; lia).
  rewrite andb_false_r, andb_true_r, orb_false_r.
  destruct (y0 <? y) eqn:E1, (y0 =? y) eqn:E2, (y0 <? y + 1) eqn:E3; try done;
    try apply Z.ltb_lt in E1; try apply Z.ltb_ge in E1;
    try apply Z.eqb_eq in E2; try apply Z.eqb_neq in E2;
    try apply Z.ltb_lt in E3; try apply Z.ltb_ge in E3; lia.
Qed.

(** The perimeter pass writes lava on the perimeter whatever was there, and
    nothing else. *)
Lemma perimeterPass_spec t x y :
  shaped t → 0 ≤ x < MAP_WIDTH → 0 ≤ y < MAP_HEIGHT →
  getTile (perimeterPass t) x y =
    if onPerimeter x y then Some LAVA else getTile t x y.
Proof.
  intros Hs Hx Hy.
  assert (Hall : perimeterDone t 0 MAP_HEIGHT (perimeterPass t)).
  { unfold perimeterPass.
    apply (for_range_invariant (λ y t', perimeterDone t 0 y t')); [done| |].
    - split; [done|]. intros x0 y0 Hx0 Hy0.
      replace (y0 <? 0) with false by (symmetry; apply Z.ltb_ge; lia).
      replace (x0 <? 0) with false by (symmetry; apply Z.ltb_ge; lia).
      by rewrite andb_false_r.
    - intros y' acc Hy' Hacc. by apply perimeterRow_step. }
  destruct Hall as [_ Hget]. rewrite Hget by done.
  replace (y <? MAP_HEIGHT) with true by (symmetry; apply Z.ltb_lt; lia). done.
Qed.

Lemma shaped_perimeterPass t : shaped t → shaped (perimeterPass t).
Proof.
  intros Ht. unfold perimeterPass.
  apply for_range_preserves; [done|]. intros y acc _ Hacc.
  apply for_range_preserves; [done|]. intros x acc' _ Hacc'.
  unfold perimeterCell. case_match; auto using shaped_setTile.
Qed.

Lemma generateMap_tiles seed :
  GameMap.tiles (generateMap seed) = perimeterPass (terrainPass initialTiles seed).1.
Proof.
  unfold generateMap, seededRandom.
  destruct (terrainPass initialTiles seed) as [t v].
  by destruct (decoratePass (perimeterPass t) v) as [[bs ts] v'].
Qed.

Lemma generateMap_shaped seed : shaped (GameMap.tiles (generateMap seed)).
Proof.
  rewrite generateMap_tiles.
  apply shaped_perimeterPass, shaped_terrainPass, shaped_initialTiles.
Qed.

(** C6.  For every seed the generated grid has 50 rows of 50 tiles, and
    every tile of its perimeter (x = 0, x = 49, y = 0 or y = 49) is lava,
    whatever the road, water and grass passes wrote there. *)
Theorem generateMap_perimeter_lava (seed x y : Z) :
  0 ≤ x < MAP_WIDTH → 0 ≤ y < MAP_HEIGHT →
  x = 0 ∨ x = MAP_WIDTH - 1 ∨ y = 0 ∨ y = MAP_HEIGHT - 1 →
  shaped (GameMap.tiles (generateMap seed)) ∧
  getTile (GameMap.tiles (generateMap seed)) x y = Some LAVA.
Proof.
  intros Hx Hy Hp. split; [apply generateMap_shaped|].
  rewrite generateMap_tiles.
  rewrite perimeterPass_spec
    by (done || apply shaped_terrainPass, shaped_initialTiles).
  replace (onPerimeter x y) with true; [done|].
  symmetry. unfold onPerimeter. rewrite !orb_true_iff, !Z.eqb_eq. tauto.
Qed.

Lemma generateMap_perimeter_lava_witness :
  shaped (GameMap.tiles (generateMap 42)) ∧
  getTile (GameMap.tiles (generateMap 42)) 49 17 = Some LAVA.
Proof.
  apply (generateMap_perimeter_lava 42 49 17); unfold MAP_WIDTH, MAP_HEIGHT; lia.
Defined.

Lemma respects_ret {A : Type} (a : A) : respects_lcg (Rng.ret a).
Proof. by intros v1 v2 Hv. Qed.

Lemma respects_rng : respects_lcg Rng.rng.
Proof.
  intros v1 v2 Hv. unfold Rng.rng, lcg_related in *. simpl. by rewrite Hv.
Qed.

Lemma respects_bind {A B : Type} (m : Rng.M A) (f : A → Rng.M B) :
  respects_lcg m → (∀ a, respects_lcg (f a)) → respects_lcg (Rng.bind m f).
Proof.
  intros Hm Hf v1 v2 Hv. unfold Rng.bind.
  destruct (Hm v1 v2 Hv) as [Ha Hv'].
  destruct (m v1) as [a1 w1], (m v2) as [a2 w2]. simpl in *. subst a2.
  by apply Hf.
Qed.

Lemma respects_for_range {St : Type} lo hi (body : Z → St → Rng.M St) s :
  (∀ i acc, respects_lcg (body i acc)) →
  respects_lcg (Rng.for_range lo hi body s).
Proof.
  intros Hbody. unfold Rng.for_range.
  assert (Hg : ∀ l m, respects_lcg m →
             respects_lcg (foldl (λ acc i, Rng.bind acc (body i)) m l)).
  { induction l as [|i l IH]; intros m Hm; simpl; [done|].
    apply IH, respects_bind; auto. }
  apply Hg, respects_ret.
Qed.

Ltac respects_step :=
  first [ apply respects_ret | apply respects_rng
        | apply respects_bind; [|intros ?]
        | case_match ].

Lemma respects_terrainPass t : respects_lcg (terrainPass t).
Proof.
  unfold terrainPass.
  apply respects_for_range. intros y acc.
  apply respects_for_range. intros x acc'.
  unfold terrainCell. repeat respects_step.
Qed.

Lemma respects_decoratePass t : respects_lcg (decoratePass t).
Proof.
  unfold decoratePass.
  apply respects_for_range. intros y acc.
  apply respects_for_range. intros x [bs ts].
  unfold decorateCell. repeat respects_step.
Qed.

(** The generated map depends on the seed only through the first state of
    the seeded generator. *)
Lemma generateMap_respects_lcg s1 s2 :
  lcg_related s1 s2 → generateMap s1 = generateMap s2.
Proof.
  intros Hs. unfold generateMap, seededRandom.
  destruct (respects_terrainPass initialTiles s1 s2 Hs) as [Ht Hv].
  destruct (terrainPass initialTiles s1) as [t1 v1].
  destruct (terrainPass initialTiles s2) as [t2 v2].
  cbn [fst snd] in Ht, Hv. subst t2.
  destruct (respects_decoratePass (perimeterPass t1) v1 v2 Hv) as [Hd _].
  destruct (decoratePass (perimeterPass t1) v1) as [[bs1 ts1] w1].
  destruct (decoratePass (perimeterPass t1) v2) as [[bs2 ts2] w2].
  cbn [fst] in Hd. by injection Hd as -> ->.
Qed.

(** Seeds a whole period apart give the same map. *)
Example generateMap_same_orbit : generateMap 7 = generateMap (7 + 233280).
Proof. apply generateMap_respects_lcg. reflexivity. Qed.

(** Different seeds can give different maps. *)
Example generateMap_seed_matters :
  getTile (GameMap.tiles (generateMap 1)) 2 1 = Some SIDEWALK ∧
  getTile (GameMap.tiles (generateMap 2)) 2 1 = Some WATER.
Proof. split; vm_compute; reflexivity. Qed.

End MapGeneration.

(** ** The input buffer *)

Section InputBuffer.
Import QbitCityGameStateManager.

Lemma Forall_insertByTimestamp (P : Input.t → Prop) a l :
  Forall P (insertByTimestamp a l) ↔ P a ∧ Forall P l.
Proof.
  induction l as [|b l IH]; simpl.
  - rewrite Forall_singleton, Forall_nil. tauto.
  - destruct (Input.timestamp b <=? Input.timestamp a).
    + rewrite !Forall_cons, IH. tauto.
    + rewrite !Forall_cons. tauto.
Qed.

Lemma insertByTimestamp_ordered a l :
  inTimestampOrder l → inTimestampOrder (insertByTimestamp a l).
Proof.
  unfold inTimestampOrder. induction 1 as [|b l Hl IH Hb]; simpl.
  - repeat constructor.
  - destruct (Input.timestamp b <=? Input.timestamp a) eqn:E.
    + apply Z.leb_le in E. constructor; [done|].
      apply Forall_insertByTimestamp. by split.
    + apply Z.leb_gt in E. constructor; [by constructor|].
      constructor; [lia|]. eapply Forall_impl; [exact Hb|]. simpl. intros; lia.
Qed.

Lemma length_insertByTimestamp a l :
  length (insertByTimestamp a l) = S (length l).
Proof.
  induction l as [|b l IH]; simpl; [done|].
  destruct (Input.timestamp b <=? Input.timestamp a); simpl; by rewrite ?IH.
Qed.

Lemma sortByTimestamp_from acc l :
  inTimestampOrder acc →
  inTimestampOrder (foldl (λ sorted a, insertByTimestamp a sorted) acc l) ∧
  length (foldl (λ sorted a, insertByTimestamp a sorted) acc l)
    = (length acc + length l)%nat.
Proof.
  revert acc. induction l as [|a l IH]; intros acc Hacc; simpl.
  - split; [done|lia].
  - destruct (IH (insertByTimestamp a acc)) as [Hs Hl];
      [by apply insertByTimestamp_ordered|].
    split; [done|]. rewrite Hl, length_insertByTimestamp. lia.
Qed.

(** Sorting orders the buffer and keeps its length. *)
Lemma sortByTimestamp_ordered l : inTimestampOrder (sortByTimestamp l).
Proof. apply sortByTimestamp_from. constructor. Qed.

Lemma length_sortByTimestamp l : length (sortByTimestamp l) = length l.
Proof.
  unfold sortByTimestamp.
  destruct (sortByTimestamp_from [] l) as [_ ->]; [constructor|done].
Qed.

(** A buffer that is in order is left as it is by the sort. *)
Lemma insertByTimestamp_last a l :
  Forall (λ b, Input.timestamp b ≤ Input.timestamp a) l →
  insertByTimestamp a l = l ++ [a].
Proof.
  induction 1 as [|b l Hb Hl IH]; simpl; [done|].
  replace (Input.timestamp b <=? Input.timestamp a) with true
    by (symmetry; by apply Z.leb_le).
  by rewrite IH.
Qed.

Lemma tail_ordered l : inTimestampOrder l → inTimestampOrder (tail l).
Proof. destruct 1; simpl; [constructor|done]. Qed.

(** One call keeps every buffer within 60 entries and in order. *)
Lemma bufferPlayerInput_bounded playerId input timestamp buffers :
  buffersBounded buffers →
  buffersBounded (bufferPlayerInput playerId input timestamp buffers).
Proof.
  intros Hinv pid buffer. unfold bufferPlayerInput.
  set (buffers' := if bool_decide (is_Some (buffers !! playerId)) then buffers
                   else <[playerId := []]> buffers).
  assert (Hold : (length (default [] (buffers' !! playerId)) ≤ 60)%nat).
  { subst buffers'. case_bool_decide as Hs.
    - destruct Hs as [b Hb]. rewrite Hb. simpl. by apply (Hinv playerId).
    - rewrite lookup_insert_eq. simpl. lia. }
  set (sorted := sortByTimestamp (default [] (buffers' !! playerId) ++ _)).
  assert (Hlen : (length sorted ≤ 61)%nat).
  { subst sorted. rewrite length_sortByTimestamp, length_app. simpl. lia. }
  assert (Hord : inTimestampOrder sorted) by apply sortByTimestamp_ordered.
  destruct (decide (playerId = pid)) as [->|Hne].
  - rewrite lookup_insert_eq. intros [= <-].
    destruct (60 <? Z.of_nat (length sorted)) eqn:E.
    + split; [|by apply tail_ordered].
      destruct sorted; simpl in *; lia.
    + apply Z.ltb_ge in E. split; [lia|done].
  - rewrite lookup_insert_ne by done. subst buffers'.
    case_bool_decide; [apply Hinv|].
    rewrite lookup_insert_ne by done. apply Hinv.
Qed.

Lemma afterPushes_bounded calls : buffersBounded (afterPushes calls).
Proof.
  unfold afterPushes.
  assert (Hg : ∀ buffers, buffersBounded buffers →
             buffersBounded
               (foldl (λ buffers '(playerId, input, timestamp),
                         bufferPlayerInput playerId input timestamp buffers)
                      buffers calls)).
  { induction calls as [|[[pid input] ts] calls IH]; intros buffers Hb; simpl; [done|].
    by apply IH, bufferPlayerInput_bounded. }
  apply Hg. intros pid buffer Hlook. by rewrite lookup_empty in Hlook.
Qed.

(** C7.  After every sequence of calls of [bufferPlayerInput], the buffer of
    every player has at most 60 entries, and they are in non-decreasing
    timestamp order. *)
Theorem bufferPlayerInput_length_and_order
    (calls : list Push) (playerId : string) (buffer : list Input.t) :
  afterPushes calls !! playerId = Some buffer →
  (length buffer ≤ 60)%nat ∧ inTimestampOrder buffer.
Proof. apply afterPushes_bounded. Qed.

Lemma bufferPlayerInput_length_and_order_witness :
  let calls := [("p1", Some Keys.none, 30); ("p2", None, 7); ("p1", None, 10)] in
  let buffer := [Input.mk None 10 false; Input.mk (Some Keys.none) 30 false] in
  (length buffer ≤ 60)%nat ∧ inTimestampOrder buffer.
Proof.
  intros calls buffer.
  apply (bufferPlayerInput_length_and_order calls "p1" buffer).
  vm_compute. reflexivity.
Defined.

(** The 61st entry pushes the earliest one out. *)
Example bufferPlayerInput_drops_earliest :
  let calls := (λ t, ("p", None, t)) <$> seqZ 0 61 in
  Input.timestamp <$> default [] (afterPushes calls !! "p") = seqZ 1 60.
Proof. vm_compute. reflexivity. Qed.

End InputBuffer.

(** ** Input processing *)

Section InputProcessing.
Import QbitCityGameStateManager QbitCityGameLoop.
Context `{JsHost}.

Lemma eligible_decide now input :
  negb (Input.processed input) && (Input.timestamp input <=? now) = true
  ↔ eligible now input.
Proof.
  unfold eligible. rewrite andb_true_iff, negb_true_iff, Z.leb_le. tauto.
Qed.

Lemma selectStep_not_eligible now latest k input :
  ¬ eligible now input → selectStep now latest (k, input) = latest.
Proof.
  intros Hne. unfold selectStep.
  destruct (negb (Input.processed input) && (Input.timestamp input <=? now)) eqn:E;
    [|done].
  by apply eligible_decide in E.
Qed.

(** Once an input is selected, earlier entries that are not later than it
    do not replace it. *)
Lemma select_keeps now k input (rest : list (nat * Input.t)) :
  Forall (λ e, Input.timestamp e.2 ≤ Input.timestamp input) rest →
  foldl (selectStep now) (Some (k, input)) rest = Some (k, input).
Proof.
  induction 1 as [|[k' e] rest He Hrest IH]; simpl; [done|].
  simpl in He.
  destruct (negb (Input.processed e) && (Input.timestamp e <=? now)); [|done].
  replace (Input.timestamp input <? Input.timestamp e) with false
    by (symmetry; apply Z.ltb_ge; lia).
  done.
Qed.

Lemma selectLatest_snoc buffer input now :
  selectLatest (buffer ++ [input]) now =
  foldl (selectStep now) (selectStep now None (length buffer, input))
        (reverse (imap (λ i e, (i, e)) buffer)).
Proof.
  unfold selectLatest. rewrite imap_app, reverse_app. simpl.
  by rewrite Nat.add_0_r.
Qed.

(** Without an eligible input the loop finds nothing. *)
Lemma selectLatest_None buffer now :
  (∀ input, input ∈ buffer → ¬ eligible now input) →
  selectLatest buffer now = None.
Proof.
  induction buffer as [|input buffer IH] using rev_ind; intros Hno; [done|].
  rewrite selectLatest_snoc, selectStep_not_eligible
    by (apply Hno, elem_of_app; right; by left).
  apply IH. intros e He. apply Hno, elem_of_app. by left.
Qed.

(** What the loop finds is an eligible entry of the buffer. *)
Lemma selectLatest_Some buffer now k input :
  selectLatest buffer now = Some (k, input) →
  buffer !! k = Some input ∧ eligible now input.
Proof.
  unfold selectLatest.
  assert (Hg : ∀ (rest : list (nat * Input.t)) latest,
             (∀ k e, (k, e) ∈ rest → buffer !! k = Some e) →
             (∀ k e, latest = Some (k, e) → buffer !! k = Some e ∧ eligible now e) →
             ∀ k e, foldl (selectStep now) latest rest = Some (k, e) →
                    buffer !! k = Some e ∧ eligible now e).
  { induction rest as [|[k' e'] rest IH]; intros latest Hrest Hlatest k0 e0; simpl.
    - apply Hlatest.
    - apply IH; [intros; apply Hrest; by right|].
      intros k1 e1. unfold selectStep.
      destruct (negb (Input.processed e') && (Input.timestamp e' <=? now)) eqn:E;
        [|apply Hlatest].
      apply eligible_decide in E.
      assert (Hk' : buffer !! k' = Some e') by (apply Hrest; by left).
      destruct latest as [[k2 e2]|].
      + destruct (Input.timestamp e2 <? Input.timestamp e'); [|apply Hlatest].
        by intros [= <- <-].
      + by intros [= <- <-]. }
  apply Hg; [|done].
  intros k0 e0 Hin. apply elem_of_reverse, elem_of_lookup_imap in Hin.
  destruct Hin as (i & e & [= -> ->] & Hi). done.
Qed.

(** In a buffer in timestamp order the loop finds the last eligible
    entry. *)
Lemma selectLatest_last_eligible buffer now k input :
  inTimestampOrder buffer →
  buffer !! k = Some input → eligible now input →
  (∀ k' e, buffer !! k' = Some e → eligible now e → (k' ≤ k)%nat) →
  selectLatest buffer now = Some (k, input).
Proof.
  revert k input.
  induction buffer as [|x buffer IH] using rev_ind; intros k input Hord Hk Hel Hlast;
    [done|].
  unfold inTimestampOrder in Hord.
  assert (Hbuf := StronglySorted_app_1_l _ _ _ Hord).
  rewrite selectLatest_snoc.
  destruct (decide (k = length buffer)) as [->|Hne].
  - rewrite list_lookup_middle in Hk by done. injection Hk as ->.
    unfold selectStep at 2.
    replace (negb (Input.processed input) && (Input.timestamp input <=? now)) with true
      by (symmetry; by apply eligible_decide).
    apply select_keeps.
    apply Forall_forall. intros [i e] Hin.
    apply elem_of_reverse, elem_of_lookup_imap in Hin.
    destruct Hin as (i' & e' & [= -> ->] & Hi). simpl.
    apply list_elem_of_lookup_2 in Hi.
    apply (StronglySorted_app_1_elem_of _ buffer [input] e' input Hord);
      [done|by left].
  - assert (Hlt : (k < length buffer)%nat).
    { apply lookup_lt_Some in Hk. rewrite length_app in Hk. simpl in Hk. lia. }
    rewrite lookup_app_l in Hk by done.
    rewrite selectStep_not_eligible.
    + apply IH; [done|done|done|].
      intros k' e Hk' He. apply (Hlast k' e); [|done].
      rewrite lookup_app_l; [done|]. by eapply lookup_lt_Some.
    + intros Hx. specialize (Hlast (length buffer) x).
      rewrite list_lookup_middle in Hlast by done. specialize (Hlast eq_refl Hx). lia.
Qed.

Lemma inTimestampOrder_lookup buffer a b x y :
  inTimestampOrder buffer → (a < b)%nat →
  buffer !! a = Some x → buffer !! b = Some y →
  Input.timestamp x ≤ Input.timestamp y.
Proof.
  intros Hord Hab Ha Hb. unfold inTimestampOrder in Hord.
  rewrite <- (take_drop b buffer) in Hord.
  apply (StronglySorted_app_1_elem_of _ _ _ x y Hord).
  - apply list_elem_of_lookup. exists a. by rewrite lookup_take_lt.
  - apply list_elem_of_lookup. exists 0%nat. rewrite lookup_drop.
    by rewrite Nat.add_0_r.
Qed.

Lemma markedBuffer_lookup k2 i2 now buffer k :
  buffer !! k2 = Some i2 →
  markedBuffer k2 i2 now buffer !! k =
    (λ e, if decide (k = k2) then Input.set_processed true i2
          else if (k <? k2)%nat && (Input.timestamp e <=? now)
               then Input.set_processed true e else e) <$> buffer !! k.
Proof.
  intros Hk2. unfold markedBuffer, markSuperseded. rewrite list_lookup_imap.
  destruct (decide (k = k2)) as [->|Hne].
  - rewrite list_lookup_insert_eq by (by eapply lookup_lt_Some).
    rewrite Hk2. simpl. by rewrite Nat.ltb_irrefl.
  - rewrite list_lookup_insert_ne by done. by destruct (buffer !! k).
Qed.

(** The pass on one player, when the buffer is in order and [i2], at index
    [k2], is its last eligible entry. *)
Lemma processPlayer_last_eligible gameState deltaTime now player inputBuffers buffer k2 i2 :
  inputBuffers !! Player.id player = Some buffer →
  inTimestampOrder buffer →
  buffer !! k2 = Some i2 → eligible now i2 →
  (∀ k e, buffer !! k = Some e → eligible now e → (k ≤ k2)%nat) →
  processPlayer gameState deltaTime now player inputBuffers =
    (applyInputToPlayer player i2 deltaTime gameState,
     <[Player.id player := List.filter (stillActive now) (markedBuffer k2 i2 now buffer)]>
       inputBuffers)
  ∧ (∀ k e, markedBuffer k2 i2 now buffer !! k = Some e →
            Input.timestamp e ≤ now → Input.processed e = true).
Proof.
  intros Hbuf Hord Hk2 Hel Hlast. split.
  - unfold processPlayer. rewrite Hbuf. simpl.
    by rewrite (selectLatest_last_eligible buffer now k2 i2).
  - intros k e. rewrite markedBuffer_lookup by done.
    destruct (buffer !! k) as [e0|] eqn:Hk; simpl; [|done].
    destruct (decide (k = k2)) as [->|Hne]; [by intros [= <-]|].
    destruct ((k <? k2)%nat && (Input.timestamp e0 <=? now)) eqn:E;
      [by intros [= <-]|].
    intros [= <-] Hts.
    destruct (Input.processed e0) eqn:Hp; [done|].
    assert (Hle : (k ≤ k2)%nat) by (by apply (Hlast k e0)).
    apply andb_false_iff in E as [E|E].
    + apply Nat.ltb_ge in E. lia.
    + apply Z.leb_gt in E. lia.
Qed.

(** The body of the loop, when the buffer holds unprocessed inputs [i1] and
    [i2] with timestamps t1 < t2 <= now and [i2] is the latest eligible
    one. *)
Lemma processPlayer_applies_latest
    gameState deltaTime now player inputBuffers buffer k1 k2 i1 i2 :
  inputBuffers !! Player.id player = Some buffer →
  inTimestampOrder buffer →
  buffer !! k1 = Some i1 → buffer !! k2 = Some i2 →
  Input.processed i1 = false → Input.processed i2 = false →
  Input.timestamp i1 < Input.timestamp i2 → Input.timestamp i2 ≤ now →
  (∀ k e, buffer !! k = Some e → eligible now e →
          Input.timestamp e < Input.timestamp i2 ∨ k = k2) →
  let result := processPlayer gameState deltaTime now player inputBuffers in
  let marked := markedBuffer k2 i2 now buffer in
  let kept := List.filter (stillActive now) marked in
  selectLatest buffer now = Some (k2, i2) ∧
  result.1 = applyInputToPlayer player i2 deltaTime gameState ∧
  marked !! k1 = Some (Input.set_processed true i1) ∧
  marked !! k2 = Some (Input.set_processed true i2) ∧
  result.2 !! Player.id player = Some kept ∧
  (∀ e, e ∈ kept → Input.timestamp e ≤ now → Input.processed e = true) ∧
  (∀ now' k e, selectLatest kept now' = Some (k, e) → now < Input.timestamp e).
Proof.
  intros Hbuf Hord Hk1 Hk2 Hp1 Hp2 Hlt Hnow Hmax result marked kept.
  assert (Hel2 : eligible now i2) by done.
  assert (Hlast : ∀ k e, buffer !! k = Some e → eligible now e → (k ≤ k2)%nat).
  { intros k e Hk He. destruct (Hmax k e Hk He) as [Hts| ->]; [|done].
    destruct (decide (k ≤ k2)%nat); [done|].
    assert (Input.timestamp i2 ≤ Input.timestamp e)
      by (apply (inTimestampOrder_lookup buffer k2 k); [done|lia|done|done]).
    lia. }
  destruct (processPlayer_last_eligible gameState deltaTime now player inputBuffers
              buffer k2 i2 Hbuf Hord Hk2 Hel2 Hlast) as [Hres Hall].
  assert (Hk12 : (k1 < k2)%nat).
  { destruct (decide (k1 < k2)%nat); [done|].
    destruct (decide (k1 = k2)) as [->|]; [rewrite Hk1 in Hk2; injection Hk2 as ->; lia|].
    assert (Input.timestamp i2 ≤ Input.timestamp i1)
      by (apply (inTimestampOrder_lookup buffer k2 k1); [done|lia|done|done]).
    lia. }
  assert (Hkept : ∀ e, e ∈ kept → Input.timestamp e ≤ now → Input.processed e = true).
  { intros e He Hts. subst kept. apply list_elem_of_In, filter_In in He as [He _].
    apply list_elem_of_In, list_elem_of_lookup in He as [k Hk]. by apply (Hall k). }
  repeat split.
  - by apply selectLatest_last_eligible.
  - subst result. by rewrite Hres.
  - subst marked. rewrite markedBuffer_lookup, Hk1 by done. simpl.
    destruct (decide (k1 = k2)); [lia|].
    replace (k1 <? k2)%nat with true by (symmetry; by apply Nat.ltb_lt).
    replace (Input.timestamp i1 <=? now) with true by (symmetry; apply Z.leb_le; lia).
    done.
  - subst marked. rewrite markedBuffer_lookup, Hk2 by done. simpl.
    by destruct (decide (k2 = k2)).
  - subst result. rewrite Hres. simpl. by rewrite lookup_insert_eq.
  - done.
  - intros now' k e Hsel. apply selectLatest_Some in Hsel as [Hk [Hp _]].
    destruct (decide (Input.timestamp e ≤ now)) as [Hle|]; [|lia].
    apply list_elem_of_lookup_2 in Hk. rewrite (Hkept e Hk Hle) in Hp. done.
Qed.

(** *** The buffers stay in order *)

Lemma filter_ordered (keep : Input.t → bool) buffer :
  inTimestampOrder buffer → inTimestampOrder (List.filter keep buffer).
Proof.
  unfold inTimestampOrder. induction 1 as [|a l Hl IH Ha]; simpl; [constructor|].
  destruct (keep a); [|done]. constructor; [done|].
  apply Forall_forall. intros b Hb. apply list_elem_of_In, filter_In in Hb as [Hb _].
  rewrite Forall_forall in Ha. by apply Ha, list_elem_of_In.
Qed.

Lemma length_filter_le (keep : Input.t → bool) buffer :
  (length (List.filter keep buffer) ≤ length buffer)%nat.
Proof.
  induction buffer as [|a l IH]; simpl; [done|]. destruct (keep a); simpl; lia.
Qed.

(** Marking changes no timestamp. *)
Lemma imap_ordered (f : nat → Input.t → Input.t) buffer :
  (∀ k e, Input.timestamp (f k e) = Input.timestamp e) →
  inTimestampOrder buffer → inTimestampOrder (imap f buffer).
Proof.
  unfold inTimestampOrder. intros Hf Hord. revert f Hf.
  induction Hord as [|a l Hl IH Ha]; intros f Hf; simpl; [constructor|].
  constructor; [apply IH; intros; apply Hf|].
  apply Forall_forall. intros b Hb. apply elem_of_lookup_imap in Hb as (k & e & -> & Hk).
  simpl. rewrite !Hf. rewrite Forall_forall in Ha.
  by apply Ha, (list_elem_of_lookup_2 _ k).
Qed.

Lemma insert_processed_ordered k input buffer :
  buffer !! k = Some input → inTimestampOrder buffer →
  inTimestampOrder (<[k := Input.set_processed true input]> buffer).
Proof.
  intros Hk Hord.
  replace (<[k := Input.set_processed true input]> buffer)
    with (imap (λ j e, if decide (j = k) then Input.set_processed true e else e) buffer).
  - apply imap_ordered; [|done]. intros j e. by case_decide.
  - apply list_eq. intros j. rewrite list_lookup_imap.
    destruct (decide (j = k)) as [->|Hne].
    + rewrite list_lookup_insert_eq by (by eapply lookup_lt_Some). by rewrite Hk.
    + rewrite list_lookup_insert_ne by done. by destruct (buffer !! j).
Qed.

Lemma markedBuffer_ordered k input now buffer :
  buffer !! k = Some input → inTimestampOrder buffer →
  inTimestampOrder (markedBuffer k input now buffer).
Proof.
  intros Hk Hord. unfold markedBuffer, markSuperseded.
  apply imap_ordered; [intros j e; by case_match|].
  by apply insert_processed_ordered.
Qed.

Lemma length_markedBuffer k input now buffer :
  length (markedBuffer k input now buffer) = length buffer.
Proof. unfold markedBuffer, markSuperseded. by rewrite length_imap, length_insert. Qed.

(** The pass keeps every buffer within 60 entries and in order. *)
Lemma processPlayer_bounded gameState deltaTime now player buffers :
  buffersBounded buffers →
  buffersBounded (processPlayer gameState deltaTime now player buffers).2.
Proof.
  intros Hinv id buffer. unfold processPlayer.
  set (own := default [] (buffers !! Player.id player)).
  assert (Hown : (length own ≤ 60)%nat ∧ inTimestampOrder own).
  { subst own. destruct (buffers !! Player.id player) as [b|] eqn:Hb; simpl.
    - by apply (Hinv (Player.id player)).
    - split; [lia|constructor]. }
  destruct Hown as [Hlen Hord].
  destruct (selectLatest own now) as [[k input]|] eqn:Hsel; simpl.
  - apply selectLatest_Some in Hsel as [Hk _].
    destruct (decide (Player.id player = id)) as [<-|Hne].
    + rewrite lookup_insert_eq. intros [= <-]. split.
      * etransitivity; [apply length_filter_le|].
        fold (markedBuffer k input now own). by rewrite length_markedBuffer.
      * apply filter_ordered. by apply markedBuffer_ordered.
    + rewrite lookup_insert_ne by done. apply Hinv.
  - destruct (decide (Player.id player = id)) as [<-|Hne].
    + rewrite lookup_insert_eq. intros [= <-]. split.
      * etransitivity; [apply length_filter_le|done].
      * by apply filter_ordered.
    + rewrite lookup_insert_ne by done. apply Hinv.
Qed.

(** Whatever the pushes, the passes and the deletions, every buffer has at
    most 60 entries in timestamp order. *)
Lemma reachableBuffers_bounded buffers :
  reachableBuffers buffers → buffersBounded buffers.
Proof.
  induction 1 as [|playerId input timestamp buffers _ IH
                  |gameState deltaTime now player buffers _ IH
                  |playerId buffers _ IH].
  - intros id buffer Hid. by rewrite lookup_empty in Hid.
  - by apply bufferPlayerInput_bounded.
  - by apply processPlayer_bounded.
  - intros id buffer Hid. apply lookup_delete_Some in Hid as [_ Hid].
    by apply (IH id).
Qed.

(** *** Players without input *)

Lemma processPlayer_idle gameState deltaTime now player inputBuffers :
  idle now inputBuffers player →
  processPlayer gameState deltaTime now player inputBuffers =
    (player,
     <[Player.id player :=
         List.filter (stillActive now) (default [] (inputBuffers !! Player.id player))]>
       inputBuffers).
Proof.
  intros Hidle. unfold processPlayer. by rewrite selectLatest_None.
Qed.

(** The pass on a player applies one eligible input of the buffer to the
    player, or leaves the player as it is. *)
Lemma processPlayer_cases gameState deltaTime now player inputBuffers :
  (processPlayer gameState deltaTime now player inputBuffers).1 = player ∨
  ∃ input, input ∈ default [] (inputBuffers !! Player.id player) ∧
           eligible now input ∧
           (processPlayer gameState deltaTime now player inputBuffers).1
             = applyInputToPlayer player input deltaTime gameState.
Proof.
  unfold processPlayer.
  destruct (selectLatest _ now) as [[k input]|] eqn:Hsel; simpl; [|by left].
  right. exists input. apply selectLatest_Some in Hsel as [Hk He].
  split; [by eapply list_elem_of_lookup_2|done].
Qed.

(** Processing any player leaves an idle player idle. *)
Lemma processPlayer_keeps_idle gameState deltaTime now other inputBuffers player :
  idle now inputBuffers player →
  idle now (processPlayer gameState deltaTime now other inputBuffers).2 player.
Proof.
  intros Hidle input.
  destruct (decide (Player.id other = Player.id player)) as [Heq|Hne].
  - assert (Hother : idle now inputBuffers other).
    { intros e. unfold idle in Hidle. rewrite Heq. apply Hidle. }
    rewrite processPlayer_idle by done. simpl.
    rewrite Heq, lookup_insert_eq. simpl.
    intros Hin. apply list_elem_of_In, filter_In in Hin as [Hin _].
    by apply Hidle, list_elem_of_In.
  - unfold processPlayer.
    destruct (selectLatest _ now) as [[k e]|]; simpl;
      rewrite lookup_insert_ne by done; apply Hidle.
Qed.

Lemma processPlayers_from gameState deltaTime now players done inputBuffers :
  ∃ rest,
    (foldl (λ '(done, buffers) player,
              let '(player', buffers') :=
                processPlayer gameState deltaTime now player buffers in
              (done ++ [player'], buffers'))
           (done, inputBuffers) players).1 = done ++ rest ∧
    length rest = length players ∧
    ∀ i player, players !! i = Some player → idle now inputBuffers player →
                rest !! i = Some player.
Proof.
  revert done inputBuffers.
  induction players as [|q players IH]; intros done inputBuffers; simpl.
  - exists []. by rewrite app_nil_r.
  - destruct (processPlayer gameState deltaTime now q inputBuffers) as [q' buffers'] eqn:Hq.
    destruct (IH (done ++ [q']) buffers') as (rest & Heq & Hlen & Hidle).
    exists (q' :: rest). rewrite Heq, <- app_assoc. simpl.
    split; [done|]. split; [by rewrite Hlen|].
    intros [|i] player Hi Hp; simpl in *.
    + injection Hi as ->. rewrite processPlayer_idle in Hq by done. congruence.
    + apply Hidle; [done|].
      replace buffers' with (processPlayer gameState deltaTime now q inputBuffers).2
        by (by rewrite Hq).
      by apply processPlayer_keeps_idle.
Qed.

Lemma faceDirection_sameImmunity player dx dy :
  sameImmunity (faceDirection player dx dy).2 player.
Proof. unfold faceDirection. by case_match. Qed.

Lemma moveWithCollision_sameImmunity player newX newY map :
  sameImmunity (moveWithCollision player newX newY map) player.
Proof. unfold moveWithCollision. by repeat case_match. Qed.

Lemma movedPlayer_sameImmunity player input deltaTime gameState :
  sameImmunity (movedPlayer player input deltaTime gameState) player.
Proof.
  unfold movedPlayer.
  destruct (inputDirection _) as [dx dy].
  pose proof (faceDirection_sameImmunity player dx dy) as Hface.
  destruct (faceDirection player dx dy) as [[dx' dy'] p1]. simpl in Hface.
  set (p2 := Player.set_velY _ (Player.set_velX _ p1)).
  pose proof (moveWithCollision_sameImmunity p2
                (Player.x p2 + Player.velX p2 * deltaTime)%Q
                (Player.y p2 + Player.velY p2 * deltaTime)%Q
                (GameState.map gameState)) as Hmove.
  set (p3 := moveWithCollision _ _ _ _) in *.
  assert (H3 : sameImmunity p3 player).
  { unfold sameImmunity in *. subst p2. simpl in Hmove.
    destruct Hmove as (-> & -> & ->). done. }
  clearbody p3. clear Hmove. unfold sameImmunity in *.
  destruct (nonZero dx' dy'); simpl; done.
Qed.

Lemma applyInputToPlayer_stages player input deltaTime gameState :
  applyInputToPlayer player input deltaTime gameState =
    let player := movedPlayer player input deltaTime gameState in
    let player :=
      if Qltb 0 (Player.portalCooldown player)
      then Player.set_portalCooldown (Player.portalCooldown player - deltaTime) player
      else player in
    if Player.immunityActive player &&
       Qleb (Player.immunityEndTime player) (GameState.gameTime gameState)
    then Player.set_immunityActive false player
    else player.
Proof.
  unfold applyInputToPlayer, movedPlayer.
  destruct (inputDirection _) as [dx dy].
  by destruct (faceDirection player dx dy) as [[dx' dy'] p1].
Qed.

(** What applying an input does to the cooldown and to the immunity. *)
Lemma applyInputToPlayer_portalCooldown player input deltaTime gameState :
  Player.portalCooldown (applyInputToPlayer player input deltaTime gameState) =
    if Qltb 0 (Player.portalCooldown player)
    then (Player.portalCooldown player - deltaTime)%Q
    else Player.portalCooldown player.
Proof.
  rewrite applyInputToPlayer_stages.
  destruct (movedPlayer_sameImmunity player input deltaTime gameState) as (Hc & Ha & He).
  set (p := movedPlayer _ _ _ _) in *. clearbody p. cbv zeta.
  rewrite <- Hc. by repeat case_match.
Qed.

Lemma applyInputToPlayer_immunityActive player input deltaTime gameState :
  Player.immunityActive (applyInputToPlayer player input deltaTime gameState) =
    if Player.immunityActive player &&
       Qleb (Player.immunityEndTime player) (GameState.gameTime gameState)
    then false else Player.immunityActive player.
Proof.
  rewrite applyInputToPlayer_stages.
  destruct (movedPlayer_sameImmunity player input deltaTime gameState) as (Hc & Ha & He).
  set (p := movedPlayer _ _ _ _) in *. clearbody p. cbv zeta.
  rewrite <- Ha, <- He. destruct (Qltb 0 (Player.portalCooldown p)); simpl;
    by case_match.
Qed.

(** *** The pass over the players *)

Lemma processPlayer_other gameState deltaTime now other inputBuffers id :
  Player.id other ≠ id →
  (processPlayer gameState deltaTime now other inputBuffers).2 !! id = inputBuffers !! id.
Proof.
  intros Hne. unfold processPlayer.
  destruct (selectLatest _ now) as [[k e]|]; simpl; by rewrite lookup_insert_ne.
Qed.

(** What the pass does to a player depends on the buffer of that player
    only. *)
Lemma processPlayer_own_buffer gameState deltaTime now player buffers1 buffers2 :
  buffers1 !! Player.id player = buffers2 !! Player.id player →
  (processPlayer gameState deltaTime now player buffers1).1
    = (processPlayer gameState deltaTime now player buffers2).1 ∧
  (processPlayer gameState deltaTime now player buffers1).2 !! Player.id player
    = (processPlayer gameState deltaTime now player buffers2).2 !! Player.id player.
Proof.
  intros Heq. unfold processPlayer. rewrite Heq.
  destruct (selectLatest _ now) as [[k e]|]; simpl; by rewrite !lookup_insert_eq.
Qed.

Lemma processPlayers_distinct gameState deltaTime now players done inputBuffers :
  NoDup (Player.id <$> players) →
  let result :=
    foldl (λ '(done, buffers) player,
             let '(player', buffers') :=
               processPlayer gameState deltaTime now player buffers in
             (done ++ [player'], buffers'))
          (done, inputBuffers) players in
  (∀ id, id ∉ Player.id <$> players → result.2 !! id = inputBuffers !! id) ∧
  ∃ rest,
    result.1 = done ++ rest ∧
    ∀ i player, players !! i = Some player →
      rest !! i = Some (processPlayer gameState deltaTime now player inputBuffers).1 ∧
      result.2 !! Player.id player
        = (processPlayer gameState deltaTime now player inputBuffers).2 !! Player.id player.
Proof.
  revert done inputBuffers.
  induction players as [|q players IH]; intros done inputBuffers Hnd; simpl.
  - split; [done|]. exists []. by rewrite app_nil_r.
  - apply NoDup_cons in Hnd as [Hq Hnd].
    destruct (processPlayer gameState deltaTime now q inputBuffers) as [q' buffers'] eqn:Eq.
    destruct (IH (done ++ [q']) buffers' Hnd) as (Hout & rest & Hres & Hin).
    assert (Hb' : buffers' = (processPlayer gameState deltaTime now q inputBuffers).2)
      by (by rewrite Eq).
    split.
    + intros id Hid. apply not_elem_of_cons in Hid as [Hne Hid].
      rewrite Hout by done. rewrite Hb'. by apply processPlayer_other.
    + exists (q' :: rest). rewrite Hres, <- app_assoc. split; [done|].
      intros [|i] player Hi; simpl in *.
      * injection Hi as ->. rewrite Eq. simpl. split; [done|]. by apply Hout.
      * destruct (Hin i player Hi) as [Hr Hb].
        assert (Hne : Player.id q ≠ Player.id player).
        { intros Heq. apply Hq. rewrite Heq. apply list_elem_of_fmap.
          exists player. split; [done|]. by eapply list_elem_of_lookup_2. }
        destruct (processPlayer_own_buffer gameState deltaTime now player
                    buffers' inputBuffers) as [E1 E2].
        { rewrite Hb'. by apply processPlayer_other. }
        rewrite Hr, Hb, E1, E2. done.
Qed.

(** The pass over players with distinct ids does to each of them what the
    body of the loop does on the buffers the pass started with. *)
Lemma processPlayerInputs_each deltaTime now (s : Sim.t) :
  NoDup (Player.id <$> GameState.players (Sim.state s)) →
  ∃ s', processPlayerInputs deltaTime now s = Normal tt s' ∧
    ∀ i player, GameState.players (Sim.state s) !! i = Some player →
      let result := processPlayer (Sim.state s) deltaTime now player (Sim.inputBuffers s) in
      GameState.players (Sim.state s') !! i = Some result.1 ∧
      Sim.inputBuffers s' !! Player.id player = result.2 !! Player.id player.
Proof.
  intros Hnd. unfold processPlayerInputs, modify, processPlayers.
  destruct (processPlayers_distinct (Sim.state s) deltaTime now
              (GameState.players (Sim.state s)) [] (Sim.inputBuffers s) Hnd)
    as (_ & rest & Hres & Hin).
  destruct (foldl _ _ _) as [players' buffers']. simpl in Hres. subst players'.
  eexists. split; [reflexivity|]. simpl. done.
Qed.

(** C2.  In a pass at time now over players with distinct ids: when the
    buffer of a player, in timestamp order, holds unprocessed inputs [i1]
    and [i2] with timestamps t1 < t2 <= now, and every other unprocessed
    input that is not later than now is earlier than t2, then the pass
    applies [i2] to the player and nothing else, marks [i1] and [i2]
    processed, and leaves in the buffer no unprocessed input that is not
    later than now, so that no later pass can select [i1]. *)
Theorem processPlayerInputs_applies_latest
    deltaTime now (s : Sim.t) i player buffer k1 k2 i1 i2 :
  NoDup (Player.id <$> GameState.players (Sim.state s)) →
  GameState.players (Sim.state s) !! i = Some player →
  Sim.inputBuffers s !! Player.id player = Some buffer →
  inTimestampOrder buffer →
  buffer !! k1 = Some i1 → buffer !! k2 = Some i2 →
  Input.processed i1 = false → Input.processed i2 = false →
  Input.timestamp i1 < Input.timestamp i2 → Input.timestamp i2 ≤ now →
  (∀ k e, buffer !! k = Some e → eligible now e →
          Input.timestamp e < Input.timestamp i2 ∨ k = k2) →
  let marked := markedBuffer k2 i2 now buffer in
  let kept := List.filter (stillActive now) marked in
  ∃ s', processPlayerInputs deltaTime now s = Normal tt s' ∧
    GameState.players (Sim.state s') !! i
      = Some (applyInputToPlayer player i2 deltaTime (Sim.state s)) ∧
    marked !! k1 = Some (Input.set_processed true i1) ∧
    marked !! k2 = Some (Input.set_processed true i2) ∧
    Sim.inputBuffers s' !! Player.id player = Some kept ∧
    (∀ e, e ∈ kept → Input.timestamp e ≤ now → Input.processed e = true) ∧
    (∀ now' k e, selectLatest kept now' = Some (k, e) → now < Input.timestamp e).
Proof.
  intros Hnd Hi Hbuf Hord Hk1 Hk2 Hp1 Hp2 Hlt Hnow Hmax marked kept.
  destruct (processPlayerInputs_each deltaTime now s Hnd) as (s' & Hrun & Heach).
  destruct (Heach i player Hi) as [Hplayer Hbuffer].
  destruct (processPlayer_applies_latest (Sim.state s) deltaTime now player
              (Sim.inputBuffers s) buffer k1 k2 i1 i2)
    as (_ & Hres & Hm1 & Hm2 & Hkept & Hall & Hlater); try done.
  exists s'. split; [done|]. rewrite Hplayer, Hbuffer, Hres, Hkept. done.
Qed.

(** C10.  A player without an unprocessed input that is not later than the
    time of the tick comes out of the input pass as it went in: position,
    velocity, energy, trail, portal cooldown and immunity are unchanged.
    The cooldown is decremented and the immunity is expired where an input
    is applied, and nowhere else in the pass. *)
Theorem processPlayerInputs_idle_player_unchanged
    deltaTime now (s : Sim.t) i player :
  GameState.players (Sim.state s) !! i = Some player →
  idle now (Sim.inputBuffers s) player →
  (∃ s', processPlayerInputs deltaTime now s = Normal tt s' ∧
         GameState.players (Sim.state s') !! i = Some player) ∧
  (∀ input gameState,
     Player.portalCooldown (applyInputToPlayer player input deltaTime gameState) =
       (if Qltb 0 (Player.portalCooldown player)
        then (Player.portalCooldown player - deltaTime)%Q
        else Player.portalCooldown player) ∧
     Player.immunityActive (applyInputToPlayer player input deltaTime gameState) =
       (if Player.immunityActive player &&
           Qleb (Player.immunityEndTime player) (GameState.gameTime gameState)
        then false else Player.immunityActive player)).
Proof.
  intros Hi Hidle. split.
  - unfold processPlayerInputs, modify, processPlayers.
    destruct (processPlayers_from (Sim.state s) deltaTime now
                (GameState.players (Sim.state s)) [] (Sim.inputBuffers s))
      as (rest & Hres & _ & Hrest).
    destruct (foldl _ _ _) as [players' buffers']. simpl in Hres. subst players'.
    eexists. split; [reflexivity|]. simpl. by apply Hrest.
  - intros input gameState. split.
    + apply applyInputToPlayer_portalCooldown.
    + apply applyInputToPlayer_immunityActive.
Qed.

End InputProcessing.

Section InputProcessingExamples.
Import QbitCityGameStateManager QbitCityGameLoop.

Lemma processPlayerInputs_applies_latest_witness :
  let i1 := Input.mk None 100 false in
  let i2 := Input.mk (Some pressRight) 200 false in
  let s := exampleSim [i1; i2] in
  let kept := List.filter (stillActive 1000) (markedBuffer 1 i2 1000 [i1; i2]) in
  ∃ s', processPlayerInputs (H := exampleHost) (1 # 20) 1000 s = Normal tt s' ∧
    GameState.players (Sim.state s') !! 0%nat
      = Some (applyInputToPlayer (H := exampleHost) ann i2 (1 # 20) (Sim.state s)) ∧
    markedBuffer 1 i2 1000 [i1; i2] !! 0%nat = Some (Input.set_processed true i1) ∧
    markedBuffer 1 i2 1000 [i1; i2] !! 1%nat = Some (Input.set_processed true i2) ∧
    Sim.inputBuffers s' !! Player.id ann = Some kept ∧
    (∀ e, e ∈ kept → Input.timestamp e ≤ 1000 → Input.processed e = true) ∧
    (∀ now' k e, selectLatest kept now' = Some (k, e) → 1000 < Input.timestamp e).
Proof.
  intros i1 i2 s kept.
  apply (processPlayerInputs_applies_latest (H := exampleHost)
           (1 # 20) 1000 s 0 ann [i1; i2] 0 1 i1 i2).
  - apply NoDup_singleton.
  - reflexivity.
  - reflexivity.
  - repeat constructor. simpl. lia.
  - reflexivity.
  - reflexivity.
  - reflexivity.
  - reflexivity.
  - simpl. lia.
  - simpl. lia.
  - intros [|[|k]] e Hk He; simpl in Hk; [left|right|]; by simplify_eq.
Defined.

Lemma processPlayerInputs_idle_player_unchanged_witness :
  let s := exampleSim [Input.mk (Some pressRight) 5000 false] in
  (∃ s', processPlayerInputs (H := exampleHost) (1 # 20) 1000 s = Normal tt s' ∧
         GameState.players (Sim.state s') !! 0%nat = Some ann) ∧
  (∀ input gameState,
     Player.portalCooldown
       (applyInputToPlayer (H := exampleHost) ann input (1 # 20) gameState) =
       (if Qltb 0 (Player.portalCooldown ann)
        then (Player.portalCooldown ann - (1 # 20))%Q
        else Player.portalCooldown ann) ∧
     Player.immunityActive
       (applyInputToPlayer (H := exampleHost) ann input (1 # 20) gameState) =
       (if Player.immunityActive ann &&
           Qleb (Player.immunityEndTime ann) (GameState.gameTime gameState)
        then false else Player.immunityActive ann)).
Proof.
  intros s.
  apply (processPlayerInputs_idle_player_unchanged (H := exampleHost) (1 # 20) 1000 s 0 ann).
  - reflexivity.
  - intros input Hin [_ Hts]. change (input ∈ [Input.mk (Some pressRight) 5000 false]) in Hin.
    apply list_elem_of_singleton in Hin. subst input. simpl in Hts. lia.
Defined.

(** An input is applied once it is due: the player moves right by
    [speed * deltaTime] and the cooldown of an idle tick is left alone. *)
Example processPlayerInputs_moves_right :
  let s := exampleSim [Input.mk (Some pressRight) 900 false] in
  match processPlayerInputs (H := exampleHost) (1 # 20) 1000 s with
  | Normal _ s' =>
      (λ p, (Qred (Player.x p), Qred (Player.y p))) <$> GameState.players (Sim.state s')
        = [(303%Q, 288%Q)]
  | _ => False
  end.
Proof. vm_compute. reflexivity. Qed.

End InputProcessingExamples.

(** ** The collision test *)

Section CollisionTest.
Import QbitCityGameStateManager QbitCityGameLoop.

Lemma Qltb_lt a b : Qltb a b = true ↔ (a < b)%Q.
Proof.
  unfold Qltb. rewrite negb_true_iff, <- not_true_iff_false, Qle_bool_iff.
  split; [apply Qnot_le_lt | apply Qlt_not_le].
Qed.

Lemma Qleb_le a b : Qleb a b = true ↔ (a <= b)%Q.
Proof. apply Qle_bool_iff. Qed.

Lemma exists_range_true lo hi test :
  exists_range lo hi test = true ↔ ∃ i, lo ≤ i ≤ hi ∧ test i = true.
Proof.
  unfold exists_range. rewrite existsb_exists. split.
  - intros (i & Hin & Hi). exists i. split; [|done].
    apply list_elem_of_In, elem_of_seqZ in Hin. lia.
  - intros (i & Hin & Hi). exists i. split; [|done].
    apply list_elem_of_In, elem_of_seqZ. lia.
Qed.

(** The test answers [true] exactly when a tile it looks at overlaps the
    box and is solid for the actor. *)
Lemma checkCollision_true_iff (x y width height : Q) (map : GameMap.t) (isPlayer : bool) :
  checkCollision x y width height map isPlayer = true ↔
  ∃ gx gy tile,
    examined x y gx gy ∧
    getTile (GameMap.tiles map) gx gy = Some tile ∧
    overlapsTile x y width height gx gy ∧
    (if bool_decide (Some tile = Some LAVA) && negb isPlayer then true
     else bool_decide (Some tile = Some SIDEWALK) || bool_decide (Some tile = Some WATER))
      = true.
Proof.
  unfold checkCollision. rewrite exists_range_true.
  setoid_rewrite exists_range_true.
  unfold examined, overlapsTile.
  split.
  - intros (gy & Hgy & gx & Hgx & Htest).
    destruct ((0 <=? gy) && (gy <? MAP_HEIGHT) && (0 <=? gx) && (gx <? MAP_WIDTH))
      eqn:Hin; [|done].
    rewrite !andb_true_iff, !Z.leb_le, !Z.ltb_lt in Hin.
    destruct (getTile (GameMap.tiles map) gx gy) as [tile|] eqn:Htile; [|done].
    exists gx, gy, tile.
    split; [lia|]. split; [done|].
    match type of Htest with
    | (if ?solid then _ else _) = true => destruct solid eqn:Hsolid; [|done]
    end.
    rewrite !andb_true_iff, !Qltb_lt in Htest. tauto.
  - intros (gx & gy & tile & (Hx & Hy & Hgx & Hgy) & Htile & Hover & Hsolid).
    exists gy. split; [lia|]. exists gx. split; [lia|].
    replace ((0 <=? gy) && (gy <? MAP_HEIGHT) && (0 <=? gx) && (gx <? MAP_WIDTH))
      with true
      by (symmetry; rewrite !andb_true_iff, !Z.leb_le, !Z.ltb_lt; lia).
    rewrite Htile, Hsolid. rewrite !andb_true_iff, !Qltb_lt. tauto.
Qed.

(** C4.  The collision test answers [true] exactly when one of the tiles it
    looks at overlaps the box and stops the actor.  A sidewalk (building)
    tile and a water tile stop players and non-players alike; a lava tile
    stops non-players and does not stop players; road, grass and any other
    tile stop nobody. *)
Theorem checkCollision_blocks (x y width height : Q) (map : GameMap.t) (isPlayer : bool) :
  (checkCollision x y width height map isPlayer = true ↔
   ∃ gx gy tile,
     examined x y gx gy ∧
     getTile (GameMap.tiles map) gx gy = Some tile ∧
     overlapsTile x y width height gx gy ∧
     blocks isPlayer tile) ∧
  (∀ tile, blocks true tile ↔ tile = SIDEWALK ∨ tile = WATER) ∧
  (∀ tile, blocks false tile ↔ tile = SIDEWALK ∨ tile = WATER ∨ tile = LAVA).
Proof.
  assert (Hkind : ∀ tile,
            (if bool_decide (Some tile = Some LAVA) && negb isPlayer then true
             else bool_decide (Some tile = Some SIDEWALK)
                  || bool_decide (Some tile = Some WATER)) = true
            ↔ blocks isPlayer tile).
  { intros tile. unfold blocks. split.
    - destruct (bool_decide (Some tile = Some LAVA) && negb isPlayer) eqn:Hlava.
      + apply andb_true_iff in Hlava as [Hl Hp].
        apply bool_decide_eq_true in Hl as [= ->]. apply negb_true_iff in Hp. tauto.
      + intros Hs. apply orb_true_iff in Hs as [Hs|Hs];
          apply bool_decide_eq_true in Hs as [= ->]; tauto.
    - intros [->| [->| [-> ->]]]; done. }
  split; [|split].
  - rewrite checkCollision_true_iff. by setoid_rewrite Hkind.
  - intros tile. unfold blocks. split; [|tauto].
    intros [?| [?| [_ ?]]]; [tauto|tauto|done].
  - intros tile. unfold blocks. tauto.
Qed.

(** On the map of seed 42, a step from the road tile (1, 4) onto the lava
    tile (0, 4) is open to a player and closed to an enemy; a step onto the
    sidewalk tile (1, 5) is closed to both. *)
Example checkCollision_lava_asymmetry :
  let map := generateMap 42 in
  getTile (GameMap.tiles map) 0 4 = Some LAVA ∧
  getTile (GameMap.tiles map) 1 5 = Some SIDEWALK ∧
  checkCollision 40 288 24 24 map true = false ∧
  checkCollision 40 288 24 24 map false = true ∧
  checkCollision 96 310 24 24 map true = true ∧
  checkCollision 96 310 24 24 map false = true.
Proof. vm_compute. repeat split. Qed.

End CollisionTest.

(** ** The collision pass *)

Section CoinPickup.
Import QbitCityGameStateManager QbitCityGameLoop.
Context `{JsHost}.

(** A round of the coin loop leaves an untouched or collected coin and the
    player as they are. *)
Lemma collectCoin_no_contact player coin :
  Coin.collected coin = true ∨ ¬ touches player (Coin.x coin) (Coin.y coin) 25 →
  collectCoin player coin = (player, coin).
Proof.
  intros Hno. unfold collectCoin.
  destruct (Coin.collected coin) eqn:Hc; [done|].
  destruct Hno as [?|Hfar]; [done|].
  destruct (Qltb _ 25) eqn:Hd; [|done].
  apply Qltb_lt in Hd. done.
Qed.

(** A round of the coin loop on a coin the player touches. *)
Lemma collectCoin_contact player coin :
  Coin.collected coin = false →
  touches player (Coin.x coin) (Coin.y coin) 25 →
  let player' := (collectCoin player coin).1 in
  (collectCoin player coin).2 = Coin.set_collected true coin ∧
  (Player.coinsCollected player', Player.immunityInventory player')
    = afterCoin (Player.coinsCollected player) (Player.immunityInventory player) ∧
  Player.x player' = Player.x player ∧ Player.y player' = Player.y player.
Proof.
  intros Hc Hd. unfold collectCoin, touches in *. rewrite Hc.
  apply Qltb_lt in Hd. rewrite Hd. unfold afterCoin.
  change COINS_FOR_IMMUNITY with 5. change MAX_IMMUNITY_INVENTORY with 3.
  cbn [Player.coinsCollected Player.set_coinsCollected].
  destruct (5 <=? Player.coinsCollected player + 1) eqn:E5.
  - apply Z.leb_le in E5.
    replace (Player.coinsCollected player + 1 <? 5) with false
      by (symmetry; apply Z.ltb_ge; lia).
    destruct (Player.immunityInventory player <? 3) eqn:E3; simpl; rewrite ?E3; done.
  - apply Z.leb_gt in E5.
    replace (Player.coinsCollected player + 1 <? 5) with true
      by (symmetry; apply Z.ltb_lt; lia).
    done.
Qed.

Lemma collectAll_snoc {A : Type} (round : Player.t → A → Player.t * A) player pickups pickup :
  collectAll round player (pickups ++ [pickup]) =
    let '(player', done) := collectAll round player pickups in
    let '(player'', pickup') := round player' pickup in
    (player'', done ++ [pickup']).
Proof.
  unfold collectAll. rewrite foldl_snoc. by destruct (foldl _ _ _).
Qed.

End CoinPickup.

Section CoinPickupExamples.
Import QbitCityGameStateManager QbitCityGameLoop.

(** A player whose inventory is full keeps the counter at 4. *)
Example collectCoin_full_inventory :
  let coin := {| Coin.id := {| id_prefix := "coin"; id_time := 0; id_random := 0 |};
                 Coin.x := 300; Coin.y := 288; Coin.collected := false;
                 Coin.spawnTime := 0 |} in
  let player := Player.set_immunityInventory 3 (Player.set_coinsCollected 4 ann) in
  let player' := (collectCoin (H := exampleHost) player coin).1 in
  Player.coinsCollected player' = 4 ∧ Player.immunityInventory player' = 3.
Proof. vm_compute. split; reflexivity. Qed.

End CoinPickupExamples.

(** ** Lava and boats *)

Section Frames.
Import QbitCityGameStateManager QbitCityGameLoop.
Context `{JsHost}.
Context {V : Type} (view : Env → V) (view_blind : cursorBlind view).

Lemma frames_ret {σ A} `{HasEnv σ} (a : A) : frames view (ret (σ := σ) a).
Proof. by intros s. Qed.

Lemma frames_bind {σ A B} `{HasEnv σ} (m : M σ A) (f : A → M σ B) :
  frames view m → (∀ a, frames view (f a)) → frames view (bind m f).
Proof.
  intros Hm Hf s. unfold bind. specialize (Hm s).
  destruct (m s) as [a s'|e s'|]; [|done|done].
  specialize (Hf a s'). destruct (f a s'); congruence.
Qed.

Lemma frames_forEach {σ B} `{HasEnv σ} (l : list B) (body : B → M σ unit) :
  (∀ b, frames view (body b)) → frames view (forEach l body).
Proof.
  intros Hbody. induction l as [|b l IH]; simpl; [apply frames_ret|].
  apply frames_bind; [apply Hbody | by intros _].
Qed.

Lemma frames_foldM {σ A B} `{HasEnv σ} (body : A → B → M σ A) a (l : list B) :
  (∀ a b, frames view (body a b)) → frames view (foldM body a l).
Proof.
  intros Hbody. revert a. induction l as [|b l IH]; intros a; simpl; [apply frames_ret|].
  apply frames_bind; [apply Hbody | apply IH].
Qed.

Lemma frames_gets {σ A} `{HasEnv σ} (f : σ → A) : frames view (gets f).
Proof. by intros s. Qed.

Lemma frames_throw {σ A} `{HasEnv σ} e : frames view (throw (σ := σ) (A := A) e).
Proof. by intros s. Qed.

Lemma frames_getState : frames view getState.
Proof. by intros s. Qed.

Lemma frames_modifyState f : frames view (modifyState f).
Proof. by intros s. Qed.

Lemma frames_setPlayer i player : frames view (setPlayer i player).
Proof. by intros s. Qed.

Lemma frames_setEnemy j enemy : frames view (setEnemy j enemy).
Proof. by intros s. Qed.

Lemma frames_liftEnv_Sim {A} (m : M Env A) :
  frames view m → frames view (liftEnv (σ := Sim.t) m).
Proof.
  intros Hm s. unfold liftEnv. specialize (Hm (env_of s)).
  by destruct (m (env_of s)).
Qed.

Lemma frames_liftEnv_World {A} (m : M Env A) :
  frames view m → frames view (liftEnv (σ := World.t) m).
Proof.
  intros Hm s. unfold liftEnv. specialize (Hm (env_of s)).
  by destruct (m (env_of s)).
Qed.

Lemma frames_Math_random : frames view Math_random.
Proof. intros e. simpl. apply view_blind. Qed.

Lemma frames_Date_now : frames view Date_now.
Proof. by intros e. Qed.

Lemma frames_randomInterior size : frames view (randomInterior size).
Proof.
  unfold randomInterior. apply frames_bind; [apply frames_Math_random|].
  intros r. apply frames_ret.
Qed.

Lemma frames_findEnemySpawn attempts map avoidX avoidY minDist :
  frames view (findEnemySpawn attempts map avoidX avoidY minDist).
Proof.
  induction attempts as [|n IH]; simpl; [apply frames_ret|].
  apply frames_bind; [apply frames_randomInterior|]. intros rx.
  apply frames_bind; [apply frames_randomInterior|]. intros ry.
  repeat case_match; auto using frames_ret.
Qed.

Lemma frames_spawnEnemy map avoidX avoidY minDist :
  frames view (spawnEnemy map avoidX avoidY minDist).
Proof.
  unfold spawnEnemy. apply frames_bind; [apply frames_findEnemySpawn|].
  intros [[ex ey]|]; [|apply frames_ret].
  apply frames_bind; [apply frames_Date_now|]. intros now.
  apply frames_bind; [apply frames_Math_random|]. intros r.
  apply frames_bind; [apply frames_Math_random|]. intros r'.
  apply frames_ret.
Qed.

End Frames.

Lemma outbox_cursorBlind : cursorBlind outbox.
Proof. by intros e n. Qed.

Lemma random_draws_cursorBlind : cursorBlind random_draws.
Proof. by intros e n. Qed.

Section LavaCheck.
Import QbitCityGameStateManager QbitCityGameLoop.
Context `{JsHost}.

Ltac quiet_step :=
  lazymatch goal with
  | |- quiet _ => unfold quiet
  | |- frames _ (ret _) => apply frames_ret
  | |- frames _ (throw _) => apply frames_throw
  | |- frames _ getState => apply frames_getState
  | |- frames _ (modifyState _) => apply frames_modifyState
  | |- frames _ (setPlayer _ _) => apply frames_setPlayer
  | |- frames _ (setEnemy _ _) => apply frames_setEnemy
  | |- frames _ (liftEnv (spawnEnemy _ _ _ _)) =>
      apply frames_liftEnv_Sim, frames_spawnEnemy, outbox_cursorBlind
  | |- frames _ (liftEnv Math_random) =>
      apply frames_liftEnv_Sim, frames_Math_random, outbox_cursorBlind
  | |- frames _ (forEach _ _) => apply frames_forEach; intros ?
  | |- frames _ (bind _ _) => apply frames_bind; [|intros ?]
  | |- frames _ (if ?c then _ else _) => destruct c
  | |- frames _ (match ?x with _ => _ end) => destruct x
  end.

Lemma quiet_collectPickups i : quiet (collectPickups i).
Proof. unfold collectPickups. apply frames_modifyState. Qed.

Lemma quiet_portalContact i k : quiet (portalContact i k).
Proof. unfold portalContact. repeat quiet_step. Qed.

Lemma quiet_sinkContact i j k : quiet (sinkContact i j k).
Proof. unfold sinkContact. repeat quiet_step. Qed.

(** An enemy round hands nothing to [io] when the player is immune. *)
Lemma quiet_enemyContact_immune io player j :
  Player.immunityActive player = true → quiet (enemyContact io player j).
Proof.
  intros Himm. unfold enemyContact. rewrite Himm. cbn [negb].
  repeat quiet_step.
Qed.

(** An enemy round does nothing at all when the enemy is out of reach. *)
Lemma enemyContact_out_of_reach io player j (s : Sim.t) :
  (∀ enemy, GameState.enemies (Sim.state s) !! j = Some enemy →
            ¬ touches player (Enemy.x enemy) (Enemy.y enemy)
                (Player.width player / 2 + Enemy.width enemy / 2)) →
  enemyContact io player j s = Normal tt s.
Proof.
  intros Hfar. unfold enemyContact, getState, bind, gets.
  destruct (GameState.enemies (Sim.state s) !! j) as [enemy|] eqn:Hj; [|done].
  destruct (Qltb _ _) eqn:Hd; [|done].
  apply Qltb_lt in Hd. by destruct (Hfar enemy).
Qed.

Lemma forEach_identity {σ B} (l : list B) (body : B → M σ unit) s :
  (∀ b, b ∈ l → body b s = Normal tt s) → forEach l body s = Normal tt s.
Proof.
  induction l as [|b l IH]; intros Hbody; simpl; [done|].
  unfold bind. rewrite Hbody by (by left). apply IH. intros; apply Hbody. by right.
Qed.

(** The enemy loop hands nothing to [io] for a player who is immune or out
    of reach of every enemy. *)
Lemma quiet_enemy_loop io player (s : Sim.t) :
  Player.immunityActive player = true ∨
  Forall (λ enemy, ¬ touches player (Enemy.x enemy) (Enemy.y enemy)
                     (Player.width player / 2 + Enemy.width enemy / 2))
         (GameState.enemies (Sim.state s)) →
  match forEach (seq 0 (length (GameState.enemies (Sim.state s))))
                (enemyContact io player) s with
  | Normal _ s' | Thrown _ s' => outbox (env_of s') = outbox (env_of s)
  | Diverged => True
  end.
Proof.
  intros [Himm|Hfar].
  - apply (frames_forEach outbox _ (enemyContact io player)).
    intros j. by apply quiet_enemyContact_immune.
  - rewrite forEach_identity; [done|].
    intros j _. apply enemyContact_out_of_reach. intros enemy Hj.
    rewrite Forall_forall in Hfar. apply Hfar. by eapply list_elem_of_lookup_2.
Qed.

(** The checks after the lava check hand nothing to [io] for such a
    player. *)
Lemma quiet_checkContacts io i player (s : Sim.t) :
  Player.immunityActive player = true ∨
  Forall (λ enemy, ¬ touches player (Enemy.x enemy) (Enemy.y enemy)
                     (Player.width player / 2 + Enemy.width enemy / 2))
         (GameState.enemies (Sim.state s)) →
  match checkContacts io i player s with
  | Normal _ s' | Thrown _ s' => outbox (env_of s') = outbox (env_of s)
  | Diverged => True
  end.
Proof.
  intros Hsafe. unfold checkContacts.
  unfold bind at 1. unfold getState at 1, gets at 1.
  unfold bind at 1.
  pose proof (quiet_enemy_loop io player s Hsafe) as Hloop.
  destruct (forEach _ (enemyContact io player) s) as [[] s1|e s1|]; [|done|done].
  rewrite <- Hloop.
  match goal with
  | |- match ?m s1 with _ => _ end => assert (Hq : quiet m); [|apply (Hq s1)]
  end.
  repeat first [ apply quiet_collectPickups | apply quiet_portalContact
               | apply quiet_sinkContact | quiet_step ].
Qed.

(** C8, as the code has it.  For a player whose tile is lava: when no boat
    overlaps the player, the body of the player loop is the one call that
    signals the death of the player, and every other check is skipped; when
    a boat overlaps the player the lava check signals nothing and the
    checks that follow run as on any other tile, and they signal nothing
    either for a player who is immune or out of reach of every enemy. *)
Theorem checkPlayerCollisions_on_lava (io : IO) (s : Sim.t) (i : nat) (player : Player.t) :
  GameState.players (Sim.state s) !! i = Some player →
  tileUnder (Sim.state s) player = Some LAVA →
  (onBoat (Sim.state s) player = false →
     checkPlayerCollisions io i s =
       liftEnv (emit io (GameState.roomCode (Sim.state s))
                  (player_death (Player.id player))) s) ∧
  (onBoat (Sim.state s) player = true →
     checkPlayerCollisions io i s = checkContacts io i player s ∧
     (Player.immunityActive player = true ∨
      Forall (λ enemy, ¬ touches player (Enemy.x enemy) (Enemy.y enemy)
                         (Player.width player / 2 + Enemy.width enemy / 2))
             (GameState.enemies (Sim.state s)) →
      match checkPlayerCollisions io i s with
      | Normal _ s' | Thrown _ s' => outbox (env_of s') = outbox (env_of s)
      | Diverged => True
      end)).
Proof.
  intros Hi Hlava.
  assert (Hbody : checkPlayerCollisions io i s =
            if negb (onBoat (Sim.state s) player)
            then liftEnv (emit io (GameState.roomCode (Sim.state s))
                            (player_death (Player.id player))) s
            else checkContacts io i player s).
  { unfold checkPlayerCollisions, bind, getState, gets. rewrite Hi.
    rewrite bool_decide_eq_true_2 by done. by destruct (onBoat _ _). }
  split; intros Hboat; rewrite Hbody, Hboat; simpl; [done|].
  split; [done|]. apply quiet_checkContacts.
Qed.

(** A player on a tile that is not lava goes through the same checks. *)
Lemma checkPlayerCollisions_off_lava (io : IO) (s : Sim.t) (i : nat) (player : Player.t) :
  GameState.players (Sim.state s) !! i = Some player →
  tileUnder (Sim.state s) player ≠ Some LAVA →
  checkPlayerCollisions io i s = checkContacts io i player s.
Proof.
  intros Hi Hlava. unfold checkPlayerCollisions, bind, getState, gets. rewrite Hi.
  by rewrite bool_decide_eq_false_2.
Qed.

End LavaCheck.

Section LavaExamples.
Import QbitCityGameStateManager QbitCityGameLoop.

Lemma checkPlayerCollisions_on_lava_witness :
  let s := lavaSim [] [ferry] in
  (onBoat (Sim.state s) bea = false →
     checkPlayerCollisions (H := exampleHost) deliver 0 s =
       liftEnv (emit deliver (GameState.roomCode (Sim.state s))
                  (player_death (Player.id bea))) s) ∧
  (onBoat (Sim.state s) bea = true →
     checkPlayerCollisions (H := exampleHost) deliver 0 s
       = checkContacts (H := exampleHost) deliver 0 bea s ∧
     (Player.immunityActive bea = true ∨
      Forall (λ enemy, ¬ touches (H := exampleHost) bea (Enemy.x enemy) (Enemy.y enemy)
                         (Player.width bea / 2 + Enemy.width enemy / 2))
             (GameState.enemies (Sim.state s)) →
      match checkPlayerCollisions (H := exampleHost) deliver 0 s with
      | Normal _ s' | Thrown _ s' => outbox (env_of s') = outbox (env_of s)
      | Diverged => True
      end)).
Proof.
  intros s.
  apply (checkPlayerCollisions_on_lava (H := exampleHost) deliver s 0 bea).
  - reflexivity.
  - vm_compute. reflexivity.
Defined.

(** On lava without a boat: one death event, and nothing else changes. *)
Example lava_without_boat :
  let s := lavaSim [chaser] [] in
  checkPlayerCollisions (H := exampleHost) deliver 0 s =
    Normal tt (Sim.set_env
                 {| random_draws := random_draws (Sim.env s);
                    random_next := random_next (Sim.env s);
                    clock := clock (Sim.env s);
                    outbox := [("ROOM01", player_death "bea")] |} s).
Proof. vm_compute. reflexivity. Qed.

(** On a boat over lava, out of reach of every enemy: no event. *)
Example lava_on_boat :
  let s := lavaSim [] [ferry] in
  match checkPlayerCollisions (H := exampleHost) deliver 0 s with
  | Normal _ s' => outbox (Sim.env s') = []
  | _ => False
  end.
Proof. vm_compute. reflexivity. Qed.

(** On a boat over lava, within reach of an enemy and without immunity: the
    death of the player is signalled all the same. *)
Lemma boat_does_not_stop_enemy_death :
  let s := lavaSim [chaser] [ferry] in
  tileUnder (Sim.state s) bea = Some LAVA ∧
  onBoat (Sim.state s) bea = true ∧
  match checkPlayerCollisions (H := exampleHost) deliver 0 s with
  | Normal _ s' => outbox (Sim.env s') = [("ROOM01", player_death "bea")]
  | _ => False
  end.
Proof. vm_compute. repeat split. Qed.

End LavaExamples.

(** ** Coin spawning *)

Section CoinSpawning.
Import QbitCityGameStateManager QbitCityGameLoop.
Context `{JsHost}.

Lemma withCoins_nil gameState : withCoins [] gameState = gameState.
Proof. unfold withCoins. rewrite app_nil_r. by destruct gameState. Qed.

Lemma withCoins_app new more gameState :
  withCoins more (withCoins new gameState) = withCoins (new ++ more) gameState.
Proof. unfold withCoins. simpl. by rewrite app_assoc. Qed.

Lemma uncollectedCoins_withCoins new gameState :
  Forall (λ c, Coin.collected c = false) new →
  uncollectedCoins (withCoins new gameState) = uncollectedCoins gameState ++ new.
Proof.
  intros Hnew. unfold uncollectedCoins, withCoins. simpl.
  rewrite List.filter_app. f_equal.
  induction Hnew as [|c new Hc Hnew IH]; simpl; [done|]. by rewrite Hc, IH.
Qed.

(** The search loop returns, reads the draws without changing them, and
    adds at most one coin, uncollected. *)
Lemma spawnCoinAttempts_adds attempts gameState e :
  ∃ new e', spawnCoinAttempts attempts gameState e = Normal (withCoins new gameState) e' ∧
            random_draws e' = random_draws e ∧
            (length new ≤ 1)%nat ∧ Forall (λ c, Coin.collected c = false) new.
Proof.
  revert e. induction attempts as [|n IH]; intros e.
  - exists [], e. simpl. unfold ret. rewrite withCoins_nil. repeat split; auto.
  - cbn [spawnCoinAttempts]. unfold randomInterior, freshId, nowSeconds.
    unfold bind, Math_random, Date_now, gets, ret. cbn beta iota.
    set (e2 := {| random_draws := random_draws e; random_next := S (S (random_next e));
                  clock := clock e; outbox := outbox e |}).
    destruct (IH e2) as (new & e' & Hrun & Hdraws & Hlen & Hnew).
    case_bool_decide; [|by exists new, e'].
    destruct (tileCentre _ _) as [cx cy].
    destruct (negb (tooCloseToPlayers gameState cx cy 200)); [|by exists new, e'].
    eexists [_], _. split; [reflexivity|]. repeat split; simpl; auto.
Qed.

(** A call of [spawnCoin] adds at most one coin, and none once 40
    uncollected coins exist. *)
Lemma spawnCoin_adds gameState e :
  ∃ new e', spawnCoin gameState e = Normal (withCoins new gameState) e' ∧
            random_draws e' = random_draws e ∧
            Forall (λ c, Coin.collected c = false) new ∧
            (length new ≤ 1)%nat ∧
            (length (uncollectedCoins gameState) + length new ≤
               max 40 (length (uncollectedCoins gameState)))%nat.
Proof.
  unfold spawnCoin.
  destruct (40 <=? Z.of_nat (length (uncollectedCoins gameState))) eqn:Hcap.
  - exists [], e. unfold ret. rewrite withCoins_nil. repeat split; simpl; auto; lia.
  - apply Z.leb_gt in Hcap.
    destruct (spawnCoinAttempts_adds 100 gameState e) as (new & e' & Hrun & Hd & Hlen & Hnew).
    exists new, e'. repeat split; auto. lia.
Qed.

(** A run of [n] calls adds at most [n] coins and keeps the cap. *)
Lemma repeatSpawn_adds n gameState e :
  ∃ new e', repeatSpawn n spawnCoin gameState e = Normal (withCoins new gameState) e' ∧
            random_draws e' = random_draws e ∧
            Forall (λ c, Coin.collected c = false) new ∧
            (length new ≤ Z.to_nat n)%nat ∧
            (length (uncollectedCoins gameState) + length new ≤
               max 40 (length (uncollectedCoins gameState)))%nat.
Proof.
  unfold repeatSpawn. rewrite <- (length_seqZ 0 n).
  generalize (seqZ 0 n). intros l. revert gameState e.
  induction l as [|x l IH]; intros gameState e.
  - exists [], e. simpl. unfold ret. rewrite withCoins_nil. repeat split; simpl; auto; lia.
  - simpl. unfold bind.
    destruct (spawnCoin_adds gameState e) as (new & e1 & Hrun & Hd & Hnew & Hlen & Hcap).
    rewrite Hrun.
    destruct (IH (withCoins new gameState) e1) as (more & e2 & Hrun2 & Hd2 & Hmore & Hlen2 & Hcap2).
    exists (new ++ more), e2. rewrite Hrun2, withCoins_app.
    rewrite uncollectedCoins_withCoins in Hcap2 by done.
    rewrite length_app in *.
    repeat split; [congruence|by apply Forall_app|lia|lia].
Qed.

Lemma floor_of_unit_draw r n :
  (0 <= r)%Q → (r < 1)%Q → 0 < n → 0 ≤ Math_floor (r * inject_Z n) < n.
Proof.
  intros H0 H1 Hn. unfold Math_floor.
  assert (Hpos : (0 < inject_Z n)%Q) by (unfold Qlt; simpl; lia).
  split.
  - change 0 with (Qfloor 0). apply Qfloor_resp_le.
    apply Qmult_le_0_compat; [done|]. by apply Qlt_le_weak.
  - rewrite Zlt_Qlt. eapply Qle_lt_trans; [apply Qfloor_le|].
    rewrite <- (Qmult_1_l (inject_Z n)) at 2. by apply Qmult_lt_r.
Qed.

Lemma bind_Normal {σ A B} (m : M σ A) (f : A → M σ B) s b s2 :
  bind m f s = Normal b s2 → ∃ a s1, m s = Normal a s1 ∧ f a s1 = Normal b s2.
Proof. unfold bind. destruct (m s) as [a s1| |]; [|done|done]. by exists a, s1. Qed.

Lemma bind_run {σ A B} (m : M σ A) (f : A → M σ B) s a s1 :
  m s = Normal a s1 → bind m f s = f a s1.
Proof. intros Hrun. unfold bind. by rewrite Hrun. Qed.

Lemma liftEnv_Normal {σ A} `{HasEnv σ} (m : M Env A) (s : σ) a s1 :
  liftEnv m s = Normal a s1 → ∃ e1, m (env_of s) = Normal a e1 ∧ s1 = with_env e1 s.
Proof.
  unfold liftEnv. destruct (m (env_of s)) as [a' e1| |]; [|done|done].
  intros [= -> <-]. by exists e1.
Qed.

Lemma frames_findPlayerSpawn {V} (view : Env → V) attempts map :
  cursorBlind view → frames view (findPlayerSpawn attempts map).
Proof.
  intros Hb. induction attempts as [|n IH]; simpl; [apply frames_ret|].
  apply frames_bind; [by apply frames_randomInterior|]. intros x.
  apply frames_bind; [by apply frames_randomInterior|]. intros y.
  case_match; [apply frames_ret|done].
Qed.

Lemma frames_initializePlayers {V} (view : Env → V) room map :
  cursorBlind view → frames view (initializePlayers room map).
Proof.
  intros Hb. unfold initializePlayers. apply frames_foldM. intros players roomPlayer.
  apply frames_bind; [by apply frames_findPlayerSpawn|]. intros spawn. apply frames_ret.
Qed.

Lemma frames_generatePortalsFrom {V} (view : Env → V) fuel map portals :
  cursorBlind view → frames view (generatePortalsFrom fuel map portals).
Proof.
  intros Hb. revert portals. induction fuel as [|n IH]; intros portals; simpl.
  - case_match; [apply frames_ret|]. by intros s.
  - case_match; [apply frames_ret|].
    apply frames_bind; [by apply frames_randomInterior|]. intros x.
    apply frames_bind; [by apply frames_randomInterior|]. intros y.
    case_match; apply IH.
Qed.

(** A step of a run that returns, together with what it leaves of the
    draws. *)
Lemma run_step {A B} (m : M World.t A) (f : A → M World.t B) w b w2 :
  frames random_draws m →
  bind m f w = Normal b w2 →
  ∃ a w1, f a w1 = Normal b w2 ∧
          random_draws (World.env w1) = random_draws (World.env w).
Proof.
  intros Hm Hrun. apply bind_Normal in Hrun as (a & w1 & Hstep & Hrun).
  exists a, w1. split; [done|]. specialize (Hm w). by rewrite Hstep in Hm.
Qed.

(** The room [initializeRoom] builds has no coin, has not seeded coins, and
    waits between 10 and 15 seconds for its first spawn. *)
Lemma initializeRoom_coins fuel roomCode mapSeed w gameState w' :
  unitDraws (World.env w) →
  initializeRoom fuel roomCode mapSeed w = Normal (Some gameState) w' →
  GameState.coins gameState = [] ∧
  GameState.coinsInitialized gameState = false ∧
  GameState.coinSpawnTimer gameState = 0%Q ∧
  (10 <= GameState.nextCoinSpawnTime gameState)%Q ∧
  (GameState.nextCoinSpawnTime gameState < 15)%Q.
Proof.
  intros Hunit Hrun. unfold initializeRoom in Hrun.
  apply run_step in Hrun as (seed & w1 & Hrun & Hd1);
    [|destruct mapSeed; [apply frames_ret|
        apply frames_liftEnv_World, frames_Date_now]].
  apply run_step in Hrun as (room & w2 & Hrun & Hd2); [|apply frames_gets].
  destruct room as [room|]; [|done].
  apply run_step in Hrun as (players & w3 & Hrun & Hd3);
    [|apply frames_liftEnv_World, frames_initializePlayers, random_draws_cursorBlind].
  apply run_step in Hrun as (enemies & w4 & Hrun & Hd4).
  2:{ apply frames_liftEnv_World, frames_foldM. intros enemies' _.
      apply frames_bind; [apply frames_spawnEnemy, random_draws_cursorBlind|].
      intros [enemy|]; apply frames_ret. }
  apply run_step in Hrun as (portals & w5 & Hrun & Hd5);
    [|apply frames_liftEnv_World, frames_generatePortalsFrom, random_draws_cursorBlind].
  apply bind_Normal in Hrun as (r1 & w6 & Hr1 & Hrun).
  apply liftEnv_Normal in Hr1 as (e6 & Hr1 & ->). injection Hr1 as <- <-.
  apply bind_Normal in Hrun as (r2 & w7 & _ & Hrun).
  apply bind_Normal in Hrun as (r3 & w8 & _ & Hrun).
  apply bind_Normal in Hrun as ([] & w9 & _ & Hrun).
  injection Hrun as <- _. cbn [GameState.coins GameState.coinsInitialized
    GameState.coinSpawnTimer GameState.nextCoinSpawnTime].
  change (env_of w5) with (World.env w5).
  pose proof (Hunit (random_next (World.env w5))) as [H0 H1].
  rewrite <- Hd1, <- Hd2, <- Hd3, <- Hd4, <- Hd5 in H0, H1.
  repeat split; lra.
Qed.

(** The coin part of [handleSpawning] on a room that has not seeded its
    coins: 20 calls of [spawnCoin], then what it does on a room that has. *)
Lemma handleCoinSpawning_seeds gameState deltaTime e :
  GameState.coinsInitialized gameState = false →
  handleCoinSpawning gameState deltaTime e =
    bind (repeatSpawn 20 spawnCoin (GameState.set_coinsInitialized true gameState))
         (λ seeded, handleCoinSpawning seeded deltaTime) e.
Proof.
  intros Hinit. unfold handleCoinSpawning at 1. rewrite Hinit. cbn [negb].
  destruct (repeatSpawn_adds 20 (GameState.set_coinsInitialized true gameState) e)
    as (new & e1 & Hrun & _).
  rewrite !(bind_run _ _ _ _ _ Hrun). reflexivity.
Qed.

(** On a room that has seeded its coins, before the interval has elapsed:
    the timer advances and nothing else happens. *)
Lemma handleCoinSpawning_waits gameState deltaTime e :
  GameState.coinsInitialized gameState = true →
  coinsDue gameState deltaTime = false →
  handleCoinSpawning gameState deltaTime e =
    Normal (GameState.set_coinSpawnTimer
              (GameState.coinSpawnTimer gameState + deltaTime) gameState) e.
Proof.
  intros Hinit Hdue. unfold handleCoinSpawning, coinsDue in *. rewrite Hinit.
  cbn [negb]. unfold bind, ret.
  cbn [GameState.nextCoinSpawnTime GameState.coinSpawnTimer GameState.set_coinSpawnTimer].
  by rewrite Hdue.
Qed.

(** On a room that has seeded its coins, once the interval has elapsed: the
    timer restarts, the next interval is drawn from [3, 7), and 3 to 5
    calls of [spawnCoin] follow. *)
Lemma handleCoinSpawning_bursts gameState deltaTime e :
  unitDraws e →
  GameState.coinsInitialized gameState = true →
  coinsDue gameState deltaTime = true →
  ∃ n restarted e2,
    3 ≤ n ≤ 5 ∧
    handleCoinSpawning gameState deltaTime e = repeatSpawn n spawnCoin restarted e2 ∧
    random_draws e2 = random_draws e ∧
    GameState.coins restarted = GameState.coins gameState ∧
    GameState.coinsInitialized restarted = true ∧
    GameState.coinSpawnTimer restarted = 0%Q ∧
    (3 <= GameState.nextCoinSpawnTime restarted)%Q ∧
    (GameState.nextCoinSpawnTime restarted < 7)%Q.
Proof.
  intros Hunit Hinit Hdue. unfold handleCoinSpawning, coinsDue in *. rewrite Hinit.
  cbn [negb]. unfold bind at 1. unfold ret at 1.
  cbn [GameState.nextCoinSpawnTime GameState.coinSpawnTimer GameState.set_coinSpawnTimer].
  rewrite Hdue. unfold bind, Math_random. cbn beta iota.
  destruct (Hunit (random_next e)) as [Ha0 Ha1].
  destruct (Hunit (S (random_next e))) as [Hb0 Hb1].
  pose proof (floor_of_unit_draw _ 3 Hb0 Hb1 ltac:(lia)) as Hn.
  eexists _, _, _. split; [|split; [reflexivity|]].
  - cbn [random_draws random_next]. change (inject_Z 3) with 3%Q in Hn. lia.
  - cbn [random_draws random_next GameState.coins GameState.coinsInitialized
         GameState.coinSpawnTimer GameState.nextCoinSpawnTime
         GameState.set_coinSpawnTimer GameState.set_nextCoinSpawnTime].
    repeat split; try done; lra.
Qed.

End CoinSpawning.


Section CoinExamples.
Import QbitCityGameStateManager QbitCityGameLoop.

Lemma constantEnv_unitDraws now : unitDraws (constantEnv (1 # 16) now).
Proof. intros n. simpl. split; lra. Qed.

(** With pseudo-random draws the first pass seeds 20 coins. *)
Example seeding_with_pseudo_random_draws :
  match handleCoinSpawning (H := exampleHost) (exampleState [ann] [] []) (1 # 20)
          (lcgEnv 7 1000) with
  | Normal gameState _ => length (GameState.coins gameState) = 20%nat
  | _ => False
  end.
Proof. vm_compute. reflexivity. Qed.

(** When every draw points at the tile of the only player, the first pass
    seeds no coin. *)
Example seeding_can_fail :
  match handleCoinSpawning (H := exampleHost) (exampleState [ann] [] []) (1 # 20)
          (constantEnv (1 # 16) 1000) with
  | Normal gameState _ => GameState.coins gameState = []
  | _ => False
  end.
Proof. vm_compute. reflexivity. Qed.

End CoinExamples.
(** ** The tick *)

Section Tick.
Import QbitCityGameStateManager QbitCityGameLoop.
Context `{JsHost}.
Variable io : IO.

Lemma tick_rooms w :
  tick io w = forEach (World.rooms w) (tickRoom io (clock (World.env w))) w.
Proof.
  unfold tick, bind, liftEnv, Date_now, gets, getAllRooms. simpl.
  by destruct w as [rooms states buffers env].
Qed.

(** The rounds after a round that throws do not run. *)
Lemma forEach_throws {σ B} (before after : list B) (b : B) (body : B → M σ unit) s s1 e s2 :
  forEach before body s = Normal tt s1 →
  body b s1 = Thrown e s2 →
  forEach (before ++ b :: after) body s = Thrown e s2.
Proof.
  revert s. induction before as [|x before IH]; intros s Hbefore Hb; simpl in *.
  - injection Hbefore as <-. unfold bind. by rewrite Hb.
  - unfold bind in *. destruct (body x s) as [[] s'| |]; [|done|done]. by apply IH.
Qed.

(** When no round throws, every round runs. *)
Lemma forEach_app {σ B} (before after : list B) (body : B → M σ unit) s :
  forEach (before ++ after) body s =
    bind (forEach before body) (λ _, forEach after body) s.
Proof.
  revert s. induction before as [|x before IH]; intros s; simpl; [done|].
  unfold bind in *. destruct (body x s) as [[] s'| |]; [|done|done]. apply IH.
Qed.

(** An update writes the state of its own room only. *)
Lemma updateRoom_other_rooms roomCode deltaTime currentTime w other :
  other ≠ roomCode →
  match updateRoom io roomCode deltaTime currentTime w with
  | Normal _ w' | Thrown _ w' => getGameState other w' = getGameState other w
  | Diverged => True
  end.
Proof.
  intros Hne. unfold updateRoom.
  destruct (getGameState roomCode w) as [gameState|]; [|done].
  destruct (updateRoomState _ _ _ _ _) as [[] s|e s|]; [| |done];
    unfold getGameState, storeRoom; simpl; by rewrite lookup_insert_ne.
Qed.

Lemma tickRoom_other_rooms currentTime room w other :
  other ≠ Room.code room →
  match tickRoom io currentTime room w with
  | Normal _ w' | Thrown _ w' => getGameState other w' = getGameState other w
  | Diverged => True
  end.
Proof.
  intros Hne. unfold tickRoom. case_bool_decide; [|done].
  by apply updateRoom_other_rooms.
Qed.

Lemma forEach_tickRoom_other_rooms currentTime rooms w other :
  other ∉ Room.code <$> rooms →
  match forEach rooms (tickRoom io currentTime) w with
  | Normal _ w' | Thrown _ w' => getGameState other w' = getGameState other w
  | Diverged => True
  end.
Proof.
  revert w. induction rooms as [|room rooms IH]; intros w Hother; simpl; [done|].
  apply not_elem_of_cons in Hother as [Hne Hother].
  pose proof (tickRoom_other_rooms currentTime room w other Hne) as Hroom.
  unfold bind. destruct (tickRoom io currentTime room w) as [[] w1|e w1|]; [|done|done].
  specialize (IH w1 Hother). destruct (forEach rooms _ w1); congruence.
Qed.

(** C1, as the code has it.  The tick does not catch what an update throws:
    when the update of a playing room throws, after the rooms before it
    were updated, the tick ends there with that exception; the rooms after
    it (with codes of their own) keep the state they had before the
    tick. *)
Theorem tick_stops_at_throwing_room
    (w : World.t) (before after : list Room.t) (room : Room.t)
    (w1 w2 : World.t) (e : string) :
  World.rooms w = before ++ room :: after →
  Room.status room = PLAYING →
  forEach before (tickRoom io (clock (World.env w))) w = Normal tt w1 →
  updateRoom io (Room.code room) (1 / tickRate) (clock (World.env w)) w1 = Thrown e w2 →
  tick io w = Thrown e w2 ∧
  ∀ later, later ∈ after →
           Room.code later ∉ Room.code <$> before ++ [room] →
           getGameState (Room.code later) w2 = getGameState (Room.code later) w.
Proof.
  intros Hrooms Hplaying Hbefore Hthrow. split.
  - rewrite tick_rooms, Hrooms. apply (forEach_throws _ _ _ _ _ w1); [done|].
    unfold tickRoom. by rewrite bool_decide_eq_true_2.
  - intros later _ Hfresh. rewrite fmap_app in Hfresh.
    apply not_elem_of_app in Hfresh as [Hbefore' Hroom].
    apply not_elem_of_cons in Hroom as [Hroom _].
    pose proof (updateRoom_other_rooms (Room.code room) (1 / tickRate)
                  (clock (World.env w)) w1 (Room.code later) Hroom) as H2.
    rewrite Hthrow in H2. rewrite H2.
    pose proof (forEach_tickRoom_other_rooms (clock (World.env w)) before w
                  (Room.code later) Hbefore') as H1.
    by rewrite Hbefore in H1.
Qed.

End Tick.

Section TickExamples.
Import QbitCityGameStateManager QbitCityGameLoop.

Lemma tick_stops_at_throwing_room_witness :
  tick (H := exampleHost) (failingFor "B") threeRooms = Thrown "emit failed" roomBThrows ∧
  ∀ later, later ∈ [Room.mk "C" [("ann", "Ann")] PLAYING] →
           Room.code later ∉
             Room.code <$> [Room.mk "A" [("ann", "Ann")] PLAYING; Room.mk "W" [] WAITING]
                           ++ [Room.mk "B" [("ann", "Ann")] PLAYING] →
           getGameState (Room.code later) roomBThrows
             = getGameState (Room.code later) threeRooms.
Proof.
  apply (tick_stops_at_throwing_room (H := exampleHost) (failingFor "B") threeRooms
           [Room.mk "A" [("ann", "Ann")] PLAYING; Room.mk "W" [] WAITING]
           [Room.mk "C" [("ann", "Ann")] PLAYING]
           (Room.mk "B" [("ann", "Ann")] PLAYING) beforeRoomB roomBThrows "emit failed").
  - reflexivity.
  - reflexivity.
  - vm_compute. reflexivity.
  - vm_compute. reflexivity.
Defined.

(** With an [io] that delivers, a tick updates every playing room: each has
    its clock advanced and its state broadcast. *)
Example tick_updates_all_rooms :
  match tick (H := exampleHost) deliver threeRooms with
  | Normal _ w =>
      (λ code, Qred <$> (GameState.gameTime <$> getGameState code w)) <$> ["A"; "B"; "C"]
        = [Some (1 # 20); Some (1 # 20); Some (1 # 20)]%Q ∧
      fst <$> outbox (World.env w) = ["A"; "B"; "C"]
  | _ => False
  end.
Proof. vm_compute. repeat split. Qed.

(** When the broadcast of room B throws, the tick throws: room A was
    updated, room B was updated up to the broadcast, and room C, which
    plays too, is not updated. *)
Lemma tick_fault_halts_later_rooms :
  match tick (H := exampleHost) (failingFor "B") threeRooms with
  | Thrown _ w =>
      (λ code, Qred <$> (GameState.gameTime <$> getGameState code w)) <$> ["A"; "B"; "C"]
        = [Some (1 # 20); Some (1 # 20); Some 0]%Q ∧
      fst <$> outbox (World.env w) = ["A"]
  | _ => False
  end.
Proof. vm_compute. repeat split. Qed.

End TickExamples.

(** ** What a tick keeps *)

Section Guarantees.
Import QbitCityGameStateManager QbitCityGameLoop.
Context `{JsHost}.
Variable G : GameState.t → GameState.t → Prop.
Hypothesis G_refl : ∀ gs, G gs gs.
Hypothesis G_trans : ∀ gs1 gs2 gs3, G gs1 gs2 → G gs2 gs3 → G gs1 gs3.

Lemma guarantees_ret {A} (a : A) : guarantees G (ret a).
Proof. intros s. apply G_refl. Qed.

Lemma guarantees_throw {A} e : guarantees G (throw (A := A) e).
Proof. intros s. apply G_refl. Qed.

Lemma guarantees_getState : guarantees G getState.
Proof. intros s. apply G_refl. Qed.

Lemma guarantees_liftEnv {A} (m : M Env A) : guarantees G (liftEnv m).
Proof. intros s. unfold liftEnv. destruct (m (env_of s)); simpl; auto. Qed.

Lemma guarantees_modifyState f : (∀ gs, G gs (f gs)) → guarantees G (modifyState f).
Proof. intros Hf s. apply Hf. Qed.

Lemma guarantees_bind {A B} (m : M Sim.t A) (f : A → M Sim.t B) :
  guarantees G m → (∀ a, guarantees G (f a)) → guarantees G (bind m f).
Proof.
  intros Hm Hf s. unfold bind. specialize (Hm s).
  destruct (m s) as [a s'|e s'|]; [|done|done].
  specialize (Hf a s'). destruct (f a s'); eauto.
Qed.

Lemma guarantees_forEach {B} (l : list B) (body : B → M Sim.t unit) :
  (∀ b, guarantees G (body b)) → guarantees G (forEach l body).
Proof.
  intros Hbody. induction l as [|b l IH]; simpl; [apply guarantees_ret|].
  apply guarantees_bind; [apply Hbody | by intros _].
Qed.

(** A pass that reads the state, computes a new one from it on the
    environment, and writes it. *)
Lemma guarantees_replace (step : GameState.t → M Env GameState.t) :
  (∀ gs, yields (G gs) (step gs)) →
  guarantees G (bind getState (λ gs, bind (liftEnv (step gs)) (λ gs', modifyState (λ _, gs')))).
Proof.
  intros Hstep s. unfold bind, getState, gets, liftEnv, modifyState, modify.
  specialize (Hstep (Sim.state s) (env_of s)).
  destruct (step (Sim.state s) (env_of s)); simpl; auto.
Qed.

End Guarantees.

Section Yields.
Context `{JsHost}.

Lemma yields_ret {A} (Q : A → Prop) a : Q a → yields Q (ret a).
Proof. by intros Ha e. Qed.

Lemma yields_bind {A B} (P : A → Prop) (Q : B → Prop) (m : M Env A) (f : A → M Env B) :
  yields P m → (∀ a, P a → yields Q (f a)) → yields Q (bind m f).
Proof.
  intros Hm Hf e. unfold bind. specialize (Hm e).
  destruct (m e) as [a e'| |]; [|done|done]. by apply Hf.
Qed.

Lemma yields_True {A} (m : M Env A) : yields (λ _, True) m.
Proof. intros e. by destruct (m e). Qed.

(** A draw, or any computation whose value does not matter. *)
Lemma yields_after {A B} (Q : B → Prop) (m : M Env A) (f : A → M Env B) :
  (∀ a, yields Q (f a)) → yields Q (bind m f).
Proof. intros Hf. apply (yields_bind (λ _, True)); [apply yields_True|auto]. Qed.

Lemma yields_foldM {A B} (I : A → Prop) (body : A → B → M Env A) a (l : list B) :
  I a → (∀ a b, I a → yields I (body a b)) → yields I (foldM body a l).
Proof.
  intros Ha Hbody. revert a Ha.
  induction l as [|b l IH]; intros a Ha; simpl; [by apply yields_ret|].
  apply (yields_bind I); [by apply Hbody | apply IH].
Qed.

End Yields.

Section CoinCap.
Import QbitCityGameStateManager QbitCityGameLoop.
Context `{JsHost}.
Variable io : IO.

Lemma coinBound_refl gs : coinBound gs gs.
Proof. unfold coinBound. lia. Qed.

Lemma coinBound_trans gs1 gs2 gs3 :
  coinBound gs1 gs2 → coinBound gs2 gs3 → coinBound gs1 gs3.
Proof. unfold coinBound. lia. Qed.

Lemma sameCoins_coinBound gs gs' : sameCoins gs gs' → coinBound gs gs'.
Proof. unfold sameCoins, coinBound, uncollectedCoins. intros ->. lia. Qed.

Lemma sameCoins_bound_l gs0 gs gs' :
  sameCoins gs gs' → coinBound gs0 gs → coinBound gs0 gs'.
Proof. intros Hs Hb. eapply coinBound_trans; [exact Hb|by apply sameCoins_coinBound]. Qed.

(** **** Spawning *)

Lemma yields_spawnCoin gs : yields (coinBound gs) (spawnCoin gs).
Proof.
  intros e. destruct (spawnCoin_adds gs e) as (new & e' & -> & _ & Hnew & _ & Hcap).
  unfold coinBound. rewrite uncollectedCoins_withCoins, length_app by done. lia.
Qed.

Lemma yields_repeatSpawn n gs : yields (coinBound gs) (repeatSpawn n spawnCoin gs).
Proof.
  intros e. destruct (repeatSpawn_adds n gs e) as (new & e' & -> & _ & Hnew & _ & Hcap).
  unfold coinBound. rewrite uncollectedCoins_withCoins, length_app by done. lia.
Qed.

Lemma yields_handleCoinSpawning gs deltaTime :
  yields (coinBound gs) (handleCoinSpawning gs deltaTime).
Proof.
  unfold handleCoinSpawning.
  apply (yields_bind (coinBound gs)).
  - destruct (negb (GameState.coinsInitialized gs)).
    + intros e. pose proof (yields_repeatSpawn 20 (GameState.set_coinsInitialized true gs) e) as Hy.
      by destruct (repeatSpawn _ _ _ e).
    + apply yields_ret, coinBound_refl.
  - intros gs1 Hgs1. cbv zeta. case_match; [|by apply yields_ret].
    apply yields_after. intros r. apply yields_after. intros r'.
    intros e. pose proof (yields_repeatSpawn (3 + Math_floor (r' * 3))
      (GameState.set_nextCoinSpawnTime (3 + r * 4)
         (GameState.set_coinSpawnTimer 0
            (GameState.set_coinSpawnTimer (GameState.coinSpawnTimer gs1 + deltaTime) gs1))) e)
      as Hy.
    destruct (repeatSpawn _ _ _ e) as [gs2 e2| |]; [|done|done].
    eapply coinBound_trans; [exact Hgs1|exact Hy].
Qed.

Lemma yields_spawnImmunityPickupAttempts gs0 attempts minX maxX minY maxY quadrant gs :
  sameCoins gs0 gs →
  yields (sameCoins gs0)
    (spawnImmunityPickupAttempts attempts minX maxX minY maxY quadrant gs).
Proof.
  intros Hgs. induction attempts as [|n IH]; cbn [spawnImmunityPickupAttempts];
    [by apply yields_ret|].
  apply yields_after. intros r1. cbv zeta. apply yields_after. intros r2.
  case_bool_decide; [|done].
  destruct (tileCentre _ _) as [cx cy].
  apply yields_after. intros id. apply yields_after. intros t.
  by apply yields_ret.
Qed.

Lemma yields_spawnImmunityPickup gs0 gs quadrant :
  sameCoins gs0 gs → yields (sameCoins gs0) (spawnImmunityPickup gs quadrant).
Proof.
  intros Hgs. unfold spawnImmunityPickup.
  repeat case_match; by apply yields_spawnImmunityPickupAttempts.
Qed.

Lemma yields_spawnSinkAttempts gs0 attempts gs :
  sameCoins gs0 gs → yields (sameCoins gs0) (spawnSinkAttempts attempts gs).
Proof.
  intros Hgs. induction attempts as [|n IH]; cbn [spawnSinkAttempts];
    [by apply yields_ret|].
  apply yields_after. intros rx. apply yields_after. intros ry.
  case_bool_decide; [|done].
  destruct (tileCentre _ _) as [cx cy].
  case_match; [|done].
  apply yields_after. intros id. apply yields_after. intros t.
  by apply yields_ret.
Qed.

Lemma yields_spawnSinkCollectible gs0 gs :
  sameCoins gs0 gs → yields (sameCoins gs0) (spawnSinkCollectible gs).
Proof.
  intros Hgs. unfold spawnSinkCollectible.
  case_match; [by apply yields_ret | by apply yields_spawnSinkAttempts].
Qed.

Lemma yields_handleCollectibleSpawning gs deltaTime :
  yields (sameCoins gs) (handleCollectibleSpawning gs deltaTime).
Proof.
  unfold handleCollectibleSpawning.
  case_match; [|by apply yields_ret].
  apply (yields_bind (sameCoins gs)).
  { case_match; [|by apply yields_ret].
    apply (yields_bind (sameCoins gs)).
    - apply yields_foldM; [done|]. intros gs1 q Hgs1.
      by apply yields_spawnImmunityPickup.
    - intros gs1 Hgs1. by apply yields_spawnSinkCollectible. }
  intros gs1 Hgs1. cbv zeta.
  apply (yields_bind (sameCoins gs)).
  { case_match; [|by apply yields_ret].
    apply yields_after. intros r.
    apply yields_foldM; [done|]. intros gs2 q Hgs2.
    case_match; [by apply yields_spawnImmunityPickup | by apply yields_ret]. }
  intros gs2 Hgs2.
  case_match; [|by apply yields_ret].
  apply yields_after. intros r. by apply yields_spawnSinkCollectible.
Qed.

Lemma yields_handleEnemySpawning gs deltaTime :
  yields (sameCoins gs) (handleEnemySpawning gs deltaTime).
Proof.
  unfold handleEnemySpawning. cbv zeta.
  case_match; [|by apply yields_ret].
  apply yields_foldM; [done|]. intros gs1 _ Hgs1.
  apply yields_after. intros [enemy|]; by apply yields_ret.
Qed.

Lemma sameCoins_applySpeedBoost gs : sameCoins gs (applySpeedBoost gs).
Proof. unfold applySpeedBoost. by case_match. Qed.

Lemma guarantees_handleSpawning deltaTime : guarantees coinBound (handleSpawning deltaTime).
Proof.
  intros s. unfold handleSpawning, bind, getState, gets, liftEnv, modifyState, modify.
  pose proof (sameCoins_applySpeedBoost (Sim.state s)) as H0.
  set (gs0 := applySpeedBoost (Sim.state s)) in *.
  pose proof (yields_handleCoinSpawning gs0 deltaTime (env_of s)) as H1.
  destruct (handleCoinSpawning gs0 deltaTime (env_of s)) as [gs1 e1|x e1|];
    [|apply coinBound_refl|done].
  cbn [env_of with_env Sim_HasEnv Sim.env Sim.set_env Sim.state].
  pose proof (yields_handleCollectibleSpawning gs1 deltaTime e1) as H2.
  destruct (handleCollectibleSpawning gs1 deltaTime e1) as [gs2 e2|x e2|];
    [|apply coinBound_refl|done].
  cbn [env_of with_env Sim_HasEnv Sim.env Sim.set_env Sim.state].
  pose proof (yields_handleEnemySpawning gs2 deltaTime e2) as H3.
  destruct (handleEnemySpawning gs2 deltaTime e2) as [gs3 e3|x e3|];
    [|apply coinBound_refl|done].
  cbn [Sim.state Sim.set_state].
  apply (sameCoins_bound_l _ gs2); [done|].
  apply (sameCoins_bound_l _ gs1); [done|].
  eapply coinBound_trans; [by apply sameCoins_coinBound|exact H1].
Qed.

(** **** The passes that leave the coins alone *)

Lemma guarantees_sameCoins f :
  (∀ gs, sameCoins gs (f gs)) → guarantees coinBound (modifyState f).
Proof.
  intros Hf. apply guarantees_modifyState. intros gs. apply sameCoins_coinBound, Hf.
Qed.

Lemma guarantees_processPlayerInputs deltaTime currentTime :
  guarantees coinBound (processPlayerInputs deltaTime currentTime).
Proof.
  intros s. unfold processPlayerInputs, modify.
  destruct (processPlayers _ _ _ _ _) as [players buffers].
  apply sameCoins_coinBound. reflexivity.
Qed.

Lemma guarantees_updateBoats deltaTime : guarantees coinBound (updateBoats deltaTime).
Proof. by apply guarantees_sameCoins. Qed.

Lemma guarantees_updateEnemies deltaTime : guarantees coinBound (updateEnemies deltaTime).
Proof.
  unfold updateEnemies.
  apply guarantees_bind; [exact coinBound_trans|apply guarantees_getState, coinBound_refl|].
  intros gs.
  apply guarantees_bind; [exact coinBound_trans|apply guarantees_liftEnv, coinBound_refl|].
  intros enemies. by apply guarantees_sameCoins.
Qed.

Lemma guarantees_updatePortals deltaTime : guarantees coinBound (updatePortals deltaTime).
Proof. by apply guarantees_sameCoins. Qed.

Lemma guarantees_setPlayer i player : guarantees coinBound (setPlayer i player).
Proof. by apply guarantees_sameCoins. Qed.

Lemma guarantees_setEnemy j enemy : guarantees coinBound (setEnemy j enemy).
Proof. by apply guarantees_sameCoins. Qed.

Lemma guarantees_broadcastGameState roomCode :
  guarantees coinBound (broadcastGameState io roomCode).
Proof.
  unfold broadcastGameState.
  apply guarantees_bind; [exact coinBound_trans|apply guarantees_getState, coinBound_refl|].
  intros gs.
  apply guarantees_bind; [exact coinBound_trans|apply guarantees_liftEnv, coinBound_refl|].
  intros now. apply guarantees_liftEnv, coinBound_refl.
Qed.

(** **** The passes that drop or collect coins *)

Lemma filter_uncollected_idemp (coins : list Coin.t) :
  List.filter (λ c, negb (Coin.collected c)) (List.filter (λ c, negb (Coin.collected c)) coins)
  = List.filter (λ c, negb (Coin.collected c)) coins.
Proof.
  induction coins as [|c coins IH]; [done|]. simpl.
  destruct (negb (Coin.collected c)) eqn:Hc; [|done].
  simpl. by rewrite Hc, IH.
Qed.

Lemma guarantees_updateCollectibles deltaTime :
  guarantees coinBound (updateCollectibles deltaTime).
Proof.
  apply guarantees_modifyState. intros gs.
  unfold coinBound, uncollectedCoins. cbn.
  rewrite filter_uncollected_idemp. lia.
Qed.

Lemma collectCoin_uncollected player coin :
  (length (List.filter (λ c, negb (Coin.collected c)) [(collectCoin player coin).2])
   ≤ length (List.filter (λ c, negb (Coin.collected c)) [coin]))%nat.
Proof.
  unfold collectCoin. destruct (Coin.collected coin) eqn:Hc; [done|].
  cbv zeta. case_match; cbn [snd]; [|done].
  simpl. rewrite Hc. simpl. lia.
Qed.

Lemma collectCoins_uncollected player coins :
  (length (List.filter (λ c, negb (Coin.collected c)) (collectCoins player coins).2)
   ≤ length (List.filter (λ c, negb (Coin.collected c)) coins))%nat.
Proof.
  unfold collectCoins. induction coins as [|coin coins IH] using rev_ind; [done|].
  rewrite collectAll_snoc.
  destruct (collectAll collectCoin player coins) as [player' done] eqn:Hall.
  pose proof (collectCoin_uncollected player' coin) as Hcoin.
  destruct (collectCoin player' coin) as [player'' coin'].
  cbn [snd] in *. rewrite !List.filter_app, !length_app. lia.
Qed.

Lemma guarantees_collectPickups i : guarantees coinBound (collectPickups i).
Proof.
  apply guarantees_modifyState. intros gs.
  destruct (GameState.players gs !! i) as [player|]; [|apply coinBound_refl].
  pose proof (collectCoins_uncollected player (GameState.coins gs)) as Hcoins.
  destruct (collectCoins player (GameState.coins gs)) as [player1 coins].
  destruct (collectAll (collectImmunityPickup _) _ _) as [player2 pickups].
  destruct (collectAll collectSink _ _) as [player3 sinks].
  unfold coinBound, uncollectedCoins. cbn in *. lia.
Qed.

(** **** The collision pass *)

Lemma guarantees_enemyContact player j : guarantees coinBound (enemyContact io player j).
Proof.
  unfold enemyContact.
  apply guarantees_bind; [exact coinBound_trans|apply guarantees_getState, coinBound_refl|].
  intros gs. destruct (GameState.enemies gs !! j) as [enemy|];
    [|apply guarantees_ret, coinBound_refl].
  cbv zeta. case_match; [|apply guarantees_ret, coinBound_refl].
  case_match; [apply guarantees_liftEnv, coinBound_refl|].
  apply guarantees_bind; [exact coinBound_trans|apply guarantees_liftEnv, coinBound_refl|].
  intros [newPos|]; [apply guarantees_setEnemy|apply guarantees_ret, coinBound_refl].
Qed.

Lemma guarantees_portalContact i k : guarantees coinBound (portalContact i k).
Proof.
  unfold portalContact.
  apply guarantees_bind; [exact coinBound_trans|apply guarantees_getState, coinBound_refl|].
  intros gs.
  destruct (GameState.players gs !! i) as [player|];
    [|apply guarantees_ret, coinBound_refl].
  destruct (GameState.portals gs !! k) as [portal|];
    [|apply guarantees_ret, coinBound_refl].
  cbv zeta. case_match; [|apply guarantees_ret, coinBound_refl].
  case_match; [|apply guarantees_ret, coinBound_refl].
  apply guarantees_bind; [exact coinBound_trans|apply guarantees_liftEnv, coinBound_refl|].
  intros r. case_match; [apply guarantees_setPlayer|apply guarantees_throw, coinBound_refl].
Qed.

Lemma guarantees_sinkContact i j k : guarantees coinBound (sinkContact i j k).
Proof.
  unfold sinkContact.
  apply guarantees_bind; [exact coinBound_trans|apply guarantees_getState, coinBound_refl|].
  intros gs.
  destruct (GameState.players gs !! i) as [player|];
    [|apply guarantees_ret, coinBound_refl].
  destruct (GameState.enemies gs !! j) as [enemy|];
    [|apply guarantees_ret, coinBound_refl].
  destruct (GameState.deployedSinks gs !! k) as [sink|];
    [|apply guarantees_ret, coinBound_refl].
  cbv zeta. case_match; [|apply guarantees_ret, coinBound_refl].
  apply guarantees_bind; [exact coinBound_trans|by apply guarantees_sameCoins|].
  intros _.
  apply guarantees_bind; [exact coinBound_trans|apply guarantees_liftEnv, coinBound_refl|].
  intros [newPos|]; [apply guarantees_setEnemy|apply guarantees_ret, coinBound_refl].
Qed.

Lemma guarantees_checkContacts i player : guarantees coinBound (checkContacts io i player).
Proof.
  unfold checkContacts.
  apply guarantees_bind; [exact coinBound_trans|apply guarantees_getState, coinBound_refl|].
  intros gs1.
  apply guarantees_bind; [exact coinBound_trans| |intros _].
  { apply guarantees_forEach; [exact coinBound_refl|exact coinBound_trans|].
    intros j. apply guarantees_enemyContact. }
  apply guarantees_bind; [exact coinBound_trans|apply guarantees_collectPickups|intros _].
  apply guarantees_bind; [exact coinBound_trans|apply guarantees_getState, coinBound_refl|].
  intros gs2.
  apply guarantees_bind; [exact coinBound_trans| |intros _].
  { case_match; [|apply guarantees_ret, coinBound_refl].
    apply guarantees_forEach; [exact coinBound_refl|exact coinBound_trans|].
    intros k. apply guarantees_portalContact. }
  apply guarantees_bind; [exact coinBound_trans|apply guarantees_getState, coinBound_refl|].
  intros gs3.
  apply guarantees_forEach; [exact coinBound_refl|exact coinBound_trans|].
  intros j.
  apply guarantees_bind; [exact coinBound_trans|apply guarantees_getState, coinBound_refl|].
  intros gs4.
  apply guarantees_forEach; [exact coinBound_refl|exact coinBound_trans|].
  intros k. apply guarantees_sinkContact.
Qed.

Lemma guarantees_checkPlayerCollisions i :
  guarantees coinBound (checkPlayerCollisions io i).
Proof.
  unfold checkPlayerCollisions.
  apply guarantees_bind; [exact coinBound_trans|apply guarantees_getState, coinBound_refl|].
  intros gs. destruct (GameState.players gs !! i) as [player|];
    [|apply guarantees_ret, coinBound_refl].
  case_bool_decide; [|apply guarantees_checkContacts].
  case_match; [apply guarantees_liftEnv, coinBound_refl|apply guarantees_checkContacts].
Qed.

Lemma guarantees_checkCollisions : guarantees coinBound (checkCollisions io).
Proof.
  unfold checkCollisions.
  apply guarantees_bind; [exact coinBound_trans|apply guarantees_getState, coinBound_refl|].
  intros gs.
  apply guarantees_forEach; [exact coinBound_refl|exact coinBound_trans|].
  intros i. apply guarantees_checkPlayerCollisions.
Qed.

(** **** The passes of a tick *)

(** Whatever a tick does to a room, and whether it returns or throws, the
    room's active coins stay within 40, or within what they were. *)
Lemma guarantees_updateRoomState roomCode deltaTime currentTime :
  guarantees coinBound (updateRoomState io roomCode deltaTime currentTime).
Proof.
  unfold updateRoomState.
  apply guarantees_bind; [exact coinBound_trans|by apply guarantees_sameCoins|intros _].
  apply guarantees_bind;
    [exact coinBound_trans|apply guarantees_processPlayerInputs|intros _].
  apply guarantees_bind; [exact coinBound_trans|apply guarantees_updateBoats|intros _].
  apply guarantees_bind; [exact coinBound_trans|apply guarantees_updateEnemies|intros _].
  apply guarantees_bind; [exact coinBound_trans|apply guarantees_handleSpawning|intros _].
  apply guarantees_bind;
    [exact coinBound_trans|apply guarantees_updateCollectibles|intros _].
  apply guarantees_bind; [exact coinBound_trans|apply guarantees_updatePortals|intros _].
  apply guarantees_bind; [exact coinBound_trans|apply guarantees_checkCollisions|intros _].
  apply guarantees_broadcastGameState.
Qed.

(** X14.  A room that enters a tick with at most 40 coins to collect
    leaves it with at most 40, whatever the spawning and collecting passes
    did, on a normal return and on a throw alike. *)
Theorem updateRoomState_coin_cap roomCode deltaTime currentTime s :
  (length (uncollectedCoins (Sim.state s)) ≤ 40)%nat →
  match updateRoomState io roomCode deltaTime currentTime s with
  | Normal _ s' | Thrown _ s' => (length (uncollectedCoins (Sim.state s')) ≤ 40)%nat
  | Diverged => True
  end.
Proof.
  intros Hs. pose proof (guarantees_updateRoomState roomCode deltaTime currentTime s) as Hg.
  destruct (updateRoomState _ _ _ _ s); unfold coinBound in Hg; try done; lia.
Qed.

End CoinCap.

Section CoinCapExamples.
Import QbitCityGameStateManager QbitCityGameLoop.

Lemma updateRoomState_coin_cap_witness :
  match updateRoomState (H := exampleHost) deliver "ROOM01" (1 # 20) 1000
          (exampleSim []) with
  | Normal _ s' | Thrown _ s' => (length (uncollectedCoins (Sim.state s')) ≤ 40)%nat
  | Diverged => True
  end.
Proof.
  apply (updateRoomState_coin_cap (H := exampleHost)). cbn. lia.
Defined.

End CoinCapExamples.
(** ** More on map generation *)

Lemma rng_for_range_invariant {St : Type} (I : Z → St → Prop) lo hi body (s : St) v :
  lo ≤ hi →
  I lo s →
  (∀ i acc w, lo ≤ i < hi → I i acc → I (i + 1) (body i acc w).1) →
  I hi (Rng.for_range lo hi body s v).1.
Proof.
  intros Hle H0 Hstep. unfold Rng.for_range.
  assert (Hn : ∀ n : nat, Z.of_nat n ≤ hi - lo → ∀ w,
            I (lo + Z.of_nat n)
              (foldl (λ acc i, Rng.bind acc (body i)) (Rng.ret s) (seqZ lo (Z.of_nat n)) w).1).
  { induction n as [|n IH]; intros Hb w.
    - change (Z.of_nat 0) with 0. rewrite seqZ_nil by lia. simpl.
      replace (lo + 0) with lo by lia. exact H0.
    - rewrite seqZ_S, foldl_snoc.
      replace (lo + Z.of_nat (S n)) with (lo + Z.of_nat n + 1) by lia.
      unfold Rng.bind at 1.
      specialize (IH ltac:(lia) w).
      destruct (foldl (λ acc i, Rng.bind acc (body i)) (Rng.ret s)
                  (seqZ lo (Z.of_nat n)) w) as [acc w'].
      apply Hstep; [lia | exact IH]. }
  specialize (Hn (Z.to_nat (hi - lo))).
  rewrite Z2Nat.id in Hn by lia.
  replace (lo + (hi - lo)) with hi in Hn by lia. apply Hn. lia.
Qed.

Section TerrainPass.
Import QbitCityGameStateManager.

(** The water blot turns cells into water, never a road cell. *)
Lemma waterBlot_spec x y t :
  shaped t →
  shaped (waterBlot x y t) ∧
  ∀ x0 y0, 0 ≤ x0 < MAP_WIDTH → 0 ≤ y0 < MAP_HEIGHT →
    getTile (waterBlot x y t) x0 y0 = getTile t x0 y0 ∨
    (getTile (waterBlot x y t) x0 y0 = Some WATER ∧ getTile t x0 y0 ≠ Some ROAD).
Proof.
  intros Ht. unfold waterBlot.
  set (P := λ acc : list (list Z), shaped acc ∧
    ∀ x0 y0, 0 ≤ x0 < MAP_WIDTH → 0 ≤ y0 < MAP_HEIGHT →
      getTile acc x0 y0 = getTile t x0 y0 ∨
      (getTile acc x0 y0 = Some WATER ∧ getTile t x0 y0 ≠ Some ROAD)).
  change (P (for_range (y - 1) (y + 1 + 1) (λ ly,
    for_range (x - 1) (x + 1 + 1) (λ lx t0,
      if (0 <=? ly) && (ly <? MAP_HEIGHT) && (0 <=? lx) && (lx <? MAP_WIDTH)
      then (if negb (bool_decide (getTile t0 lx ly = Some ROAD))
            then setTile t0 lx ly WATER else t0)
      else t0)) t)).
  apply for_range_preserves; [split; [done|auto]|]. intros ly acc _ Hacc.
  apply for_range_preserves; [done|]. intros lx acc' _ [Hs Hget].
  destruct ((0 <=? ly) && (ly <? MAP_HEIGHT) && (0 <=? lx) && (lx <? MAP_WIDTH)) eqn:Hin;
    [|by split].
  case_bool_decide as Hroad; simpl; [by split|].
  split; [by apply shaped_setTile|]. intros x0 y0 Hx0 Hy0.
  destruct (decide ((lx, ly) = (x0, y0))) as [Heq|Hne].
  - injection Heq as <- <-. right.
    rewrite getTile_setTile_eq by (by apply shaped_getTile). split; [done|].
    destruct (Hget lx ly Hx0 Hy0) as [Hsame|[Hw Hnr]]; congruence.
  - rewrite getTile_setTile_ne by done. by apply Hget.
Qed.

Lemma onRoadGrid_step_row x y x0 y0 :
  scannedBefore (x + 1) y x0 y0 ↔ scannedBefore x y x0 y0 ∨ (x0, y0) = (x, y).
Proof.
  unfold scannedBefore. split.
  - intros [?|[-> ?]]; [by left; left|].
    destruct (decide (x0 = x)) as [->|]; [by right|]. left. right. lia.
  - intros [[?|[-> ?]]|[= -> ->]]; [by left|right; lia|right; lia].
Qed.

Lemma terrainCell_step x y t v :
  0 ≤ x < MAP_WIDTH → 0 ≤ y < MAP_HEIGHT →
  terrainDone x y t → terrainDone (x + 1) y (terrainCell x y t v).1.
Proof.
  intros Hx Hy (Hs & Hcodes & Hroads). unfold terrainCell. fold (onRoadGrid x y).
  destruct (onRoadGrid x y) eqn:Hgrid; simpl.
  - (* a cell of the road grid *)
    split; [by apply shaped_setTile|]. split.
    + intros x0 y0 Hx0 Hy0. destruct (decide ((x, y) = (x0, y0))) as [[= <- <-]|Hne].
      * rewrite getTile_setTile_eq by (by apply shaped_getTile). by left.
      * rewrite getTile_setTile_ne by done. by apply Hcodes.
    + intros x0 y0 Hx0 Hy0 Hbefore Hg.
      destruct (decide ((x, y) = (x0, y0))) as [[= <- <-]|Hne].
      * rewrite getTile_setTile_eq by (by apply shaped_getTile). done.
      * rewrite getTile_setTile_ne by done. apply Hroads; [done..| |done].
        apply onRoadGrid_step_row in Hbefore as [?|?]; [done|congruence].
  - unfold Rng.bind, Rng.rng, Rng.ret.
    destruct (Qltb (Rng.next v # 233280) (5 # 100)) eqn:Hwater; simpl.
    + (* water *)
      destruct (waterBlot_spec x y t Hs) as [Hs' Hblot].
      split; [done|]. split.
      * intros x0 y0 Hx0 Hy0.
        destruct (Hblot x0 y0 Hx0 Hy0) as [->|[-> _]]; [by apply Hcodes|].
        by right; right; right.
      * intros x0 y0 Hx0 Hy0 Hbefore Hg.
        apply onRoadGrid_step_row in Hbefore as [Hbefore|[= -> ->]]; [|congruence].
        pose proof (Hroads x0 y0 Hx0 Hy0 Hbefore Hg) as Hroad.
        destruct (Hblot x0 y0 Hx0 Hy0) as [->|[_ Hnr]]; [done|congruence].
    + destruct (Qltb (Rng.next v # 233280) (15 # 100)) eqn:Hgrass; simpl.
      * (* grass *)
        split; [by apply shaped_setTile|]. split.
        -- intros x0 y0 Hx0 Hy0. destruct (decide ((x, y) = (x0, y0))) as [[= <- <-]|Hne].
           ++ rewrite getTile_setTile_eq by (by apply shaped_getTile).
              by right; right; left.
           ++ rewrite getTile_setTile_ne by done. by apply Hcodes.
        -- intros x0 y0 Hx0 Hy0 Hbefore Hg.
           apply onRoadGrid_step_row in Hbefore as [Hbefore|[= -> ->]]; [|congruence].
           rewrite getTile_setTile_ne by congruence. by apply Hroads.
      * split; [done|]. split; [done|].
        intros x0 y0 Hx0 Hy0 Hbefore Hg.
        apply onRoadGrid_step_row in Hbefore as [Hbefore|[= -> ->]]; [|congruence].
        by apply Hroads.
Qed.

Lemma terrainRow_step y t v :
  0 ≤ y < MAP_HEIGHT →
  terrainDone 0 y t →
  terrainDone 0 (y + 1) (Rng.for_range 0 MAP_WIDTH (λ x, terrainCell x y) t v).1.
Proof.
  intros Hy Ht.
  assert (Hrow : terrainDone MAP_WIDTH y
                   (Rng.for_range 0 MAP_WIDTH (λ x, terrainCell x y) t v).1).
  { apply (rng_for_range_invariant (λ x t', terrainDone x y t')); [done|done|].
    intros x acc w Hx Hacc. by apply terrainCell_step. }
  destruct Hrow as (Hs & Hcodes & Hroads). split; [done|]. split; [done|].
  intros x0 y0 Hx0 Hy0 Hbefore Hg. apply Hroads; [done..| |done].
  unfold scannedBefore in *. lia.
Qed.

Lemma terrainPass_spec v : terrainDone 0 MAP_HEIGHT (terrainPass initialTiles v).1.
Proof.
  unfold terrainPass.
  apply (rng_for_range_invariant (λ y t', terrainDone 0 y t')); [done| |].
  - split; [apply shaped_initialTiles|]. split.
    + intros x0 y0 Hx0 Hy0. right; left.
      unfold MAP_WIDTH, MAP_HEIGHT in *.
      assert (Hall : forallb (λ y, forallb (λ x,
                bool_decide (getTile initialTiles x y = Some SIDEWALK)) (seqZ 0 50))
                (seqZ 0 50) = true) by (vm_compute; reflexivity).
      rewrite forallb_forall in Hall.
      specialize (Hall y0 ltac:(apply list_elem_of_In, elem_of_seqZ; lia)).
      rewrite forallb_forall in Hall.
      specialize (Hall x0 ltac:(apply list_elem_of_In, elem_of_seqZ; lia)).
      by apply bool_decide_eq_true in Hall.
    + intros x0 y0 Hx0 Hy0 Hbefore. unfold scannedBefore in Hbefore. lia.
  - intros y acc w Hy Hacc. by apply terrainRow_step.
Qed.

(** The tiles inside the perimeter are what the terrain pass left. *)
Lemma generateMap_interior seed x y :
  0 < x < MAP_WIDTH - 1 → 0 < y < MAP_HEIGHT - 1 →
  getTile (GameMap.tiles (generateMap seed)) x y =
  getTile (terrainPass initialTiles seed).1 x y.
Proof.
  intros Hx Hy. rewrite generateMap_tiles.
  rewrite perimeterPass_spec
    by (try apply shaped_terrainPass, shaped_initialTiles; lia).
  replace (onPerimeter x y) with false; [done|].
  symmetry. unfold onPerimeter. rewrite !orb_false_iff, !Z.eqb_neq. lia.
Qed.

(** X1.  Inside the perimeter a generated map holds no lava: every tile
    with 0 < x < 49 and 0 < y < 49 is road, sidewalk, grass or water, for
    every seed. *)
Theorem generateMap_interior_has_no_lava (seed x y : Z) :
  0 < x < MAP_WIDTH - 1 → 0 < y < MAP_HEIGHT - 1 →
  terrainCode (getTile (GameMap.tiles (generateMap seed)) x y) ∧
  getTile (GameMap.tiles (generateMap seed)) x y ≠ Some LAVA.
Proof.
  intros Hx Hy. rewrite generateMap_interior by done.
  destruct (terrainPass_spec seed) as (_ & Hcodes & _).
  specialize (Hcodes x y ltac:(lia) ltac:(lia)).
  split; [done|]. destruct Hcodes as [Hc|[Hc|[Hc|Hc]]]; rewrite Hc; done.
Qed.

Lemma generateMap_interior_has_no_lava_witness :
  terrainCode (getTile (GameMap.tiles (generateMap 42)) 17 23) ∧
  getTile (GameMap.tiles (generateMap 42)) 17 23 ≠ Some LAVA.
Proof.
  apply (generateMap_interior_has_no_lava 42 17 23); unfold MAP_WIDTH, MAP_HEIGHT; lia.
Defined.

(** X2.  The road grid survives the water and grass of the terrain pass:
    inside the perimeter, every tile whose row or column is a multiple of 4
    is road, for every seed. *)
Theorem generateMap_road_grid (seed x y : Z) :
  0 < x < MAP_WIDTH - 1 → 0 < y < MAP_HEIGHT - 1 →
  onRoadGrid x y = true →
  getTile (GameMap.tiles (generateMap seed)) x y = Some ROAD.
Proof.
  intros Hx Hy Hg. rewrite generateMap_interior by done.
  destruct (terrainPass_spec seed) as (_ & _ & Hroads).
  apply Hroads; [lia|lia| |done]. left. lia.
Qed.

Lemma generateMap_road_grid_witness :
  getTile (GameMap.tiles (generateMap 42)) 8 23 = Some ROAD.
Proof.
  apply (generateMap_road_grid 42 8 23);
    [unfold MAP_WIDTH; lia | unfold MAP_HEIGHT; lia | reflexivity].
Defined.

End TerrainPass.

Section DecoratePass.
Import QbitCityGameStateManager.

Lemma seqZ_snoc n : 0 ≤ n → seqZ 0 (n + 1) = seqZ 0 n ++ [n].
Proof.
  intros Hn. replace (n + 1) with (Z.of_nat (S (Z.to_nat n))) by lia.
  rewrite seqZ_S. rewrite Z2Nat.id by lia. done.
Qed.

Lemma scannedCells_step x y :
  0 ≤ x → scannedCells (x + 1) y = scannedCells x y ++ [(x, y)].
Proof.
  intros Hx. unfold scannedCells. rewrite seqZ_snoc by done.
  by rewrite map_app, app_assoc.
Qed.

Lemma scannedCells_row y :
  0 ≤ y → scannedCells 0 (y + 1) = scannedCells MAP_WIDTH y.
Proof.
  intros Hy. unfold scannedCells. rewrite seqZ_snoc by done.
  rewrite flat_map_app. simpl. by rewrite !app_nil_r.
Qed.

(** One round of the decoration loop adds a building exactly when the cell
    is sidewalk. *)
Lemma decorateCell_buildings tiles x y acc v :
  map buildingCell (decorateCell tiles x y acc v).1.1 =
  map buildingCell acc.1 ++ List.filter (isSidewalk tiles) [(x, y)].
Proof.
  destruct acc as [bs ts]. unfold decorateCell, isSidewalk. cbn [fst snd List.filter].
  unfold Rng.bind, Rng.rng, Rng.ret.
  case_bool_decide as Hside.
  - repeat case_match; cbn [fst snd]; by rewrite map_app.
  - repeat case_match; cbn [fst snd]; by rewrite app_nil_r.
Qed.

Lemma decoratePass_buildings tiles v :
  map buildingCell (decoratePass tiles v).1.1 = sidewalkCells tiles.
Proof.
  unfold decoratePass, sidewalkCells.
  apply (rng_for_range_invariant
           (λ y acc, map buildingCell acc.1 =
                     List.filter (isSidewalk tiles) (scannedCells 0 y)));
    [done|done|].
  intros y acc w Hy Hacc. rewrite scannedCells_row by lia.
  apply (rng_for_range_invariant
           (λ x acc, map buildingCell acc.1 =
                     List.filter (isSidewalk tiles) (scannedCells x y)));
    [done|done|].
  intros x acc' w' Hx Hacc'.
  rewrite decorateCell_buildings, Hacc', scannedCells_step by lia.
  by rewrite List.filter_app.
Qed.

(** X3.  A generated map has exactly one building per sidewalk tile: read
    row by row, the grid cells of its buildings are the sidewalk cells of
    its grid, in the same order. *)
Theorem generateMap_one_building_per_sidewalk (seed : Z) :
  map buildingCell (GameMap.buildings (generateMap seed)) =
  sidewalkCells (GameMap.tiles (generateMap seed)).
Proof.
  unfold generateMap, seededRandom.
  destruct (terrainPass initialTiles seed) as [t v].
  pose proof (decoratePass_buildings (perimeterPass t) v) as Hb.
  destruct (decoratePass (perimeterPass t) v) as [[bs ts] v']. exact Hb.
Qed.

End DecoratePass.

(** ** Boats *)

Lemma Qltb_ge a b : Qltb a b = false ↔ (b <= a)%Q.
Proof.
  unfold Qltb. rewrite negb_false_iff. apply Qle_bool_iff.
Qed.

Lemma Qfloor_between lo hi q :
  (inject_Z lo <= q)%Q → (q < inject_Z hi)%Q → lo ≤ Qfloor q < hi.
Proof.
  intros Hlo Hhi. split.
  - rewrite <- (Qfloor_Z lo). by apply Qfloor_resp_le.
  - rewrite Zlt_Qlt. eapply Qle_lt_trans; [apply Qfloor_le|done].
Qed.

(** [a % b] for [a >= 0] and [b > 0] lies in [[0, b)]. *)
Lemma Qrem_bounds a b :
  (0 <= a)%Q → (0 < b)%Q → (0 <= Qrem a b)%Q ∧ (Qrem a b < b)%Q.
Proof.
  intros Ha Hb. unfold Qrem.
  assert (Hq : (0 <= a / b)%Q).
  { apply Qle_shift_div_l; [done|]. by rewrite Qmult_0_l. }
  replace (Qltb (a / b) 0) with false
    by (symmetry; by apply Qltb_ge).
  pose proof (Qfloor_le (a / b)) as Hlo.
  pose proof (Qlt_floor (a / b)) as Hhi.
  rewrite inject_Z_plus in Hhi. change (inject_Z 1) with 1%Q in Hhi.
  set (n := inject_Z (Qfloor (a / b))) in *.
  assert (Ha' : (a == a / b * b)%Q).
  { rewrite Qmult_comm, Qmult_div_r; [done|]. intros Hz. rewrite Hz in Hb.
    by apply Qlt_irrefl in Hb. }
  split.
  - assert (b * n <= b * (a / b))%Q by (apply Qmult_le_l; done).
    rewrite Ha' at 1. lra.
  - assert (b * (a / b) < b * (n + 1))%Q by (apply Qmult_lt_l; done).
    rewrite Ha' at 1. lra.
Qed.

(** Linear arithmetic after the divisions by constants are written as
    multiplications. *)
Ltac lra_div :=
  unfold Qdiv in *;
  repeat match goal with
         | |- context [Qinv (Qmake ?n ?d)] =>
             let v := eval vm_compute in (Qinv (Qmake n d)) in
             change (Qinv (Qmake n d)) with v
         | H : context [Qinv (Qmake ?n ?d)] |- _ =>
             let v := eval vm_compute in (Qinv (Qmake n d)) in
             change (Qinv (Qmake n d)) with v in H
         end;
  lra.

Section Boats.
Import QbitCityGameStateManager QbitCityGameLoop.

(** X4.  A boat rides the ring of perimeter tiles: after [updateBoats] has
    moved a boat whose distance along the track is not negative, the tile
    under the boat's centre is a perimeter tile of the grid, which is lava
    on every generated map. *)
Theorem updateBoat_rides_perimeter (deltaTime : Q) (boat : Boat.t) :
  (0 <= Boat.dist boat + 150 * deltaTime)%Q →
  let moved := updateBoat deltaTime boat in
  let gridX := Math_floor (Boat.x moved / inject_Z TILE_SIZE) in
  let gridY := Math_floor (Boat.y moved / inject_Z TILE_SIZE) in
  0 ≤ gridX < MAP_WIDTH ∧ 0 ≤ gridY < MAP_HEIGHT ∧
  onPerimeter gridX gridY = true ∧
  ∀ seed, getTile (GameMap.tiles (generateMap seed)) gridX gridY = Some LAVA.
Proof.
  intros Hdist moved gridX gridY.
  assert (Hgrid : 0 ≤ gridX < MAP_WIDTH ∧ 0 ≤ gridY < MAP_HEIGHT ∧
                  onPerimeter gridX gridY = true).
  { subst moved gridX gridY. unfold updateBoat, Math_floor.
    destruct (Qrem_bounds (Boat.dist boat + 150 * deltaTime)
                (inject_Z ((MAP_WIDTH - 1 + MAP_HEIGHT - 1) * 2 * TILE_SIZE)))
      as [Hlo Hhi]; [done|done|].
    cbv zeta. cbn [Boat.dist Boat.set_dist].
    set (d := Qrem _ _) in *.
    change (inject_Z ((MAP_WIDTH - 1 + MAP_HEIGHT - 1) * 2 * TILE_SIZE)) with 12544%Q in Hhi.
    change (inject_Z ((MAP_WIDTH - 1) * TILE_SIZE)) with 3136%Q.
    change (inject_Z ((MAP_HEIGHT - 1) * TILE_SIZE)) with 3136%Q.
    change (inject_Z TILE_SIZE) with 64%Q.
    clearbody d. unfold onPerimeter, MAP_WIDTH, MAP_HEIGHT.
    destruct (Qltb d 3136) eqn:H1.
    { apply Qltb_lt in H1. cbn [Boat.x Boat.y Boat.set_x Boat.set_y].
      assert (0 ≤ Qfloor ((d + 64 / 2) / 64) < 50)
        by (apply Qfloor_between; change (inject_Z 0) with 0%Q;
            change (inject_Z 50) with 50%Q; lra_div).
      assert (0 ≤ Qfloor ((0 + 64 / 2) / 64) < 1)
        by (apply Qfloor_between; change (inject_Z 0) with 0%Q;
            change (inject_Z 1) with 1%Q; lra_div).
      replace (Qfloor ((0 + 64 / 2) / 64)) with 0 by lia.
      repeat split; lia. }
    apply Qltb_ge in H1.
    destruct (Qltb d (3136 + 3136)) eqn:H2.
    { apply Qltb_lt in H2. cbn [Boat.x Boat.y Boat.set_x Boat.set_y].
      assert (0 ≤ Qfloor ((d - 3136 + 64 / 2) / 64) < 50)
        by (apply Qfloor_between; change (inject_Z 0) with 0%Q;
            change (inject_Z 50) with 50%Q; lra_div).
      assert (49 ≤ Qfloor ((3136 + 64 / 2) / 64) < 50)
        by (apply Qfloor_between; change (inject_Z 49) with 49%Q;
            change (inject_Z 50) with 50%Q; lra_div).
      replace (Qfloor ((3136 + 64 / 2) / 64)) with 49 by lia.
      repeat split; lia. }
    apply Qltb_ge in H2.
    destruct (Qltb d (3136 + 3136 + 3136)) eqn:H3.
    { apply Qltb_lt in H3. cbn [Boat.x Boat.y Boat.set_x Boat.set_y].
      assert (0 ≤ Qfloor ((3136 - (d - (3136 + 3136)) + 64 / 2) / 64) < 50)
        by (apply Qfloor_between; change (inject_Z 0) with 0%Q;
            change (inject_Z 50) with 50%Q; lra_div).
      assert (49 ≤ Qfloor ((3136 + 64 / 2) / 64) < 50)
        by (apply Qfloor_between; change (inject_Z 49) with 49%Q;
            change (inject_Z 50) with 50%Q; lra_div).
      replace (Qfloor ((3136 + 64 / 2) / 64)) with 49 by lia.
      repeat split; lia. }
    apply Qltb_ge in H3. cbn [Boat.x Boat.y Boat.set_x Boat.set_y].
    assert (0 ≤ Qfloor ((3136 - (d - (3136 + 3136 + 3136)) + 64 / 2) / 64) < 50)
      by (apply Qfloor_between; change (inject_Z 0) with 0%Q;
          change (inject_Z 50) with 50%Q; lra_div).
    assert (0 ≤ Qfloor ((0 + 64 / 2) / 64) < 1)
      by (apply Qfloor_between; change (inject_Z 0) with 0%Q;
          change (inject_Z 1) with 1%Q; lra_div).
    replace (Qfloor ((0 + 64 / 2) / 64)) with 0 by lia.
    repeat split; lia. }
  destruct Hgrid as (Hx & Hy & Hp). repeat split; try lia; [done|].
  intros seed. rewrite generateMap_tiles.
  rewrite perimeterPass_spec
    by (done || apply shaped_terrainPass, shaped_initialTiles).
  by rewrite Hp.
Qed.

Lemma updateBoat_rides_perimeter_witness :
  let moved := updateBoat (1 # 20) ferry in
  let gridX := Math_floor (Boat.x moved / inject_Z TILE_SIZE) in
  let gridY := Math_floor (Boat.y moved / inject_Z TILE_SIZE) in
  0 ≤ gridX < MAP_WIDTH ∧ 0 ≤ gridY < MAP_HEIGHT ∧
  onPerimeter gridX gridY = true ∧
  ∀ seed, getTile (GameMap.tiles (generateMap seed)) gridX gridY = Some LAVA.
Proof.
  apply (updateBoat_rides_perimeter (1 # 20) ferry). vm_compute. discriminate.
Defined.

End Boats.

(** ** Spawning players, portals and enemies *)

Section Returns.

Lemma returns_ret {A} (Q : A → Prop) a : Q a → returns Q (ret a).
Proof. intros Ha e. by exists a, e. Qed.

Lemma returns_bind {A B} (P : A → Prop) (Q : B → Prop) (m : M Env A) (f : A → M Env B) :
  returns P m → (∀ a, P a → returns Q (f a)) → returns Q (bind m f).
Proof.
  intros Hm Hf e. destruct (Hm e) as (a & e1 & Hrun & Ha).
  destruct (Hf a Ha e1) as (b & e2 & Hrun2 & Hb).
  exists b, e2. unfold bind. by rewrite Hrun.
Qed.

Lemma returns_weaken {A} (P Q : A → Prop) (m : M Env A) :
  returns P m → (∀ a, P a → Q a) → returns Q m.
Proof.
  intros Hm HPQ e. destruct (Hm e) as (a & e1 & Hrun & Ha). exists a, e1. auto.
Qed.

Lemma returns_Math_random : returns (λ _, True) Math_random.
Proof. intros e. by eexists _, _. Qed.

Lemma returns_Date_now : returns (λ _, True) Date_now.
Proof. intros e. by eexists _, _. Qed.

Lemma returns_randomInterior size : returns (λ _, True) (randomInterior size).
Proof. intros e. by eexists _, _. Qed.

Lemma returns_foldM {A B} (I : A → Prop) (body : A → B → M Env A) a (l : list B) :
  I a → (∀ a b, I a → returns I (body a b)) → returns I (foldM body a l).
Proof.
  intros Ha Hbody. revert a Ha. induction l as [|b l IH]; intros a Ha; simpl.
  - by apply returns_ret.
  - eapply returns_bind; [by apply Hbody|]. intros a' Ha'. by apply IH.
Qed.

End Returns.

Section Spawning.
Import QbitCityGameStateManager QbitCityGameLoop.
Context `{JsHost}.

Lemma returns_findPlayerSpawn attempts map :
  returns (λ spawn, onRoadTile map spawn.1 spawn.2 ∨ spawn = (0%Q, 0%Q))
          (findPlayerSpawn attempts map).
Proof.
  induction attempts as [|n IH]; cbn [findPlayerSpawn].
  - apply returns_ret. by right.
  - eapply returns_bind; [apply returns_randomInterior|]. intros x _.
    eapply returns_bind; [apply returns_randomInterior|]. intros y _.
    case_bool_decide as Hroad; [|done].
    apply returns_ret. left. by exists x, y.
Qed.

(** X5.  [initializePlayers] always returns, with one player per member of
    the room, in the members' order and under their ids and names; every
    player starts with the counters of [newPlayer], at the centre of a road
    tile or, when a hundred rounds found none, at the corner (0, 0). *)
Theorem initializePlayers_roster (room : Room.t) (map : GameMap.t) (e : Env) :
  ∃ players e',
    initializePlayers room map e = Normal players e' ∧
    List.map (λ p, (Player.id p, Player.name p)) players = Room.players room ∧
    Forall (λ p, p = newPlayer (Player.id p) (Player.name p) (Player.x p, Player.y p) ∧
                 (onRoadTile map (Player.x p) (Player.y p) ∨
                  (Player.x p, Player.y p) = (0%Q, 0%Q))) players.
Proof.
  unfold initializePlayers.
  set (good := λ p : Player.t,
         p = newPlayer (Player.id p) (Player.name p) (Player.x p, Player.y p) ∧
         (onRoadTile map (Player.x p) (Player.y p) ∨
          (Player.x p, Player.y p) = (0%Q, 0%Q))).
  assert (Hgen : ∀ members done,
    returns (λ players,
               List.map (λ p, (Player.id p, Player.name p)) players =
                 List.map (λ p, (Player.id p, Player.name p)) done ++ members ∧
               (Forall good done → Forall good players))
      (foldM (λ players roomPlayer,
                bind (findPlayerSpawn 100 map) (λ spawn,
                  ret (players ++ [newPlayer roomPlayer.1 roomPlayer.2 spawn])))
             done members)).
  { induction members as [|[id name] members IH]; intros done; cbn [foldM].
    - apply returns_ret. by rewrite app_nil_r.
    - apply (returns_bind (λ players, ∃ spawn,
                 players = done ++ [newPlayer id name spawn] ∧
                 (onRoadTile map spawn.1 spawn.2 ∨ spawn = (0%Q, 0%Q)))).
      { eapply returns_bind; [apply returns_findPlayerSpawn|]. intros spawn Hspawn.
        apply returns_ret. by exists spawn. }
      intros players' (spawn & -> & Hspawn). cbn [fst snd] in *.
      eapply returns_weaken; [apply IH|]. intros players [Hids Hgood]. split.
      + rewrite Hids, map_app. cbn. by rewrite <- app_assoc.
      + intros Hdone. apply Hgood. apply Forall_app. split; [done|].
        apply Forall_singleton. destruct spawn as [sx sy]. split; [done|].
        cbn in *. done. }
  destruct (Hgen (Room.players room) [] e) as (players & e' & Hrun & Hids & Hgood).
  exists players, e'. split; [done|]. split; [done|]. by apply Hgood.
Qed.

Lemma returns_findEnemySpawn attempts map avoidX avoidY minDist :
  returns (λ found, match found with
                    | Some (ex, ey) =>
                        onRoadTile map ex ey ∧
                        (minDist < Math_hypot (ex - avoidX) (ey - avoidY))%Q
                    | None => True
                    end)
          (findEnemySpawn attempts map avoidX avoidY minDist).
Proof.
  induction attempts as [|n IH]; cbn [findEnemySpawn].
  - by apply returns_ret.
  - eapply returns_bind; [apply returns_randomInterior|]. intros rx _.
    eapply returns_bind; [apply returns_randomInterior|]. intros ry _.
    case_bool_decide as Hroad; [|done]. cbv zeta.
    destruct (Qltb minDist _) eqn:Hfar; [|done].
    apply returns_ret. destruct (tileCentre rx ry) as [cx cy] eqn:Hc.
    cbn [fst snd] in *. split; [exists rx, ry; by rewrite Hc|].
    by apply Qltb_lt.
Qed.

(** X6.  [spawnEnemy] always returns; the enemy it returns, if any, stands
    at the centre of a road tile, farther than [minDist] from the point to
    avoid, is 24 by 24, and has an empty trail and no flank. *)
Theorem spawnEnemy_keeps_distance (map : GameMap.t) (avoidX avoidY minDist : Q) (e : Env) :
  ∃ found e',
    spawnEnemy map avoidX avoidY minDist e = Normal found e' ∧
    match found with
    | Some enemy =>
        onRoadTile map (Enemy.x enemy) (Enemy.y enemy) ∧
        (minDist < Math_hypot (Enemy.x enemy - avoidX) (Enemy.y enemy - avoidY))%Q ∧
        Enemy.width enemy = 24%Q ∧ Enemy.height enemy = 24%Q ∧
        Enemy.trail enemy = [] ∧ Enemy.flankTimer enemy = 0%Q ∧
        Enemy.stuckTime enemy = 0%Q
    | None => True
    end.
Proof.
  unfold spawnEnemy.
  destruct (returns_findEnemySpawn 100 map avoidX avoidY minDist e)
    as (found & e1 & Hrun & Hfound).
  unfold bind at 1. rewrite Hrun.
  destruct found as [[ex ey]|]; [|by eexists None, e1].
  destruct Hfound as [Hroad Hfar].
  eexists _, _. split; [reflexivity|]. cbn. done.
Qed.

End Spawning.

Section PortalGeneration.
Import QbitCityGameStateManager QbitCityGameLoop.

Lemma randomInterior_run size e :
  randomInterior size e =
  Normal (Math_floor (random_draws e (random_next e) * inject_Z (size - 2)) + 1)
         (afterDraws 1 e).
Proof. reflexivity. Qed.

(** A round of a search loop draws the tile [drawnTile e 0] and leaves the
    environment two draws further. *)
Lemma drawTile_run {A} (k : Z → Z → M Env A) e :
  bind (randomInterior MAP_WIDTH) (λ x, bind (randomInterior MAP_HEIGHT) (λ y, k x y)) e =
  k (drawnTile e 0).1 (drawnTile e 0).2 (afterDraws 2 e).
Proof. reflexivity. Qed.

Lemma drawnTile_afterDraws e k : drawnTile (afterDraws 2 e) k = drawnTile e (S k).
Proof.
  unfold drawnTile, afterDraws. cbn [random_draws random_next].
  replace (2 * k + (2 + random_next e))%nat with (2 * S k + random_next e)%nat by lia.
  done.
Qed.

Lemma roadHits_S map e n :
  length (roadHits map e (S n)) =
  ((if isRoad map (drawnTile e 0) then 1 else 0) +
   length (roadHits map (afterDraws 2 e) n))%nat.
Proof.
  unfold roadHits. rewrite <- cons_seq. cbn [List.filter].
  assert (Hshift : ∀ m, length (List.filter (λ k, isRoad map (drawnTile e k)) (seq (S m) n)) =
            length (List.filter (λ k, isRoad map (drawnTile (afterDraws 2 e) k)) (seq m n))).
  { revert e. induction n as [|n IH]; intros e m; [done|].
    cbn [seq List.filter]. rewrite drawnTile_afterDraws.
    destruct (isRoad map (drawnTile e (S m))); cbn [length]; by rewrite IH. }
  destruct (isRoad map (drawnTile e 0)); cbn [length]; by rewrite Hshift.
Qed.

Lemma mapPortals_snoc map portals gx gy :
  mapPortals map portals →
  getTile (GameMap.tiles map) gx gy = Some ROAD →
  mapPortals map
    (portals ++ [{| Portal.id := MapPortal (Z.of_nat (length portals));
                    Portal.x := (tileCentre gx gy).1;
                    Portal.y := (tileCentre gx gy).2;
                    Portal.color := portalColor (Z.of_nat (length portals));
                    Portal.angle := 0;
                    Portal.life := None |}]).
Proof.
  intros Hp Hroad i p Hi.
  apply lookup_app_Some in Hi as [Hi|[Hlen Hi]]; [by apply Hp|].
  apply list_lookup_singleton_Some in Hi as [Hi <-].
  cbn [Portal.id Portal.life Portal.angle Portal.x Portal.y].
  replace i with (length portals) by lia.
  repeat split; try done. exists gx, gy. split; [done|]. by destruct (tileCentre gx gy).
Qed.

Lemma generatePortalsFrom_hits fuel map portals e :
  (4 - length portals ≤ length (roadHits map e fuel))%nat →
  mapPortals map portals →
  ∃ result e',
    generatePortalsFrom fuel map portals e = Normal result e' ∧
    (length portals ≤ 4 → length result = 4)%nat ∧ mapPortals map result.
Proof.
  revert portals e. induction fuel as [|fuel IH]; intros portals e Hhits Hp.
  - cbn [generatePortalsFrom]. case_match eqn:Hfour.
    + exists portals, e. split; [done|]. split; [|done]. apply Z.leb_le in Hfour. lia.
    + apply Z.leb_gt in Hfour. cbn in Hhits. lia.
  - cbn [generatePortalsFrom]. case_match eqn:Hfour.
    + exists portals, e. split; [done|]. split; [|done]. apply Z.leb_le in Hfour. lia.
    + apply Z.leb_gt in Hfour. rewrite drawTile_run.
      rewrite roadHits_S in Hhits. unfold isRoad in Hhits.
      case_bool_decide as Hroad.
      * destruct (IH (portals ++ [{| Portal.id := MapPortal (Z.of_nat (length portals));
                    Portal.x := (tileCentre (drawnTile e 0).1 (drawnTile e 0).2).1;
                    Portal.y := (tileCentre (drawnTile e 0).1 (drawnTile e 0).2).2;
                    Portal.color := portalColor (Z.of_nat (length portals));
                    Portal.angle := 0;
                    Portal.life := None |}]) (afterDraws 2 e))
          as (result & e' & Hrun & Hlen & Hres).
        { rewrite length_app. cbn [length]. lia. }
        { by apply mapPortals_snoc. }
        exists result, e'. split; [done|]. split; [|done].
        intros _. apply Hlen. rewrite length_app. cbn [length]. lia.
      * destruct (IH portals (afterDraws 2 e)) as (result & e' & Hrun & Hlen & Hres);
          [lia|done|].
        by exists result, e'.
Qed.

(** X7.  [generatePortals] returns as soon as four of the tiles it draws
    are road: when at least four of the first [fuel] rounds hit a road
    tile, it returns exactly four portals, named [portal_0] to [portal_3]
    in order, that never expire and stand each at the centre of a road
    tile. *)
Theorem generatePortals_four_on_road (fuel : nat) (map : GameMap.t) (e : Env) :
  (4 ≤ length (roadHits map e fuel))%nat →
  ∃ portals e',
    generatePortals fuel map e = Normal portals e' ∧
    length portals = 4%nat ∧ mapPortals map portals.
Proof.
  intros Hhits. unfold generatePortals.
  destruct (generatePortalsFrom_hits fuel map [] e) as (result & e' & Hrun & Hlen & Hres).
  - cbn [length]. lia.
  - intros i p Hi. by rewrite lookup_nil in Hi.
  - exists result, e'. split; [done|]. split; [|done]. apply Hlen. cbn. lia.
Qed.

Lemma generatePortals_four_on_road_witness :
  ∃ portals e',
    generatePortals 4 (generateMap 42) (constantEnv (1 # 16) 0) = Normal portals e' ∧
    length portals = 4%nat ∧ mapPortals (generateMap 42) portals.
Proof.
  apply generatePortals_four_on_road. apply Nat.leb_le. vm_compute. reflexivity.
Defined.

(** X8.  On a map without a road tile [generatePortals] never returns:
    whatever the draws and however many rounds it is given, its loop is
    still running. *)
Theorem generatePortals_needs_a_road (fuel : nat) (map : GameMap.t) (e : Env) :
  (∀ x y, getTile (GameMap.tiles map) x y ≠ Some ROAD) →
  generatePortals fuel map e = Diverged.
Proof.
  intros Hnone. unfold generatePortals. revert e.
  induction fuel as [|fuel IH]; intros e; [done|].
  cbn [generatePortalsFrom length]. change (4 <=? Z.of_nat 0) with false. cbv iota.
  rewrite drawTile_run. case_bool_decide as Hroad; [by apply Hnone in Hroad|].
  apply IH.
Qed.

Lemma generatePortals_needs_a_road_witness :
  generatePortals 1000 pavedMap (lcgEnv 7 0) = Diverged.
Proof.
  apply generatePortals_needs_a_road. intros x y Hroad.
  assert (Hs : is_Some (getTile initialTiles x y)) by (cbn in Hroad; by rewrite Hroad).
  assert (Hall : ∀ x y v, getTile initialTiles x y = Some v → v = SIDEWALK).
  { clear. intros x y v. unfold getTile.
    destruct ((0 <=? y) && (0 <=? x)); [|done].
    destruct (initialTiles !! Z.to_nat y) as [row|] eqn:Hrow; [|done].
    intros Hv.
    assert (Hrows : Forall (Forall (λ v, v = SIDEWALK)) initialTiles).
    { eapply bool_decide_unpack. vm_compute. exact I. }
    rewrite Forall_forall in Hrows.
    specialize (Hrows row ltac:(by eapply list_elem_of_lookup_2)).
    rewrite Forall_forall in Hrows. apply Hrows. by eapply list_elem_of_lookup_2. }
  apply Hall in Hroad. discriminate.
Defined.

End PortalGeneration.

(** ** What every pass of a tick keeps *)

Section PassShapes.
Import QbitCityGameStateManager QbitCityGameLoop.
Context `{JsHost}.

Lemma processPlayers_stepped gameState deltaTime now players done inputBuffers :
  ∃ rest,
    (foldl (λ '(done, buffers) player,
              let '(player', buffers') :=
                processPlayer gameState deltaTime now player buffers in
              (done ++ [player'], buffers'))
           (done, inputBuffers) players).1 = done ++ rest ∧
    Forall2 (stepped gameState deltaTime) players rest.
Proof.
  revert done inputBuffers.
  induction players as [|q players IH]; intros done inputBuffers; simpl.
  - exists []. by rewrite app_nil_r.
  - pose proof (processPlayer_cases gameState deltaTime now q inputBuffers) as Hq.
    destruct (processPlayer gameState deltaTime now q inputBuffers) as [q' buffers'].
    destruct (IH (done ++ [q']) buffers') as (rest & Heq & Hrest).
    exists (q' :: rest). rewrite Heq, <- app_assoc. split; [done|].
    constructor; [|done]. cbn [fst] in Hq.
    destruct Hq as [->|(input & _ & _ & ->)]; [by left|right; by exists input].
Qed.

Lemma chased_refl en : chased en en.
Proof. unfold chased. repeat split; try done. by left. Qed.

(** The blocks of [updateEnemy] before the trail is pushed write the
    position, the timers and the flank direction only. *)
Lemma updateEnemy_chased gameState deltaTime enemy :
  yields (chased enemy) (updateEnemy gameState deltaTime enemy).
Proof.
  unfold updateEnemy.
  destruct (nearestPlayer enemy (GameState.players gameState)) as [target|];
    [|apply yields_ret, chased_refl].
  set (same := λ en : Enemy.t,
         Enemy.id en = Enemy.id enemy ∧ Enemy.width en = Enemy.width enemy ∧
         Enemy.height en = Enemy.height enemy ∧ Enemy.speed en = Enemy.speed enemy ∧
         Enemy.trail en = Enemy.trail enemy).
  assert (Hpush : ∀ en, same en →
    chased enemy (Enemy.set_trail (pushTrail (Enemy.trail en) (Enemy.x en, Enemy.y en)) en)).
  { intros en (Hid & Hw & Hh & Hs & Ht). unfold chased. cbn. rewrite Ht.
    repeat split; try done. right. by eexists. }
  destruct (if Qltb 0 (Enemy.flankTimer enemy) then _ else _) as [[en1 moveX] moveY] eqn:H1.
  assert (Hen1 : same en1).
  { unfold same. repeat case_match; simplify_eq; cbn; done. }
  clear H1.
  destruct (if negb (checkCollision (Enemy.x en1 + moveX) _ _ _ _ _) then _ else _)
    as [en2 actualX] eqn:H2.
  assert (Hen2 : same en2).
  { destruct Hen1 as (? & ? & ? & ? & ?).
    unfold same. repeat case_match; simplify_eq; cbn; done. }
  clear H2.
  destruct (if negb (checkCollision _ (Enemy.y en2 + moveY) _ _ _ _) then _ else _)
    as [en3 actualY] eqn:H3.
  assert (Hen3 : same en3).
  { destruct Hen2 as (? & ? & ? & ? & ?).
    unfold same. repeat case_match; simplify_eq; cbn; done. }
  clear H3.
  apply (yields_bind same); [|intros en Hen; apply yields_ret; by apply Hpush].
  destruct Hen3 as (? & ? & ? & ? & ?).
  repeat first
    [ apply yields_ret; unfold same; cbn; done
    | apply yields_after; intros ?
    | case_match ].
Qed.

Lemma updateEnemies_chased gameState deltaTime enemies done :
  yields (λ result, ∃ rest, result = done ++ rest ∧ Forall2 chased enemies rest)
    (foldM (λ done enemy,
              bind (updateEnemy gameState deltaTime enemy) (λ enemy',
                ret (done ++ [enemy'])))
           done enemies).
Proof.
  revert done. induction enemies as [|enemy enemies IH]; intros done; cbn [foldM].
  - apply yields_ret. exists []. by rewrite app_nil_r.
  - apply (yields_bind (λ done', ∃ enemy', done' = done ++ [enemy'] ∧ chased enemy enemy')).
    + apply (yields_bind (chased enemy)); [apply updateEnemy_chased|].
      intros enemy' Hc. apply yields_ret. by exists enemy'.
    + intros done' (enemy' & -> & Hc). intros e. specialize (IH (done ++ [enemy']) e).
      destruct (foldM _ _ _ e) as [result e'| |]; [|done|done].
      destruct IH as (rest & -> & Hrest).
      exists (enemy' :: rest). rewrite <- app_assoc. split; [done|]. by constructor.
Qed.

(** *** Spawning *)

Lemma spawned_refl gs : spawned gs gs.
Proof.
  unfold spawned. repeat split; try done. exists []. by rewrite app_nil_r.
Qed.

Lemma spawned_trans gs1 gs2 gs3 : spawned gs1 gs2 → spawned gs2 gs3 → spawned gs1 gs3.
Proof.
  unfold spawned.
  intros (? & ? & ? & ? & ? & ? & ? & ? & ? & new1 & Hn1 & Hf1)
         (? & ? & ? & ? & ? & ? & ? & ? & ? & new2 & Hn2 & Hf2).
  repeat split; try congruence.
  exists (new1 ++ new2). rewrite Hn2, Hn1, <- app_assoc. split; [done|].
  by apply Forall_app.
Qed.

(** A write to a field of the collectibles, their timers or their
    flags. *)
Lemma spawned_write gs0 gs gs' :
  spawned gs0 gs →
  GameState.roomCode gs' = GameState.roomCode gs →
  GameState.map gs' = GameState.map gs →
  GameState.players gs' = GameState.players gs →
  GameState.enemies gs' = GameState.enemies gs →
  GameState.boats gs' = GameState.boats gs →
  GameState.deployedSinks gs' = GameState.deployedSinks gs →
  GameState.portals gs' = GameState.portals gs →
  GameState.gameTime gs' = GameState.gameTime gs →
  GameState.speedBoostApplied gs' = GameState.speedBoostApplied gs →
  GameState.mapSeed gs' = GameState.mapSeed gs →
  spawned gs0 gs'.
Proof.
  intros Hs ? ? ? He ? ? ? ? ? ?. eapply spawned_trans; [exact Hs|].
  unfold spawned. repeat split; try done. exists []. by rewrite app_nil_r.
Qed.

Ltac spawned_write := eapply spawned_write; [eassumption|reflexivity..].

Lemma spawned_spawnCoinAttempts gs0 attempts gs :
  spawned gs0 gs → yields (spawned gs0) (spawnCoinAttempts attempts gs).
Proof.
  intros Hgs. induction attempts as [|n IH]; cbn [spawnCoinAttempts];
    [by apply yields_ret|].
  apply yields_after. intros rx. apply yields_after. intros ry.
  case_bool_decide; [|done].
  destruct (tileCentre _ _) as [cx cy].
  case_match; [|done].
  apply yields_after. intros id. apply yields_after. intros t.
  apply yields_ret. spawned_write.
Qed.

Lemma spawned_spawnCoin gs0 gs : spawned gs0 gs → yields (spawned gs0) (spawnCoin gs).
Proof.
  intros Hgs. unfold spawnCoin.
  case_match; [by apply yields_ret | by apply spawned_spawnCoinAttempts].
Qed.

Lemma spawned_repeatSpawn gs0 n step gs :
  (∀ gs, spawned gs0 gs → yields (spawned gs0) (step gs)) →
  spawned gs0 gs → yields (spawned gs0) (repeatSpawn n step gs).
Proof.
  intros Hstep Hgs. unfold repeatSpawn. apply yields_foldM; [done|].
  intros gs1 _ Hgs1. by apply Hstep.
Qed.

Lemma spawned_handleCoinSpawning gs0 gs deltaTime :
  spawned gs0 gs → yields (spawned gs0) (handleCoinSpawning gs deltaTime).
Proof.
  intros Hgs. unfold handleCoinSpawning.
  apply (yields_bind (spawned gs0)).
  - case_match; [|by apply yields_ret].
    apply spawned_repeatSpawn; [intros; by apply spawned_spawnCoin|]. spawned_write.
  - intros gs1 Hgs1. cbv zeta. case_match; [|apply yields_ret; spawned_write].
    apply yields_after. intros r. apply yields_after. intros r'.
    apply spawned_repeatSpawn; [intros; by apply spawned_spawnCoin|]. spawned_write.
Qed.

Lemma spawned_spawnImmunityPickupAttempts gs0 attempts minX maxX minY maxY quadrant gs :
  spawned gs0 gs →
  yields (spawned gs0)
    (spawnImmunityPickupAttempts attempts minX maxX minY maxY quadrant gs).
Proof.
  intros Hgs. induction attempts as [|n IH]; cbn [spawnImmunityPickupAttempts];
    [by apply yields_ret|].
  apply yields_after. intros r1. cbv zeta. apply yields_after. intros r2.
  case_bool_decide; [|done].
  destruct (tileCentre _ _) as [cx cy].
  apply yields_after. intros id. apply yields_after. intros t.
  apply yields_ret. spawned_write.
Qed.

Lemma spawned_spawnImmunityPickup gs0 gs quadrant :
  spawned gs0 gs → yields (spawned gs0) (spawnImmunityPickup gs quadrant).
Proof.
  intros Hgs. unfold spawnImmunityPickup.
  repeat case_match; by apply spawned_spawnImmunityPickupAttempts.
Qed.

Lemma spawned_spawnSinkAttempts gs0 attempts gs :
  spawned gs0 gs → yields (spawned gs0) (spawnSinkAttempts attempts gs).
Proof.
  intros Hgs. induction attempts as [|n IH]; cbn [spawnSinkAttempts];
    [by apply yields_ret|].
  apply yields_after. intros rx. apply yields_after. intros ry.
  case_bool_decide; [|done].
  destruct (tileCentre _ _) as [cx cy].
  case_match; [|done].
  apply yields_after. intros id. apply yields_after. intros t.
  apply yields_ret. spawned_write.
Qed.

Lemma spawned_spawnSinkCollectible gs0 gs :
  spawned gs0 gs → yields (spawned gs0) (spawnSinkCollectible gs).
Proof.
  intros Hgs. unfold spawnSinkCollectible.
  case_match; [by apply yields_ret | by apply spawned_spawnSinkAttempts].
Qed.

Lemma spawned_handleCollectibleSpawning gs0 gs deltaTime :
  spawned gs0 gs → yields (spawned gs0) (handleCollectibleSpawning gs deltaTime).
Proof.
  intros Hgs. unfold handleCollectibleSpawning.
  case_match; [|by apply yields_ret].
  apply (yields_bind (spawned gs0)).
  { case_match; [|by apply yields_ret].
    apply (yields_bind (spawned gs0)).
    - apply yields_foldM; [spawned_write|]. intros gs1 q Hgs1.
      by apply spawned_spawnImmunityPickup.
    - intros gs1 Hgs1. by apply spawned_spawnSinkCollectible. }
  intros gs1 Hgs1. cbv zeta.
  apply (yields_bind (spawned gs0)).
  { case_match; [|apply yields_ret; spawned_write].
    apply yields_after. intros r.
    apply yields_foldM; [spawned_write|]. intros gs2 q Hgs2.
    case_match; [by apply spawned_spawnImmunityPickup | by apply yields_ret]. }
  intros gs2 Hgs2.
  case_match; [|apply yields_ret; spawned_write].
  apply yields_after. intros r. apply spawned_spawnSinkCollectible. spawned_write.
Qed.

Lemma yields_findEnemySpawn_any attempts map avoidX avoidY minDist :
  yields (λ _, True) (findEnemySpawn attempts map avoidX avoidY minDist).
Proof. apply yields_True. Qed.

Lemma spawnEnemy_fresh map avoidX avoidY minDist :
  yields (λ found, match found with
                   | Some en => Enemy.trail en = [] ∧ Enemy.width en = 24%Q ∧
                                Enemy.height en = 24%Q
                   | None => True
                   end)
    (spawnEnemy map avoidX avoidY minDist).
Proof.
  unfold spawnEnemy. apply yields_after. intros [[ex ey]|]; [|by apply yields_ret].
  apply yields_after. intros now. apply yields_after. intros r.
  apply yields_after. intros s. by apply yields_ret.
Qed.

Lemma spawned_handleEnemySpawning gs0 gs deltaTime :
  spawned gs0 gs → yields (spawned gs0) (handleEnemySpawning gs deltaTime).
Proof.
  intros Hgs. unfold handleEnemySpawning. cbv zeta.
  case_match; [|apply yields_ret; spawned_write].
  apply yields_foldM; [spawned_write|]. intros gs1 _ Hgs1.
  eapply yields_bind; [apply spawnEnemy_fresh|].
  intros [enemy|] Hfresh; [|by apply yields_ret].
  apply yields_ret. eapply spawned_trans; [exact Hgs1|].
  unfold spawned. repeat split; try done.
  eexists [_]. split; [reflexivity|]. apply Forall_singleton.
  destruct Hfresh as (? & ? & ?). by case_match.
Qed.

Lemma otherPortals_elem_of portals k n dest :
  otherPortals portals k !! n = Some dest → dest ∈ portals.
Proof.
  unfold otherPortals. intros Hn.
  apply list_elem_of_lookup_2 in Hn.
  apply list_elem_of_fmap in Hn as ([idx p] & -> & Hin).
  apply list_elem_of_In, filter_In in Hin as [Hin _].
  apply list_elem_of_In, elem_of_lookup_imap in Hin as (i & p' & [= -> ->] & Hi).
  by eapply list_elem_of_lookup_2.
Qed.

End PassShapes.

(** *** From the passes to the tick

    A relation between the room state before and after that every write of
    the passes respects is respected by the passes of a tick, whether they
    return or throw. *)

Section TickInvariant.
Import QbitCityGameStateManager QbitCityGameLoop.
Context `{JsHost}.
Variable io : IO.
Variable deltaTime : Q.
Variable G : GameState.t → GameState.t → Prop.
Hypothesis G_refl : ∀ gs, G gs gs.
Hypothesis G_trans : ∀ gs1 gs2 gs3, G gs1 gs2 → G gs2 gs3 → G gs1 gs3.
Hypothesis G_inputs : ∀ gs players',
  Forall2 (stepped gs deltaTime) (GameState.players gs) players' →
  G gs (GameState.set_players players' gs).
Hypothesis G_boats : guarantees G (updateBoats deltaTime).
Hypothesis G_enemies : ∀ gs enemies',
  Forall2 chased (GameState.enemies gs) enemies' →
  G gs (GameState.set_enemies enemies' gs).
Hypothesis G_boost : ∀ gs, G gs (applySpeedBoost gs).
Hypothesis G_spawned : ∀ gs gs', spawned gs gs' → G gs gs'.
Hypothesis G_collectibles : guarantees G (updateCollectibles deltaTime).
Hypothesis G_portals : guarantees G (updatePortals deltaTime).
Hypothesis G_relocate : ∀ gs j enemy x y,
  GameState.enemies gs !! j = Some enemy →
  G gs (GameState.set_enemies
          (<[j := Enemy.set_trail [] (Enemy.set_y y (Enemy.set_x x enemy))]>
             (GameState.enemies gs)) gs).
Hypothesis G_pickups : ∀ i, guarantees G (collectPickups i).
Hypothesis G_teleport : ∀ gs i player dest,
  GameState.players gs !! i = Some player → dest ∈ GameState.portals gs →
  G gs (GameState.set_players
          (<[i := Player.set_trail []
                    (Player.set_portalCooldown 2
                       (Player.set_y (Portal.y dest)
                          (Player.set_x (Portal.x dest) player)))]>
             (GameState.players gs)) gs).
Hypothesis G_sink : ∀ gs k,
  G gs (GameState.set_deployedSinks (delete k (GameState.deployedSinks gs)) gs).

Lemma kept_processPlayerInputs currentTime :
  guarantees G (processPlayerInputs deltaTime currentTime).
Proof.
  intros s. unfold processPlayerInputs, modify, processPlayers.
  destruct (processPlayers_stepped (Sim.state s) deltaTime currentTime
              (GameState.players (Sim.state s)) [] (Sim.inputBuffers s))
    as (rest & Heq & Hrest).
  destruct (foldl _ _ _) as [players buffers]. cbn [fst] in Heq. subst players.
  cbn. by apply G_inputs.
Qed.

Lemma kept_updateEnemies : guarantees G (updateEnemies deltaTime).
Proof.
  intros s. unfold updateEnemies, bind, getState, gets, liftEnv, modifyState, modify.
  pose proof (updateEnemies_chased (Sim.state s) deltaTime
                (GameState.enemies (Sim.state s)) [] (env_of s)) as Hrun.
  destruct (foldM _ _ _ (env_of s)) as [enemies e'|x e'|]; [|apply G_refl|done].
  destruct Hrun as (rest & -> & Hrest). cbn. by apply G_enemies.
Qed.

Lemma kept_handleSpawning : guarantees G (handleSpawning deltaTime).
Proof.
  intros s. unfold handleSpawning, bind, getState, gets, liftEnv, modifyState, modify.
  set (gs0 := applySpeedBoost (Sim.state s)).
  pose proof (spawned_handleCoinSpawning gs0 gs0 deltaTime (spawned_refl gs0) (env_of s))
    as H1.
  destruct (handleCoinSpawning gs0 deltaTime (env_of s)) as [gs1 e1|x e1|];
    [|apply G_refl|done].
  cbn [env_of with_env Sim_HasEnv Sim.env Sim.set_env Sim.state].
  pose proof (spawned_handleCollectibleSpawning gs0 gs1 deltaTime H1 e1) as H2.
  destruct (handleCollectibleSpawning gs1 deltaTime e1) as [gs2 e2|x e2|];
    [|apply G_refl|done].
  cbn [env_of with_env Sim_HasEnv Sim.env Sim.set_env Sim.state].
  pose proof (spawned_handleEnemySpawning gs0 gs2 deltaTime H2 e2) as H3.
  destruct (handleEnemySpawning gs2 deltaTime e2) as [gs3 e3|x e3|];
    [|apply G_refl|done].
  cbn [Sim.state Sim.set_state].
  eapply G_trans; [apply G_boost|]. by apply G_spawned.
Qed.

Lemma kept_enemyContact player j : guarantees G (enemyContact io player j).
Proof.
  intros s. unfold enemyContact, bind, getState, gets.
  destruct (GameState.enemies (Sim.state s) !! j) as [enemy|] eqn:Hj; [|apply G_refl].
  cbv zeta. destruct (Qltb _ _); [|apply G_refl].
  destruct (negb (Player.immunityActive player)).
  { unfold liftEnv. destruct (emit io _ _ _); cbn; auto. }
  unfold liftEnv at 1.
  destruct (spawnEnemy _ _ _ _ (env_of s)) as [[newPos|] e1|x e1|]; cbn;
    [|apply G_refl|apply G_refl|done].
  by apply G_relocate.
Qed.

Lemma kept_portalContact i k : guarantees G (portalContact i k).
Proof.
  intros s. unfold portalContact, bind, getState, gets.
  destruct (GameState.players (Sim.state s) !! i) as [player|] eqn:Hi; [|apply G_refl].
  destruct (GameState.portals (Sim.state s) !! k) as [portal|] eqn:Hk; [|apply G_refl].
  cbv zeta. destruct (Qltb _ _); [|apply G_refl].
  destruct (0 <? _); [|apply G_refl].
  unfold liftEnv, Math_random. cbn [env_of with_env Sim_HasEnv Sim.env Sim.set_env].
  destruct (if 0 <=? _ then _ else None) as [dest|] eqn:Hdest; [|apply G_refl].
  cbn. apply G_teleport; [done|].
  destruct (0 <=? _); [|done]. by eapply otherPortals_elem_of.
Qed.

Lemma kept_sinkContact i j k : guarantees G (sinkContact i j k).
Proof.
  intros s. unfold sinkContact, bind, getState, gets.
  destruct (GameState.players (Sim.state s) !! i) as [player|] eqn:Hi; [|apply G_refl].
  destruct (GameState.enemies (Sim.state s) !! j) as [enemy|] eqn:Hj; [|apply G_refl].
  destruct (GameState.deployedSinks (Sim.state s) !! k) as [sink|] eqn:Hk; [|apply G_refl].
  cbv zeta. destruct (Qltb _ _); [|apply G_refl].
  unfold modifyState at 1, modify. unfold liftEnv at 1.
  cbn [env_of with_env Sim_HasEnv Sim.env Sim.set_env Sim.set_state Sim.state].
  destruct (spawnEnemy _ _ _ _ (Sim.env s)) as [[newPos|] e1|x e1|]; cbn;
    [|apply G_sink|apply G_sink|done].
  eapply G_trans; [apply G_sink|].
  by apply (G_relocate (GameState.set_deployedSinks _ (Sim.state s))).
Qed.

Lemma kept_checkContacts i player : guarantees G (checkContacts io i player).
Proof.
  unfold checkContacts.
  apply guarantees_bind; [exact G_trans|by apply guarantees_getState|]. intros gs1.
  apply guarantees_bind; [exact G_trans| |intros _].
  { apply guarantees_forEach; [exact G_refl|exact G_trans|].
    intros j. apply kept_enemyContact. }
  apply guarantees_bind; [exact G_trans|apply G_pickups|intros _].
  apply guarantees_bind; [exact G_trans|by apply guarantees_getState|]. intros gs2.
  apply guarantees_bind; [exact G_trans| |intros _].
  { case_match; [|by apply guarantees_ret].
    apply guarantees_forEach; [exact G_refl|exact G_trans|].
    intros k. apply kept_portalContact. }
  apply guarantees_bind; [exact G_trans|by apply guarantees_getState|]. intros gs3.
  apply guarantees_forEach; [exact G_refl|exact G_trans|]. intros j.
  apply guarantees_bind; [exact G_trans|by apply guarantees_getState|]. intros gs4.
  apply guarantees_forEach; [exact G_refl|exact G_trans|]. intros k.
  apply kept_sinkContact.
Qed.

Lemma kept_checkCollisions : guarantees G (checkCollisions io).
Proof.
  unfold checkCollisions.
  apply guarantees_bind; [exact G_trans|by apply guarantees_getState|]. intros gs.
  apply guarantees_forEach; [exact G_refl|exact G_trans|]. intros i.
  unfold checkPlayerCollisions.
  apply guarantees_bind; [exact G_trans|by apply guarantees_getState|]. intros gs'.
  destruct (GameState.players gs' !! i) as [player|]; [|by apply guarantees_ret].
  case_bool_decide; [|apply kept_checkContacts].
  case_match; [by apply guarantees_liftEnv|apply kept_checkContacts].
Qed.

Lemma kept_broadcastGameState roomCode : guarantees G (broadcastGameState io roomCode).
Proof.
  unfold broadcastGameState.
  apply guarantees_bind; [exact G_trans|by apply guarantees_getState|]. intros gs.
  apply guarantees_bind; [exact G_trans|by apply guarantees_liftEnv|]. intros now.
  by apply guarantees_liftEnv.
Qed.

(** The passes that follow the advance of the clock. *)
Lemma kept_after_clock roomCode currentTime :
  guarantees G
    (bind (processPlayerInputs deltaTime currentTime) (λ _,
     bind (updateBoats deltaTime) (λ _,
     bind (updateEnemies deltaTime) (λ _,
     bind (handleSpawning deltaTime) (λ _,
     bind (updateCollectibles deltaTime) (λ _,
     bind (updatePortals deltaTime) (λ _,
     bind (checkCollisions io) (λ _,
     broadcastGameState io roomCode)))))))).
Proof.
  apply guarantees_bind; [exact G_trans|apply kept_processPlayerInputs|intros _].
  apply guarantees_bind; [exact G_trans|apply G_boats|intros _].
  apply guarantees_bind; [exact G_trans|apply kept_updateEnemies|intros _].
  apply guarantees_bind; [exact G_trans|apply kept_handleSpawning|intros _].
  apply guarantees_bind; [exact G_trans|apply G_collectibles|intros _].
  apply guarantees_bind; [exact G_trans|apply G_portals|intros _].
  apply guarantees_bind; [exact G_trans|apply kept_checkCollisions|intros _].
  apply kept_broadcastGameState.
Qed.

Hypothesis G_clock : ∀ gs,
  G gs (GameState.set_gameTime (GameState.gameTime gs + deltaTime) gs).

Lemma kept_updateRoomState roomCode currentTime :
  guarantees G (updateRoomState io roomCode deltaTime currentTime).
Proof.
  unfold updateRoomState.
  apply guarantees_bind; [exact G_trans|by apply guarantees_modifyState|intros _].
  apply kept_after_clock.
Qed.

End TickInvariant.

(** *** What the passes write to a player *)

Section PlayerWrites.
Import QbitCityGameStateManager QbitCityGameLoop.
Context `{JsHost}.

Lemma sameIdentity_refl p : sameIdentity p p.
Proof. by unfold sameIdentity. Qed.

Lemma sameIdentity_trans p q r : sameIdentity p q → sameIdentity q r → sameIdentity p r.
Proof. unfold sameIdentity. intros (?&?&?&?&?&?&?&?) (?&?&?&?&?&?&?&?). repeat split; congruence. Qed.

Lemma pushTrail_length trail point :
  (length trail ≤ 20 → length (pushTrail trail point) ≤ 20)%nat.
Proof.
  intros Hlen. unfold pushTrail. cbv zeta.
  destruct (20 <? Z.of_nat (length (trail ++ [point]))) eqn:Hlong.
  - destruct trail as [|a trail]; cbn in *; rewrite ?length_app in *; cbn in *; lia.
  - apply Z.ltb_ge in Hlong. lia.
Qed.

(** Applying an input writes the direction, the velocity, the position,
    the energy, the trail, the cooldown and the immunity flag, and nothing
    else. *)
Lemma applyInputToPlayer_writes player input deltaTime gameState :
  let p' := applyInputToPlayer player input deltaTime gameState in
  sameIdentity p' player ∧
  (Player.energy p' = Player.energy player ∨
   Player.energy p' = Qmin 1 (Player.energy player + deltaTime * (3 # 10))) ∧
  (Player.trail p' = Player.trail player ∨
   ∃ point, Player.trail p' = pushTrail (Player.trail player) point).
Proof.
  cbv zeta. rewrite applyInputToPlayer_stages.
  assert (Hmoved :
    let p := movedPlayer player input deltaTime gameState in
    sameIdentity p player ∧
    (Player.energy p = Player.energy player ∨
     Player.energy p = Qmin 1 (Player.energy player + deltaTime * (3 # 10))) ∧
    (Player.trail p = Player.trail player ∨
     ∃ point, Player.trail p = pushTrail (Player.trail player) point)).
  { unfold movedPlayer.
    destruct (inputDirection _) as [dx dy].
    assert (Hface : sameIdentity (faceDirection player dx dy).2 player ∧
                    Player.energy (faceDirection player dx dy).2 = Player.energy player ∧
                    Player.trail (faceDirection player dx dy).2 = Player.trail player).
    { unfold faceDirection. case_match; cbn; by rewrite ?sameIdentity_refl. }
    destruct (faceDirection player dx dy) as [[dx' dy'] p1]. cbn [snd] in Hface.
    set (p2 := Player.set_velY _ (Player.set_velX _ p1)).
    assert (Hmove : ∀ newX newY,
              sameIdentity (moveWithCollision p2 newX newY (GameState.map gameState)) p2 ∧
              Player.energy (moveWithCollision p2 newX newY (GameState.map gameState))
                = Player.energy p2 ∧
              Player.trail (moveWithCollision p2 newX newY (GameState.map gameState))
                = Player.trail p2).
    { intros newX newY. unfold moveWithCollision.
      repeat case_match; cbn; by rewrite ?sameIdentity_refl. }
    specialize (Hmove (Player.x p2 + Player.velX p2 * deltaTime)%Q
                      (Player.y p2 + Player.velY p2 * deltaTime)%Q).
    set (p3 := moveWithCollision _ _ _ _) in *.
    assert (H3 : sameIdentity p3 player ∧ Player.energy p3 = Player.energy player ∧
                 Player.trail p3 = Player.trail player).
    { destruct Hmove as (Hi & He & Ht), Hface as (Hi' & He' & Ht').
      split; [|split].
      - eapply sameIdentity_trans; [exact Hi|]. subst p2. exact Hi'.
      - rewrite He. subst p2. exact He'.
      - rewrite Ht. subst p2. exact Ht'. }
    clearbody p3. clear Hmove. destruct H3 as (Hi & He & Ht).
    cbv zeta. destruct (nonZero dx' dy'); cbn.
    - split; [exact Hi|]. split; [right; by rewrite He|]. right.
      rewrite Ht. by eexists.
    - split; [exact Hi|]. split; [by left|by left]. }
  cbv zeta in Hmoved. set (p := movedPlayer _ _ _ _) in *. clearbody p.
  destruct Hmoved as (Hi & He & Ht). cbv zeta.
  destruct (Qltb 0 (Player.portalCooldown p)); cbn;
    destruct (_ && _); cbn; done.
Qed.

(** A loop over pickups takes the player through a chain of rounds. *)
Lemma collectAll_rel {A : Type} (R : Player.t → Player.t → Prop)
    (round : Player.t → A → Player.t * A) player pickups :
  (∀ p, R p p) → (∀ p q r, R p q → R q r → R p r) →
  (∀ p a, R p (round p a).1) →
  R player (collectAll round player pickups).1.
Proof.
  intros Hrefl Htrans Hround.
  induction pickups as [|pickup pickups IH] using rev_ind; [apply Hrefl|].
  rewrite collectAll_snoc.
  destruct (collectAll round player pickups) as [player' done].
  specialize (Hround player' pickup).
  destruct (round player' pickup) as [player'' pickup'].
  cbn [fst] in *. by eapply Htrans.
Qed.

End PlayerWrites.

(** *** The setting of a room *)

Section Setting.
Import QbitCityGameStateManager QbitCityGameLoop.
Context `{JsHost}.

Lemma fmap_insert_same {A B} (f : A → B) (l : list A) i x y :
  l !! i = Some x → f y = f x → f <$> <[i := y]> l = f <$> l.
Proof.
  intros Hi Hf. rewrite list_fmap_insert, Hf.
  apply list_insert_id. by rewrite list_lookup_fmap, Hi.
Qed.

Lemma sameSetting_refl gs : sameSetting gs gs.
Proof. by unfold sameSetting. Qed.

Lemma sameSetting_trans gs1 gs2 gs3 :
  sameSetting gs1 gs2 → sameSetting gs2 gs3 → sameSetting gs1 gs3.
Proof.
  unfold sameSetting. intros (?&?&?&?&?) (?&?&?&?&?). repeat split; congruence.
Qed.

Lemma sameIdentity_public p q : sameIdentity p q → publicIdentity p = publicIdentity q.
Proof. unfold sameIdentity, publicIdentity. intros (->&->&->&->&_). done. Qed.

Lemma stepped_public gs deltaTime players players' :
  Forall2 (stepped gs deltaTime) players players' →
  publicIdentity <$> players' = publicIdentity <$> players.
Proof.
  induction 1 as [|p p' players players' Hp _ IH]; [done|].
  cbn. rewrite IH. f_equal.
  destruct Hp as [->|[input ->]]; [done|].
  apply sameIdentity_public, applyInputToPlayer_writes.
Qed.

Lemma updateBoat_identity deltaTime boat :
  boatIdentity (updateBoat deltaTime boat) = boatIdentity boat.
Proof. unfold updateBoat. cbv zeta. by repeat case_match. Qed.

Lemma collectCoin_identity p coin : publicIdentity (collectCoin p coin).1 = publicIdentity p.
Proof. unfold collectCoin. cbv zeta. by repeat case_match. Qed.

Lemma collectImmunityPickup_identity t p pickup :
  publicIdentity (collectImmunityPickup t p pickup).1 = publicIdentity p.
Proof. unfold collectImmunityPickup. cbv zeta. by repeat case_match. Qed.

Lemma collectSink_identity p sink : publicIdentity (collectSink p sink).1 = publicIdentity p.
Proof. unfold collectSink. cbv zeta. by repeat case_match. Qed.

(** The player the three pickup loops leave is related to the player they
    started from by every relation their rounds respect. *)
Lemma collectPickups_player (R : Player.t → Player.t → Prop) gameTime player
    coins pickups sinks :
  (∀ p, R p p) → (∀ p q r, R p q → R q r → R p r) →
  (∀ p a, R p (collectCoin p a).1) →
  (∀ p a, R p (collectImmunityPickup gameTime p a).1) →
  (∀ p a, R p (collectSink p a).1) →
  R player
    (collectAll collectSink
       (collectAll (collectImmunityPickup gameTime)
          (collectCoins player coins).1 pickups).1 sinks).1.
Proof.
  intros Hrefl Htrans Hc Hi Hs.
  eapply Htrans; [|by apply (collectAll_rel R)].
  eapply Htrans; [|by apply (collectAll_rel R)].
  by apply (collectAll_rel R).
Qed.

(** [collectPickups] writes the player at index [i], the coins, the
    pickups and the sinks. *)
Lemma collectPickups_writes (R : Player.t → Player.t → Prop) i gs :
  (∀ p, R p p) → (∀ p q r, R p q → R q r → R p r) →
  (∀ p a, R p (collectCoin p a).1) →
  (∀ t p a, R p (collectImmunityPickup t p a).1) →
  (∀ p a, R p (collectSink p a).1) →
  ∀ s, Sim.state s = gs →
  ∃ gs', collectPickups i s = Normal tt (Sim.set_state gs' s) ∧
    GameState.roomCode gs' = GameState.roomCode gs ∧
    GameState.map gs' = GameState.map gs ∧
    GameState.mapSeed gs' = GameState.mapSeed gs ∧
    GameState.boats gs' = GameState.boats gs ∧
    GameState.enemies gs' = GameState.enemies gs ∧
    GameState.gameTime gs' = GameState.gameTime gs ∧
    (GameState.players gs' = GameState.players gs ∨
     ∃ player player', GameState.players gs !! i = Some player ∧ R player player' ∧
       GameState.players gs' = <[i := player']> (GameState.players gs)).
Proof.
  intros Hrefl Htrans Hc Hi Hs s <-. unfold collectPickups, modifyState, modify.
  eexists. split; [reflexivity|].
  destruct (GameState.players (Sim.state s) !! i) as [player|] eqn:Hp;
    [|repeat split; by left].
  pose proof (collectPickups_player R (GameState.gameTime (Sim.state s)) player
                (GameState.coins (Sim.state s)) (GameState.immunityPickups (Sim.state s))
                (GameState.sinkCollectibles (Sim.state s)) Hrefl Htrans Hc (Hi _) Hs) as HR.
  destruct (collectCoins player _) as [p1 coins]. cbn [fst] in HR. cbv iota beta.
  destruct (collectAll (collectImmunityPickup _) p1 _) as [p2 pickups].
  cbn [fst] in HR. cbv iota beta.
  destruct (collectAll collectSink p2 _) as [p3 sinks]. cbn [fst] in HR.
  cbn. repeat split. right. by exists player, p3.
Qed.

Lemma kept_setting io roomCode deltaTime currentTime :
  guarantees sameSetting (updateRoomState io roomCode deltaTime currentTime).
Proof.
  apply kept_updateRoomState.
  - exact sameSetting_refl.
  - exact sameSetting_trans.
  - intros gs players' Hstep. unfold sameSetting. cbn.
    repeat split. by eapply stepped_public.
  - apply guarantees_modifyState. intros gs. unfold sameSetting. cbn.
    repeat split. rewrite <- list_fmap_compose. apply list_fmap_ext.
    intros i b _. apply updateBoat_identity.
  - intros gs enemies' _. by unfold sameSetting.
  - intros gs. unfold applySpeedBoost. case_match; [|apply sameSetting_refl].
    unfold sameSetting. cbn. repeat split.
    rewrite <- list_fmap_compose. by apply list_fmap_ext.
  - intros gs gs' (?&?&Hp&Hb&?&?&?&?&?&?). unfold sameSetting.
    rewrite Hp, Hb. done.
  - apply guarantees_modifyState. intros gs. by unfold sameSetting.
  - apply guarantees_modifyState. intros gs. by unfold sameSetting.
  - intros gs j enemy x y _. by unfold sameSetting.
  - intros i s.
    destruct (collectPickups_writes (λ p q, publicIdentity q = publicIdentity p) i
                (Sim.state s)) with (s := s)
      as (gs' & -> & Hcode & Hmap & Hseed & Hboats & _ & _ & Hplayers); try done.
    + intros p q r Hq Hr. congruence.
    + intros. apply collectCoin_identity.
    + intros. apply collectImmunityPickup_identity.
    + intros. apply collectSink_identity.
    + cbn. unfold sameSetting. rewrite Hcode, Hmap, Hseed, Hboats.
      repeat split. destruct Hplayers as [->|(p & p' & Hp & HR & ->)]; [done|].
      by eapply fmap_insert_same.
  - intros gs i player dest Hi _. unfold sameSetting. cbn. repeat split.
    by eapply fmap_insert_same.
  - intros gs k. by unfold sameSetting.
  - intros gs. by unfold sameSetting.
Qed.

(** X9.  A tick leaves the setting of a room as it is: after the passes of
    [updateRoom], whether they return or throw, the room has the same code,
    map and seed, the same players in the same order (id, name and size),
    and the same boats (id and size). *)
Theorem tick_keeps_setting (io : IO) (roomCode : string) (deltaTime : Q)
    (currentTime : Z) (s : Sim.t) :
  match updateRoomState io roomCode deltaTime currentTime s with
  | Normal _ s' | Thrown _ s' => sameSetting (Sim.state s) (Sim.state s')
  | Diverged => True
  end.
Proof. apply kept_setting. Qed.

End Setting.

(** *** Counters, trails, enemies and the clock *)

Section Bounds.
Import QbitCityGameStateManager QbitCityGameLoop.
Context `{JsHost}.

Lemma Qmin_bounds e d :
  (0 <= e)%Q → (0 <= d)%Q → (0 <= Qmin 1 (e + d * (3 # 10)))%Q ∧ (Qmin 1 (e + d * (3 # 10)) <= 1)%Q.
Proof.
  intros He Hd. unfold Qmin. destruct (Qleb 1 _) eqn:Hle.
  - split; [discriminate|apply Qle_refl].
  - assert (Hlt : (e + d * (3 # 10) < 1)%Q).
    { apply Qnot_le_lt. intros Hc. apply Qleb_le in Hc. congruence. }
    split; [|by apply Qlt_le_weak].
    assert (0 <= d * (3 # 10))%Q by (apply Qmult_le_0_compat; [done|discriminate]).
    lra.
Qed.

Lemma withinBounds_sameIdentity p q :
  sameIdentity q p → Player.energy q = Player.energy p → withinBounds p → withinBounds q.
Proof.
  unfold sameIdentity, withinBounds. intros (_&_&_&_&_&->&->&->) ->. done.
Qed.

Lemma stepped_withinBounds gs deltaTime p p' :
  (0 <= deltaTime)%Q → stepped gs deltaTime p p' → withinBounds p → withinBounds p'.
Proof.
  intros Hd [->|[input ->]] Hp; [done|].
  destruct (applyInputToPlayer_writes p input deltaTime gs) as (Hi & He & _).
  destruct He as [He|He]; [by eapply withinBounds_sameIdentity|].
  destruct Hi as (_&_&_&_&_&Hc&Hv&Hs).
  destruct Hp as (?&?&?&?&?). unfold withinBounds. rewrite Hc, Hv, Hs, He.
  split; [done|]. split; [done|]. split; [done|]. by apply Qmin_bounds.
Qed.

Lemma collectCoin_withinBounds p coin : withinBounds p → withinBounds (collectCoin p coin).1.
Proof.
  unfold collectCoin, withinBounds, COINS_FOR_IMMUNITY, MAX_IMMUNITY_INVENTORY.
  intros (?&?&?&?&?). cbv zeta.
  repeat case_match; cbn in *;
    unfold COINS_FOR_IMMUNITY, MAX_IMMUNITY_INVENTORY in *;
    (split; [lia|split; [lia|split; [lia|done]]]).
Qed.

Lemma collectImmunityPickup_withinBounds t p pickup :
  withinBounds p → withinBounds (collectImmunityPickup t p pickup).1.
Proof. unfold collectImmunityPickup. cbv zeta. by repeat case_match. Qed.

Lemma collectSink_withinBounds p sink : withinBounds p → withinBounds (collectSink p sink).1.
Proof.
  unfold collectSink, withinBounds. intros (?&?&?&?&?). cbv zeta.
  repeat case_match; cbn in *;
    unfold COINS_FOR_IMMUNITY, MAX_IMMUNITY_INVENTORY in *;
    (split; [lia|split; [lia|split; [lia|done]]]).
Qed.

Lemma kept_counters io roomCode deltaTime currentTime :
  (0 <= deltaTime)%Q →
  guarantees keepsCounters (updateRoomState io roomCode deltaTime currentTime).
Proof.
  intros Hd. apply kept_updateRoomState; unfold keepsCounters, countersBounded.
  - done.
  - auto.
  - intros gs players' Hstep Hb. cbn.
    induction Hstep as [|p p' ps ps' Hp _ IH]; [done|].
    apply Forall_cons in Hb as [Hb Hbs]. constructor; [|by apply IH].
    by eapply stepped_withinBounds.
  - by apply guarantees_modifyState.
  - done.
  - intros gs Hb. unfold applySpeedBoost. case_match; [|done]. cbn.
    apply Forall_fmap. eapply Forall_impl; [exact Hb|]. by intros p.
  - intros gs gs' (?&?&Hp&?) Hb. by rewrite Hp.
  - by apply guarantees_modifyState.
  - by apply guarantees_modifyState.
  - done.
  - intros i s.
    destruct (collectPickups_writes (λ p q, withinBounds p → withinBounds q) i
                (Sim.state s)) with (s := s)
      as (gs' & -> & _ & _ & _ & _ & _ & _ & Hplayers); try done.
    + auto.
    + intros. by apply collectCoin_withinBounds.
    + intros. by apply collectImmunityPickup_withinBounds.
    + intros. by apply collectSink_withinBounds.
    + cbn. intros Hb. destruct Hplayers as [->|(p & p' & Hp & HR & ->)]; [done|].
      apply Forall_insert; [done|]. apply HR.
      rewrite Forall_forall in Hb. apply Hb. by eapply list_elem_of_lookup_2.
  - intros gs i player dest Hi _ Hb. cbn. apply Forall_insert; [done|].
    rewrite Forall_forall in Hb. apply (Hb player). by eapply list_elem_of_lookup_2.
  - done.
  - done.
Qed.

(** X10.  A tick keeps the counters of every player within their bounds:
    when every player of the room has fewer than five coins towards the
    next immunity, at most three stored immunities, at most three sinks and
    an energy between 0 and 1, the same holds after the passes of
    [updateRoom], whether they return or throw. *)
Theorem tick_keeps_counters_bounded (io : IO) (roomCode : string) (deltaTime : Q)
    (currentTime : Z) (s : Sim.t) :
  (0 <= deltaTime)%Q →
  countersBounded (Sim.state s) →
  match updateRoomState io roomCode deltaTime currentTime s with
  | Normal _ s' | Thrown _ s' => countersBounded (Sim.state s')
  | Diverged => True
  end.
Proof.
  intros Hd Hb. pose proof (kept_counters io roomCode deltaTime currentTime Hd s) as Hk.
  destruct (updateRoomState _ _ _ _ s); auto.
Qed.

(** **** Trails *)

Lemma kept_trails io roomCode deltaTime currentTime :
  guarantees keepsTrails (updateRoomState io roomCode deltaTime currentTime).
Proof.
  apply kept_updateRoomState; unfold keepsTrails, trailsBounded.
  - done.
  - auto.
  - intros gs players' Hstep [Hp He]. cbn. split; [|done].
    induction Hstep as [|p p' ps ps' Hpp _ IH]; [done|].
    apply Forall_cons in Hp as [Hp Hps]. constructor; [|by apply IH].
    destruct Hpp as [->|[input ->]]; [done|].
    destruct (applyInputToPlayer_writes p input deltaTime gs) as (_ & _ & [->|[pt ->]]);
      [done|by apply pushTrail_length].
  - by apply guarantees_modifyState.
  - intros gs enemies' Hch [Hp He]. cbn. split; [done|].
    induction Hch as [|en en' ens ens' Hen _ IH]; [done|].
    apply Forall_cons in He as [He Hes]. constructor; [|by apply IH].
    destruct Hen as (_&_&_&_&[->|[pt ->]]); [done|by apply pushTrail_length].
  - intros gs [Hp He]. unfold applySpeedBoost. case_match; [|done]. cbn.
    split; apply Forall_fmap; (eapply Forall_impl; [eassumption|]); by intros ?.
  - intros gs gs' (_&_&Hp&_&_&_&_&_&_&new&Hn&Hnew) [Hps Hes]. rewrite Hp, Hn.
    split; [done|]. apply Forall_app. split; [done|].
    eapply Forall_impl; [exact Hnew|]. intros en (-> & _). cbn. lia.
  - by apply guarantees_modifyState.
  - by apply guarantees_modifyState.
  - intros gs j enemy x y _ [Hp He]. cbn. split; [done|].
    apply Forall_insert; [done|]. cbn. lia.
  - intros i s.
    destruct (collectPickups_writes (λ p q, Player.trail q = Player.trail p) i
                (Sim.state s)) with (s := s)
      as (gs' & -> & _ & _ & _ & _ & Hen & _ & Hplayers); try done.
    + intros p q r Hq Hr. congruence.
    + intros. unfold collectCoin. cbv zeta. by repeat case_match.
    + intros. unfold collectImmunityPickup. cbv zeta. by repeat case_match.
    + intros. unfold collectSink. cbv zeta. by repeat case_match.
    + cbn. intros [Hp He]. rewrite Hen. split; [|done].
      destruct Hplayers as [->|(p & p' & Hpi & HR & ->)]; [done|].
      apply Forall_insert; [done|]. rewrite HR.
      rewrite Forall_forall in Hp. apply Hp. by eapply list_elem_of_lookup_2.
  - intros gs i player dest Hi _ [Hp He]. cbn. split; [|done].
    apply Forall_insert; [done|]. cbn. lia.
  - done.
  - done.
Qed.

(** X11.  A tick keeps every trail within twenty points: when no player
    and no enemy of the room has a trail longer than twenty points, none
    has after the passes of [updateRoom], whether they return or throw. *)
Theorem tick_keeps_trails_bounded (io : IO) (roomCode : string) (deltaTime : Q)
    (currentTime : Z) (s : Sim.t) :
  trailsBounded (Sim.state s) →
  match updateRoomState io roomCode deltaTime currentTime s with
  | Normal _ s' | Thrown _ s' => trailsBounded (Sim.state s')
  | Diverged => True
  end.
Proof.
  intros Hb. pose proof (kept_trails io roomCode deltaTime currentTime s) as Hk.
  destruct (updateRoomState _ _ _ _ s); auto.
Qed.

(** **** Enemies *)

Lemma kept_enemies io roomCode deltaTime currentTime :
  guarantees enemiesKept (updateRoomState io roomCode deltaTime currentTime).
Proof.
  apply kept_updateRoomState; unfold enemiesKept.
  - done.
  - intros gs1 gs2 gs3. apply transitivity.
  - done.
  - by apply guarantees_modifyState.
  - intros gs enemies' Hch. cbn.
    replace (Enemy.id <$> enemies') with (Enemy.id <$> GameState.enemies gs); [done|].
    induction Hch as [|en en' ens ens' Hen _ IH]; [done|].
    cbn. rewrite IH. f_equal. by destruct Hen as (-> & _).
  - intros gs. unfold applySpeedBoost. case_match; [|done]. cbn.
    rewrite <- list_fmap_compose. done.
  - intros gs gs' (_&_&_&_&_&_&_&_&_&new&->&_).
    rewrite fmap_app. by apply prefix_app_r.
  - by apply guarantees_modifyState.
  - by apply guarantees_modifyState.
  - intros gs j enemy x y Hj. cbn. by erewrite fmap_insert_same.
  - intros i s.
    destruct (collectPickups_writes (λ _ _, True) i (Sim.state s)) with (s := s)
      as (gs' & -> & _ & _ & _ & _ & Hen & _); try done.
    cbn. by rewrite Hen.
  - done.
  - done.
  - done.
Qed.

(** X12.  A tick never removes an enemy: the ids of the enemies of the
    room before the passes of [updateRoom] are, in the same order, the
    first ids of its enemies after them, whether the passes return or
    throw. *)
Theorem tick_never_removes_an_enemy (io : IO) (roomCode : string) (deltaTime : Q)
    (currentTime : Z) (s : Sim.t) :
  match updateRoomState io roomCode deltaTime currentTime s with
  | Normal _ s' | Thrown _ s' => enemiesKept (Sim.state s) (Sim.state s')
  | Diverged => True
  end.
Proof. apply kept_enemies. Qed.

(** **** The clock *)

(** X13.  A tick advances the clock of the room by [deltaTime] before it
    does anything else and never writes it again: after the passes of
    [updateRoom] the game time is the time before plus [deltaTime], also
    when a later pass throws. *)
Theorem tick_advances_game_time (io : IO) (roomCode : string) (deltaTime : Q)
    (currentTime : Z) (s : Sim.t) :
  match updateRoomState io roomCode deltaTime currentTime s with
  | Normal _ s' | Thrown _ s' =>
      GameState.gameTime (Sim.state s') =
      (GameState.gameTime (Sim.state s) + deltaTime)%Q
  | Diverged => True
  end.
Proof.
  unfold updateRoomState. unfold bind at 1. unfold modifyState at 1, modify.
  match goal with
  | |- match ?m ?s1 with _ => _ end =>
      pose proof (kept_after_clock io deltaTime sameTime) as Hk;
      specialize (Hk ltac:(done) ltac:(unfold sameTime; congruence))
  end.
  unfold sameTime in Hk.
  lapply Hk; [clear Hk; intros Hk|done].
  lapply Hk; [clear Hk; intros Hk|by apply guarantees_modifyState].
  lapply Hk; [clear Hk; intros Hk|done].
  lapply Hk; [clear Hk; intros Hk|].
  2:{ intros gs. unfold applySpeedBoost. by case_match. }
  lapply Hk; [clear Hk; intros Hk|].
  2:{ by intros gs gs' (_&_&_&_&_&_&Ht&_). }
  lapply Hk; [clear Hk; intros Hk|by apply guarantees_modifyState].
  lapply Hk; [clear Hk; intros Hk|by apply guarantees_modifyState].
  lapply Hk; [clear Hk; intros Hk|done].
  lapply Hk; [clear Hk; intros Hk|].
  2:{ intros i s0.
      destruct (collectPickups_writes (λ _ _, True) i (Sim.state s0)) with (s := s0)
        as (gs' & -> & _ & _ & _ & _ & _ & Ht & _); try done. }
  lapply Hk; [clear Hk; intros Hk|done].
  lapply Hk; [clear Hk; intros Hk|done].
  specialize (Hk roomCode currentTime
                (Sim.set_state
                   (GameState.set_gameTime
                      (GameState.gameTime (Sim.state s) + deltaTime) (Sim.state s)) s)).
  cbn in Hk. exact Hk.
Qed.

End Bounds.

Section BoundsExamples.
Import QbitCityGameStateManager QbitCityGameLoop.

Lemma tick_keeps_counters_bounded_witness :
  match updateRoomState (H := exampleHost) deliver "ROOM01" (1 # 20) 1000
          (exampleSim []) with
  | Normal _ s' | Thrown _ s' => countersBounded (Sim.state s')
  | Diverged => True
  end.
Proof.
  apply (tick_keeps_counters_bounded (H := exampleHost)).
  - discriminate.
  - apply Forall_singleton. unfold withinBounds. cbn.
    unfold COINS_FOR_IMMUNITY, MAX_IMMUNITY_INVENTORY.
    split; [lia|]. split; [lia|]. split; [lia|]. split; discriminate.
Defined.

Lemma tick_keeps_trails_bounded_witness :
  match updateRoomState (H := exampleHost) deliver "ROOM01" (1 # 20) 1000
          (exampleSim []) with
  | Normal _ s' | Thrown _ s' => trailsBounded (Sim.state s')
  | Diverged => True
  end.
Proof.
  apply (tick_keeps_trails_bounded (H := exampleHost)).
  split; [apply Forall_singleton; cbn; lia | apply Forall_nil; exact I].
Defined.

End BoundsExamples.

(** ** The room manager *)

Section RoomMap.
Import RoomManager.

Lemma has_true roomCode rooms :
  has roomCode rooms = true ↔ roomCode ∈ ManagedRoom.code <$> rooms.
Proof.
  unfold has. rewrite existsb_exists, list_elem_of_fmap. split.
  - intros (room & Hin & Hc). apply bool_decide_eq_true in Hc.
    exists room. split; [done|]. by apply list_elem_of_In.
  - intros (room & -> & Hin). exists room. split; [by apply list_elem_of_In|].
    by apply bool_decide_eq_true.
Qed.

Lemma get_Some roomCode rooms room :
  get roomCode rooms = Some room → room ∈ rooms ∧ ManagedRoom.code room = roomCode.
Proof.
  unfold get. intros Hf. apply find_some in Hf as [Hin Hc].
  split; [by apply list_elem_of_In|]. by apply bool_decide_eq_true in Hc.
Qed.

Lemma get_has roomCode rooms room : get roomCode rooms = Some room → has roomCode rooms = true.
Proof.
  intros Hg. apply get_Some in Hg as [Hin <-]. apply has_true.
  apply list_elem_of_fmap. by exists room.
Qed.

(** Writing a room back under a code that is there replaces the room of
    that code and leaves the codes as they were. *)
Lemma set_codes room rooms :
  has (ManagedRoom.code room) rooms = true →
  ManagedRoom.code <$> set room rooms = ManagedRoom.code <$> rooms.
Proof.
  intros Hhas. unfold set. rewrite Hhas.
  change (map ?f ?l) with (f <$> l). rewrite <- list_fmap_compose.
  apply list_fmap_ext. intros i r _. cbn. by case_bool_decide.
Qed.

Lemma set_elem_of room rooms r :
  has (ManagedRoom.code room) rooms = true →
  r ∈ set room rooms → r = room ∨ (r ∈ rooms ∧ ManagedRoom.code r ≠ ManagedRoom.code room).
Proof.
  intros Hhas. unfold set. rewrite Hhas.
  change (map ?f ?l) with (f <$> l). rewrite list_elem_of_fmap.
  intros (r0 & -> & Hin). case_bool_decide; [by left|right; done].
Qed.

Lemma get_set_eq room rooms :
  has (ManagedRoom.code room) rooms = true →
  get (ManagedRoom.code room) (set room rooms) = Some room.
Proof.
  intros Hhas. unfold set. rewrite Hhas. unfold get.
  apply has_true, list_elem_of_fmap in Hhas as (r0 & Hc & Hin).
  induction rooms as [|r rooms IH]; [by apply elem_of_nil in Hin|].
  cbn. destruct (decide (ManagedRoom.code r = ManagedRoom.code room)) as [Hr|Hr].
  - rewrite (bool_decide_eq_true_2 _ Hr). by rewrite bool_decide_eq_true_2.
  - rewrite (bool_decide_eq_false_2 _ Hr). rewrite (bool_decide_eq_false_2 _ Hr).
    apply IH. apply elem_of_cons in Hin as [->|Hin]; [congruence|done].
Qed.

Lemma get_set_ne room rooms roomCode :
  roomCode ≠ ManagedRoom.code room →
  get roomCode (set room rooms) = get roomCode rooms.
Proof.
  intros Hne. unfold set, get. destruct (has _ rooms).
  - induction rooms as [|r rooms IH]; [done|]. cbn.
    destruct (decide (ManagedRoom.code r = ManagedRoom.code room)) as [Hr|Hr].
    + rewrite (bool_decide_eq_true_2 _ Hr).
      rewrite (bool_decide_eq_false_2 (ManagedRoom.code room = roomCode)) by congruence.
      rewrite (bool_decide_eq_false_2 (ManagedRoom.code r = roomCode)) by congruence.
      exact IH.
    + rewrite (bool_decide_eq_false_2 _ Hr).
      destruct (bool_decide (ManagedRoom.code r = roomCode)); [done|exact IH].
  - induction rooms as [|r rooms IH]; cbn.
    + by rewrite bool_decide_eq_false_2 by congruence.
    + destruct (bool_decide (ManagedRoom.code r = roomCode)); [done|exact IH].
Qed.

Lemma remove_codes roomCode rooms :
  distinctCodes rooms → distinctCodes (remove roomCode rooms).
Proof.
  unfold distinctCodes, remove. induction rooms as [|r rooms IH]; [done|].
  cbn. intros Hnd. apply NoDup_cons in Hnd as [Hnotin Hnd].
  destruct (negb _); [|by apply IH]. cbn. apply NoDup_cons. split; [|by apply IH].
  intros Hin. apply Hnotin. apply list_elem_of_fmap in Hin as (r' & Hc & Hin).
  apply list_elem_of_fmap. exists r'. split; [done|].
  by apply list_elem_of_In, filter_In in Hin as [Hin%list_elem_of_In _].
Qed.

Lemma remove_elem_of roomCode rooms r : r ∈ remove roomCode rooms → r ∈ rooms.
Proof.
  unfold remove. intros Hin.
  by apply list_elem_of_In, filter_In in Hin as [Hin%list_elem_of_In _].
Qed.

End RoomMap.

Section RoomCodes.

Lemma afterDraws_0 e : afterDraws 0 e = e.
Proof. by destruct e. Qed.

Lemma afterDraws_add a b e : afterDraws a (afterDraws b e) = afterDraws (a + b) e.
Proof. unfold afterDraws. cbn. f_equal. lia. Qed.

Lemma Math_random_run e :
  Math_random e = Normal (random_draws e (random_next e)) (afterDraws 1 e).
Proof. reflexivity. Qed.

Lemma randomCode_run n code e : ∃ c, randomCode n code e = Normal c (afterDraws n e).
Proof.
  revert code e. induction n as [|n IH]; intros code e; cbn [randomCode].
  - exists code. by rewrite afterDraws_0.
  - unfold bind. rewrite Math_random_run. cbv beta iota zeta.
    destruct (IH (String.append code
                    (charAt ROOM_CODE_CHARS
                       (Math_floor (random_draws e (random_next e) *
                                    inject_Z (Z.of_nat (String.length ROOM_CODE_CHARS))))))
                 (afterDraws 1 e)) as (c & Hc).
    exists c. rewrite Hc, afterDraws_add. do 2 f_equal. lia.
Qed.

Lemma drawnCode_run e k :
  randomCode ROOM_CODE_LENGTH EmptyString (afterDraws (6 * k) e) =
  Normal (drawnCode e k) (afterDraws (6 * (k + 1)) e).
Proof.
  unfold drawnCode.
  destruct (randomCode_run ROOM_CODE_LENGTH EmptyString (afterDraws (6 * k) e)) as (c & Hc).
  rewrite Hc, afterDraws_add. do 2 f_equal. unfold ROOM_CODE_LENGTH. lia.
Qed.

(** One round of the loop, the [j]-th. *)
Lemma generateRoomCodeFrom_round fuel attempts has e j :
  generateRoomCodeFrom fuel attempts has (afterDraws (6 * j) e) =
  (if has (drawnCode e j) && (attempts + 1 <? 100)
   then match fuel with
        | O => λ _, Diverged
        | S fuel' => generateRoomCodeFrom fuel' (attempts + 1) has
        end
   else ret (drawnCode e j, attempts + 1)) (afterDraws (6 * (j + 1)) e).
Proof.
  destruct fuel; cbn [generateRoomCodeFrom]; unfold bind at 1;
    by rewrite drawnCode_run.
Qed.

Lemma generateRoomCodeFrom_free has e d : ∀ j k fuel,
  (j + d = k)%nat → (k < 99)%nat → (d ≤ fuel)%nat →
  (∀ i, (j ≤ i < k)%nat → has (drawnCode e i) = true) →
  has (drawnCode e k) = false →
  generateRoomCodeFrom fuel (Z.of_nat j) has (afterDraws (6 * j) e) =
  Normal (drawnCode e k, Z.of_nat k + 1) (afterDraws (6 * (k + 1)) e).
Proof.
  induction d as [|d IH]; intros j k fuel Hjk Hk Hfuel Htaken Hfree.
  - replace j with k by lia. rewrite generateRoomCodeFrom_round, Hfree. done.
  - rewrite generateRoomCodeFrom_round, Htaken by lia.
    replace (Z.of_nat j + 1 <? 100) with true by (symmetry; apply Z.ltb_lt; lia).
    cbn [andb]. destruct fuel as [|fuel]; [lia|].
    replace (Z.of_nat j + 1) with (Z.of_nat (j + 1)) by lia.
    apply IH; [lia|lia|lia| |done]. intros i Hi. apply Htaken. lia.
Qed.

Lemma generateRoomCodeFrom_taken has e d : ∀ j fuel,
  (j + d = 99)%nat → (d ≤ fuel)%nat →
  (∀ i, (j ≤ i < 99)%nat → has (drawnCode e i) = true) →
  generateRoomCodeFrom fuel (Z.of_nat j) has (afterDraws (6 * j) e) =
  Normal (drawnCode e 99, 100) (afterDraws 600 e).
Proof.
  induction d as [|d IH]; intros j fuel Hj Hfuel Htaken.
  - replace j with 99%nat by lia. rewrite generateRoomCodeFrom_round.
    change (Z.of_nat 99 + 1 <? 100) with false. by rewrite andb_false_r.
  - rewrite generateRoomCodeFrom_round, Htaken by lia.
    replace (Z.of_nat j + 1 <? 100) with true by (symmetry; apply Z.ltb_lt; lia).
    cbn [andb]. destruct fuel as [|fuel]; [lia|].
    replace (Z.of_nat j + 1) with (Z.of_nat (j + 1)) by lia.
    apply IH; [lia|lia|]. intros i Hi. apply Htaken. lia.
Qed.

(** X15.  [generateRoomCode] returns the first code it draws that no room
    has, when that is one of its first 99 codes, having drawn six
    characters per code. *)
Theorem generateRoomCode_returns_first_free (has : string → bool) (e : Env) (k : nat) :
  (k < 99)%nat →
  (∀ i, (i < k)%nat → has (drawnCode e i) = true) →
  has (drawnCode e k) = false →
  generateRoomCode has e = Normal (drawnCode e k) (afterDraws (6 * (k + 1)) e).
Proof.
  intros Hk Htaken Hfree.
  assert (Hrun : generateRoomCodeFrom 100 0 has e =
                 Normal (drawnCode e k, Z.of_nat k + 1) (afterDraws (6 * (k + 1)) e)).
  { rewrite <- (afterDraws_0 e) at 1.
    apply (generateRoomCodeFrom_free has e k 0 k 100); [lia|lia|lia| |done].
    intros i Hi. apply Htaken. lia. }
  unfold generateRoomCode, bind. rewrite Hrun.
  replace (100 <=? Z.of_nat k + 1) with false by (symmetry; apply Z.leb_gt; lia).
  done.
Qed.

Lemma generateRoomCode_returns_first_free_witness :
  generateRoomCode (λ code, bool_decide (code = "AAAAAA")) (constantEnv (1 # 16) 0) =
  Normal (drawnCode (constantEnv (1 # 16) 0) 0) (afterDraws 6 (constantEnv (1 # 16) 0)).
Proof.
  apply (generateRoomCode_returns_first_free _ (constantEnv (1 # 16) 0) 0);
    [lia | intros i Hi; lia | vm_compute; reflexivity].
Defined.

(** X16.  [generateRoomCode] gives up at its hundredth attempt whatever
    that attempt drew: when the first 99 codes it draws are taken it throws
    "Failed to generate unique room code", also when the hundredth code is
    free. *)
Theorem generateRoomCode_gives_up_at_100 (has : string → bool) (e : Env) :
  (∀ i, (i < 99)%nat → has (drawnCode e i) = true) →
  generateRoomCode has e =
  Thrown "Failed to generate unique room code" (afterDraws 600 e).
Proof.
  intros Htaken.
  assert (Hrun : generateRoomCodeFrom 100 0 has e =
                 Normal (drawnCode e 99, 100) (afterDraws 600 e)).
  { rewrite <- (afterDraws_0 e) at 1.
    apply (generateRoomCodeFrom_taken has e 99 0 100); [lia|lia|].
    intros i Hi. apply Htaken. lia. }
  unfold generateRoomCode, bind. by rewrite Hrun.
Qed.

Lemma generateRoomCode_gives_up_at_100_witness :
  (bool_decide (drawnCode lastCodeFree 99 = "CCCCCC") = false) ∧
  generateRoomCode (λ code, bool_decide (code = "CCCCCC")) lastCodeFree =
  Thrown "Failed to generate unique room code" (afterDraws 600 lastCodeFree).
Proof.
  split; [vm_compute; reflexivity|].
  apply (generateRoomCode_gives_up_at_100 _ lastCodeFree).
  intros i Hi.
  assert (Hall : forallb (λ i, bool_decide (drawnCode lastCodeFree i = "CCCCCC"))
                   (seq 0 99) = true) by (vm_compute; reflexivity).
  rewrite forallb_forall in Hall. apply Hall, in_seq. lia.
Defined.

End RoomCodes.

Section RoomInvariant.
Import RoomManager.

Lemma generateRoomCode_fresh has e code e' :
  generateRoomCode has e = Normal code e' → has code = false.
Proof.
  unfold generateRoomCode, bind.
  assert (Hloop : ∀ fuel attempts e c a e1,
            generateRoomCodeFrom fuel attempts has e = Normal (c, a) e1 →
            has c = false ∨ 100 ≤ a).
  { clear. induction fuel as [|fuel IH]; intros attempts e c a e1;
      cbn [generateRoomCodeFrom]; unfold bind;
      destruct (randomCode_run ROOM_CODE_LENGTH EmptyString e) as (c0 & ->);
      cbv zeta; destruct (has c0) eqn:Hc0; cbn [andb].
    - destruct (attempts + 1 <? 100) eqn:Ha; [done|].
      intros [= <- <-]. right. apply Z.ltb_ge in Ha. lia.
    - intros [= <- <-]. by left.
    - destruct (attempts + 1 <? 100) eqn:Ha; [apply IH|].
      intros [= <- <-]. right. apply Z.ltb_ge in Ha. lia.
    - intros [= <- <-]. by left. }
  destruct (generateRoomCodeFrom 100 0 has e) as [[c a] e1| |] eqn:Hrun; [|done|done].
  destruct (100 <=? a) eqn:Ha; [done|]. intros [= <- <-].
  apply Hloop in Hrun as [?|?]; [done|]. apply Z.leb_gt in Ha. lia.
Qed.

Lemma wellFormed_set room rooms :
  has (ManagedRoom.code room) rooms = true →
  wellHosted room → roomsWellFormed rooms → roomsWellFormed (set room rooms).
Proof.
  intros Hhas Hroom [Hnd Hall]. split.
  - unfold distinctCodes. by rewrite set_codes.
  - apply Forall_forall. intros r Hr.
    apply set_elem_of in Hr as [->|[Hr _]]; [done| |done].
    rewrite Forall_forall in Hall. by apply Hall.
Qed.

Lemma wellFormed_lookup roomCode rooms room :
  roomsWellFormed rooms → get roomCode rooms = Some room → wellHosted room.
Proof.
  intros [_ Hall] Hget. apply get_Some in Hget as [Hin _].
  rewrite Forall_forall in Hall. by apply Hall.
Qed.

Lemma createRoom_wellFormed socketId name maxPlayers rooms e room rooms' e' :
  roomsWellFormed rooms →
  createRoom socketId name maxPlayers rooms e = Normal (room, rooms') e' →
  roomsWellFormed rooms' ∧ get (ManagedRoom.code room) rooms' = Some room ∧
  ManagedRoom.hostId room = socketId ∧ ManagedRoom.status room = WAITING.
Proof.
  intros [Hnd Hall]. unfold createRoom, bind.
  destruct (generateRoomCode _ e) as [code e1| |] eqn:Hcode; [|done|done].
  apply generateRoomCode_fresh in Hcode. cbn. intros [= <- <- <-].
  unfold set. cbn [ManagedRoom.code]. rewrite Hcode.
  split; [split|split; [|done]].
  - unfold distinctCodes. rewrite fmap_app. apply NoDup_app. split; [done|].
    split; [|apply NoDup_singleton].
    intros c Hc Hc'. apply list_elem_of_singleton in Hc'. cbn in Hc'. subst c.
    apply has_true in Hc. congruence.
  - apply Forall_app. split; [done|]. apply Forall_singleton.
    eexists _, []. cbn. done.
  - unfold get. induction rooms as [|r rooms IH]; cbn.
    + by rewrite bool_decide_eq_true_2.
    + cbn in Hcode. apply orb_false_iff in Hcode as [Hr Hrest].
      rewrite Hr. apply IH; [by apply NoDup_cons in Hnd as [_ ?]| |done].
      by apply Forall_cons in Hall as [_ ?].
Qed.

Lemma addPlayerToRoom_wellFormed roomCode socketId name rooms :
  roomsWellFormed rooms → roomsWellFormed (addPlayerToRoom roomCode socketId name rooms).2.
Proof.
  intros Hwf. unfold addPlayerToRoom.
  destruct (get roomCode rooms) as [room|] eqn:Hget; [|done]. cbn [snd].
  pose proof (wellFormed_lookup _ _ _ Hwf Hget) as (host & others & Hp & Hh & Hid & Ho).
  apply wellFormed_set; [cbn; by eapply get_has; rewrite (proj2 (get_Some _ _ _ Hget))| |done].
  exists host, (others ++ [RoomPlayer.mk socketId
                             (stringOr name (generateDefaultPlayerName socketId)) false 0]).
  cbn. rewrite Hp. split; [done|]. split; [done|]. split; [done|].
  apply Forall_app. split; [done|]. by apply Forall_singleton.
Qed.

Lemma removePlayerFromRoom_wellFormed roomCode socketId rooms :
  roomsWellFormed rooms → roomsWellFormed (removePlayerFromRoom roomCode socketId rooms).2.
Proof.
  intros Hwf. unfold removePlayerFromRoom.
  destruct (get roomCode rooms) as [room|] eqn:Hget; [|done].
  destruct (list_find _ _) as [[i player]|] eqn:Hfind; [|done].
  pose proof (wellFormed_lookup _ _ _ Hwf Hget) as (host & others & Hp & Hh & Hid & Ho).
  pose proof (get_has _ _ _ Hget) as Hhas.
  pose proof (proj2 (get_Some _ _ _ Hget)) as Hcode.
  apply list_find_Some in Hfind as (Hi & _ & _).
  destruct (promoteFirst _ _) as [room' newHost] eqn:Hpromote.
  assert (Hroom' : ManagedRoom.code room' = roomCode ∧
                   (ManagedRoom.players room' = [] ∨ wellHosted room')).
  { unfold promoteFirst in Hpromote. cbn [ManagedRoom.players ManagedRoom.set_players] in *.
    rewrite Hp in *. destruct i as [|i]; cbn in Hi.
    - (* the host leaves *)
      injection Hi as <-. rewrite Hh in Hpromote. cbn [delete list_delete] in Hpromote.
      destruct others as [|first others]; cbn in Hpromote.
      + injection Hpromote as <- <-. cbn. auto.
      + injection Hpromote as <- <-. cbn. split; [done|]. right.
        exists (RoomPlayer.set_isHost true first), others. cbn.
        apply Forall_cons in Ho as [_ Ho]. done.
    - (* a guest leaves *)
      assert (RoomPlayer.isHost player = false) as Hguest.
      { rewrite Forall_forall in Ho. apply Ho. by eapply list_elem_of_lookup_2. }
      rewrite Hguest in Hpromote. cbn in Hpromote. injection Hpromote as <- <-.
      cbn. split; [done|]. right. exists host, (delete i others). cbn.
      split; [done|]. split; [done|]. split; [done|]. by apply Forall_delete. }
  destruct Hroom' as [Hcode' [Hempty|Hhosted]].
  - rewrite Hempty. cbn. destruct Hwf as [Hnd Hall]. split; [by apply remove_codes|].
    apply Forall_forall. intros r Hr. rewrite Forall_forall in Hall.
    by apply Hall, (remove_elem_of roomCode).
  - destruct Hhosted as (h & o & Hp' & ?). rewrite Hp'. cbn.
    apply wellFormed_set; [by rewrite Hcode'| |done]. by exists h, o.
Qed.

Lemma startGame_wellFormed roomCode rooms :
  roomsWellFormed rooms → roomsWellFormed (startGame roomCode rooms).2.
Proof.
  intros Hwf. unfold startGame.
  destruct (get roomCode rooms) as [room|] eqn:Hget; [|done]. cbn [snd].
  pose proof (wellFormed_lookup _ _ _ Hwf Hget) as (host & others & Hp & Hh & Hid & Ho).
  apply wellFormed_set; [cbn; by eapply get_has; rewrite (proj2 (get_Some _ _ _ Hget))| |done].
  by exists host, others.
Qed.

(** X17.  Every method of the room manager keeps its rooms well formed: no
    two rooms share a code, and every room has its host as first player,
    flagged as the only host, under the room's [hostId]; [createRoom],
    [addPlayerToRoom], [removePlayerFromRoom] (which hands a room to its
    first remaining player when the host leaves, and deletes a room that is
    left empty) and [startGame] all keep it so. *)
Theorem roomManager_keeps_rooms_well_formed (rooms : RoomManager.t) :
  roomsWellFormed rooms →
  (∀ socketId name maxPlayers e room rooms' e',
     createRoom socketId name maxPlayers rooms e = Normal (room, rooms') e' →
     roomsWellFormed rooms') ∧
  (∀ roomCode socketId name,
     roomsWellFormed (addPlayerToRoom roomCode socketId name rooms).2) ∧
  (∀ roomCode socketId,
     roomsWellFormed (removePlayerFromRoom roomCode socketId rooms).2) ∧
  (∀ roomCode, roomsWellFormed (startGame roomCode rooms).2).
Proof.
  intros Hwf. split; [|split; [|split]].
  - intros socketId name maxPlayers e room rooms' e' Hrun.
    by apply (createRoom_wellFormed _ _ _ _ _ _ _ _ Hwf) in Hrun as [? _].
  - intros. by apply addPlayerToRoom_wellFormed.
  - intros. by apply removePlayerFromRoom_wellFormed.
  - intros. by apply startGame_wellFormed.
Qed.

End RoomInvariant.

Section RoomExamples.
Import RoomManager.

Lemma exampleRooms_wellFormed : roomsWellFormed exampleRooms.
Proof.
  split.
  - unfold distinctCodes. cbn. apply NoDup_cons. split; [|apply NoDup_singleton].
    intros Hin. apply list_elem_of_singleton in Hin. discriminate.
  - apply Forall_cons. split; [|apply Forall_singleton].
    + eexists _, _. cbn. split; [reflexivity|]. split; [done|]. split; [done|].
      by apply Forall_singleton.
    + eexists _, _. cbn. split; [reflexivity|]. done.
Qed.

Lemma roomManager_keeps_rooms_well_formed_witness :
  (∀ socketId name maxPlayers e room rooms' e',
     createRoom socketId name maxPlayers exampleRooms e = Normal (room, rooms') e' →
     roomsWellFormed rooms') ∧
  (∀ roomCode socketId name,
     roomsWellFormed (addPlayerToRoom roomCode socketId name exampleRooms).2) ∧
  (∀ roomCode socketId,
     roomsWellFormed (removePlayerFromRoom roomCode socketId exampleRooms).2) ∧
  (∀ roomCode, roomsWellFormed (startGame roomCode exampleRooms).2).
Proof.
  apply roomManager_keeps_rooms_well_formed. exact exampleRooms_wellFormed.
Defined.

Lemma isMember_false socketId room :
  isMember socketId room = false ↔
  socketId ∉ RoomPlayer.id <$> ManagedRoom.players room.
Proof.
  unfold isMember. rewrite <- not_true_iff_false, existsb_exists, list_elem_of_fmap.
  split; intros Hn Hin; apply Hn.
  - destruct Hin as (p & -> & Hin). exists p. split; [by apply list_elem_of_In|].
    by apply bool_decide_eq_true.
  - destruct Hin as (p & Hin & Hp). apply bool_decide_eq_true in Hp.
    exists p. split; [done|]. by apply list_elem_of_In.
Qed.

(** X18.  A join that [validateJoinRoom] accepts fits the room: the room
    exists, is not playing, and its player count is below [maxPlayers] as
    [>=] reads it; [addPlayerToRoom] then appends the socket as a guest
    that is not a host, no id appears twice if none did before, and every
    other room is as it was.  When [maxPlayers] is a whole number the room
    stays within it.  [createRoom] does not validate [maxPlayers]: a limit
    that is not whole can be passed by one, and a limit that is not a
    number is never reached. *)
Theorem validated_join_fits (rooms : RoomManager.t) (roomCode socketId : string)
    (name : option string) :
  Validation.valid (validateJoinRoom roomCode socketId rooms) = true →
  ∃ room player rooms',
    get roomCode rooms = Some room ∧
    addPlayerToRoom roomCode socketId name rooms = (Some player, rooms') ∧
    RoomPlayer.id player = socketId ∧ RoomPlayer.isHost player = false ∧
    get roomCode rooms' =
      Some (ManagedRoom.set_players (ManagedRoom.players room ++ [player]) room) ∧
    ManagedRoom.status room ≠ PLAYING ∧
    reaches (Z.of_nat (length (ManagedRoom.players room))) (ManagedRoom.maxPlayers room)
      = false ∧
    (∀ q n, ManagedRoom.maxPlayers room = Finite q → (q == inject_Z n)%Q →
            Z.of_nat (length (ManagedRoom.players room ++ [player])) ≤ n) ∧
    (NoDup (RoomPlayer.id <$> ManagedRoom.players room) →
     NoDup (RoomPlayer.id <$> ManagedRoom.players room ++ [player])) ∧
    ∀ other, other ≠ roomCode → get other rooms' = get other rooms.
Proof.
  unfold validateJoinRoom, addPlayerToRoom.
  destruct (get roomCode rooms) as [room|] eqn:Hget; [|done].
  destruct (reaches _ (ManagedRoom.maxPlayers room)) eqn:Hfull; [done|].
  case_bool_decide as Hplaying; [done|].
  destruct (isMember socketId room) eqn:Hmember; [done|]. intros _.
  pose proof (get_Some _ _ _ Hget) as [_ Hcode].
  eexists room, _, _. split; [done|]. split; [reflexivity|]. cbn [RoomPlayer.id RoomPlayer.isHost].
  split; [done|]. split; [done|]. split.
  { set (room' := ManagedRoom.set_players _ room).
    replace roomCode with (ManagedRoom.code room') by done.
    apply get_set_eq. cbn. rewrite Hcode. by eapply get_has. }
  split; [done|]. split; [done|]. split.
  { intros q n Hlimit Hwhole. rewrite Hlimit in Hfull. cbn [reaches] in Hfull.
    rewrite length_app. cbn [length].
    destruct (Qleb q _) eqn:Hle; [done|].
    assert (Hlt : ¬ (q <= inject_Z (Z.of_nat (length (ManagedRoom.players room))))%Q)
      by (intros Hq; apply Qle_bool_iff in Hq; unfold Qleb in Hle; congruence).
    rewrite Hwhole, <- Zle_Qle in Hlt. lia. }
  split.
  { intros Hnd. rewrite fmap_app. apply NoDup_app. split; [done|].
    split; [|apply NoDup_singleton]. intros id Hid Hid'.
    apply list_elem_of_singleton in Hid'. cbn in Hid'. subst id.
    by apply isMember_false in Hmember. }
  intros other Hne. apply get_set_ne. cbn. congruence.
Qed.

Lemma validated_join_fits_witness :
  ∃ room player rooms',
    get "ROOM01" exampleRooms = Some room ∧
    addPlayerToRoom "ROOM01" "dee" None exampleRooms = (Some player, rooms') ∧
    RoomPlayer.id player = "dee" ∧ RoomPlayer.isHost player = false ∧
    get "ROOM01" rooms' =
      Some (ManagedRoom.set_players (ManagedRoom.players room ++ [player]) room) ∧
    ManagedRoom.status room ≠ PLAYING ∧
    reaches (Z.of_nat (length (ManagedRoom.players room))) (ManagedRoom.maxPlayers room)
      = false ∧
    (∀ q n, ManagedRoom.maxPlayers room = Finite q → (q == inject_Z n)%Q →
            Z.of_nat (length (ManagedRoom.players room ++ [player])) ≤ n) ∧
    (NoDup (RoomPlayer.id <$> ManagedRoom.players room) →
     NoDup (RoomPlayer.id <$> ManagedRoom.players room ++ [player])) ∧
    ∀ other, other ≠ "ROOM01" → get other rooms' = get other exampleRooms.
Proof.
  apply (validated_join_fits exampleRooms "ROOM01" "dee" None). reflexivity.
Defined.

(** A room created with a limit of 2.5 takes a third player, and a room
    created with the limit "many" takes any number. *)
Example unvalidated_limit_is_passed :
  let two := [RoomPlayer.mk "ann" "Ann" true 0; RoomPlayer.mk "bea" "Bea" false 0] in
  let room limit := ManagedRoom.mk "ROOM01" "ann" two WAITING 0 limit in
  Validation.valid (validateJoinRoom "ROOM01" "cy" [room (Finite (5 # 2))]) = true ∧
  Validation.valid (validateJoinRoom "ROOM01" "cy" [room NaN]) = true ∧
  Validation.valid (validateJoinRoom "ROOM01" "cy" [room (Finite 2)]) = false.
Proof. by vm_compute. Qed.

(** X19.  A room that has been started can be neither joined nor started
    again: after [startGame] on a room of the manager, [validateJoinRoom]
    rejects every socket for that room (the room is full or the game is in
    progress) and [validateStartGame] rejects every socket. *)
Theorem started_room_is_closed (rooms : RoomManager.t) (roomCode : string)
    (room : ManagedRoom.t) (socketId : string) :
  get roomCode rooms = Some room →
  let rooms' := (startGame roomCode rooms).2 in
  Validation.valid (validateJoinRoom roomCode socketId rooms') = false ∧
  (Validation.error (validateJoinRoom roomCode socketId rooms') = Some "Room is full" ∨
   Validation.error (validateJoinRoom roomCode socketId rooms')
     = Some "Game already in progress") ∧
  Validation.valid (validateStartGame roomCode socketId rooms') = false.
Proof.
  intros Hget. unfold startGame. rewrite Hget. cbn [snd].
  pose proof (get_Some _ _ _ Hget) as [_ Hcode].
  assert (Hget' : get roomCode (set (ManagedRoom.set_status PLAYING room) rooms) =
                  Some (ManagedRoom.set_status PLAYING room)).
  { replace roomCode with (ManagedRoom.code (ManagedRoom.set_status PLAYING room))
      at 1 by done.
    apply get_set_eq. cbn. rewrite Hcode. by eapply get_has. }
  unfold validateJoinRoom, validateStartGame. rewrite Hget'.
  cbn [ManagedRoom.maxPlayers ManagedRoom.players ManagedRoom.status
       ManagedRoom.set_status ManagedRoom.hostId].
  rewrite (bool_decide_eq_true_2 (PLAYING = PLAYING)) by done.
  destruct (reaches _ (ManagedRoom.maxPlayers room)); cbn;
    (split; [done|]); (split; [auto|]); by destruct (negb _).
Qed.

Lemma started_room_is_closed_witness :
  let rooms' := (startGame "ROOM01" exampleRooms).2 in
  Validation.valid (validateJoinRoom "ROOM01" "dee" rooms') = false ∧
  (Validation.error (validateJoinRoom "ROOM01" "dee" rooms') = Some "Room is full" ∨
   Validation.error (validateJoinRoom "ROOM01" "dee" rooms')
     = Some "Game already in progress") ∧
  Validation.valid (validateStartGame "ROOM01" "dee" rooms') = false.
Proof.
  eapply (started_room_is_closed exampleRooms "ROOM01" _ "dee"). reflexivity.
Defined.

End RoomExamples.
(** ** Respawning and cleaning up *)

Section Respawn.
Import QbitCityGameStateManager QbitCityGameLoop.
Context `{JsHost}.

Lemma returns_findRespawn attempts gameState :
  returns (λ found, match found with
                    | Some spawn =>
                        onRoadTile (GameState.map gameState) spawn.1 spawn.2 ∧
                        safeFromEnemies gameState spawn = true
                    | None => True
                    end)
          (findRespawn attempts gameState).
Proof.
  induction attempts as [|n IH]; cbn [findRespawn].
  - by apply returns_ret.
  - eapply returns_bind; [apply returns_randomInterior|]. intros x _.
    eapply returns_bind; [apply returns_randomInterior|]. intros y _.
    case_bool_decide as Hroad; [|done]. cbv zeta.
    destruct (safeFromEnemies gameState (tileCentre x y)) eqn:Hsafe; [|done].
    apply returns_ret. split; [|done]. exists x, y. split; [done|].
    by destruct (tileCentre x y).
Qed.

(** The fallback scan finds a road tile of the interior whenever there is
    one. *)
Lemma firstRoadTile_spec map :
  match firstRoadTile map with
  | Some spawn => onRoadTile map spawn.1 spawn.2
  | None => ¬ hasInteriorRoad map
  end.
Proof.
  unfold firstRoadTile.
  set (I := λ (y : Z) (found : option (Q * Q)),
         match found with
         | Some spawn => onRoadTile map spawn.1 spawn.2
         | None => ∀ x0 y0, 1 ≤ x0 < MAP_WIDTH - 1 → 1 ≤ y0 < y →
                            getTile (GameMap.tiles map) x0 y0 ≠ Some ROAD
         end).
  assert (Hall : I (MAP_HEIGHT - 1) (for_range 1 (MAP_HEIGHT - 1) (λ y found,
           for_range 1 (MAP_WIDTH - 1) (λ x found,
             match found with
             | Some _ => found
             | None => if bool_decide (getTile (GameMap.tiles map) x y = Some ROAD)
                       then Some (tileCentre x y) else None
             end) found) None)).
  { apply (for_range_invariant I); [done| |].
    - intros x0 y0 _ Hy0. lia.
    - intros y found Hy Hfound.
      set (J := λ (x : Z) (found : option (Q * Q)),
             match found with
             | Some spawn => onRoadTile map spawn.1 spawn.2
             | None => ∀ x0 y0, 1 ≤ x0 < MAP_WIDTH - 1 →
                                (1 ≤ y0 < y ∨ (y0 = y ∧ x0 < x)) →
                                getTile (GameMap.tiles map) x0 y0 ≠ Some ROAD
             end).
      assert (Hrow : J (MAP_WIDTH - 1) (for_range 1 (MAP_WIDTH - 1) (λ x found,
                match found with
                | Some _ => found
                | None => if bool_decide (getTile (GameMap.tiles map) x y = Some ROAD)
                          then Some (tileCentre x y) else None
                end) found)).
      { apply (for_range_invariant J); [done| |].
        - destruct found as [spawn|]; [done|]. intros x0 y0 Hx0 [Hy0|[-> Hx]].
          + by apply Hfound.
          + lia.
        - intros x acc Hx Hacc. destruct acc as [spawn|]; [done|].
          case_bool_decide as Hroad.
          + exists x, y. split; [done|]. by destruct (tileCentre x y).
          + intros x0 y0 Hx0 [Hy0|[-> Hx0']]; [apply Hacc; auto|].
            destruct (decide (x0 = x)) as [->|]; [done|].
            apply Hacc; [done|]. right. split; [done|]. lia. }
      destruct (for_range 1 (MAP_WIDTH - 1) _ found) as [spawn|]; [done|].
      intros x0 y0 Hx0 Hy0. apply Hrow; [done|].
      destruct (decide (y0 = y)) as [->|]; [right; split; [done|lia]|left; lia]. }
  destruct (for_range 1 (MAP_HEIGHT - 1) _ None) as [spawn|]; [done|].
  intros (x & y & Hx & Hy & Hroad). by apply (Hall x y).
Qed.

(** What [respawnPlayer] does for a player of a room that has a state. *)
Lemma respawnPlayer_run roomCode playerId (w : World.t) gs i player :
  getGameState roomCode w = Some gs →
  list_find (λ p, Player.id p = playerId) (GameState.players gs) = Some (i, player) →
  ∃ spawn e',
    respawnPlayer roomCode playerId w =
      Normal (Some {| Respawned.id := Player.id player; Respawned.name := Player.name player;
                      Respawned.x := spawn.1; Respawned.y := spawn.2;
                      Respawned.speed := BASE_PLAYER_SPEED |})
        {| World.rooms := World.rooms w;
           World.roomStates :=
             <[roomCode := GameState.set_players
                             (<[i := resetPlayer spawn player]> (GameState.players gs)) gs]>
               (World.roomStates w);
           World.inputBuffers := delete playerId (World.inputBuffers w);
           World.env := e' |} ∧
    (onRoadTile (GameState.map gs) spawn.1 spawn.2 ∨
     (spawn = (0%Q, 0%Q) ∧ ¬ hasInteriorRoad (GameState.map gs))).
Proof.
  intros Hgs Hfind. unfold respawnPlayer, bind, gets. rewrite Hgs, Hfind.
  destruct (returns_findRespawn 100 gs (World.env w)) as (found & e' & Hrun & Hfound).
  unfold liftEnv. cbn [env_of with_env World_HasEnv]. rewrite Hrun.
  pose proof (firstRoadTile_spec (GameState.map gs)) as Hfirst.
  eexists _, e'. split; [unfold modify; cbn; reflexivity|].
  destruct found as [spawn|]; [left; apply Hfound|].
  destruct (firstRoadTile (GameState.map gs)) as [spawn|]; cbn; [by left|by right].
Qed.

(** X20.  [respawnPlayer] puts the first player of the room under the
    given id back into play: it returns the player's id and name with the
    new position and the base speed, resets the player's counters, speed
    and trail in the room state, deletes the player's input buffer, and
    leaves the other players, the other rooms and the other buffers as they
    were.  The new position is the centre of a road tile, unless the map
    has no road tile inside its perimeter, in which case it is (0, 0). *)
Theorem respawnPlayer_resets_the_player (roomCode playerId : string) (w : World.t)
    (gs : GameState.t) (i : nat) (player : Player.t) :
  getGameState roomCode w = Some gs →
  list_find (λ p, Player.id p = playerId) (GameState.players gs) = Some (i, player) →
  ∃ spawn e',
    respawnPlayer roomCode playerId w =
      Normal (Some {| Respawned.id := Player.id player; Respawned.name := Player.name player;
                      Respawned.x := spawn.1; Respawned.y := spawn.2;
                      Respawned.speed := BASE_PLAYER_SPEED |})
        {| World.rooms := World.rooms w;
           World.roomStates :=
             <[roomCode := GameState.set_players
                             (<[i := resetPlayer spawn player]> (GameState.players gs)) gs]>
               (World.roomStates w);
           World.inputBuffers := delete playerId (World.inputBuffers w);
           World.env := e' |} ∧
    (onRoadTile (GameState.map gs) spawn.1 spawn.2 ∨
     (spawn = (0%Q, 0%Q) ∧ ¬ hasInteriorRoad (GameState.map gs))).
Proof. apply respawnPlayer_run. Qed.

(** X21.  On a generated map a respawn always lands on a road tile: the
    search of a hundred draws may fail, but the fallback scan then finds a
    road tile of the road grid, so the (0, 0) of an empty search is never
    used. *)
Theorem respawnPlayer_lands_on_road (roomCode playerId : string) (w : World.t)
    (gs : GameState.t) (seed : Z) :
  getGameState roomCode w = Some gs →
  GameState.map gs = generateMap seed →
  playerId ∈ Player.id <$> GameState.players gs →
  ∃ respawned w',
    respawnPlayer roomCode playerId w = Normal (Some respawned) w' ∧
    Respawned.id respawned = playerId ∧
    onRoadTile (generateMap seed) (Respawned.x respawned) (Respawned.y respawned).
Proof.
  intros Hgs Hmap Hin.
  destruct (list_find (λ p, Player.id p = playerId) (GameState.players gs))
    as [[i player]|] eqn:Hfind.
  2:{ apply list_find_None in Hfind. apply list_elem_of_fmap in Hin as (p & -> & Hp).
      rewrite Forall_forall in Hfind. by destruct (Hfind p Hp). }
  destruct (respawnPlayer_run roomCode playerId w gs i player Hgs Hfind)
    as (spawn & e' & Hrun & Hspawn).
  eexists _, _. split; [exact Hrun|]. cbn.
  apply list_find_Some in Hfind as (_ & Hid & _). split; [done|].
  rewrite <- Hmap. destruct Hspawn as [?|[_ Hnone]]; [done|].
  destruct Hnone. exists 4, 1. rewrite Hmap.
  split; [unfold MAP_WIDTH; lia|]. split; [unfold MAP_HEIGHT; lia|].
  rewrite generateMap_interior by (unfold MAP_WIDTH, MAP_HEIGHT; lia).
  destruct (terrainPass_spec seed) as (_ & _ & Hroads).
  apply Hroads; [unfold MAP_WIDTH; lia|unfold MAP_HEIGHT; lia| |done].
  left. unfold MAP_HEIGHT. lia.
Qed.

(** X22.  [respawnPlayer] for a room without a state, or for an id that no
    player of the room has, returns [null] and changes nothing: no draw is
    made and no buffer is deleted. *)
Theorem respawnPlayer_unknown_changes_nothing (roomCode playerId : string) (w : World.t) :
  (∀ gs, getGameState roomCode w = Some gs →
         playerId ∉ Player.id <$> GameState.players gs) →
  respawnPlayer roomCode playerId w = Normal None w.
Proof.
  intros Hno. unfold respawnPlayer, bind, gets.
  destruct (getGameState roomCode w) as [gs|] eqn:Hgs; [|done].
  destruct (list_find _ _) as [[i player]|] eqn:Hfind; [|done].
  apply list_find_Some in Hfind as (Hi & Hid & _).
  destruct (Hno gs eq_refl). apply list_elem_of_fmap. exists player.
  split; [done|]. by eapply list_elem_of_lookup_2.
Qed.

(** X23.  [cleanupRoom] always returns; it deletes the state of the room
    and of no other room, and deletes the input buffers of the players the
    room manager still lists for the room: when the room manager has
    already dropped the room, no buffer is deleted. *)
Theorem cleanupRoom_deletes_state_and_listed_buffers (roomCode : string) (w : World.t) :
  ∃ w',
    cleanupRoom roomCode w = Normal tt w' ∧
    World.rooms w' = World.rooms w ∧ World.env w' = World.env w ∧
    World.roomStates w' = delete roomCode (World.roomStates w) ∧
    ∀ id, World.inputBuffers w' !! id =
          match getRoom roomCode w with
          | Some room =>
              if bool_decide (id ∈ (fst <$> Room.players room)) then None
              else World.inputBuffers w !! id
          | None => World.inputBuffers w !! id
          end.
Proof.
  unfold cleanupRoom, bind, modify, gets.
  change (getRoom roomCode (World.set_roomStates _ w)) with (getRoom roomCode w).
  destruct (getRoom roomCode w) as [room|]; [|by eexists].
  set (w0 := World.set_roomStates _ w).
  assert (Hloop : ∀ members w1, ∃ w',
    forEach members (λ player : string * string,
      (λ w, Normal tt (World.set_inputBuffers (delete player.1 (World.inputBuffers w)) w)))
      w1 = Normal tt w' ∧
    World.rooms w' = World.rooms w1 ∧ World.env w' = World.env w1 ∧
    World.roomStates w' = World.roomStates w1 ∧
    ∀ id, World.inputBuffers w' !! id =
          if bool_decide (id ∈ (fst <$> members)) then None
          else World.inputBuffers w1 !! id).
  { induction members as [|[pid name] members IH]; intros w1; cbn [forEach].
    - exists w1. repeat split.
    - unfold bind at 1.
      destruct (IH (World.set_inputBuffers (delete pid (World.inputBuffers w1)) w1))
        as (w' & Hrun & Hr & He & Hs & Hb).
      exists w'. split; [exact Hrun|]. repeat split; try done.
      intros id. rewrite Hb. cbn.
      destruct (decide (id = pid)) as [->|Hne].
      + rewrite (bool_decide_eq_true_2 (pid ∈ pid :: _)) by apply list_elem_of_here.
        case_bool_decide; [done|]. apply lookup_delete_eq.
      + rewrite lookup_delete_ne by done.
        case_bool_decide as Hin.
        * rewrite bool_decide_eq_true_2; [done|]. by apply list_elem_of_further.
        * rewrite bool_decide_eq_false_2; [done|].
          intros Hin'. apply elem_of_cons in Hin' as [?|?]; done. }
  destruct (Hloop (Room.players room) w0) as (w' & Hrun & Hr & He & Hs & Hb).
  exists w'. split; [exact Hrun|]. by repeat split.
Qed.

End Respawn.

Section RespawnExamples.
Import QbitCityGameStateManager QbitCityGameLoop.

Lemma respawnPlayer_resets_the_player_witness :
  let gs := exampleState [ann] [] [] in
  ∃ spawn e',
    respawnPlayer (H := exampleHost) "ROOM01" "ann" arena =
      Normal (Some {| Respawned.id := Player.id ann; Respawned.name := Player.name ann;
                      Respawned.x := spawn.1; Respawned.y := spawn.2;
                      Respawned.speed := BASE_PLAYER_SPEED |})
        {| World.rooms := World.rooms arena;
           World.roomStates :=
             <["ROOM01" := GameState.set_players
                             (<[0%nat := resetPlayer spawn ann]> (GameState.players gs)) gs]>
               (World.roomStates arena);
           World.inputBuffers := delete "ann" (World.inputBuffers arena);
           World.env := e' |} ∧
    (onRoadTile (GameState.map gs) spawn.1 spawn.2 ∨
     (spawn = (0%Q, 0%Q) ∧ ¬ hasInteriorRoad (GameState.map gs))).
Proof.
  intros gs.
  apply (respawnPlayer_resets_the_player (H := exampleHost) "ROOM01" "ann" arena gs 0 ann);
    reflexivity.
Defined.

Lemma respawnPlayer_lands_on_road_witness :
  ∃ respawned w',
    respawnPlayer (H := exampleHost) "ROOM01" "ann" arena = Normal (Some respawned) w' ∧
    Respawned.id respawned = "ann" ∧
    onRoadTile (generateMap 42) (Respawned.x respawned) (Respawned.y respawned).
Proof.
  apply (respawnPlayer_lands_on_road (H := exampleHost) "ROOM01" "ann" arena
           (exampleState [ann] [] []) 42); [reflexivity|reflexivity|].
  apply list_elem_of_fmap. exists ann. split; [reflexivity|apply list_elem_of_here].
Defined.

Lemma respawnPlayer_unknown_changes_nothing_witness :
  respawnPlayer (H := exampleHost) "ROOM01" "zed" arena = Normal None arena.
Proof.
  apply (respawnPlayer_unknown_changes_nothing (H := exampleHost)).
  intros gs [= <-]. cbn. intros Hin. apply list_elem_of_singleton in Hin. discriminate.
Defined.

End RespawnExamples.
(** ** Further edges of the buffer, the tick and the passes *)

Section BufferEdges.
Import QbitCityGameStateManager.

Lemma sortByTimestamp_snoc l a :
  sortByTimestamp (l ++ [a]) = insertByTimestamp a (sortByTimestamp l).
Proof. unfold sortByTimestamp. by rewrite foldl_snoc. Qed.

(** A buffer that is in order is left as it is by the sort. *)
Lemma sortByTimestamp_sorted l : inTimestampOrder l → sortByTimestamp l = l.
Proof.
  induction l as [|a l IH] using rev_ind; intros Hl; [done|].
  rewrite sortByTimestamp_snoc.
  unfold inTimestampOrder in Hl.
  apply StronglySorted_app in Hl as (Hla & Hl & _).
  rewrite IH by exact Hl.
  apply insertByTimestamp_last.
  apply Forall_forall. intros b Hb. apply Hla; [done|apply list_elem_of_here].
Qed.

(** X24.  A full buffer drops an input that is older than all it holds:
    when the buffer of the player holds sixty inputs in timestamp order,
    all stamped later than the new input, [bufferPlayerInput] leaves the
    buffers of the state manager exactly as they were. *)
Theorem bufferPlayerInput_full_buffer_drops_stale_input
    (playerId : string) (input : option Keys.t) (timestamp : Z)
    (inputBuffers : gmap string (list Input.t)) (buffer : list Input.t) :
  inputBuffers !! playerId = Some buffer →
  length buffer = 60%nat →
  inTimestampOrder buffer →
  Forall (λ b, timestamp < Input.timestamp b) buffer →
  bufferPlayerInput playerId input timestamp inputBuffers = inputBuffers.
Proof.
  intros Hbuf Hlen Hord Hlate. unfold bufferPlayerInput.
  rewrite bool_decide_eq_true_2 by (by rewrite Hbuf). cbv zeta. rewrite Hbuf.
  cbn [default]. rewrite sortByTimestamp_snoc, sortByTimestamp_sorted by done.
  destruct buffer as [|b buffer]; [done|].
  apply Forall_cons in Hlate as [Hb _]. unfold id.
  cbn [insertByTimestamp Input.timestamp].
  replace (Input.timestamp b <=? timestamp) with false by (symmetry; apply Z.leb_gt; lia).
  replace (60 <? _) with true
    by (symmetry; apply Z.ltb_lt; cbn [length] in *; lia).
  cbn [tail]. by apply insert_id.
Qed.

Lemma bufferPlayerInput_full_buffer_drops_stale_input_witness :
  bufferPlayerInput "ann" None 50 {[ "ann" := fullBuffer ]} = {[ "ann" := fullBuffer ]}.
Proof.
  apply (bufferPlayerInput_full_buffer_drops_stale_input "ann" None 50 _ fullBuffer).
  - apply lookup_singleton_eq.
  - reflexivity.
  - unfold fullBuffer, inTimestampOrder.
    generalize 60%nat. intros n. induction n as [|n IH]; cbn; constructor; [done|].
    apply Forall_forall. intros b Hb. apply elem_of_replicate in Hb as [-> _]. done.
  - apply Forall_forall. intros b Hb. apply elem_of_replicate in Hb as [-> _]. cbn. lia.
Defined.

End BufferEdges.

Section TickEdges.
Import QbitCityGameStateManager QbitCityGameLoop.
Context `{JsHost}.
Variable io : IO.

Lemma forEach_tickRoom_not_playing currentTime rooms w other :
  (∀ room, room ∈ rooms → Room.code room = other → Room.status room ≠ PLAYING) →
  match forEach rooms (tickRoom io currentTime) w with
  | Normal _ w' | Thrown _ w' =>
      getGameState other w' = getGameState other w ∧ World.rooms w' = World.rooms w
  | Diverged => True
  end.
Proof.
  revert w. induction rooms as [|room rooms IH]; intros w Hother; cbn [forEach]; [done|].
  assert (Hroom : match tickRoom io currentTime room w with
                  | Normal _ w' | Thrown _ w' =>
                      getGameState other w' = getGameState other w ∧
                      World.rooms w' = World.rooms w
                  | Diverged => True
                  end).
  { unfold tickRoom. case_bool_decide as Hplaying; [|done].
    assert (Hne : other ≠ Room.code room).
    { intros ->. apply (Hother room); [apply list_elem_of_here|done|done]. }
    unfold updateRoom. destruct (getGameState (Room.code room) w); [|done].
    destruct (updateRoomState _ _ _ _ _) as [[] s|e s|]; [| |done];
      unfold getGameState, storeRoom; cbn; by rewrite lookup_insert_ne. }
  unfold bind. destruct (tickRoom io currentTime room w) as [[] w1|e w1|]; [|done|done].
  destruct Hroom as [Hs Hr].
  specialize (IH w1 ltac:(intros r Hr'; apply Hother; by apply list_elem_of_further)).
  destruct (forEach rooms _ w1); [| |done]; destruct IH; split; congruence.
Qed.

(** X25.  A tick only writes the states of the rooms that play: the state
    filed under a code that no PLAYING room of the room manager has is the
    same after the tick, and so is the list of rooms, whether the tick
    returns or throws. *)
Theorem tick_leaves_rooms_that_do_not_play (w : World.t) (roomCode : string) :
  (∀ room, room ∈ World.rooms w → Room.code room = roomCode →
           Room.status room ≠ PLAYING) →
  match tick io w with
  | Normal _ w' | Thrown _ w' =>
      getGameState roomCode w' = getGameState roomCode w ∧
      World.rooms w' = World.rooms w
  | Diverged => True
  end.
Proof.
  intros Hwaiting. rewrite tick_rooms. by apply forEach_tickRoom_not_playing.
Qed.

End TickEdges.

Section TickEdgeExamples.
Import QbitCityGameStateManager QbitCityGameLoop.

Lemma tick_leaves_rooms_that_do_not_play_witness :
  match tick (H := exampleHost) deliver threeRooms with
  | Normal _ w' | Thrown _ w' =>
      getGameState "W" w' = getGameState "W" threeRooms ∧
      World.rooms w' = World.rooms threeRooms
  | Diverged => True
  end.
Proof.
  apply (tick_leaves_rooms_that_do_not_play (H := exampleHost)).
  intros room Hin Hcode. cbn in Hin.
  repeat (apply elem_of_cons in Hin as [->|Hin]; [by try discriminate|]).
  by apply elem_of_nil in Hin.
Defined.

End TickEdgeExamples.
(** ** The socket handlers *)

Section HandlerLemmas.
Import QbitCityGameStateManager Handlers.

Lemma get_remove roomCode rooms : RoomManager.get roomCode (RoomManager.remove roomCode rooms) = None.
Proof.
  unfold RoomManager.get, RoomManager.remove. induction rooms as [|r rooms IH]; [done|]. cbn.
  destruct (bool_decide (ManagedRoom.code r = roomCode)) eqn:E; cbn; [done|].
  by rewrite E.
Qed.

(** The state manager finds the rooms the room manager has. *)
Lemma getRoom_world roomCode s :
  getRoom roomCode (world s) =
  roomView <$> RoomManager.get roomCode (Server.rooms s).
Proof.
  unfold getRoom, RoomManager.get, world. cbn [World.rooms].
  induction (Server.rooms s) as [|r rooms IH]; [done|]. cbn.
  by destruct (bool_decide (ManagedRoom.code r = roomCode)).
Qed.

(** A removal that deletes the room leaves the rooms of the other codes. *)
Lemma removePlayerFromRoom_deleted roomCode socketId rooms result rooms' :
  RoomManager.removePlayerFromRoom roomCode socketId rooms = (Some result, rooms') →
  Removal.roomDeleted result = true →
  rooms' = RoomManager.remove roomCode rooms.
Proof.
  unfold RoomManager.removePlayerFromRoom. destruct (RoomManager.get roomCode rooms) as [room|]; [|done].
  destruct (list_find _ _) as [[i p]|]; [|done]. cbv zeta.
  destruct (RoomManager.promoteFirst _ _) as [room' newHost].
  destruct (_ =? 0); intros [= <- <-]; [done|discriminate].
Qed.

(** Without the room, cleaning up deletes the room state and nothing else. *)
Lemma cleanupRoom_room_gone roomCode (w : World.t) :
  getRoom roomCode w = None →
  cleanupRoom roomCode w =
  Normal tt (World.set_roomStates (delete roomCode (World.roomStates w)) w).
Proof.
  intros Hgone. unfold cleanupRoom, bind, modify, gets.
  assert (Hsame : getRoom roomCode
                    (World.set_roomStates (delete roomCode (World.roomStates w)) w) = None)
    by done.
  by rewrite Hsame.
Qed.

Lemma playerOf_Some socketId s roomCode gameState i player :
  playerOf socketId s = Some (roomCode, gameState, i, player) →
  Server.roomStates s !! roomCode = Some gameState ∧
  GameState.players gameState !! i = Some player ∧
  Player.id player = socketId.
Proof.
  unfold playerOf. destruct (playingRoomOf socketId s) as [code|]; [|done].
  destruct (Server.roomStates s !! code) as [gs|] eqn:Hgs; [|done].
  unfold findPlayer. destruct (list_find _ _) as [[j p]|] eqn:Hfind; [|done].
  intros [= <- <- <- <-]. apply list_find_Some in Hfind as (Hj & Hid & _). done.
Qed.

Lemma statesBounded_insert roomStates roomCode gameState :
  statesBounded roomStates → countersBounded gameState →
  statesBounded (<[roomCode := gameState]> roomStates).
Proof.
  intros Hall Hgs code gs. destruct (decide (roomCode = code)) as [->|Hne].
  - rewrite lookup_insert_eq. by intros [= <-].
  - rewrite lookup_insert_ne by done. apply Hall.
Qed.

End HandlerLemmas.

Section HandlerTheorems.
Import QbitCityGameStateManager Handlers.

(** X26.  [start_game] from anybody but the host of a room that does not
    play yet changes nothing: when the room of the socket, if it has one,
    has another host or plays already, the handler leaves rooms, room
    states, buffers and environment as they are, and emits one
    [start_error], to the socket alone, whatever [io] is. *)
Theorem start_game_refused_changes_nothing `{JsHost}
    (io : RoomIO) (fuel : nat) (socketId : string) (s : Server.t) :
  (∀ roomCode room,
     RoomManager.getRoomCodeForSocket socketId (Server.rooms s) = Some roomCode →
     RoomManager.getRoom roomCode (Server.rooms s) = Some room →
     ManagedRoom.hostId room ≠ socketId ∨ ManagedRoom.status room = PLAYING) →
  ∃ message,
    onStartGame io fuel socketId s =
    Normal tt (Server.set_sent
                 (Server.sent s ++ [(ToSocket socketId, start_error message)]) s).
Proof.
  intros Hrefused. unfold onStartGame, try_catch, bind, gets, socketEmit.
  destruct (RoomManager.getRoomCodeForSocket socketId (Server.rooms s))
    as [roomCode|] eqn:Hcode; [|by eexists].
  unfold RoomManager.validateStartGame.
  destruct (RoomManager.get roomCode (Server.rooms s)) as [room|] eqn:Hroom; [|by eexists].
  destruct (Hrefused roomCode room eq_refl Hroom) as [Hhost|Hplaying].
  - rewrite (bool_decide_eq_false_2 _ Hhost). by eexists.
  - destruct (bool_decide (ManagedRoom.hostId room = socketId)); cbn [negb];
      [|by eexists].
    rewrite (bool_decide_eq_true_2 _ Hplaying). by eexists.
Qed.

(** X27.  [player_input] never throws and writes nothing but the buffer of
    its sender, for a payload that is missing or stamps its input with a
    whole number of milliseconds or not at all: rooms, room states,
    environment and what was emitted are as before, the buffers of the
    other sockets are as before, and when all buffers were within 60
    entries and in timestamp order they still are.  This holds for a socket
    that does not play too.  (A timestamp that is not a number is forwarded
    by the handler as it is, and is not covered.) *)
Theorem player_input_writes_one_bounded_buffer
    (socketId : string) (inputData : option InputData.t) (s : Server.t) :
  ∃ buffers,
    onPlayerInput socketId inputData s =
      Normal tt (Server.set_inputBuffers buffers s) ∧
    (∀ other, other ≠ socketId → buffers !! other = Server.inputBuffers s !! other) ∧
    (buffersBounded (Server.inputBuffers s) → buffersBounded buffers).
Proof.
  assert (Hnothing : ∃ buffers,
            Normal tt s = Normal tt (Server.set_inputBuffers buffers s) ∧
            (∀ other, other ≠ socketId →
                      buffers !! other = Server.inputBuffers s !! other) ∧
            (buffersBounded (Server.inputBuffers s) → buffersBounded buffers)).
  { exists (Server.inputBuffers s). by destruct s. }
  assert (Hpush : ∀ keys timestamp,
            (∀ other, other ≠ socketId →
               bufferPlayerInput socketId keys timestamp (Server.inputBuffers s) !! other =
               Server.inputBuffers s !! other)).
  { intros keys timestamp other Hne. unfold bufferPlayerInput. cbv zeta.
    rewrite lookup_insert_ne by done. case_bool_decide; [done|].
    by rewrite lookup_insert_ne. }
  unfold onPlayerInput, try_catch, bind, gets.
  destruct (playingRoomOf socketId s) as [roomCode|]; [|exact Hnothing].
  destruct inputData as [inputData|]; [|exact Hnothing].
  assert (Hserver : liftEnv Date_now s = Normal (clock (Server.env s)) s)
    by (by destruct s).
  destruct (InputData.timestamp inputData) as [t|]; [destruct (t =? 0)|];
    rewrite ?Hserver; unfold ret, modify; eexists;
    (split; [reflexivity|split; [apply Hpush|apply bufferPlayerInput_bounded]]).
Qed.

(** X28.  The three actions of a player keep the counters within bounds
    and never throw: after [use_portal], [deploy_sink] or
    [activate_immunity], whoever sends it and whether [io] delivers or
    throws, the players of every room state still have their counters
    within bounds when they had before, and rooms and input buffers are as
    they were. *)
Theorem actions_keep_counters_bounded (io : RoomIO) (socketId : string) (s : Server.t) :
  statesBounded (Server.roomStates s) →
  Forall (λ action : RoomIO → string → M Server.t unit,
            ∃ s', action io socketId s = Normal tt s' ∧
                  statesBounded (Server.roomStates s') ∧
                  Server.rooms s' = Server.rooms s ∧
                  Server.inputBuffers s' = Server.inputBuffers s)
         [onUsePortal; onDeploySink; onActivateImmunity].
Proof.
  intros Hall.
  assert (Hplayer : ∀ roomCode gameState i player,
            playerOf socketId s = Some (roomCode, gameState, i, player) →
            countersBounded gameState ∧ withinBounds player ∧
            GameState.players gameState !! i = Some player).
  { intros roomCode gameState i player Hfound.
    apply playerOf_Some in Hfound as (Hgs & Hi & _).
    specialize (Hall _ _ Hgs) as Hb. split; [done|split; [|done]].
    by apply (Forall_lookup_1 _ _ _ _ Hb Hi). }
  assert (Hnow : liftEnv Date_now s = Normal (clock (Server.env s)) s)
    by (by destruct s).
  apply Forall_cons; split; [|apply Forall_cons; split; [|apply Forall_singleton]].
  - unfold onUsePortal, try_catch, bind, gets, socketEmit.
    destruct (playerOf socketId s) as [[[[roomCode gameState] i] player]|] eqn:Hfound;
      [|by eexists].
    destruct (Hplayer _ _ _ _ eq_refl) as (Hgs & Hp & Hi).
    destruct (Qltb (Player.energy player) 1); [by eexists|].
    cbv zeta. rewrite Hnow. unfold liftEnv, Math_random, putState, emitToRoom.
    destruct (refuses io roomCode _); unfold send, modify, throw, ret;
      (eexists; split; [reflexivity|]; cbn; split; [|done];
       apply statesBounded_insert; [done|]; unfold countersBounded; cbn;
       apply Forall_insert; [done|]; unfold withinBounds in *; cbn;
       intuition (try done)).
  - unfold onDeploySink, try_catch, bind, gets, socketEmit.
    destruct (playerOf socketId s) as [[[[roomCode gameState] i] player]|] eqn:Hfound;
      [|by eexists].
    destruct (Hplayer _ _ _ _ eq_refl) as (Hgs & Hp & Hi).
    destruct (Player.sinkInventory player <=? 0) eqn:Hsinks; [by eexists|].
    apply Z.leb_gt in Hsinks.
    cbv zeta. rewrite Hnow. unfold liftEnv, Math_random, putState, emitToRoom.
    destruct (refuses io roomCode _); unfold send, modify, throw, ret;
      (eexists; split; [reflexivity|]; cbn; split; [|done];
       apply statesBounded_insert; [done|]; unfold countersBounded; cbn;
       apply Forall_insert; [done|]; unfold withinBounds in *; cbn; intuition lia).
  - unfold onActivateImmunity, try_catch, bind, gets, socketEmit.
    destruct (playerOf socketId s) as [[[[roomCode gameState] i] player]|] eqn:Hfound;
      [|by eexists].
    destruct (Hplayer _ _ _ _ eq_refl) as (Hgs & Hp & Hi).
    destruct (Player.immunityInventory player <=? 0) eqn:Hstored; [by eexists|].
    apply Z.leb_gt in Hstored.
    destruct (Player.immunityActive player); [by eexists|].
    cbv zeta. unfold putState, emitToRoom.
    destruct (refuses io roomCode _); unfold send, modify, throw, ret;
      (eexists; split; [reflexivity|]; cbn; split; [|done];
       apply statesBounded_insert; [done|]; unfold countersBounded; cbn;
       apply Forall_insert; [done|]; unfold withinBounds in *; cbn; intuition lia).
Qed.

(** X29.  A disconnect never deletes an input buffer.  The handler has no
    [try]: it returns, or it throws what [io] throws when it emits
    [player_left]; either way the input buffers of the state manager and
    the environment are the same after it, and with an [io] that delivers
    it returns.  When the last player leaves, [cleanupRoom] runs after the
    room manager has deleted the room, so it finds no players whose buffers
    it would delete. *)
Theorem disconnect_keeps_input_buffers (io : RoomIO) (socketId : string) (s : Server.t) :
  match onDisconnect io socketId s with
  | Normal _ s' =>
      Server.inputBuffers s' = Server.inputBuffers s ∧ Server.env s' = Server.env s
  | Thrown error s' =>
      Server.inputBuffers s' = Server.inputBuffers s ∧ Server.env s' = Server.env s ∧
      ∃ roomCode notice, refuses io roomCode notice = Some error
  | Diverged => False
  end.
Proof.
  unfold onDisconnect, bind, gets.
  destruct (RoomManager.getRoomCodeForSocket socketId (Server.rooms s)) as [roomCode|];
    [|done].
  unfold onRooms.
  destruct (RoomManager.removePlayerFromRoom roomCode socketId (Server.rooms s))
    as [[result|] rooms'] eqn:Hremoved; [|done].
  destruct (Removal.roomDeleted result) eqn:Hdeleted; cbn [negb].
  - apply (removePlayerFromRoom_deleted _ _ _ _ _ Hremoved) in Hdeleted as ->.
    unfold onWorld. rewrite cleanupRoom_room_gone; [done|].
    rewrite getRoom_world. cbn [Server.rooms Server.set_rooms]. by rewrite get_remove.
  - destruct (RoomManager.getRoom roomCode _) as [room|]; [|done].
    unfold emitToRoom. destruct (refuses io roomCode _) as [error|] eqn:Hio; [|done].
    cbn. split; [done|]. split; [done|]. by eexists _, _.
Qed.

(** X30.  When the last player of a room disconnects, the room and its
    game state go and nobody is told: the room manager has no room under
    the code any more, the state manager has no state under it, and
    nothing is emitted, so [io] cannot throw. *)
Theorem disconnect_of_last_player_deletes_room
    (io : RoomIO) (socketId roomCode : string) (room : ManagedRoom.t)
    (player : RoomPlayer.t) (s : Server.t) :
  RoomManager.getRoomCodeForSocket socketId (Server.rooms s) = Some roomCode →
  RoomManager.getRoom roomCode (Server.rooms s) = Some room →
  ManagedRoom.players room = [player] →
  RoomPlayer.id player = socketId →
  ∃ s', onDisconnect io socketId s = Normal tt s' ∧
        RoomManager.getRoom roomCode (Server.rooms s') = None ∧
        Server.roomStates s' !! roomCode = None ∧
        Server.sent s' = Server.sent s.
Proof.
  intros Hcode Hroom Hplayers Hid. unfold onDisconnect, bind, gets. rewrite Hcode.
  unfold onRooms, RoomManager.removePlayerFromRoom.
  unfold RoomManager.getRoom in Hroom. rewrite Hroom, Hplayers.
  cbn [list_find]. rewrite decide_True by done. cbn [fmap option_fmap option_map].
  cbv zeta. cbn [delete list_delete ManagedRoom.players ManagedRoom.set_players].
  unfold RoomManager.promoteFirst. cbn [length ManagedRoom.players ManagedRoom.set_players].
  rewrite andb_false_r.
  change (Z.of_nat (length (ManagedRoom.players (ManagedRoom.set_players [] room))) =? 0)
    with true.
  cbv beta iota. cbn [negb Removal.roomDeleted].
  unfold onWorld. rewrite cleanupRoom_room_gone
    by (rewrite getRoom_world; cbn [Server.rooms Server.set_rooms];
        by rewrite get_remove).
  eexists. split; [reflexivity|]. cbn. split; [apply get_remove|].
  split; [apply lookup_delete_eq|done].
Qed.

End HandlerTheorems.

Section HandlerExamples.
Import QbitCityGameStateManager Handlers.

Lemma start_game_refused_changes_nothing_witness :
  ∃ message,
    onStartGame (H := exampleHost) delivering 100 "bea" exampleServer =
    Normal tt (Server.set_sent [(ToSocket "bea", start_error message)] exampleServer).
Proof.
  apply (start_game_refused_changes_nothing (H := exampleHost) delivering 100 "bea"
           exampleServer).
  intros roomCode room [= <-] [= <-]. left. discriminate.
Defined.

Lemma exampleServer_bounded : statesBounded (Server.roomStates exampleServer).
Proof.
  intros roomCode gameState Hstate. cbn in Hstate.
  apply lookup_singleton_Some in Hstate as [_ <-].
  apply Forall_singleton. unfold withinBounds. cbn.
  unfold COINS_FOR_IMMUNITY, MAX_IMMUNITY_INVENTORY. repeat split; (lia || done).
Qed.

Lemma actions_keep_counters_bounded_witness :
  Forall (λ action : RoomIO → string → M Server.t unit,
            ∃ s', action delivering "cy" exampleServer = Normal tt s' ∧
                  statesBounded (Server.roomStates s') ∧
                  Server.rooms s' = exampleRooms ∧
                  Server.inputBuffers s' = Server.inputBuffers exampleServer)
         [onUsePortal; onDeploySink; onActivateImmunity].
Proof.
  apply (actions_keep_counters_bounded delivering "cy" exampleServer).
  apply exampleServer_bounded.
Defined.

Lemma disconnect_of_last_player_deletes_room_witness :
  ∃ s', onDisconnect delivering "cy" exampleServer = Normal tt s' ∧
        RoomManager.getRoom "ROOM02" (Server.rooms s') = None ∧
        Server.roomStates s' !! "ROOM02" = None ∧
        Server.sent s' = [].
Proof.
  eapply (disconnect_of_last_player_deletes_room delivering "cy" "ROOM02" _
            (RoomPlayer.mk "cy" "Cy" true 0) exampleServer); reflexivity.
Defined.

(** A guest leaves while [io] throws: the disconnect throws, the guest is
    gone from the room, and the buffers are as before. *)
Example disconnect_throws_what_io_throws :
  let io := {| refuses := λ _ _, Some "io failed" |} in
  match onDisconnect io "bea" exampleServer with
  | Thrown error s' =>
      error = "io failed" ∧
      Server.inputBuffers s' = Server.inputBuffers exampleServer ∧
      (ManagedRoom.players <$> RoomManager.getRoom "ROOM01" (Server.rooms s'))
        = Some [RoomPlayer.mk "ann" "Ann" true 0]
  | _ => False
  end.
Proof. by vm_compute. Qed.

End HandlerExamples.
(** ** The schedule of the coin spawner *)

Section CoinCalls.
Import QbitCityGameStateManager QbitCityGameLoop.
Context `{JsHost}.

Lemma coinAt_afterDraws e k : coinAt (afterDraws 2 e) k = coinAt e (S k).
Proof.
  unfold coinAt. rewrite drawnTile_afterDraws. cbn [clock random_draws random_next afterDraws].
  replace (2 * k + 2 + (2 + random_next e))%nat
    with (2 * S k + 2 + random_next e)%nat by lia.
  done.
Qed.

(** A tile that is no coin spot sends the search to its next round. *)
Lemma spawnCoinAttempts_miss n gameState e :
  coinSpot gameState (drawnTile e 0) = false →
  spawnCoinAttempts (S n) gameState e = spawnCoinAttempts n gameState (afterDraws 2 e).
Proof.
  intros Hmiss. cbn [spawnCoinAttempts]. rewrite drawTile_run.
  unfold coinSpot, isRoad in Hmiss.
  case_bool_decide as Hroad; [|done]. cbn [andb] in Hmiss.
  destruct (tileCentre _ _) as [cx cy]. cbn [fst snd] in Hmiss.
  by rewrite Hmiss.
Qed.

(** The search places its coin on the first coin spot it draws. *)
Lemma spawnCoinAttempts_first gameState n : ∀ k e,
  (k < n)%nat →
  (∀ j, (j < k)%nat → coinSpot gameState (drawnTile e j) = false) →
  coinSpot gameState (drawnTile e k) = true →
  spawnCoinAttempts n gameState e =
    Normal (withCoins [coinAt e k] gameState) (afterDraws (2 * k + 3) e).
Proof.
  induction n as [|n IH]; intros k e Hk Hbefore Hspot; [lia|].
  destruct k as [|k].
  - cbn [spawnCoinAttempts]. rewrite drawTile_run.
    unfold coinSpot, isRoad in Hspot. apply andb_true_iff in Hspot as [Hroad Hfar].
    rewrite Hroad. unfold coinAt, withCoins.
    destruct (tileCentre _ _) as [cx cy]. cbn [fst snd] in *. rewrite Hfar.
    reflexivity.
  - rewrite spawnCoinAttempts_miss by (apply Hbefore; lia).
    rewrite (IH k (afterDraws 2 e)); [|lia| |].
    + rewrite coinAt_afterDraws, afterDraws_add. do 2 f_equal. lia.
    + intros j Hj. rewrite drawnTile_afterDraws. apply Hbefore. lia.
    + by rewrite drawnTile_afterDraws.
Qed.

(** Without a coin spot among its tiles the search places nothing. *)
Lemma spawnCoinAttempts_none gameState n : ∀ e,
  (∀ j, (j < n)%nat → coinSpot gameState (drawnTile e j) = false) →
  spawnCoinAttempts n gameState e = Normal gameState (afterDraws (2 * n) e).
Proof.
  induction n as [|n IH]; intros e Hnone.
  - cbn [spawnCoinAttempts]. by rewrite afterDraws_0.
  - rewrite spawnCoinAttempts_miss by (apply Hnone; lia).
    rewrite IH.
    + rewrite afterDraws_add. do 2 f_equal. lia.
    + intros j Hj. rewrite drawnTile_afterDraws. apply Hnone. lia.
Qed.

(** C9, as the code has it.  A room starts without coins and waits between
    10 and 15 seconds for its first spawn.  The coin part of
    [handleSpawning] makes 20 calls of [spawnCoin] the first time it runs,
    and none later; when the spawn interval has elapsed it restarts the
    timer, draws the next interval from [3, 7) seconds and makes 3 to 5
    calls of [spawnCoin], and otherwise it only advances the timer.  A
    call of [spawnCoin] does nothing once 40 uncollected coins exist;
    below 40 it places exactly one coin, uncollected, at the centre of the
    first of the up to 100 tiles it draws that is a road tile no nearer
    than 200 to any player, and it places none when none of its 100 tiles
    is such a tile.  A room with at most 40 uncollected coins keeps at most
    40. *)
Theorem coin_spawning_schedule :
  (∀ fuel roomCode mapSeed w gameState w',
     unitDraws (World.env w) →
     initializeRoom fuel roomCode mapSeed w = Normal (Some gameState) w' →
     GameState.coins gameState = [] ∧
     GameState.coinsInitialized gameState = false ∧
     GameState.coinSpawnTimer gameState = 0%Q ∧
     (10 <= GameState.nextCoinSpawnTime gameState)%Q ∧
     (GameState.nextCoinSpawnTime gameState < 15)%Q) ∧
  (∀ gameState deltaTime e,
     GameState.coinsInitialized gameState = false →
     handleCoinSpawning gameState deltaTime e =
       bind (repeatSpawn 20 spawnCoin (GameState.set_coinsInitialized true gameState))
            (λ seeded, handleCoinSpawning seeded deltaTime) e) ∧
  (∀ gameState deltaTime e,
     unitDraws e →
     GameState.coinsInitialized gameState = true →
     if coinsDue gameState deltaTime
     then ∃ n restarted e2,
            3 ≤ n ≤ 5 ∧
            handleCoinSpawning gameState deltaTime e
              = repeatSpawn n spawnCoin restarted e2 ∧
            GameState.coins restarted = GameState.coins gameState ∧
            GameState.coinSpawnTimer restarted = 0%Q ∧
            (3 <= GameState.nextCoinSpawnTime restarted)%Q ∧
            (GameState.nextCoinSpawnTime restarted < 7)%Q
     else handleCoinSpawning gameState deltaTime e =
            Normal (GameState.set_coinSpawnTimer
                      (GameState.coinSpawnTimer gameState + deltaTime) gameState) e) ∧
  (∀ gameState e,
     (40 ≤ length (uncollectedCoins gameState))%nat →
     spawnCoin gameState e = Normal gameState e) ∧
  (∀ gameState e k,
     (length (uncollectedCoins gameState) < 40)%nat → (k < 100)%nat →
     (∀ j, (j < k)%nat → coinSpot gameState (drawnTile e j) = false) →
     coinSpot gameState (drawnTile e k) = true →
     spawnCoin gameState e =
       Normal (withCoins [coinAt e k] gameState) (afterDraws (2 * k + 3) e)) ∧
  (∀ gameState e,
     (length (uncollectedCoins gameState) < 40)%nat →
     (∀ j, (j < 100)%nat → coinSpot gameState (drawnTile e j) = false) →
     spawnCoin gameState e = Normal gameState (afterDraws 200 e)) ∧
  (∀ gameState deltaTime e,
     unitDraws e →
     (length (uncollectedCoins gameState) ≤ 40)%nat →
     ∃ new gameState' e',
       handleCoinSpawning gameState deltaTime e = Normal gameState' e' ∧
       GameState.coins gameState' = GameState.coins gameState ++ new ∧
       Forall (λ c, Coin.collected c = false) new ∧
       (length new ≤ (if GameState.coinsInitialized gameState then 0 else 20)
                     + (if coinsDue gameState deltaTime then 5 else 0))%nat ∧
       GameState.coinsInitialized gameState' = true ∧
       (length (uncollectedCoins gameState') ≤ 40)%nat).
Proof.
  split; [apply initializeRoom_coins|].
  split; [apply handleCoinSpawning_seeds|].
  assert (Hstep : ∀ gameState deltaTime e,
            unitDraws e →
            GameState.coinsInitialized gameState = true →
            (length (uncollectedCoins gameState) ≤ 40)%nat →
            ∃ new gameState' e',
              handleCoinSpawning gameState deltaTime e = Normal gameState' e' ∧
              GameState.coins gameState' = GameState.coins gameState ++ new ∧
              Forall (λ c, Coin.collected c = false) new ∧
              (length new ≤ (if coinsDue gameState deltaTime then 5 else 0))%nat ∧
              GameState.coinsInitialized gameState' = true ∧
              (length (uncollectedCoins gameState') ≤ 40)%nat).
  { intros gameState deltaTime e Hunit Hinit Hcap.
    destruct (coinsDue gameState deltaTime) eqn:Hdue.
    - destruct (handleCoinSpawning_bursts gameState deltaTime e Hunit Hinit Hdue)
        as (n & restarted & e2 & Hn & Hrun & _ & Hcoins & Hinit' & _).
      destruct (repeatSpawn_adds n restarted e2) as (new & e' & Hrun' & _ & Hnew & Hlen & Hcap').
      exists new, (withCoins new restarted), e'.
      assert (Huncol : uncollectedCoins restarted = uncollectedCoins gameState)
        by (unfold uncollectedCoins; by rewrite Hcoins).
      rewrite uncollectedCoins_withCoins, length_app by done.
      rewrite Huncol in *. cbn [withCoins GameState.coins GameState.set_coins
        GameState.coinsInitialized]. rewrite Hcoins.
      repeat split; [congruence|done|lia|done|lia].
    - rewrite handleCoinSpawning_waits by done. eexists [], _, e.
      split; [reflexivity|]. rewrite app_nil_r. repeat split; simpl; auto. }
  split; [|split; [|split; [|split]]].
  - intros gameState deltaTime e Hunit Hinit.
    destruct (coinsDue gameState deltaTime) eqn:Hdue.
    + destruct (handleCoinSpawning_bursts gameState deltaTime e Hunit Hinit Hdue)
        as (n & restarted & e2 & Hn & Hrun & _ & Hcoins & _ & Htimer & Hlo & Hhi).
      by exists n, restarted, e2.
    + by apply handleCoinSpawning_waits.
  - intros gameState e Hfull. unfold spawnCoin.
    by replace (40 <=? _) with true by (symmetry; apply Z.leb_le; lia).
  - intros gameState e k Hroom Hk Hbefore Hspot. unfold spawnCoin.
    replace (40 <=? _) with false by (symmetry; apply Z.leb_gt; lia).
    by apply spawnCoinAttempts_first.
  - intros gameState e Hroom Hnone. unfold spawnCoin.
    replace (40 <=? _) with false by (symmetry; apply Z.leb_gt; lia).
    by apply spawnCoinAttempts_none.
  - intros gameState deltaTime e Hunit Hcap.
    destruct (GameState.coinsInitialized gameState) eqn:Hinit.
    + by apply Hstep.
    + rewrite handleCoinSpawning_seeds by done. unfold bind.
      destruct (repeatSpawn_adds 20 (GameState.set_coinsInitialized true gameState) e)
        as (seed & e1 & Hrun & Hd & Hseed & Hlen & Hcap1).
      rewrite Hrun.
      assert (Hcap2 : (length (uncollectedCoins
                                 (withCoins seed (GameState.set_coinsInitialized true gameState)))
                       ≤ 40)%nat).
      { rewrite uncollectedCoins_withCoins, length_app by done.
        change (uncollectedCoins (GameState.set_coinsInitialized true gameState))
          with (uncollectedCoins gameState) in *. lia. }
      destruct (Hstep (withCoins seed (GameState.set_coinsInitialized true gameState))
                  deltaTime e1) as (new & gameState' & e' & Hrun' & Hcoins & Hnew & Hlen' & Hinit' & Hcap');
        [intros k; rewrite Hd; apply Hunit | done | done |].
      exists (seed ++ new), gameState', e'.
      change (coinsDue (withCoins seed (GameState.set_coinsInitialized true gameState)) deltaTime)
        with (coinsDue gameState deltaTime) in Hlen'.
      cbn [withCoins GameState.coins GameState.set_coins GameState.set_coinsInitialized]
        in Hcoins.
      rewrite length_app, app_assoc.
      repeat split; [done|done|by apply Forall_app|simpl in *; lia|done|done].
Qed.

End CoinCalls.

Section CoinScheduleExamples.
Import QbitCityGameStateManager QbitCityGameLoop.

(** A call of [spawnCoin] that places a coin: the first tile drawn, (8, 8),
    is road and far from the only player. *)
Lemma coin_spawning_schedule_witness :
  let gameState := exampleState [ann] [] [] in
  let e := constantEnv (7 # 48) 1000 in
  drawnTile e 0 = (8, 8) ∧
  spawnCoin (H := exampleHost) gameState e =
    Normal (withCoins [coinAt e 0] gameState) (afterDraws (2 * 0 + 3) e).
Proof.
  intros gameState e. split; [reflexivity|].
  destruct (coin_spawning_schedule (H := exampleHost)) as (_ & _ & _ & _ & Hplaces & _).
  apply Hplaces.
  - cbn. lia.
  - lia.
  - intros j Hj. lia.
  - by vm_compute.
Defined.

(** Where the code leaves the schedule of the specification.  The first
    interval of a room is 10 + 5/16 seconds, not between 3 and 7, and the
    room has no coin when it starts.  With draws that all point at the tile
    of the only player, the first pass makes its 20 calls and seeds no
    coin, and a pass whose interval has elapsed, in a room without a coin,
    makes its calls and spawns none. *)
Lemma coin_schedule_counterexample :
  match initializeRoom (H := exampleHost) 100 "ROOM01" (Some 42) lobby with
  | Normal (Some gameState) _ =>
      GameState.coins gameState = [] ∧
      GameState.coinsInitialized gameState = false ∧
      Qred (GameState.nextCoinSpawnTime gameState) = (165 # 16)%Q ∧
      Qleb (GameState.nextCoinSpawnTime gameState) 7 = false
  | _ => False
  end ∧
  match handleCoinSpawning (H := exampleHost) (exampleState [ann] [] []) (1 # 20)
          (constantEnv (1 # 16) 1000) with
  | Normal gameState _ =>
      GameState.coinsInitialized gameState = true ∧ GameState.coins gameState = []
  | _ => False
  end ∧
  coinsDue dueState (1 # 20) = true ∧
  uncollectedCoins dueState = [] ∧
  match handleCoinSpawning (H := exampleHost) dueState (1 # 20)
          (constantEnv (1 # 16) 1000) with
  | Normal gameState _ =>
      GameState.coins gameState = [] ∧ GameState.coinSpawnTimer gameState = 0%Q
  | _ => False
  end.
Proof. vm_compute. repeat split. Qed.

End CoinScheduleExamples.
(** ** The coin loop within the collision pass *)

Section PassRuns.
Import QbitCityGameStateManager QbitCityGameLoop.
Context `{JsHost}.
Variable io : IO.
Hypothesis io_delivers : delivers io.

(** A loop whose rounds all return, keep the draws in [0, 1) and respect a
    preorder on the room state. *)
Lemma forEach_runs {B} (R : GameState.t → GameState.t → Prop) (l : list B)
    (body : B → M Sim.t unit) :
  (∀ gs, R gs gs) → (∀ a b c, R a b → R b c → R a c) →
  (∀ b s, unitDraws (Sim.env s) →
          ∃ s', body b s = Normal tt s' ∧ unitDraws (Sim.env s') ∧
                R (Sim.state s) (Sim.state s')) →
  ∀ s, unitDraws (Sim.env s) →
       ∃ s', forEach l body s = Normal tt s' ∧ unitDraws (Sim.env s') ∧
             R (Sim.state s) (Sim.state s').
Proof.
  intros Hrefl Htrans Hbody. induction l as [|b l IH]; intros s Hs; cbn [forEach].
  - exists s. split; [done|]. split; [done|apply Hrefl].
  - destruct (Hbody b s Hs) as (s1 & Hrun & Hs1 & HR1).
    destruct (IH s1 Hs1) as (s2 & Hrun2 & Hs2 & HR2).
    exists s2. unfold bind. rewrite Hrun. split; [done|]. split; [done|]. eauto.
Qed.

Lemma spawnEnemy_runs map avoidX avoidY minDist e :
  ∃ found e', spawnEnemy map avoidX avoidY minDist e = Normal found e' ∧
              random_draws e' = random_draws e.
Proof.
  pose proof (frames_spawnEnemy random_draws random_draws_cursorBlind
                map avoidX avoidY minDist e) as Hframe.
  destruct (returns_findEnemySpawn 100 map avoidX avoidY minDist e)
    as (found & e1 & Hrun & _).
  assert (Hreturns : ∃ found' e', spawnEnemy map avoidX avoidY minDist e = Normal found' e').
  { unfold spawnEnemy. unfold bind at 1. rewrite Hrun.
    destruct found as [[ex ey]|]; by eexists _, _. }
  destruct Hreturns as (found' & e' & Hrun').
  exists found', e'. split; [done|]. rewrite Hrun' in Hframe. exact Hframe.
Qed.

Lemma bystanders_refl gs : bystanders gs gs.
Proof. by repeat split. Qed.

Lemma bystanders_trans a b c : bystanders a b → bystanders b c → bystanders a c.
Proof. unfold bystanders. intros (?&?&?&?) (?&?&?&?). repeat split; congruence. Qed.

Lemma teleports_refl i gs : teleports i gs gs.
Proof. by repeat split. Qed.

Lemma teleports_trans i a b c : teleports i a b → teleports i b c → teleports i a c.
Proof.
  unfold teleports. intros (?&?&?&Ho1&?) (?&?&?&Ho2&?).
  repeat split; try congruence. intros j Hj. rewrite Ho2, Ho1; done.
Qed.

Lemma unitDraws_same e e' : random_draws e' = random_draws e → unitDraws e → unitDraws e'.
Proof. intros Hd He n. rewrite Hd. apply He. Qed.

Lemma stays_bystanders (s : Sim.t) :
  unitDraws (Sim.env s) →
  ∃ s', ret (σ := Sim.t) tt s = Normal tt s' ∧ unitDraws (Sim.env s') ∧
        bystanders (Sim.state s) (Sim.state s').
Proof. intros Hs. exists s. split; [done|]. split; [done|apply bystanders_refl]. Qed.

Lemma stays_teleports i (s : Sim.t) :
  unitDraws (Sim.env s) →
  ∃ s', ret (σ := Sim.t) tt s = Normal tt s' ∧ unitDraws (Sim.env s') ∧
        teleports i (Sim.state s) (Sim.state s').
Proof. intros Hs. exists s. split; [done|]. split; [done|apply teleports_refl]. Qed.

(** A round of the loop over the enemies returns. *)
Lemma enemyContact_runs player j s :
  unitDraws (Sim.env s) →
  ∃ s', enemyContact io player j s = Normal tt s' ∧ unitDraws (Sim.env s') ∧
        bystanders (Sim.state s) (Sim.state s').
Proof.
  intros Hs. unfold enemyContact, bind, getState, gets.
  destruct (GameState.enemies (Sim.state s) !! j) as [enemy|];
    [|by apply stays_bystanders].
  cbv zeta. destruct (Qltb _ _); [|by apply stays_bystanders].
  destruct (negb _).
  - unfold liftEnv.
    destruct (io_delivers (GameState.roomCode (Sim.state s))
                (player_death (Player.id player)) (env_of s)) as (e' & Hrun & Hd).
    rewrite Hrun. eexists. split; [reflexivity|].
    split; [by apply (unitDraws_same (Sim.env s))|by repeat split].
  - unfold liftEnv at 1.
    destruct (spawnEnemy_runs (GameState.map (Sim.state s)) (Player.x player)
                (Player.y player) 500 (env_of s)) as (found & e' & Hrun & Hd).
    rewrite Hrun.
    destruct found as [newPos|]; (eexists; split; [reflexivity|]);
      (split; [by apply (unitDraws_same (Sim.env s))|by repeat split]).
Qed.

(** A round of the loop over the deployed sinks returns. *)
Lemma sinkContact_runs i j k s :
  unitDraws (Sim.env s) →
  ∃ s', sinkContact i j k s = Normal tt s' ∧ unitDraws (Sim.env s') ∧
        bystanders (Sim.state s) (Sim.state s').
Proof.
  intros Hs. unfold sinkContact, bind, getState, gets.
  destruct (GameState.players (Sim.state s) !! i) as [player|];
    [|by apply stays_bystanders].
  destruct (GameState.enemies (Sim.state s) !! j) as [enemy|];
    [|by apply stays_bystanders].
  destruct (GameState.deployedSinks (Sim.state s) !! k) as [sink|];
    [|by apply stays_bystanders].
  cbv zeta. destruct (Qltb _ _); [|by apply stays_bystanders].
  unfold modifyState at 1, modify. unfold liftEnv at 1.
  cbn [env_of with_env Sim_HasEnv Sim.env Sim.set_env Sim.set_state Sim.state].
  destruct (spawnEnemy_runs (GameState.map (Sim.state s)) (Player.x player)
              (Player.y player) 1000 (Sim.env s)) as (found & e' & Hrun & Hd).
  rewrite Hrun.
  destruct found as [newPos|]; (eexists; split; [reflexivity|]);
    (split; [by apply (unitDraws_same (Sim.env s))|by repeat split]).
Qed.

(** A round of the loop over the portals returns when the draws are in
    [0, 1): the portal it picks is one of the others. *)
Lemma portalContact_runs i k s :
  unitDraws (Sim.env s) →
  ∃ s', portalContact i k s = Normal tt s' ∧ unitDraws (Sim.env s') ∧
        teleports i (Sim.state s) (Sim.state s').
Proof.
  intros Hs. unfold portalContact, bind, getState, gets.
  destruct (GameState.players (Sim.state s) !! i) as [player|] eqn:Hi;
    [|by apply stays_teleports].
  destruct (GameState.portals (Sim.state s) !! k) as [portal|];
    [|by apply stays_teleports].
  cbv zeta. destruct (Qltb _ _); [|by apply stays_teleports].
  destruct (0 <? _) eqn:Hsome; [|by apply stays_teleports].
  apply Z.ltb_lt in Hsome.
  unfold liftEnv, Math_random. cbn [env_of with_env Sim_HasEnv Sim.env Sim.set_env].
  destruct (Hs (random_next (Sim.env s))) as [H0 H1].
  pose proof (floor_of_unit_draw _ _ H0 H1 Hsome) as [Hlo Hhi].
  replace (0 <=? _) with true by (symmetry; by apply Z.leb_le).
  destruct (lookup_lt_is_Some_2 (otherPortals (GameState.portals (Sim.state s)) k)
              (Z.to_nat (Math_floor (random_draws (Sim.env s) (random_next (Sim.env s)) *
                 inject_Z (Z.of_nat (length (otherPortals (GameState.portals (Sim.state s)) k)))))))
    as [dest Hdest]; [lia|].
  rewrite Hdest. eexists. split; [reflexivity|]. split; [done|].
  unfold teleports. cbn. repeat split; try done.
  - intros j' Hj. by rewrite list_lookup_insert_ne.
  - rewrite Hi. destruct (decide (i < length (GameState.players (Sim.state s)))%nat).
    + by rewrite list_lookup_insert_eq.
    + apply lookup_lt_Some in Hi. lia.
Qed.

(** The coin loop counts the coins within reach: the counters go through
    [afterCoin] once per coin that was not collected and is within reach,
    these coins end collected, and the player stays where the player
    is. *)
Lemma collectCoins_counts player coins :
  let grab := λ coin, negb (Coin.collected coin) && inReach player coin in
  let player' := (collectCoins player coins).1 in
  coinCounters player' =
    afterCoins (length (List.filter grab coins)) (coinCounters player) ∧
  (collectCoins player coins).2 =
    (λ coin, if grab coin then Coin.set_collected true coin else coin) <$> coins ∧
  Player.x player' = Player.x player ∧ Player.y player' = Player.y player.
Proof.
  intros grab. induction coins as [|coin coins IH] using rev_ind; [done|].
  destruct IH as (Hcount & Hrest & Hx & Hy).
  unfold collectCoins in *. rewrite collectAll_snoc, List.filter_app, length_app, fmap_app.
  destruct (collectAll collectCoin player coins) as [p1 done]. cbn [fst snd] in *.
  assert (Hreach : inReach p1 coin = inReach player coin)
    by (unfold inReach; by rewrite Hx, Hy).
  cbn [List.filter fmap list_fmap].
  destruct (grab coin) eqn:Hgrab; pose proof Hgrab as Hg; unfold grab in Hg.
  - apply andb_true_iff in Hg as [Hc Hd]. apply negb_true_iff in Hc.
    rewrite <- Hreach in Hd. apply Qltb_lt in Hd.
    destruct (collectCoin_contact p1 coin Hc Hd) as (Hcoin' & Hcount' & Hx' & Hy').
    destruct (collectCoin p1 coin) as [p2 coin']. cbn [fst snd] in *.
    rewrite Hrest, Hcoin', Hx', Hy'. cbn [length]. rewrite Nat.add_1_r.
    unfold afterCoins in *. rewrite Nat.iter_succ, <- Hcount.
    unfold coinCounters in *. by rewrite Hcount'.
  - rewrite collectCoin_no_contact.
    2:{ apply andb_false_iff in Hg as [Hc|Hd].
        - left. by apply negb_false_iff in Hc.
        - right. intros Ht. apply Qltb_lt in Ht. unfold inReach in Hd, Hreach.
          rewrite <- Hreach in Hd. congruence. }
    cbn [fst snd length]. rewrite Nat.add_0_r, Hrest. done.
Qed.

(** The three pickup loops for the [i]-th player. *)
Lemma collectPickups_counts i s player :
  GameState.players (Sim.state s) !! i = Some player →
  let grab := λ coin, negb (Coin.collected coin) && inReach player coin in
  ∃ s' player',
    collectPickups i s = Normal tt s' ∧ Sim.env s' = Sim.env s ∧
    GameState.players (Sim.state s') = <[i := player']> (GameState.players (Sim.state s)) ∧
    coinCounters player' =
      afterCoins (length (List.filter grab (GameState.coins (Sim.state s))))
        (coinCounters player) ∧
    GameState.coins (Sim.state s') =
      (λ coin, if grab coin then Coin.set_collected true coin else coin)
        <$> GameState.coins (Sim.state s) ∧
    GameState.map (Sim.state s') = GameState.map (Sim.state s) ∧
    GameState.boats (Sim.state s') = GameState.boats (Sim.state s).
Proof.
  intros Hi grab. unfold collectPickups, modifyState, modify. rewrite Hi.
  destruct (collectCoins_counts player (GameState.coins (Sim.state s)))
    as (Hcount & Hcoins & _).
  destruct (collectCoins player (GameState.coins (Sim.state s))) as [p1 coins'].
  cbn [fst snd] in *.
  set (keeps := λ p q : Player.t, coinCounters q = coinCounters p).
  assert (Hpick : keeps p1 (collectAll (collectImmunityPickup
                    (GameState.gameTime (Sim.state s))) p1
                    (GameState.immunityPickups (Sim.state s))).1).
  { apply (collectAll_rel keeps); [done|unfold keeps; congruence|].
    intros p a. unfold keeps, collectImmunityPickup. repeat case_match; done. }
  destruct (collectAll (collectImmunityPickup _) p1 _) as [p2 pickups'].
  assert (Hsink : keeps p2 (collectAll collectSink p2
                    (GameState.sinkCollectibles (Sim.state s))).1).
  { apply (collectAll_rel keeps); [done|unfold keeps; congruence|].
    intros p a. unfold keeps, collectSink. repeat case_match; done. }
  destruct (collectAll collectSink p2 _) as [p3 sinks'].
  cbn [fst] in *. unfold keeps in *.
  eexists _, p3. split; [reflexivity|]. cbn. subst grab.
  repeat split; try done. by rewrite Hsink, Hpick.
Qed.

(** The checks after the lava check, for the [i]-th player. *)
Lemma checkContacts_runs i player s :
  unitDraws (Sim.env s) →
  GameState.players (Sim.state s) !! i = Some player →
  let grab := λ coin, negb (Coin.collected coin) && inReach player coin in
  ∃ s' player',
    checkContacts io i player s = Normal tt s' ∧ unitDraws (Sim.env s') ∧
    GameState.map (Sim.state s') = GameState.map (Sim.state s) ∧
    GameState.boats (Sim.state s') = GameState.boats (Sim.state s) ∧
    (∀ j, j ≠ i →
          GameState.players (Sim.state s') !! j = GameState.players (Sim.state s) !! j) ∧
    GameState.players (Sim.state s') !! i = Some player' ∧
    coinCounters player' =
      afterCoins (length (List.filter grab (GameState.coins (Sim.state s))))
        (coinCounters player) ∧
    GameState.coins (Sim.state s') =
      (λ coin, if grab coin then Coin.set_collected true coin else coin)
        <$> GameState.coins (Sim.state s).
Proof.
  intros Hs Hi grab. unfold checkContacts.
  rewrite (bind_run getState _ s (Sim.state s) s eq_refl).
  destruct (forEach_runs bystanders (seq 0 (length (GameState.enemies (Sim.state s))))
              (enemyContact io player) bystanders_refl bystanders_trans
              (enemyContact_runs player) s Hs) as (s1 & Hrun1 & Hs1 & Hp1 & Hc1 & Hm1 & Hb1).
  rewrite (bind_run _ _ _ _ _ Hrun1).
  assert (Hi1 : GameState.players (Sim.state s1) !! i = Some player) by (by rewrite Hp1).
  destruct (collectPickups_counts i s1 player Hi1)
    as (s2 & p2 & Hrun2 & He2 & Hp2 & Hcount & Hcoins & Hm2 & Hb2).
  rewrite (bind_run _ _ _ _ _ Hrun2).
  rewrite (bind_run getState _ s2 (Sim.state s2) s2 eq_refl).
  assert (Hs2 : unitDraws (Sim.env s2)) by (by rewrite He2).
  assert (Hportals : ∃ s3,
            (if Qleb (Player.portalCooldown
                        (default player (GameState.players (Sim.state s2) !! i))) 0
             then forEach (seq 0 (length (GameState.portals (Sim.state s2))))
                          (portalContact i)
             else ret tt) s2 = Normal tt s3 ∧
            unitDraws (Sim.env s3) ∧ teleports i (Sim.state s2) (Sim.state s3)).
  { destruct (Qleb _ 0); [|by apply stays_teleports].
    apply (forEach_runs (teleports i)); [apply teleports_refl|apply teleports_trans| |done].
    intros k s' Hs'. by apply portalContact_runs. }
  destruct Hportals as (s3 & Hrun3 & Hs3 & Hc3 & Hm3 & Hb3 & Ho3 & Hp3).
  rewrite (bind_run _ _ _ _ _ Hrun3).
  rewrite (bind_run getState _ s3 (Sim.state s3) s3 eq_refl).
  destruct (forEach_runs bystanders (seq 0 (length (GameState.enemies (Sim.state s3))))
              (λ j, bind getState (λ gameState,
                 forEach (reverse (seq 0 (length (GameState.deployedSinks gameState))))
                         (sinkContact i j)))
              bystanders_refl bystanders_trans) with (s := s3)
    as (s4 & Hrun4 & Hs4 & Hp4 & Hc4 & Hm4 & Hb4); [|done|].
  { intros j s' Hs'. rewrite (bind_run getState _ s' (Sim.state s') s' eq_refl).
    apply (forEach_runs bystanders); [apply bystanders_refl|apply bystanders_trans| |done].
    intros k s'' Hs''. by apply sinkContact_runs. }
  rewrite Hrun4.
  assert (Hlt : (i < length (GameState.players (Sim.state s1)))%nat)
    by (by eapply lookup_lt_Some).
  rewrite Hp2, list_lookup_insert_eq in Hp3 by done.
  destruct (GameState.players (Sim.state s3) !! i) as [p3|] eqn:Hi3; [|done].
  cbn [fmap option_fmap option_map] in Hp3. apply (inj Some) in Hp3.
  exists s4, p3. split; [done|]. split; [done|].
  split; [congruence|]. split; [congruence|]. split.
  { intros j Hj. rewrite Hp4, Ho3, Hp2, list_lookup_insert_ne, Hp1 by done. done. }
  split; [by rewrite Hp4|]. split.
  { rewrite Hp3, Hcount, Hc1. done. }
  rewrite Hc4, Hc3, Hcoins, Hc1. done.
Qed.

Lemma pastLava_ext gs gs' player :
  GameState.map gs' = GameState.map gs → GameState.boats gs' = GameState.boats gs →
  pastLava gs' player = pastLava gs player.
Proof. intros Hm Hb. unfold pastLava, tileUnder, onBoat. by rewrite Hm, Hb. Qed.

(** The body of the loop over the players, for the [i]-th player. *)
Lemma checkPlayerCollisions_runs i player s :
  unitDraws (Sim.env s) →
  GameState.players (Sim.state s) !! i = Some player →
  let grab := λ coin, pastLava (Sim.state s) player &&
                      (negb (Coin.collected coin) && inReach player coin) in
  ∃ s' player',
    checkPlayerCollisions io i s = Normal tt s' ∧ unitDraws (Sim.env s') ∧
    GameState.map (Sim.state s') = GameState.map (Sim.state s) ∧
    GameState.boats (Sim.state s') = GameState.boats (Sim.state s) ∧
    (∀ j, j ≠ i →
          GameState.players (Sim.state s') !! j = GameState.players (Sim.state s) !! j) ∧
    GameState.players (Sim.state s') !! i = Some player' ∧
    coinCounters player' =
      afterCoins (length (List.filter grab (GameState.coins (Sim.state s))))
        (coinCounters player) ∧
    GameState.coins (Sim.state s') =
      (λ coin, if grab coin then Coin.set_collected true coin else coin)
        <$> GameState.coins (Sim.state s).
Proof.
  intros Hs Hi grab.
  assert (Hskip : pastLava (Sim.state s) player = false →
            List.filter grab (GameState.coins (Sim.state s)) = [] ∧
            (λ coin, if grab coin then Coin.set_collected true coin else coin)
              <$> GameState.coins (Sim.state s) = GameState.coins (Sim.state s)).
  { intros Hno. subst grab. rewrite Hno. cbn [andb]. split.
    - induction (GameState.coins (Sim.state s)); [done|]. done.
    - apply list_fmap_id. }
  assert (Hgo : pastLava (Sim.state s) player = true →
            ∃ s' player',
              checkContacts io i player s = Normal tt s' ∧ unitDraws (Sim.env s') ∧
              GameState.map (Sim.state s') = GameState.map (Sim.state s) ∧
              GameState.boats (Sim.state s') = GameState.boats (Sim.state s) ∧
              (∀ j, j ≠ i → GameState.players (Sim.state s') !! j =
                             GameState.players (Sim.state s) !! j) ∧
              GameState.players (Sim.state s') !! i = Some player' ∧
              coinCounters player' =
                afterCoins (length (List.filter grab (GameState.coins (Sim.state s))))
                  (coinCounters player) ∧
              GameState.coins (Sim.state s') =
                (λ coin, if grab coin then Coin.set_collected true coin else coin)
                  <$> GameState.coins (Sim.state s)).
  { intros Hyes. subst grab. rewrite Hyes. cbn [andb]. by apply checkContacts_runs. }
  unfold checkPlayerCollisions.
  rewrite (bind_run getState _ s (Sim.state s) s eq_refl), Hi.
  unfold pastLava in Hskip, Hgo.
  case_bool_decide as Hlava; cbn [negb orb] in Hskip, Hgo; [|by apply Hgo].
  destruct (onBoat (Sim.state s) player); cbn [negb] in *; [by apply Hgo|].
  destruct (Hskip eq_refl) as [Hnone Hsame].
  unfold liftEnv.
  destruct (io_delivers (GameState.roomCode (Sim.state s))
              (player_death (Player.id player)) (env_of s)) as (e' & Hrun & Hd).
  rewrite Hrun. eexists _, player. split; [reflexivity|].
  split; [by apply (unitDraws_same (Sim.env s))|].
  cbn. rewrite Hnone, Hsame. by repeat split.
Qed.

Lemma takenBy_snoc gs earlier p coin :
  takenBy gs (earlier ++ [p]) coin =
  takenBy gs earlier coin || (pastLava gs p && inReach p coin).
Proof. unfold takenBy. rewrite existsb_app. cbn. by rewrite orb_false_r. Qed.

Lemma collectedIf_step gs earlier p coin :
  (let coin' := collectedIf (takenBy gs earlier) coin in
   if pastLava gs p && (negb (Coin.collected coin') && inReach p coin')
   then Coin.set_collected true coin' else coin') =
  collectedIf (takenBy gs (earlier ++ [p])) coin.
Proof.
  unfold collectedIf. rewrite takenBy_snoc. unfold inReach.
  destruct coin as [id x y collected spawnTime]. cbn.
  destruct collected, (takenBy gs earlier _), (pastLava gs p); cbn; try done;
    by destruct (Qltb _ 25).
Qed.

Lemma grab_collectedIf taken p coin :
  negb (Coin.collected (collectedIf taken coin)) && inReach p (collectedIf taken coin) =
  negb (Coin.collected coin) && inReach p coin && negb (taken coin).
Proof.
  unfold collectedIf. destruct (Coin.collected coin) eqn:Ec; cbn [negb andb].
  - by rewrite Ec.
  - destruct (taken coin); cbn [negb andb Coin.collected Coin.set_collected].
    + by rewrite andb_false_r.
    + by rewrite Ec, andb_true_r.
Qed.

(** The coins a player finds uncollected and within reach once the earlier
    players have taken theirs are as many as the coins of [coinsFor]. *)
Lemma grabbed_after_taken gs i p :
  length (List.filter
            (λ coin, pastLava gs p && (negb (Coin.collected coin) && inReach p coin))
            (collectedIf (takenBy gs (take i (GameState.players gs)))
               <$> GameState.coins gs)) =
  length (coinsFor gs i p).
Proof.
  unfold coinsFor. generalize (takenBy gs (take i (GameState.players gs))). intros taken.
  destruct (pastLava gs p); cbn [andb].
  - induction (GameState.coins gs) as [|c cs IH]; [done|].
    rewrite fmap_cons. cbn [List.filter]. rewrite grab_collectedIf.
    destruct (_ && negb (taken c)); cbn [length]; by rewrite IH.
  - by induction (collectedIf taken <$> GameState.coins gs).
Qed.

(** The pass from the [k]-th player on. *)
Lemma checkCollisions_from gs0 m : ∀ k s,
  (k + m ≤ length (GameState.players gs0))%nat →
  unitDraws (Sim.env s) → handled gs0 k (Sim.state s) →
  ∃ s', forEach (seq k m) (checkPlayerCollisions io) s = Normal tt s' ∧
        unitDraws (Sim.env s') ∧ handled gs0 (k + m) (Sim.state s').
Proof.
  induction m as [|m IH]; intros k s Hlen Hs Hk; cbn [seq forEach].
  - exists s. rewrite Nat.add_0_r. split; [done|]. split; done.
  - destruct Hk as (Hmap & Hboats & Hlater & Hearlier & Hcoins).
    destruct (lookup_lt_is_Some_2 (GameState.players gs0) k) as [p Hp]; [lia|].
    assert (Hpk : GameState.players (Sim.state s) !! k = Some p)
      by (by rewrite Hlater).
    destruct (checkPlayerCollisions_runs k p s Hs Hpk)
      as (s1 & p' & Hrun & Hs1 & Hm1 & Hb1 & Ho1 & Hp1 & Hcount & Hc1).
    rewrite (bind_run _ _ _ _ _ Hrun).
    rewrite (pastLava_ext gs0 (Sim.state s) p Hmap Hboats) in Hcount, Hc1.
    replace (k + S m)%nat with (S k + m)%nat by lia.
    apply IH; [lia|done|].
    split; [congruence|]. split; [congruence|]. split.
    { intros j Hj. rewrite Ho1 by lia. apply Hlater. lia. }
    split.
    { intros j q Hj Hq. destruct (decide (j = k)) as [->|Hne].
      - rewrite Hp in Hq. injection Hq as <-. exists p'. split; [done|].
        rewrite Hcount, Hcoins. f_equal. apply grabbed_after_taken.
      - rewrite Ho1 by done. apply Hearlier; [lia|done]. }
    rewrite Hc1, Hcoins, <- list_fmap_compose. apply list_fmap_ext. intros n c _. cbn.
    rewrite (take_S_r _ _ _ Hp). apply collectedIf_step.
Qed.

End PassRuns.

Section CoinsInThePass.
Import QbitCityGameStateManager QbitCityGameLoop.
Context `{JsHost}.

(** C3.  The collision pass, run with an [io] that delivers and draws in
    [0, 1), returns, and for every player of the room it has counted the
    coins it collected for that player: the coins that were not collected,
    are within 25 of the player and were within 25 of no earlier player,
    when the player got past the lava check.  Each of these coins ends
    collected and takes the counters of the player through one step: the
    coin counter goes up by one; when it reaches 5, an inventory below 3
    gains a charge and the counter goes back to 0, and an inventory at 3
    stays and the counter is set to 4.  Five coins take a player from
    counter 0 and inventory 0 to counter 0 and inventory 1. *)
Theorem checkCollisions_converts_coins_to_immunity
    (io : IO) (s : Sim.t) (i : nat) (player : Player.t) :
  delivers io → unitDraws (Sim.env s) →
  GameState.players (Sim.state s) !! i = Some player →
  ∃ s' player',
    checkCollisions io s = Normal tt s' ∧
    GameState.players (Sim.state s') !! i = Some player' ∧
    let collected := coinsFor (Sim.state s) i player in
    let counter := Player.coinsCollected player in
    let inventory := Player.immunityInventory player in
    (Player.coinsCollected player', Player.immunityInventory player')
      = afterCoins (length collected) (counter, inventory) ∧
    Forall (λ coin, Coin.set_collected true coin ∈ GameState.coins (Sim.state s'))
           collected ∧
    (length collected = 1%nat →
       (counter + 1 < 5 →
          Player.coinsCollected player' = counter + 1 ∧
          Player.immunityInventory player' = inventory) ∧
       (5 ≤ counter + 1 → inventory < 3 →
          Player.coinsCollected player' = 0 ∧
          Player.immunityInventory player' = inventory + 1) ∧
       (5 ≤ counter + 1 → 3 ≤ inventory →
          Player.coinsCollected player' = 4 ∧
          Player.immunityInventory player' = inventory)) ∧
    (length collected = 5%nat → counter = 0 → inventory = 0 →
       Player.coinsCollected player' = 0 ∧ Player.immunityInventory player' = 1).
Proof.
  intros Hio Hs Hi. unfold checkCollisions.
  rewrite (bind_run getState _ s (Sim.state s) s eq_refl).
  assert (Hstart : handled (Sim.state s) 0 (Sim.state s)).
  { split; [done|]. split; [done|]. split; [done|]. split; [intros j p Hj; lia|].
    rewrite take_0. symmetry. rewrite <- (list_fmap_id (GameState.coins (Sim.state s))) at 2.
    apply list_fmap_ext. intros n coin _. unfold collectedIf, takenBy. cbn.
    by rewrite andb_false_r. }
  destruct (checkCollisions_from io Hio (Sim.state s)
              (length (GameState.players (Sim.state s))) 0 s ltac:(lia) Hs Hstart)
    as (s' & Hrun & _ & _ & _ & _ & Hcounted & Hcoins).
  cbn [Nat.add] in Hcounted, Hcoins. rewrite firstn_all in Hcoins.
  destruct (Hcounted i player) as (player' & Hi' & Hcount);
    [by eapply lookup_lt_Some|done|].
  exists s', player'. split; [done|]. split; [done|]. cbv zeta.
  unfold coinCounters in Hcount. split; [done|]. split.
  { apply Forall_forall. intros coin Hin. unfold coinsFor in Hin.
    destruct (pastLava (Sim.state s) player) eqn:Hpast; [|by apply elem_of_nil in Hin].
    apply list_elem_of_In, filter_In in Hin as [Hin Hgrab].
    apply andb_true_iff in Hgrab as [Hgrab _].
    apply andb_true_iff in Hgrab as [Hc Hreach]. apply negb_true_iff in Hc.
    rewrite Hcoins. apply list_elem_of_fmap. exists coin.
    split; [|by apply list_elem_of_In].
    unfold collectedIf. rewrite Hc. cbn [negb andb].
    replace (takenBy (Sim.state s) (GameState.players (Sim.state s)) coin) with true; [done|].
    symmetry. apply existsb_exists. exists player. split.
    - apply list_elem_of_In. by eapply list_elem_of_lookup_2.
    - by rewrite Hpast, Hreach. }
  split.
  - intros Hone. rewrite Hone in Hcount. cbn in Hcount. unfold afterCoin in Hcount.
    destruct (Player.coinsCollected player + 1 <? 5) eqn:E5;
      [apply Z.ltb_lt in E5 | apply Z.ltb_ge in E5];
      (destruct (Player.immunityInventory player <? 3) eqn:E3;
       [apply Z.ltb_lt in E3 | apply Z.ltb_ge in E3]);
      injection Hcount as -> ->; repeat split; intros; lia || done.
  - intros Hfive Hc0 Hi0. rewrite Hfive, Hc0, Hi0 in Hcount.
    by injection Hcount as -> ->.
Qed.

End CoinsInThePass.

Section CoinsInThePassExamples.
Import QbitCityGameStateManager QbitCityGameLoop.

Lemma deliver_delivers : delivers deliver.
Proof. intros room event e. by eexists. Qed.

Lemma checkCollisions_converts_coins_to_immunity_witness :
  length (coinsFor (H := exampleHost) (Sim.state coinRush) 0 ann) = 5%nat ∧
  ∃ s' player',
    checkCollisions (H := exampleHost) deliver coinRush = Normal tt s' ∧
    GameState.players (Sim.state s') !! 0%nat = Some player' ∧
    let collected := coinsFor (H := exampleHost) (Sim.state coinRush) 0 ann in
    let counter := Player.coinsCollected ann in
    let inventory := Player.immunityInventory ann in
    (Player.coinsCollected player', Player.immunityInventory player')
      = afterCoins (length collected) (counter, inventory) ∧
    Forall (λ coin, Coin.set_collected true coin ∈ GameState.coins (Sim.state s'))
           collected ∧
    (length collected = 1%nat →
       (counter + 1 < 5 →
          Player.coinsCollected player' = counter + 1 ∧
          Player.immunityInventory player' = inventory) ∧
       (5 ≤ counter + 1 → inventory < 3 →
          Player.coinsCollected player' = 0 ∧
          Player.immunityInventory player' = inventory + 1) ∧
       (5 ≤ counter + 1 → 3 ≤ inventory →
          Player.coinsCollected player' = 4 ∧
          Player.immunityInventory player' = inventory)) ∧
    (length collected = 5%nat → counter = 0 → inventory = 0 →
       Player.coinsCollected player' = 0 ∧ Player.immunityInventory player' = 1).
Proof.
  split; [by vm_compute|].
  apply (checkCollisions_converts_coins_to_immunity (H := exampleHost) deliver coinRush 0 ann).
  - apply deliver_delivers.
  - apply constantEnv_unitDraws.
  - reflexivity.
Defined.

(** The pass on [coinRush]: Ann, handled first, collects the five coins
    and gains a charge; Bob, who stands on them, finds them collected; the
    coin far away stays. *)
Example coin_rush :
  match checkCollisions (H := exampleHost) deliver coinRush with
  | Normal _ s' =>
      coinCounters <$> GameState.players (Sim.state s') = [(0, 1); (0, 0)] ∧
      Coin.collected <$> GameState.coins (Sim.state s')
        = [true; true; true; true; true; false]
  | _ => False
  end.
Proof. by vm_compute. Qed.

(** A player whose inventory is full keeps the counter at 4. *)
Example full_inventory_holds_counter :
  let hoarder := Player.set_immunityInventory 3 (Player.set_coinsCollected 4 ann) in
  let s := Sim.set_state
             (GameState.set_players [hoarder] (Sim.state coinRush)) coinRush in
  match checkCollisions (H := exampleHost) deliver s with
  | Normal _ s' => coinCounters <$> GameState.players (Sim.state s') = [(4, 3)]
  | _ => False
  end.
Proof. by vm_compute. Qed.

End CoinsInThePassExamples.
(** ** Map generation and its seed *)

Section MapDeterminism.
Import QbitCityGameStateManager QbitCityGameLoop.
Context `{JsHost}.

(** The map of a room is the map of its seed, whatever the world the room
    is initialised in. *)
Lemma initializeRoom_map fuel roomCode seed w gameState w' :
  initializeRoom fuel roomCode (Some seed) w = Normal (Some gameState) w' →
  GameState.map gameState = generateMap seed ∧ GameState.mapSeed gameState = seed.
Proof.
  intros Hrun. unfold initializeRoom in Hrun.
  apply bind_Normal in Hrun as (seed' & w1 & Hseed & Hrun). injection Hseed as <- <-.
  apply bind_Normal in Hrun as (room & w2 & _ & Hrun).
  destruct room as [room|]; [|done].
  apply bind_Normal in Hrun as (players & w3 & _ & Hrun).
  apply bind_Normal in Hrun as (enemies & w4 & _ & Hrun).
  apply bind_Normal in Hrun as (portals & w5 & _ & Hrun).
  apply bind_Normal in Hrun as (r1 & w6 & _ & Hrun).
  apply bind_Normal in Hrun as (r2 & w7 & _ & Hrun).
  apply bind_Normal in Hrun as (r3 & w8 & _ & Hrun).
  apply bind_Normal in Hrun as ([] & w9 & _ & Hrun).
  by injection Hrun as <- _.
Qed.

(** C5.  Map generation is deterministic in its seed.  The generator reads
    its seed through the seeded linear-congruential sequence and reads
    nothing else: two generations whose sequences start from the same state
    (two generations with the same seed are the first case of it, two seeds
    a period apart another) give the same tile grid, the same building list
    and the same tree list; and two rooms initialised with the same seed
    get the same map, whatever [Math.random] draws for them, whatever the
    clock shows and whoever their players are. *)
Theorem generateMap_deterministic (s1 s2 : Z) :
  Rng.next s1 = Rng.next s2 →
  GameMap.tiles (generateMap s1) = GameMap.tiles (generateMap s2) ∧
  GameMap.buildings (generateMap s1) = GameMap.buildings (generateMap s2) ∧
  GameMap.trees (generateMap s1) = GameMap.trees (generateMap s2) ∧
  ∀ fuel roomCode1 roomCode2 w1 w2 gameState1 gameState2 w1' w2',
    initializeRoom fuel roomCode1 (Some s1) w1 = Normal (Some gameState1) w1' →
    initializeRoom fuel roomCode2 (Some s2) w2 = Normal (Some gameState2) w2' →
    GameState.map gameState1 = GameState.map gameState2.
Proof.
  intros Hs.
  assert (Heq : generateMap s1 = generateMap s2)
    by (by apply generateMap_respects_lcg).
  rewrite Heq. repeat split.
  intros fuel roomCode1 roomCode2 w1 w2 gameState1 gameState2 w1' w2' Hrun1 Hrun2.
  apply initializeRoom_map in Hrun1 as [-> _]. apply initializeRoom_map in Hrun2 as [-> _].
  done.
Qed.

End MapDeterminism.

Section MapDeterminismExamples.
Import QbitCityGameStateManager QbitCityGameLoop.

Lemma generateMap_deterministic_witness :
  GameMap.tiles (generateMap 2024) = GameMap.tiles (generateMap (2024 + 233280)) ∧
  GameMap.buildings (generateMap 2024) = GameMap.buildings (generateMap (2024 + 233280)) ∧
  GameMap.trees (generateMap 2024) = GameMap.trees (generateMap (2024 + 233280)) ∧
  ∀ fuel roomCode1 roomCode2 w1 w2 gameState1 gameState2 w1' w2',
    initializeRoom (H := exampleHost) fuel roomCode1 (Some 2024) w1
      = Normal (Some gameState1) w1' →
    initializeRoom (H := exampleHost) fuel roomCode2 (Some (2024 + 233280)) w2
      = Normal (Some gameState2) w2' →
    GameState.map gameState1 = GameState.map gameState2.
Proof.
  apply (generateMap_deterministic (H := exampleHost) 2024 (2024 + 233280)). reflexivity.
Defined.

(** With a seed like [Date.now ()] the product [value * 9301] is past 2^53
    and is rounded: the first draw of the generator is 34896 / 233280,
    where exact arithmetic would give 34897 / 233280. *)
Example seededRandom_rounds :
  Rng.next 1762070400000 = 34896 ∧
  Z.rem (1762070400000 * 9301 + 49297) 233280 = 34897.
Proof. by vm_compute. Qed.

End MapDeterminismExamples.
